(** * pyx core: a shallow embedding of the safety analyzer, the text
    transformation passes and the Python parser, with the properties the
    specification states about them.

    Strings are JavaScript strings: finite sequences of UTF-16 code units.
    Regular expressions are embedded as programs of a small backtracking
    matcher that follows the ECMAScript matching order for the constructs the
    sources use. *)

From Stdlib Require Import String Ascii NArith ZArith Bool Lia Arith PeanoNat
  List Permutation.
Import ListNotations.

Set Warnings "-register-all".

(* ================================================================== *)
(** ** JavaScript strings *)
(* ================================================================== *)

Module JS.

(** A code unit; a JavaScript string is a list of them. *)
Definition cu := N.
Definition jsstring := list cu.

(** String literals of the sources, written as Rocq strings. *)
Definition js (s : string) : jsstring :=
  List.map N_of_ascii (list_ascii_of_string s).

Definition cu_eqb (a b : cu) : bool := N.eqb a b.

Fixpoint str_eqb (a b : jsstring) : bool :=
  match a, b with
  | [], [] => true
  | x :: a', y :: b' => cu_eqb x y && str_eqb a' b'
  | _, _ => false
  end.

(** [WhiteSpace] and [LineTerminator] of ECMAScript: the characters matched by
    [\s] and removed by [String.prototype.trim]. *)
Definition isWhiteSpace (c : cu) : bool :=
  (((9 <=? c) && (c <=? 13)) || (c =? 32) || (c =? 160) || (c =? 5760)
   || ((8192 <=? c) && (c <=? 8202)) || (c =? 8232) || (c =? 8233)
   || (c =? 8239) || (c =? 8287) || (c =? 12288) || (c =? 65279))%N.

(** Characters that [.] does not match. *)
Definition isLineTerminator (c : cu) : bool :=
  ((c =? 10) || (c =? 13) || (c =? 8232) || (c =? 8233))%N.

(** [\w]. *)
Definition isWordChar (c : cu) : bool :=
  (((97 <=? c) && (c <=? 122)) || ((65 <=? c) && (c <=? 90))
   || ((48 <=? c) && (c <=? 57)) || (c =? 95))%N.

(** [s.startsWith(p)] *)
Fixpoint startsWith (p s : jsstring) : bool :=
  match p, s with
  | [], _ => true
  | x :: p', y :: s' => cu_eqb x y && startsWith p' s'
  | _ :: _, [] => false
  end.

(** [s.includes(p)] *)
Fixpoint includes (p s : jsstring) : bool :=
  startsWith p s ||
  match s with
  | [] => false
  | _ :: s' => includes p s'
  end.

(** [s.trimStart()], [s.trimEnd()] and [s.trim()]. *)
Fixpoint trimStart (s : jsstring) : jsstring :=
  match s with
  | c :: s' => if isWhiteSpace c then trimStart s' else s
  | [] => []
  end.

Definition trimEnd (s : jsstring) : jsstring := rev (trimStart (rev s)).
Definition trim (s : jsstring) : jsstring := trimEnd (trimStart s).

(** [s.split(sep)] for a separator of one code unit.  The result is never
    empty: splitting the empty string gives one empty piece. *)
Fixpoint split (sep : cu) (s : jsstring) : list jsstring :=
  match s with
  | [] => [[]]
  | c :: s' =>
      if cu_eqb c sep then [] :: split sep s'
      else match split sep s' with
           | l :: ls => (c :: l) :: ls
           | [] => [[c]]
           end
  end.

(** [a.join(sep)] *)
Fixpoint join (sep : jsstring) (a : list jsstring) : jsstring :=
  match a with
  | [] => []
  | [l] => l
  | l :: ls => l ++ sep ++ join sep ls
  end.

Definition LF : cu := 10%N.

End JS.

Import JS.

(* ================================================================== *)
(** ** Regular expressions *)
(* ================================================================== *)

Module Regex.

(** The nodes of a pattern.  Every quantifier of the sources applies to a
    single character class, so a repetition carries the class itself. *)
Inductive node : Type :=
| Cls (p : cu -> bool)                          (* one character of a class *)
| Rep (greedy : bool) (min : nat) (p : cu -> bool)  (* p*, p+, p+? *)
| Bol                                           (* ^ *)
| Eol                                           (* $ *)
| WordB                                         (* \b *)
| NotBehind (p : cu -> bool)                    (* (?<![...]) *)
| NotAhead (p : cu -> bool)                     (* (?![...]) *)
| Save (slot : nat).                            (* a group parenthesis *)

Definition regex := list node.

Definition chr (c : cu) : node := Cls (cu_eqb c).
Definition lit (s : string) : regex := List.map chr (js s).
Definition oneOf (s : string) (c : cu) : bool := existsb (cu_eqb c) (js s).
Definition noneOf (s : string) (c : cu) : bool := negb (oneOf s c).
Definition range (lo hi : string) (c : cu) : bool :=
  match js lo, js hi with
  | [l], [h] => (l <=? c)%N && (c <=? h)%N
  | _, _ => false
  end.
Definition anyChar (c : cu) : bool := negb (isLineTerminator c).
Definition notSpace (c : cu) : bool := negb (isWhiteSpace c).

(** Group [k] is delimited by the slots [2k] and [2k+1]. *)
Definition group (k : nat) (r : regex) : regex :=
  Save (2 * k) :: r ++ [Save (2 * k + 1)].

Definition captures := list (nat * nat).

(** Length of the longest prefix of [l] inside the class. *)
Fixpoint span (p : cu -> bool) (l : jsstring) : nat :=
  match l with
  | c :: l' => if p c then S (span p l') else 0
  | [] => 0
  end.

Fixpoint first_some {A B : Type} (f : A -> option B) (l : list A) : option B :=
  match l with
  | [] => None
  | a :: l' => match f a with
               | Some b => Some b
               | None => first_some f l'
               end
  end.

(** The repetition counts in the order the matcher tries them. *)
Definition counts (greedy : bool) (mn mx : nat) : list nat :=
  let up := seq mn (mx + 1 - mn) in
  if greedy then rev up else up.

(** The character before the position reached after [k] more characters. *)
Definition prev_after (prev : option cu) (rest : jsstring) (k : nat) : option cu :=
  match k with
  | 0 => prev
  | S k' => nth_error rest k'
  end.

Definition isWordOpt (c : option cu) : bool :=
  match c with
  | Some x => isWordChar x
  | None => false
  end.

(** [run r prev rest pos caps]: match [r] at position [pos], where [prev] is
    the character before it and [rest] the input from it on.  The result is
    the end position with the group slots, for the first alternative in
    backtracking order. *)
Fixpoint run (r : regex) (prev : option cu) (rest : jsstring) (pos : nat)
         (caps : captures) : option (nat * captures) :=
  match r with
  | [] => Some (pos, caps)
  | Cls p :: r' =>
      match rest with
      | c :: rest' => if p c then run r' (Some c) rest' (S pos) caps else None
      | [] => None
      end
  | Rep g mn p :: r' =>
      first_some
        (fun k => run r' (prev_after prev rest k) (skipn k rest) (pos + k) caps)
        (counts g mn (span p rest))
  | Bol :: r' =>
      match prev with
      | None => run r' prev rest pos caps
      | Some _ => None
      end
  | Eol :: r' =>
      match rest with
      | [] => run r' prev rest pos caps
      | _ :: _ => None
      end
  | WordB :: r' =>
      if xorb (isWordOpt prev) (isWordOpt (hd_error rest))
      then run r' prev rest pos caps else None
  | NotBehind p :: r' =>
      match prev with
      | Some c => if p c then None else run r' prev rest pos caps
      | None => run r' prev rest pos caps
      end
  | NotAhead p :: r' =>
      match rest with
      | c :: _ => if p c then None else run r' prev rest pos caps
      | [] => run r' prev rest pos caps
      end
  | Save i :: r' => run r' prev rest pos ((i, pos) :: caps)
  end.

(** A match: the input, the index of its first character, the index after
    its last one, and the group slots. *)
Record rmatch : Type := mkMatch {
  m_input : jsstring;
  m_index : nat;
  m_end : nat;
  m_caps : captures
}.

Fixpoint slot (i : nat) (caps : captures) : option nat :=
  match caps with
  | [] => None
  | (j, p) :: caps' => if Nat.eqb i j then Some p else slot i caps'
  end.

Definition substring (s : jsstring) (a b : nat) : jsstring :=
  firstn (b - a) (skipn a s).

(** [m[k]], undefined when the group took no part in the match. *)
Definition mgroup (m : rmatch) (k : nat) : option jsstring :=
  match k with
  | 0 => Some (substring (m_input m) (m_index m) (m_end m))
  | _ => match slot (2 * k) (m_caps m), slot (2 * k + 1) (m_caps m) with
         | Some a, Some b => Some (substring (m_input m) a b)
         | _, _ => None
         end
  end.

(** Leftmost match at or after the current position: [RegExp.prototype.exec]
    started at [pos]. *)
Fixpoint search (r : regex) (whole : jsstring) (prev : option cu)
         (rest : jsstring) (pos : nat) : option rmatch :=
  match run r prev rest pos [] with
  | Some (e, caps) => Some (mkMatch whole pos e caps)
  | None =>
      match rest with
      | [] => None
      | c :: rest' => search r whole (Some c) rest' (S pos)
      end
  end.

(** [s.match(r)] for a pattern without the [g] flag. *)
Definition exec (r : regex) (s : jsstring) : option rmatch :=
  search r s None s 0.

(** [r.test(s)] *)
Definition test (r : regex) (s : jsstring) : bool :=
  match exec r s with
  | Some _ => true
  | None => false
  end.

(** The successive matches of a global pattern.  [skip] counts the characters
    still covered by the previous match; after an empty match the search
    resumes one character further. *)
Fixpoint matchAll_from (r : regex) (whole : jsstring) (prev : option cu)
         (rest : jsstring) (pos skip : nat) : list rmatch :=
  match skip with
  | S k =>
      match rest with
      | [] => []
      | c :: rest' => matchAll_from r whole (Some c) rest' (S pos) k
      end
  | 0 =>
      match run r prev rest pos [] with
      | Some (e, caps) =>
          mkMatch whole pos e caps ::
          match rest with
          | [] => []
          | c :: rest' => matchAll_from r whole (Some c) rest' (S pos) (e - pos - 1)
          end
      | None =>
          match rest with
          | [] => []
          | c :: rest' => matchAll_from r whole (Some c) rest' (S pos) 0
          end
      end
  end.

(** [s.matchAll(new RegExp(r, 'g'))] *)
Definition matchAll (r : regex) (s : jsstring) : list rmatch :=
  matchAll_from r s None s 0 0.

(** [s.replace(r, by)] for a global pattern and a replacement text without
    [$] patterns. *)
Fixpoint replace_from (r : regex) (by_ : jsstring) (prev : option cu)
         (rest : jsstring) (pos skip : nat) : jsstring :=
  match skip with
  | S k =>
      match rest with
      | [] => []
      | c :: rest' => replace_from r by_ (Some c) rest' (S pos) k
      end
  | 0 =>
      match run r prev rest pos [] with
      | Some (e, _) =>
          by_ ++
          match rest with
          | [] => []
          | c :: rest' =>
              (if Nat.eqb e pos then [c] else []) ++
              replace_from r by_ (Some c) rest' (S pos) (e - pos - 1)
          end
      | None =>
          match rest with
          | [] => []
          | c :: rest' => c :: replace_from r by_ (Some c) rest' (S pos) 0
          end
      end
  end.

Definition replaceAll (r : regex) (by_ : jsstring) (s : jsstring) : jsstring :=
  replace_from r by_ None s 0 0.

End Regex.

Import Regex.

(* ================================================================== *)
(** ** Safety analyzer (core/safety) *)
(* ================================================================== *)

Module Safety.

(** *** core/safety/types.ts *)

Inductive ViolationType : Type :=
| dangerous_import
| code_execution
| filesystem_access
| network_access
| dangerous_attribute
| serialization_danger
| ffi_danger
| infinite_loop
| resource_exhaustion
| command_injection.

Inductive Severity : Type := error | warning.

Record SafetyViolation : Type := mkViolation {
  v_type : ViolationType;
  v_message : jsstring;
  v_line : option nat;
  v_severity : Severity
}.

Record SafetyReport : Type := mkReport {
  safe : bool;
  violations : list SafetyViolation
}.

Definition ViolationType_eqb (a b : ViolationType) : bool :=
  match a, b with
  | dangerous_import, dangerous_import
  | code_execution, code_execution
  | filesystem_access, filesystem_access
  | network_access, network_access
  | dangerous_attribute, dangerous_attribute
  | serialization_danger, serialization_danger
  | ffi_danger, ffi_danger
  | infinite_loop, infinite_loop
  | resource_exhaustion, resource_exhaustion
  | command_injection, command_injection => true
  | _, _ => false
  end.

(** *** core/safety/rules.ts *)

Record SafetyRule : Type := mkRule {
  type : ViolationType;
  patterns : list regex;
  getMessage : rmatch -> jsstring;
  severity : Severity;
  skipIf : option (jsstring -> rmatch -> bool)
}.

(** Pattern fragments: [\b], [\s*], [\s+], and the class of the two quote
    characters. *)
Definition wb : regex := [WordB].
Definition ss : regex := [Rep true 0 isWhiteSpace].
Definition sp : regex := [Rep true 1 isWhiteSpace].
Definition quote (c : cu) : bool := ((c =? 39) || (c =? 34))%N.
Definition notQuote (c : cu) : bool := negb (quote c).

(** A template text with [match[1]] in it. *)
Definition showGroup (m : rmatch) (k : nat) : jsstring :=
  match mgroup m k with
  | Some s => s
  | None => js "undefined"
  end.

Definition dangerousImportRules : list SafetyRule :=
  [ mkRule dangerous_import
      [ wb ++ lit "import" ++ sp ++ lit "os" ++ wb;
        wb ++ lit "from" ++ sp ++ lit "os" ++ sp ++ lit "import" ++ wb ]
      (fun _ => js "Dangerous import: os module allows system access")
      error None;
    mkRule dangerous_import
      [ wb ++ lit "import" ++ sp ++ lit "subprocess" ++ wb;
        wb ++ lit "from" ++ sp ++ lit "subprocess" ++ sp ++ lit "import" ++ wb ]
      (fun _ => js "Dangerous import: subprocess module allows command execution")
      error None;
    mkRule dangerous_import
      [ wb ++ lit "import" ++ sp ++ lit "socket" ++ wb;
        wb ++ lit "from" ++ sp ++ lit "socket" ++ sp ++ lit "import" ++ wb ]
      (fun _ => js "Dangerous import: socket module allows network access")
      error None;
    mkRule dangerous_import
      [ wb ++ lit "import" ++ sp ++ lit "pty" ++ wb;
        wb ++ lit "from" ++ sp ++ lit "pty" ++ sp ++ lit "import" ++ wb ]
      (fun _ => js "Dangerous import: pty module allows pseudo-terminal access")
      error None ].

Definition codeExecutionRules : list SafetyRule :=
  [ mkRule code_execution
      [ wb ++ lit "exec" ++ ss ++ lit "(" ]
      (fun _ => js "Dangerous function: exec() can execute arbitrary code")
      error None;
    mkRule code_execution
      [ wb ++ lit "eval" ++ ss ++ lit "(" ]
      (fun _ => js "Dangerous function: eval() can execute arbitrary code")
      error None;
    mkRule code_execution
      [ wb ++ lit "compile" ++ ss ++ lit "(" ]
      (fun _ => js "Dangerous function: compile() can compile arbitrary code")
      error None;
    mkRule code_execution
      [ lit "__import__" ++ ss ++ lit "(" ]
      (fun _ => js "Dangerous function: __import__() can import arbitrary modules")
      error None ].

Definition filesystemRules : list SafetyRule :=
  [ mkRule filesystem_access
      [ lit "open" ++ ss ++ lit "(" ++ ss ++ [Cls quote]
        ++ group 1 (lit "/etc/" ++ [Rep true 0 notQuote]) ++ [Cls quote] ]
      (fun m => js "Filesystem access: Attempting to access /etc/ ("
                ++ showGroup m 1 ++ js ")")
      error None;
    mkRule filesystem_access
      [ lit "open" ++ ss ++ lit "(" ++ ss ++ [Cls quote]
        ++ group 1 (lit "/proc/" ++ [Rep true 0 notQuote]) ++ [Cls quote] ]
      (fun m => js "Filesystem access: Attempting to access /proc/ ("
                ++ showGroup m 1 ++ js ")")
      error None;
    mkRule filesystem_access
      [ lit "open" ++ ss ++ lit "(" ++ ss ++ [Cls quote]
        ++ group 1 (lit "/" ++ [Rep false 1 anyChar]) ++ [Cls quote]
        ++ ss ++ lit "," ++ ss ++ [Cls quote; Cls (oneOf "wa")] ]
      (fun m => js "Filesystem access: Writing to absolute path " ++ showGroup m 1)
      error None ].

Definition networkRules : list SafetyRule :=
  [ mkRule network_access
      [ wb ++ lit "import" ++ sp ++ lit "urllib" ++ wb;
        wb ++ lit "from" ++ sp ++ lit "urllib" ++ wb ]
      (fun _ => js "Network access: urllib allows HTTP requests")
      error None;
    mkRule network_access
      [ wb ++ lit "import" ++ sp ++ lit "http.client" ++ wb;
        wb ++ lit "from" ++ sp ++ lit "http.client" ++ sp ++ lit "import" ++ wb ]
      (fun _ => js "Network access: http.client allows HTTP connections")
      error None;
    mkRule network_access
      [ wb ++ lit "import" ++ sp ++ lit "requests" ++ wb;
        wb ++ lit "from" ++ sp ++ lit "requests" ++ sp ++ lit "import" ++ wb ]
      (fun _ => js "Network access: requests library allows HTTP requests")
      error None;
    mkRule network_access
      [ wb ++ lit "import" ++ sp ++ lit "ftplib" ++ wb;
        wb ++ lit "from" ++ sp ++ lit "ftplib" ++ sp ++ lit "import" ++ wb ]
      (fun _ => js "Network access: ftplib allows FTP connections")
      error None ].

Definition dangerousAttributeRules : list SafetyRule :=
  [ mkRule dangerous_attribute [ lit "__builtins__" ]
      (fun _ => js "Dangerous attribute: __builtins__ access can bypass sandboxing")
      error None;
    mkRule dangerous_attribute [ lit "__globals__" ]
      (fun _ => js "Dangerous attribute: __globals__ access can expose sensitive data")
      error None;
    mkRule dangerous_attribute [ lit "__code__" ]
      (fun _ => js "Dangerous attribute: __code__ access can modify function behavior")
      error None;
    mkRule dangerous_attribute [ lit "__subclasses__" ]
      (fun _ => js "Dangerous attribute: __subclasses__ access enables class traversal attacks")
      error None;
    mkRule dangerous_attribute [ lit "__mro__" ]
      (fun _ => js "Dangerous attribute: __mro__ access enables method resolution order traversal")
      error None ].

Definition serializationRules : list SafetyRule :=
  [ mkRule serialization_danger
      [ wb ++ lit "import" ++ sp ++ lit "pickle" ++ wb;
        wb ++ lit "from" ++ sp ++ lit "pickle" ++ sp ++ lit "import" ++ wb ]
      (fun _ => js "Serialization danger: pickle can execute arbitrary code during deserialization")
      error None;
    mkRule serialization_danger
      [ wb ++ lit "import" ++ sp ++ lit "cPickle" ++ wb;
        wb ++ lit "from" ++ sp ++ lit "cPickle" ++ sp ++ lit "import" ++ wb ]
      (fun _ => js "Serialization danger: cPickle can execute arbitrary code during deserialization")
      error None;
    mkRule serialization_danger
      [ wb ++ lit "import" ++ sp ++ lit "marshal" ++ wb;
        wb ++ lit "from" ++ sp ++ lit "marshal" ++ sp ++ lit "import" ++ wb ]
      (fun _ => js "Serialization danger: marshal can execute arbitrary code")
      error None;
    mkRule serialization_danger
      [ wb ++ lit "import" ++ sp ++ lit "shelve" ++ wb;
        wb ++ lit "from" ++ sp ++ lit "shelve" ++ sp ++ lit "import" ++ wb ]
      (fun _ => js "Serialization danger: shelve uses pickle internally")
      error None ].

Definition ffiRules : list SafetyRule :=
  [ mkRule ffi_danger
      [ wb ++ lit "import" ++ sp ++ lit "ctypes" ++ wb;
        wb ++ lit "from" ++ sp ++ lit "ctypes" ++ sp ++ lit "import" ++ wb ]
      (fun _ => js "FFI danger: ctypes allows calling native libraries")
      error None;
    mkRule ffi_danger
      [ wb ++ lit "import" ++ sp ++ lit "cffi" ++ wb;
        wb ++ lit "from" ++ sp ++ lit "cffi" ++ sp ++ lit "import" ++ wb ]
      (fun _ => js "FFI danger: cffi allows calling native libraries")
      error None ].

(** "/\bbreak\b/", "/while\s+True\s*:/" and "/while\s+1\s*:/". *)
Definition break_re : regex := wb ++ lit "break" ++ wb.
Definition whileTrue_re : regex := lit "while" ++ sp ++ lit "True" ++ ss ++ lit ":".
Definition while1_re : regex := lit "while" ++ sp ++ lit "1" ++ ss ++ lit ":".

Definition whileTrue_msg : jsstring :=
  js "Potential infinite loop: while True without apparent break".
Definition while1_msg : jsstring :=
  js "Potential infinite loop: while 1 without apparent break".

Definition infiniteLoopRules : list SafetyRule :=
  [ mkRule infinite_loop [ whileTrue_re ]
      (fun _ => whileTrue_msg)
      warning (Some (fun code _ => test break_re code));
    mkRule infinite_loop [ while1_re ]
      (fun _ => while1_msg)
      warning (Some (fun code _ => test break_re code)) ].

Definition resourceExhaustionRules : list SafetyRule :=
  [ mkRule resource_exhaustion
      [ lit "range" ++ ss ++ lit "(" ++ ss ++ lit "10" ++ ss ++ lit "**" ++ ss
        ++ [Cls (oneOf "789")] ++ ss ++ lit ")" ]
      (fun _ => js "Resource exhaustion: range() with extremely large value (10^7+)")
      error None;
    mkRule resource_exhaustion
      [ lit "range" ++ ss ++ lit "(" ++ ss ++ lit "2" ++ ss ++ lit "**" ++ ss
        ++ [Cls (range "3" "9"); Rep true 1 (range "0" "9")] ++ ss ++ lit ")" ]
      (fun _ => js "Resource exhaustion: range() with exponential value")
      error None;
    mkRule resource_exhaustion
      [ lit "*" ++ ss ++ lit "(" ++ ss ++ lit "10" ++ ss ++ lit "**" ++ ss
        ++ [Cls (oneOf "789")] ++ ss ++ lit ")" ]
      (fun _ => js "Resource exhaustion: multiplication with extremely large value")
      error None;
    mkRule resource_exhaustion
      [ lit "[" ++ ss ++ [Rep true 0 (noneOf "]")] ++ lit "]" ++ ss ++ lit "*" ++ ss
        ++ lit "10000" ++ ss ++ lit "]" ++ ss ++ lit "*" ++ ss ++ lit "10000" ]
      (fun _ => js "Resource exhaustion: nested list multiplication creating huge array")
      error None ].

Definition commandInjectionRules : list SafetyRule :=
  [ mkRule command_injection
      [ lit "os.popen" ++ ss ++ lit "(" ]
      (fun _ => js "Command injection risk: os.popen() with potential user input")
      error None;
    mkRule command_injection
      [ lit "shell" ++ ss ++ lit "=" ++ ss ++ lit "True" ]
      (fun _ => js "Command injection risk: shell=True allows shell injection")
      error None;
    mkRule command_injection
      [ lit "os.system" ++ ss ++ lit "(" ++ ss ++ lit "f" ++ [Cls quote] ]
      (fun _ => js "Command injection risk: os.system() with f-string")
      error None ].

Definition allRules : list SafetyRule :=
  dangerousImportRules ++ codeExecutionRules ++ filesystemRules ++ networkRules
  ++ dangerousAttributeRules ++ serializationRules ++ ffiRules
  ++ infiniteLoopRules ++ resourceExhaustionRules ++ commandInjectionRules.

(** *** core/safety/analyzer.ts *)

(** [code.substring(0, index).split('\n').length] *)
Definition getLineNumber (code : jsstring) (index : nat) : nat :=
  length (split LF (firstn index code)).

Definition skipped (rule : SafetyRule) (code : jsstring) (m : rmatch) : bool :=
  match skipIf rule with
  | Some f => f code m
  | None => false
  end.

Definition applyRule (code : jsstring) (rule : SafetyRule) : list SafetyViolation :=
  flat_map
    (fun pattern =>
       flat_map
         (fun m =>
            if skipped rule code m then []
            else [ mkViolation (type rule) (getMessage rule m)
                     (Some (getLineNumber code (m_index m))) (severity rule) ])
         (matchAll pattern code))
    (patterns rule).

Definition analyze (code : jsstring) : SafetyReport :=
  let violations := flat_map (applyRule code) allRules in
  mkReport (Nat.eqb (length violations) 0) violations.

End Safety.

(* ================================================================== *)
(** ** Text transformation passes (core/transform) *)
(* ================================================================== *)

Module Transform.

(** The pattern of [line.match] for the indentation: the start of the line,
    then group 1 holding the longest run of white space. *)
Definition indent_re : regex := Bol :: group 1 [Rep true 0 isWhiteSpace].

Definition leadingSpace (line : jsstring) : option jsstring :=
  match exec indent_re line with
  | Some m => mgroup m 1
  | None => None
  end.

Definition isEmpty (s : jsstring) : bool :=
  match s with
  | [] => true
  | _ :: _ => false
  end.

(** *** async.ts *)

Definition wrapAsync (code : jsstring) : jsstring :=
  let lines := split LF code in
  let indentedLines :=
    List.map (fun line => if isEmpty line then line else js "    " ++ line) lines in
  let joined := join [LF] indentedLines in
  let indentedCode := if isEmpty joined then js "    pass" else joined in
  js "async def __pyx_main__():" ++ [LF] ++ indentedCode ++ [LF].

(** "/\bawait\s+/" *)
Definition await_re : regex := [WordB] ++ lit "await" ++ [Rep true 1 isWhiteSpace].

(** The length of that group, or 0. *)
Definition currentIndentOf (line : jsstring) : nat :=
  match leadingSpace line with
  | Some s => length s
  | None => 0
  end.

(** The [for] loop of [hasTopLevelAwait], with its two variables. *)
Fixpoint hasTopLevelAwait_loop (lines : list jsstring) (insideAsyncDef : bool)
         (asyncDefIndent : nat) : bool :=
  match lines with
  | [] => false
  | line :: lines' =>
      let trimmed := trim line in
      if isEmpty trimmed || startsWith (js "#") trimmed then
        hasTopLevelAwait_loop lines' insideAsyncDef asyncDefIndent
      else
        let currentIndent := currentIndentOf line in
        if startsWith (js "async def ") trimmed then
          hasTopLevelAwait_loop lines' true currentIndent
        else
          let insideAsyncDef' :=
            if insideAsyncDef && (currentIndent <=? asyncDefIndent)
               && negb (startsWith (js "async def ") trimmed)
            then false else insideAsyncDef in
          if negb insideAsyncDef' && test await_re trimmed then true
          else hasTopLevelAwait_loop lines' insideAsyncDef' asyncDefIndent
  end.

Definition hasTopLevelAwait (code : jsstring) : bool :=
  hasTopLevelAwait_loop (split LF code) false 0.

Definition wrapTopLevelAwait (code : jsstring) : jsstring :=
  if negb (hasTopLevelAwait code) then code else wrapAsync code.

(** *** imports.ts *)

Definition STDLIB_MODULES : list jsstring :=
  [
    js "abc"; js "aifc"; js "argparse"; js "array"; js "ast"; js "asynchat";
    js "asyncio"; js "asyncore"; js "atexit"; js "audioop"; js "base64";
    js "bdb"; js "binascii"; js "binhex"; js "bisect"; js "builtins";
    js "bz2"; js "calendar"; js "cgi"; js "cgitb"; js "chunk"; js "cmath";
    js "cmd"; js "code"; js "codecs"; js "codeop"; js "collections";
    js "colorsys"; js "compileall"; js "concurrent"; js "configparser";
    js "contextlib"; js "contextvars"; js "copy"; js "copyreg";
    js "cProfile"; js "crypt"; js "csv"; js "ctypes"; js "curses";
    js "dataclasses"; js "datetime"; js "dbm"; js "decimal"; js "difflib";
    js "dis"; js "distutils"; js "doctest"; js "email"; js "encodings";
    js "enum"; js "errno"; js "faulthandler"; js "fcntl"; js "filecmp";
    js "fileinput"; js "fnmatch"; js "fractions"; js "ftplib";
    js "functools"; js "gc"; js "getopt"; js "getpass"; js "gettext";
    js "glob"; js "graphlib"; js "grp"; js "gzip"; js "hashlib"; js "heapq";
    js "hmac"; js "html"; js "http"; js "idlelib"; js "imaplib"; js "imghdr";
    js "imp"; js "importlib"; js "inspect"; js "io"; js "ipaddress";
    js "itertools"; js "json"; js "keyword"; js "lib2to3"; js "linecache";
    js "locale"; js "logging"; js "lzma"; js "mailbox"; js "mailcap";
    js "marshal"; js "math"; js "mimetypes"; js "mmap"; js "modulefinder";
    js "multiprocessing"; js "netrc"; js "nis"; js "nntplib"; js "numbers";
    js "operator"; js "optparse"; js "os"; js "ossaudiodev"; js "pathlib";
    js "pdb"; js "pickle"; js "pickletools"; js "pipes"; js "pkgutil";
    js "platform"; js "plistlib"; js "poplib"; js "posix"; js "posixpath";
    js "pprint"; js "profile"; js "pstats"; js "pty"; js "pwd";
    js "py_compile"; js "pyclbr"; js "pydoc"; js "queue"; js "quopri";
    js "random"; js "re"; js "readline"; js "reprlib"; js "resource";
    js "rlcompleter"; js "runpy"; js "sched"; js "secrets"; js "select";
    js "selectors"; js "shelve"; js "shlex"; js "shutil"; js "signal";
    js "site"; js "smtpd"; js "smtplib"; js "sndhdr"; js "socket";
    js "socketserver"; js "spwd"; js "sqlite3"; js "ssl"; js "stat";
    js "statistics"; js "string"; js "stringprep"; js "struct";
    js "subprocess"; js "sunau"; js "symtable"; js "sys"; js "sysconfig";
    js "syslog"; js "tabnanny"; js "tarfile"; js "telnetlib"; js "tempfile";
    js "termios"; js "test"; js "textwrap"; js "threading"; js "time";
    js "timeit"; js "tkinter"; js "token"; js "tokenize"; js "tomllib";
    js "trace"; js "traceback"; js "tracemalloc"; js "tty"; js "turtle";
    js "turtledemo"; js "types"; js "typing"; js "unicodedata";
    js "unittest"; js "urllib"; js "uu"; js "uuid"; js "venv"; js "warnings";
    js "wave"; js "weakref"; js "webbrowser"; js "winreg"; js "winsound";
    js "wsgiref"; js "xdrlib"; js "xml"; js "xmlrpc"; js "zipapp";
    js "zipfile"; js "zipimport"; js "zlib"; js "zoneinfo" ].

Definition has (set : list jsstring) (x : jsstring) : bool :=
  existsb (str_eqb x) set.

Definition DOT : cu := 46%N.

(** [s.split('.')[0]] *)
Definition topLevelOf (s : jsstring) : jsstring :=
  match split DOT s with
  | x :: _ => x
  | [] => []
  end.

Definition isStdlibModule (moduleName : jsstring) : bool :=
  has STDLIB_MODULES (topLevelOf moduleName).

(** "/^\s*import\s+(\S+)/" and "/^\s*from\s+(\S+)\s+import/" *)
Definition import_re : regex :=
  [Bol; Rep true 0 isWhiteSpace] ++ lit "import" ++ [Rep true 1 isWhiteSpace]
  ++ group 1 [Rep true 1 notSpace].
Definition from_re : regex :=
  [Bol; Rep true 0 isWhiteSpace] ++ lit "from" ++ [Rep true 1 isWhiteSpace]
  ++ group 1 [Rep true 1 notSpace] ++ [Rep true 1 isWhiteSpace] ++ lit "import".

(** [null] is [None]. *)
Definition extractModuleName (importLine : jsstring) : option jsstring :=
  match exec import_re importLine with
  | Some importMatch =>
      match mgroup importMatch 1 with
      | Some g => Some (topLevelOf g)
      | None => None
      end
  | None =>
      match exec from_re importLine with
      | Some fromMatch =>
          match mgroup fromMatch 1 with
          | Some g => Some (topLevelOf g)
          | None => None
          end
      | None => None
      end
  end.

Definition DQ : cu := 34%N.

(** The template [await micropip.install(<dq>${moduleName}<dq>)]. *)
Definition installLine (moduleName : jsstring) : jsstring :=
  js "await micropip.install(" ++ [DQ] ++ moduleName ++ [DQ] ++ js ")".

(** The [for] loop of [rewriteImports]; [installedPackages] is the set built
    so far and the result array is returned in order. *)
Fixpoint rewriteImports_loop (lines : list jsstring)
         (installedPackages : list jsstring) : list jsstring :=
  match lines with
  | [] => []
  | line :: lines' =>
      match extractModuleName line with
      | Some moduleName =>
          if negb (isEmpty moduleName) && negb (isStdlibModule moduleName)
             && negb (has installedPackages moduleName)
          then installLine moduleName :: line
               :: rewriteImports_loop lines' (moduleName :: installedPackages)
          else line :: rewriteImports_loop lines' installedPackages
      | None => line :: rewriteImports_loop lines' installedPackages
      end
  end.

Definition rewriteImports (code : jsstring) : jsstring :=
  join [LF] (rewriteImports_loop (split LF code) []).

(** *** capture.ts *)

Definition HASH : cu := 35%N.

(** [line.split('#')[0].trim()] *)
Definition codeOnlyOf (line : jsstring) : jsstring :=
  trim (match split HASH line with
        | x :: _ => x
        | [] => []
        end).

Definition isStatementKeyword (codeOnly : jsstring) : bool :=
  startsWith (js "def ") codeOnly ||
  startsWith (js "class ") codeOnly ||
  startsWith (js "if ") codeOnly ||
  startsWith (js "elif ") codeOnly ||
  startsWith (js "else:") codeOnly ||
  startsWith (js "for ") codeOnly ||
  startsWith (js "while ") codeOnly ||
  startsWith (js "try:") codeOnly ||
  startsWith (js "except") codeOnly ||
  startsWith (js "finally:") codeOnly ||
  startsWith (js "with ") codeOnly ||
  startsWith (js "return ") codeOnly ||
  startsWith (js "raise ") codeOnly ||
  startsWith (js "import ") codeOnly ||
  startsWith (js "from ") codeOnly ||
  startsWith (js "pass") codeOnly ||
  startsWith (js "break") codeOnly ||
  startsWith (js "continue") codeOnly ||
  startsWith (js "@") codeOnly.

(** "/^[^=]*(?<![=!<>])=(?!=)/" *)
Definition assign_re : regex :=
  [Bol; Rep true 0 (noneOf "="); NotBehind (oneOf "=!<>"); Cls (oneOf "=");
   NotAhead (oneOf "=")].

Definition isAssignment (codeOnly : jsstring) : bool :=
  test assign_re codeOnly && negb (includes (js "==") codeOnly)
  && negb (includes (js "lambda") codeOnly).

(** The backward [for] loop: [n] is [i + 1]; the result is [lastExprIndex],
    with [None] for [-1]. *)
Fixpoint lastExprIndex_loop (lines : list jsstring) (n : nat) : option nat :=
  match n with
  | 0 => None
  | S i =>
      let line := trim (nth i lines []) in
      if isEmpty line || startsWith (js "#") line then lastExprIndex_loop lines i
      else
        let codeOnly := codeOnlyOf line in
        if isStatementKeyword codeOnly then None
        else if negb (isAssignment codeOnly) then Some i
        else None
  end.

(** The trailing-comment pattern: start, group 1 a lazy nonempty run of any
    characters, white space, group 2 a hash with the rest of the line, end. *)
Definition comment_re : regex :=
  [Bol] ++ group 1 [Rep false 1 anyChar] ++ [Rep true 0 isWhiteSpace]
  ++ group 2 (lit "#" ++ [Rep true 0 anyChar]) ++ [Eol].

(** A group of a match in a template text. *)
Definition groupOr (m : rmatch) (k : nat) : jsstring :=
  match mgroup m k with
  | Some s => s
  | None => js "undefined"
  end.

Definition resultPrefix : jsstring := js "__pyx_result__ = ".

(** The line written at [lastExprIndex]. *)
Definition resultLine (originalLine : jsstring) : jsstring :=
  let indent := match leadingSpace originalLine with
                | Some s => s
                | None => []
                end in
  let trimmedLine := trim originalLine in
  match exec comment_re trimmedLine with
  | Some commentMatch =>
      indent ++ resultPrefix ++ groupOr commentMatch 1 ++ js "  "
      ++ groupOr commentMatch 2
  | None => indent ++ resultPrefix ++ trimmedLine
  end.

(** [lines[i] = v] for an index inside the array. *)
Fixpoint setAt (lines : list jsstring) (i : nat) (v : jsstring) : list jsstring :=
  match lines, i with
  | [], _ => []
  | _ :: ls, 0 => v :: ls
  | l :: ls, S i' => l :: setAt ls i' v
  end.

Definition extractReturnValue (code : jsstring) : jsstring :=
  let lines := split LF code in
  match lastExprIndex_loop lines (length lines) with
  | None => code
  | Some lastExprIndex =>
      join [LF] (setAt lines lastExprIndex (resultLine (nth lastExprIndex lines [])))
  end.

(** [capturePrint]: the setup text, then the code. *)
Definition captureSetup : jsstring :=
  js "import sys" ++ [LF]
  ++ js "import io" ++ [LF]
  ++ js "__pyx_stdout__ = io.StringIO()" ++ [LF]
  ++ js "_original_stdout = sys.stdout" ++ [LF]
  ++ js "sys.stdout = __pyx_stdout__" ++ [LF].

Definition capturePrint (code : jsstring) : jsstring :=
  captureSetup ++ code.

(** *** exceptions.ts *)

Definition wrapExceptions (code : jsstring) : jsstring :=
  let lines := split LF code in
  let indentedLines :=
    List.map (fun line => if isEmpty line then line else js "    " ++ line) lines in
  let indentedCode := join [LF] indentedLines in
  js "import traceback" ++ [LF]
  ++ js "__pyx_error__ = None" ++ [LF]
  ++ js "try:" ++ [LF]
  ++ indentedCode ++ [LF]
  ++ js "except Exception as __pyx_exc__:" ++ [LF]
  ++ js "    __pyx_error__ = {" ++ [LF]
  ++ js "        'type': type(__pyx_exc__).__name__," ++ [LF]
  ++ js "        'message': str(__pyx_exc__)," ++ [LF]
  ++ js "        'traceback': traceback.format_exc()" ++ [LF]
  ++ js "    }" ++ [LF].

(** *** input.ts *)

(** "/\binput\s*\(/g" *)
Definition input_re : regex := [WordB] ++ lit "input" ++ [Rep true 0 isWhiteSpace] ++ lit "(".

Definition inputReplacement : jsstring := js "await __pyx_input__(".

Definition mockInput (code : jsstring) : jsstring :=
  replaceAll input_re inputReplacement code.

End Transform.

(* ================================================================== *)
(** ** Python AST (core/ast/types.ts) *)
(* ================================================================== *)

Module Ast.

Inductive boolop : Type := And | Or.

Inductive operator : Type :=
| Add | Sub | Mult | MatMult | Div | Mod | Pow | LShift | RShift
| BitOr | BitXor | BitAnd | FloorDiv.

Inductive unaryop : Type := Invert | Not | UAdd | USub.

Inductive cmpop : Type :=
| Eq | NotEq | Lt | LtE | Gt | GtE | Is | IsNot | In | NotIn.

(** A JavaScript number produced by the parser, kept as the builtin call
    that computes it from the literal text. *)
Inductive jsnumber : Type :=
| ParseFloat (text : jsstring)
| ParseInt (text : jsstring) (radix : nat).

(** The [value] of a [Constant]: [true], [false], [null], a string or a
    number. *)
Inductive constant : Type :=
| CBool (b : bool)
| CNull
| CStr (s : jsstring)
| CNum (n : jsnumber).

Inductive expr : Type :=
| BoolOp (op : boolop) (values : list expr)
| NamedExpr (target value : expr)
| BinOp (left : expr) (op : operator) (right : expr)
| UnaryOp (op : unaryop) (operand : expr)
| Lambda (args : arguments) (body : expr)
| IfExp (test body orelse : expr)
| Dict (keys : list (option expr)) (values : list expr)
| Set_ (elts : list expr)
| List_ (elts : list expr)
| Tuple (elts : list expr)
| ListComp (elt : expr) (generators : list comprehension)
| SetComp (elt : expr) (generators : list comprehension)
| DictComp (key value : expr) (generators : list comprehension)
| GeneratorExp (elt : expr) (generators : list comprehension)
| Await (value : expr)
| Yield (value : option expr)
| YieldFrom (value : expr)
| Compare (left : expr) (ops : list cmpop) (comparators : list expr)
| Call (func : expr) (args : list expr) (keywords : list keyword)
| FormattedValue (value : expr) (conversion : Z) (format_spec : option expr)
| JoinedStr (values : list expr)
| Constant (value : constant)
| Attribute (value : expr) (attr : jsstring)
| Subscript (value slice : expr)
| Starred (value : expr)
| Name (id : jsstring)
| Slice (lower upper step : option expr)
with arguments : Type :=
| mkArguments (posonlyargs args : list arg) (vararg : option arg)
              (kwonlyargs : list arg) (kw_defaults : list (option expr))
              (kwarg : option arg) (defaults : list expr)
with arg : Type :=
| mkArg (name : jsstring) (annotation : option expr)
with keyword : Type :=
| mkKeyword (name : option jsstring) (value : expr)
with comprehension : Type :=
| mkComprehension (target iter : expr) (ifs : list expr) (is_async : nat).

Inductive pattern : Type :=
| MatchValue (value : expr)
| MatchSingleton (value : option bool)
| MatchSequence (patterns : list pattern)
| MatchMapping (keys : list expr) (patterns : list pattern) (rest : option jsstring)
| MatchClass (cls : expr) (patterns : list pattern) (kwd_attrs : list jsstring)
             (kwd_patterns : list pattern)
| MatchStar (name : option jsstring)
| MatchAs (pat : option pattern) (name : option jsstring)
| MatchOr (patterns : list pattern).

Record alias : Type := mkAlias {
  alias_name : jsstring;
  alias_asname : option jsstring
}.

Record withitem : Type := mkWithitem {
  context_expr : expr;
  optional_vars : option expr
}.

Inductive typeparam : Type :=
| TypeVar (name : jsstring).

(** [FunctionDef] and [AsyncFunctionDef], [For] and [AsyncFor], [With] and
    [AsyncWith] share their fields and differ in the tag. *)
Inductive stmt : Type :=
| Import (names : list alias)
| ImportFrom (module : option jsstring) (names : list alias) (level : nat)
| FunctionDef (name : jsstring) (args : arguments) (body : list stmt)
              (decorator_list : list expr) (returns : option expr)
              (type_params : option (list typeparam))
| AsyncFunctionDef (name : jsstring) (args : arguments) (body : list stmt)
                   (decorator_list : list expr) (returns : option expr)
                   (type_params : option (list typeparam))
| ClassDef (name : jsstring) (bases : list expr) (keywords : list keyword)
           (body : list stmt) (decorator_list : list expr)
           (type_params : option (list typeparam))
| Assign (targets : list expr) (value : expr)
| AugAssign (target : expr) (op : operator) (value : expr)
| AnnAssign (target annotation : expr) (value : option expr) (simple : nat)
| If (test : expr) (body orelse : list stmt)
| For (target iter : expr) (body orelse : list stmt)
| AsyncFor (target iter : expr) (body orelse : list stmt)
| While (test : expr) (body orelse : list stmt)
| With (items : list withitem) (body : list stmt)
| AsyncWith (items : list withitem) (body : list stmt)
| Match (subject : expr) (cases : list match_case)
| Try (body : list stmt) (handlers : list excepthandler)
      (orelse finalbody : list stmt)
| Raise (exc cause : option expr)
| Return (value : option expr)
| Delete (targets : list expr)
| Pass
| Break
| Continue
| Global (names : list jsstring)
| Nonlocal (names : list jsstring)
| Assert (test : expr) (msg : option expr)
| Expr (value : expr)
| TypeAlias (name : expr) (type_params : list typeparam) (value : expr)
with match_case : Type :=
| mkMatchCase (pat : pattern) (guard : option expr) (body : list stmt)
with excepthandler : Type :=
| ExceptHandler (type_ : option expr) (name : option jsstring) (body : list stmt).

Record ModuleNode : Type := Module { body : list stmt }.

End Ast.

(* ================================================================== *)
(** ** Outcomes *)
(* ================================================================== *)

(** The outcome of code that may throw a [SyntaxError].  [OutOfFuel] is the
    outcome of an embedding whose recursion bound was too small; it is not
    an outcome of the program. *)
Inductive result (A : Type) : Type :=
| Ok (a : A)
| Throw (message : jsstring)
| OutOfFuel.

Arguments Ok {A} a.
Arguments Throw {A} message.
Arguments OutOfFuel {A}.

(* ================================================================== *)
(** ** Tokenizer (core/ast/parser.ts, class Tokenizer) *)
(* ================================================================== *)

Module Tokenizer.

Inductive TokenType : Type :=
| NAME | NUMBER | STRING | FSTRING_START | FSTRING_MIDDLE | FSTRING_END
| OP | NEWLINE | INDENT | DEDENT | ENDMARKER | NL | COMMENT | ERRORTOKEN.

Record Token : Type := mkToken {
  tok_type : TokenType;
  tok_value : jsstring;
  tok_start : nat * nat;
  tok_end : nat * nat
}.

(** The fields of the class.  [indentStack] is kept with its top first. *)
Record Tokenizer : Type := mkTokenizer {
  source : jsstring;
  pos : nat;
  line : nat;
  col : nat;
  indentStack : list nat;
  pendingTokens : list Token;
  atLineStart : bool
}.

Definition newTokenizer (src : jsstring) : Tokenizer :=
  mkTokenizer src 0 1 0 [0] [] true.

Definition move (t : Tokenizer) (p l c : nat) : Tokenizer :=
  mkTokenizer (source t) p l c (indentStack t) (pendingTokens t) (atLineStart t).
Definition setStack (t : Tokenizer) (s : list nat) : Tokenizer :=
  mkTokenizer (source t) (pos t) (line t) (col t) s (pendingTokens t) (atLineStart t).
Definition setPending (t : Tokenizer) (p : list Token) : Tokenizer :=
  mkTokenizer (source t) (pos t) (line t) (col t) (indentStack t) p (atLineStart t).
Definition setAtLineStart (t : Tokenizer) (b : bool) : Tokenizer :=
  mkTokenizer (source t) (pos t) (line t) (col t) (indentStack t) (pendingTokens t) b.

(** The first code unit of a literal. *)
Definition ch (s : string) : cu :=
  match js s with
  | c :: _ => c
  | [] => 0%N
  end.
Definition CR : cu := 13%N.
Definition TAB : cu := 9%N.
Definition DQUOTE : cu := 34%N.
Definition SQUOTE : cu := 39%N.

(** [this.source[this.pos + k]], undefined past the end. *)
Definition charAt (t : Tokenizer) (k : nat) : option cu :=
  nth_error (source t) (pos t + k).

(** [x === c] for a possibly undefined [x]. *)
Definition isCh (c : cu) (x : option cu) : bool :=
  match x with
  | Some y => cu_eqb y c
  | None => false
  end.
Definition isQuote (x : option cu) : bool := isCh DQUOTE x || isCh SQUOTE x.
Definition isDigit (c : cu) : bool := ((48 <=? c) && (c <=? 57))%N.
Definition isDigitOpt (x : option cu) : bool :=
  match x with
  | Some c => isDigit c
  | None => false
  end.

(** [this.source.slice(a, b)] *)
Definition slice (s : jsstring) (a b : nat) : jsstring := firstn (b - a) (skipn a s).

Definition makeToken (t : Tokenizer) (type : TokenType) (value : jsstring) : Token :=
  mkToken type value (line t, col t) (line t, col t).

Definition isNameStart (c : cu) : bool :=
  (((97 <=? c) && (c <=? 122)) || ((65 <=? c) && (c <=? 90)) || (c =? 95))%N.
Definition isNameChar (c : cu) : bool := isNameStart c || isDigit c.
Definition isAlphaNum (c : cu) : bool :=
  (isDigit c || ((97 <=? c) && (c <=? 102)) || ((65 <=? c) && (c <=? 70))
   || (c =? 95))%N.

(** The loop of [skipWhitespace], over the text from [pos] on. *)
Fixpoint skipWhitespace_loop (rest : jsstring) (p l c : nat) : nat * nat * nat :=
  match rest with
  | x :: rest' =>
      if cu_eqb x (ch " ") || cu_eqb x TAB then skipWhitespace_loop rest' (p + 1) l (c + 1)
      else if cu_eqb x (ch "\") then
        match rest' with
        | y :: rest'' =>
            if cu_eqb y LF then skipWhitespace_loop rest'' (p + 2) (l + 1) 0
            else (p, l, c)
        | [] => (p, l, c)
        end
      else (p, l, c)
  | [] => (p, l, c)
  end.

Definition skipWhitespace (t : Tokenizer) : Tokenizer :=
  let '(p, l, c) := skipWhitespace_loop (skipn (pos t) (source t)) (pos t) (line t) (col t) in
  move t p l c.

(** [while (pos < length && source[pos] !== LF) { pos++; col++ }] *)
Definition skipComment (t : Tokenizer) : Tokenizer :=
  let n := span (fun x => negb (cu_eqb x LF)) (skipn (pos t) (source t)) in
  move t (pos t + n) (line t) (col t + n).

(** The loop of [readString] after the opening quotes. *)
Fixpoint readString_loop (quote : cu) (triple : bool) (rest : jsstring)
         (p l c : nat) : result (nat * nat * nat) :=
  match rest with
  | [] => Ok (p, l, c)
  | x :: rest' =>
      if cu_eqb x (ch "\") then
        match rest' with
        | y :: rest'' =>
            if cu_eqb y LF then readString_loop quote triple rest'' (p + 2) (l + 1) 0
            else readString_loop quote triple rest'' (p + 2) l (c + 2)
        | [] => Ok (p + 2, l, c + 2)
        end
      else if cu_eqb x quote then
        if triple then
          if isCh quote (nth_error rest' 0) && isCh quote (nth_error rest' 1)
          then Ok (p + 3, l, c + 3)
          else readString_loop quote triple rest' (p + 1) l (c + 1)
        else Ok (p + 1, l, c + 1)
      else if cu_eqb x LF && negb triple then
        Throw (js "EOL while scanning string literal")
      else if cu_eqb x LF then readString_loop quote triple rest' (p + 1) (l + 1) 1
      else readString_loop quote triple rest' (p + 1) l (c + 1)
  end.

Definition readString (t : Tokenizer) : result (Token * Tokenizer) :=
  match charAt t 0 with
  | None =>
      (* past the end every character is undefined, and so is the quote *)
      Ok (mkToken STRING [] (line t, col t) (line t, col t + 3),
          move t (pos t + 3) (line t) (col t + 3))
  | Some quote =>
      let startPos := pos t in
      let startCol := col t in
      let triple := isCh quote (charAt t 1) && isCh quote (charAt t 2) in
      let opened := if triple then 3 else 1 in
      match readString_loop quote triple (skipn (pos t + opened) (source t))
              (pos t + opened) (line t) (col t + opened) with
      | Ok (p, l, c) =>
          Ok (mkToken STRING (slice (source t) startPos p) (l, startCol) (l, c),
              move t p l c)
      | Throw e => Throw e
      | OutOfFuel => OutOfFuel
      end
  end.

(** The loop of [readRawString]. *)
Fixpoint readRawString_loop (quote : option cu) (triple : bool) (rest : jsstring)
         (p l c : nat) : nat * nat * nat :=
  match rest with
  | [] => (p, l, c)
  | x :: rest' =>
      if isCh x quote && triple && isCh x (nth_error rest' 0) && isCh x (nth_error rest' 1)
      then (p + 3, l, c + 3)
      else if isCh x quote && negb triple then (p + 1, l, c + 1)
      else if cu_eqb x LF then readRawString_loop quote triple rest' (p + 1) (l + 1) 1
      else readRawString_loop quote triple rest' (p + 1) l (c + 1)
  end.

Definition readRawString (t : Tokenizer) : Token * Tokenizer :=
  let startPos := pos t in
  let quote := charAt t 1 in
  let triple := match quote with
                | Some q => isCh q (charAt t 2) && isCh q (charAt t 3)
                | None => true
                end in
  let opened := if triple then 4 else 2 in
  let '(p, l, c) :=
    readRawString_loop quote triple (skipn (pos t + opened) (source t))
      (pos t + opened) (line t) (col t + opened) in
  (mkToken STRING (slice (source t) startPos p) (l, c) (l, c), move t p l c).

Definition readByteString (t : Tokenizer) : result (Token * Tokenizer) :=
  let startPos := pos t in
  match readString (move t (pos t + 1) (line t) (col t + 1)) with
  | Ok (tok, t') =>
      Ok (mkToken (tok_type tok) (slice (source t) startPos (pos t'))
            (tok_start tok) (tok_end tok), t')
  | Throw e => Throw e
  | OutOfFuel => OutOfFuel
  end.

(** The loop of [readFStringContent]. *)
Fixpoint readFStringContent_loop (quote : option cu) (triple : bool)
         (rest : jsstring) (braceDepth p l c : nat) : nat * nat * nat :=
  match rest with
  | [] => (p, l, c)
  | x :: rest' =>
      if cu_eqb x (ch "{") then
        match rest' with
        | y :: rest'' =>
            if cu_eqb y (ch "{")
            then readFStringContent_loop quote triple rest'' braceDepth (p + 2) l (c + 2)
            else readFStringContent_loop quote triple rest' (braceDepth + 1) (p + 1) l (c + 1)
        | [] => readFStringContent_loop quote triple rest' (braceDepth + 1) (p + 1) l (c + 1)
        end
      else if cu_eqb x (ch "}") then
        match rest' with
        | y :: rest'' =>
            if cu_eqb y (ch "}")
            then readFStringContent_loop quote triple rest'' braceDepth (p + 2) l (c + 2)
            else readFStringContent_loop quote triple rest' (braceDepth - 1) (p + 1) l (c + 1)
        | [] => readFStringContent_loop quote triple rest' (braceDepth - 1) (p + 1) l (c + 1)
        end
      else if isCh x quote && Nat.eqb braceDepth 0 then
        if triple then
          if isCh x (nth_error rest' 0) && isCh x (nth_error rest' 1)
          then (p + 3, l, c + 3)
          else readFStringContent_loop quote triple rest' braceDepth (p + 1) l (c + 1)
        else (p + 1, l, c + 1)
      else if cu_eqb x LF
           then readFStringContent_loop quote triple rest' braceDepth (p + 1) (l + 1) 1
           else readFStringContent_loop quote triple rest' braceDepth (p + 1) l (c + 1)
  end.

Definition readFStringContent (t : Tokenizer) : Token * Tokenizer :=
  let startPos := pos t - 1 in
  let quote := charAt t 0 in
  let triple := match quote with
                | Some q => isCh q (charAt t 1) && isCh q (charAt t 2)
                | None => true
                end in
  let opened := if triple then 3 else 1 in
  let '(p, l, c) :=
    readFStringContent_loop quote triple (skipn (pos t + opened) (source t)) 0
      (pos t + opened) (line t) (col t + opened) in
  (mkToken STRING (slice (source t) startPos p) (l, c) (l, c), move t p l c).

Definition readFString (t : Tokenizer) : Token * Tokenizer :=
  readFStringContent (move t (pos t + 1) (line t) (col t + 1)).

(** [while (pos < length && p(source[pos])) { pos++; col++ }] *)
Definition advanceWhile (p : cu -> bool) (t : Tokenizer) : Tokenizer :=
  let n := span p (skipn (pos t) (source t)) in
  move t (pos t + n) (line t) (col t + n).

Definition forward (t : Tokenizer) (n : nat) : Tokenizer :=
  move t (pos t + n) (line t) (col t + n).

Definition readNumber (t : Tokenizer) : Token * Tokenizer :=
  let startPos := pos t in
  let startCol := col t in
  let finish (t' : Tokenizer) :=
    (mkToken NUMBER (slice (source t) startPos (pos t')) (line t', startCol)
       (line t', col t'), t') in
  if isCh (ch "0") (charAt t 0)
     && (isCh (ch "x") (charAt t 1) || isCh (ch "X") (charAt t 1)
         || isCh (ch "o") (charAt t 1) || isCh (ch "O") (charAt t 1)
         || isCh (ch "b") (charAt t 1) || isCh (ch "B") (charAt t 1))
  then finish (advanceWhile isAlphaNum (forward t 2))
  else
    let digitOrUnderscore := fun x => isDigit x || cu_eqb x (ch "_") in
    let t1 := advanceWhile digitOrUnderscore t in
    let t2 := if isCh (ch ".") (charAt t1 0) && negb (isCh (ch ".") (charAt t1 1))
              then advanceWhile digitOrUnderscore (forward t1 1)
              else t1 in
    let t3 := if isCh (ch "e") (charAt t2 0) || isCh (ch "E") (charAt t2 0)
              then
                let t2a := forward t2 1 in
                let t2b := if isCh (ch "+") (charAt t2a 0) || isCh (ch "-") (charAt t2a 0)
                           then forward t2a 1 else t2a in
                advanceWhile digitOrUnderscore t2b
              else t2 in
    let t4 := if isCh (ch "j") (charAt t3 0) || isCh (ch "J") (charAt t3 0)
              then forward t3 1 else t3 in
    finish t4.

Definition readName (t : Tokenizer) : Token * Tokenizer :=
  let t' := advanceWhile isNameChar t in
  (mkToken NAME (slice (source t) (pos t) (pos t')) (line t', col t)
     (line t', col t'), t').

Definition threeCharOps : list jsstring :=
  [js "..."; js "**="; js "//="; js ">>="; js "<<="].
Definition twoCharOps : list jsstring :=
  [js "=="; js "!="; js "<="; js ">="; js "<<"; js ">>"; js "**"; js "//";
   js "->"; js "+="; js "-="; js "*="; js "/="; js "%="; js "&="; js "|=";
   js "^="; js "@="; js ":="].

(** [list.includes(x)] *)
Definition member (x : jsstring) (l : list jsstring) : bool := existsb (str_eqb x) l.

Definition readOperator (t : Tokenizer) : Token * Tokenizer :=
  let startCol := col t in
  let op (n : nat) (v : jsstring) :=
    let t' := forward t n in
    (mkToken OP v (line t', startCol) (line t', col t'), t') in
  let three := slice (source t) (pos t) (pos t + 3) in
  if member three threeCharOps then op 3 three
  else
    let two := slice (source t) (pos t) (pos t + 2) in
    if member two twoCharOps then op 2 two
    else op 1 (slice (source t) (pos t) (pos t + 1)).

(** The loop of [handleIndentation].  A comment is skipped one character at
    a time: [inComment] is set while the inner loop of the source runs. *)
Fixpoint handleIndentation_loop (rest : jsstring) (inComment : bool)
         (indent p l c : nat) : nat * nat * nat * nat :=
  match rest with
  | [] => (indent, p, l, c)
  | x :: rest' =>
      if inComment then
        if cu_eqb x LF then handleIndentation_loop rest' false 0 (p + 1) (l + 1) 0
        else handleIndentation_loop rest' true indent (p + 1) l (c + 1)
      else if cu_eqb x (ch " ") then
        handleIndentation_loop rest' false (indent + 1) (p + 1) l (c + 1)
      else if cu_eqb x TAB then
        handleIndentation_loop rest' false (indent / 8 * 8 + 8) (p + 1) l (c + 1)
      else if cu_eqb x LF then handleIndentation_loop rest' false 0 (p + 1) (l + 1) 0
      else if cu_eqb x CR then
        match rest' with
        | y :: rest'' =>
            if cu_eqb y LF then handleIndentation_loop rest'' false 0 (p + 2) (l + 1) 0
            else handleIndentation_loop rest' false 0 (p + 1) (l + 1) 0
        | [] => handleIndentation_loop rest' false 0 (p + 1) (l + 1) 0
        end
      else if cu_eqb x (ch "#") then
        handleIndentation_loop rest' true indent (p + 1) l (c + 1)
      else (indent, p, l, c)
  end.

(** [while (stack.length > 1 && top > indent) { pop; push DEDENT }] *)
Fixpoint popDedents (stack : list nat) (indent : nat) (tok : Token)
  : list nat * list Token :=
  match stack with
  | top :: (_ :: _) as below =>
      if indent <? top then
        let '(s, toks) := popDedents below indent tok in (s, tok :: toks)
      else (stack, [])
  | _ => (stack, [])
  end.

(** At the end of the input: a DEDENT per open level, then ENDMARKER. *)
Definition atEnd (t : Tokenizer) : Token * Tokenizer :=
  match indentStack t with
  | _ :: (_ :: _) as below => (makeToken t DEDENT [], setStack t below)
  | _ => (makeToken t ENDMARKER [], t)
  end.

(** [handleIndentation]; [nextToken] stands for the call of the method of
    that name at its end. *)
Definition handleIndentation
           (nextToken : Tokenizer -> result (Token * Tokenizer))
           (t : Tokenizer) : result (Token * Tokenizer) :=
  let '(indent, p, l, c) :=
    handleIndentation_loop (skipn (pos t) (source t)) false 0 (pos t) (line t) (col t) in
  let t := setAtLineStart (move t p l c) false in
  if length (source t) <=? pos t then Ok (atEnd t)
  else
    let currentIndent := hd 0 (indentStack t) in
    if currentIndent <? indent then
      Ok (makeToken t INDENT [], setStack t (indent :: indentStack t))
    else if indent <? currentIndent then
      let '(stack, dedents) := popDedents (indentStack t) indent (makeToken t DEDENT []) in
      match pendingTokens t ++ dedents with
      | first :: pending => Ok (first, setPending (setStack t stack) pending)
      | [] => Throw (js "TypeError")
      end
    else nextToken t.

Fixpoint nextToken (fuel : nat) (t : Tokenizer) : result (Token * Tokenizer) :=
  match fuel with
  | 0 => OutOfFuel
  | S fuel' =>
      if atLineStart t then handleIndentation (nextToken fuel') t
      else
        let t := skipWhitespace t in
        if length (source t) <=? pos t then Ok (atEnd t)
        else
          let c0 := charAt t 0 in
          let c1 := charAt t 1 in
          let c2 := charAt t 2 in
          if isCh (ch "#") c0 then nextToken fuel' (skipComment t)
          else if isCh LF c0 then
            let t' := setAtLineStart (move t (pos t + 1) (line t + 1) 0) true in
            Ok (makeToken t' NEWLINE [LF], t')
          else if isCh CR c0 then
            let p := if isCh LF c1 then pos t + 2 else pos t + 1 in
            let t' := setAtLineStart (move t p (line t + 1) 0) true in
            Ok (makeToken t' NEWLINE [LF], t')
          else if isQuote c0 then readString t
          else if (isCh (ch "f") c0 || isCh (ch "F") c0) && isQuote c1 then Ok (readFString t)
          else if (isCh (ch "r") c0 || isCh (ch "R") c0) && isQuote c1 then Ok (readRawString t)
          else if (isCh (ch "b") c0 || isCh (ch "B") c0) && isQuote c1 then readByteString t
          else if (isCh (ch "r") c0 || isCh (ch "R") c0) && (isCh (ch "f") c1 || isCh (ch "F") c1)
                  && isQuote c2 then Ok (readFStringContent (forward t 2))
          else if (isCh (ch "f") c0 || isCh (ch "F") c0) && (isCh (ch "r") c1 || isCh (ch "R") c1)
                  && isQuote c2 then Ok (readFStringContent (forward t 2))
          else if isDigitOpt c0 then Ok (readNumber t)
          else if isCh (ch ".") c0 && isDigitOpt c1 then Ok (readNumber t)
          else if match c0 with Some x => isNameStart x | None => false end
               then Ok (readName t)
               else Ok (readOperator t)
  end.

(** The methods never nest deeper than three calls of [nextToken]: one for
    the start of a line, one after the indentation, one after a comment. *)
Definition nextTokenDepth : nat := 3.

Definition next (t : Tokenizer) : result (Token * Tokenizer) :=
  match pendingTokens t with
  | tok :: pending => Ok (tok, setPending t pending)
  | [] => nextToken nextTokenDepth t
  end.

Definition peek (t : Tokenizer) : result (Token * Tokenizer) :=
  match pendingTokens t with
  | tok :: _ => Ok (tok, t)
  | [] =>
      match nextToken nextTokenDepth t with
      | Ok (tok, t') => Ok (tok, setPending t' (pendingTokens t' ++ [tok]))
      | Throw e => Throw e
      | OutOfFuel => OutOfFuel
      end
  end.

End Tokenizer.

(* ================================================================== *)
(** ** Parser (core/ast/parser.ts, class Parser) *)
(* ================================================================== *)

Module Parser.

Import Ast Tokenizer.

(** The fields of the class. *)
Record Parser : Type := mkParser {
  tokenizer : Tokenizer;
  currentToken : Token
}.

(** A method: it reads and updates the parser, and returns or throws. *)
Definition M (A : Type) : Type := Parser -> result (A * Parser).

Definition ret {A} (a : A) : M A := fun p => Ok (a, p).

Definition bind {A B} (m : M A) (k : A -> M B) : M B :=
  fun p =>
    match m p with
    | Ok (a, p') => k a p'
    | Throw e => Throw e
    | OutOfFuel => OutOfFuel
    end.

Definition throw {A} (message : jsstring) : M A := fun _ => Throw message.
Definition outOfFuel {A} : M A := fun _ => OutOfFuel.

Declare Scope parser_scope.
Delimit Scope parser_scope with parser.
Notation "x <- c1 ;; c2" := (bind c1 (fun x => c2))
  (at level 61, c1 at next level, right associativity) : parser_scope.
Notation "c1 ;;; c2" := (bind c1 (fun _ => c2))
  (at level 61, right associativity) : parser_scope.
Notation "' pat <- c1 ;; c2" :=
  (bind c1 (fun x => match x with pat => c2 end))
  (at level 61, pat pattern, c1 at next level, right associativity) : parser_scope.
Notation "'IFM' c 'THEN' a 'ELSE' b" := (bind c (fun t : bool => if t then a else b))
  (at level 10, c at level 200, a at level 200, b at level 200) : parser_scope.
Local Open Scope parser_scope.

(** A loop: the body returns [inl s] to go round again with the variables
    [s], and [inr a] to leave the loop with [a]. *)
Fixpoint loop {S A} (fuel : nat) (body : S -> M (S + A)) (s : S) : M A :=
  match fuel with
  | 0 => outOfFuel
  | Datatypes.S fuel' =>
      r <- body s ;;
      match r with
      | inl s' => loop fuel' body s'
      | inr a => ret a
      end
  end.

(** [while (cond) { body }] over the variables [s]. *)
Definition while {S} (fuel : nat) (cond : M bool) (body : S -> M S) (s : S) : M S :=
  loop fuel
    (fun s => IFM cond THEN (s' <- body s ;; ret (inl s')) ELSE ret (inr s)) s.

Definition TokenType_eqb (a b : TokenType) : bool :=
  match a, b with
  | NAME, NAME | NUMBER, NUMBER | STRING, STRING
  | FSTRING_START, FSTRING_START | FSTRING_MIDDLE, FSTRING_MIDDLE
  | FSTRING_END, FSTRING_END | OP, OP | NEWLINE, NEWLINE | INDENT, INDENT
  | DEDENT, DEDENT | ENDMARKER, ENDMARKER | NL, NL | COMMENT, COMMENT
  | ERRORTOKEN, ERRORTOKEN => true
  | _, _ => false
  end.

Definition TokenType_name (a : TokenType) : jsstring :=
  match a with
  | NAME => js "NAME" | NUMBER => js "NUMBER" | STRING => js "STRING"
  | FSTRING_START => js "FSTRING_START" | FSTRING_MIDDLE => js "FSTRING_MIDDLE"
  | FSTRING_END => js "FSTRING_END" | OP => js "OP" | NEWLINE => js "NEWLINE"
  | INDENT => js "INDENT" | DEDENT => js "DEDENT" | ENDMARKER => js "ENDMARKER"
  | NL => js "NL" | COMMENT => js "COMMENT" | ERRORTOKEN => js "ERRORTOKEN"
  end.

(** [new Parser(source)] *)
Definition newParser (src : jsstring) : result Parser :=
  match next (newTokenizer src) with
  | Ok (tok, t) => Ok (mkParser t tok)
  | Throw e => Throw e
  | OutOfFuel => OutOfFuel
  end.

Definition current : M Token := fun p => Ok (currentToken p, p).

Definition advance : M Token :=
  fun p =>
    match next (tokenizer p) with
    | Ok (tok, t) => Ok (currentToken p, mkParser t tok)
    | Throw e => Throw e
    | OutOfFuel => OutOfFuel
    end.

(** [this.tokenizer.peek()] *)
Definition peekToken : M Token :=
  fun p =>
    match peek (tokenizer p) with
    | Ok (tok, t) => Ok (tok, mkParser t (currentToken p))
    | Throw e => Throw e
    | OutOfFuel => OutOfFuel
    end.

(** The test of [match] and [expect]; [None] is an omitted [value]. *)
Definition tokenIs (tok : Token) (type : TokenType) (value : option jsstring) : bool :=
  TokenType_eqb (tok_type tok) type &&
  match value with
  | Some v => str_eqb (tok_value tok) v
  | None => true
  end.

Definition match_ (type : TokenType) (value : option jsstring) : M bool :=
  fun p => Ok (tokenIs (currentToken p) type value, p).

Definition matchOp (value : string) : M bool := match_ OP (Some (js value)).
Definition matchType (type : TokenType) : M bool := match_ type None.

Definition matchKeyword (keyword : string) : M bool :=
  fun p => Ok (tokenIs (currentToken p) NAME (Some (js keyword)), p).

Definition expect (type : TokenType) (value : option jsstring) : M Token :=
  token <- current ;;
  if tokenIs token type value then (advance ;;; ret token)
  else throw (js "Expected "
              ++ match value with Some v => v | None => TokenType_name type end
              ++ js ", got " ++ tok_value token).

Definition expectOp (value : string) : M Token := expect OP (Some (js value)).
Definition expectName : M jsstring := tok <- expect NAME None ;; ret (tok_value tok).
Definition expectKeyword (keyword : string) : M Token := expect NAME (Some (js keyword)).

(** [!a] and [a || b] on tests of the current token. *)
Definition notM (a : M bool) : M bool := t <- a ;; ret (negb t).
Definition orM (a b : M bool) : M bool := IFM a THEN ret true ELSE b.
Definition andM (a b : M bool) : M bool := IFM a THEN b ELSE ret false.

(** The methods that others call before their definition, or that call
    themselves. *)
Record Methods : Type := mkMethods {
  p_parseExpr : M expr;
  p_parseTernary : M expr;
  p_parseNot : M expr;
  p_parseComparison : M expr;
  p_parseFactor : M expr;
  p_parseTarget : M expr;
  p_parseNotTest : M expr;
  p_parsePattern : M pattern;
  p_parseStatement : M stmt;
  p_parseElif : M stmt
}.

(** *** Literals *)

Definition removeUnderscores (value : jsstring) : jsstring :=
  filter (fun c => negb (cu_eqb c (ch "_"))) value.

(** [s.slice(a)] and [s.slice(a, -b)] *)
Definition sliceFrom (s : jsstring) (a : nat) : jsstring := skipn a s.
Definition sliceBetween (s : jsstring) (a b : nat) : jsstring :=
  firstn (length s - b - a) (skipn a s).

Definition endsWith (suffix s : jsstring) : bool :=
  startsWith (rev suffix) (rev s).

Definition parseNumber (value : jsstring) : jsnumber :=
  let value := removeUnderscores value in
  if endsWith (js "j") value || endsWith (js "J") value
  then ParseFloat (sliceBetween value 0 1)
  else if startsWith (js "0x") value || startsWith (js "0X") value
  then ParseInt (sliceFrom value 2) 16
  else if startsWith (js "0o") value || startsWith (js "0O") value
  then ParseInt (sliceFrom value 2) 8
  else if startsWith (js "0b") value || startsWith (js "0B") value
  then ParseInt (sliceFrom value 2) 2
  else if includes (js ".") value || includes (js "e") value || includes (js "E") value
  then ParseFloat value
  else ParseInt value 10.

(** [while (p(str[0])) str = str.slice(1)] *)
Fixpoint dropPrefixChars (p : cu -> bool) (str : jsstring) : jsstring :=
  match str with
  | c :: str' => if p c then dropPrefixChars p str' else str
  | [] => []
  end.

Definition TRIPLE_DQ : jsstring := [DQUOTE; DQUOTE; DQUOTE].
Definition TRIPLE_SQ : jsstring := [SQUOTE; SQUOTE; SQUOTE].

Definition removeQuotes (str : jsstring) : jsstring :=
  if startsWith TRIPLE_DQ str || startsWith TRIPLE_SQ str
  then sliceBetween str 3 3
  else sliceBetween str 1 1.

Definition BACKSLASH : cu := ch "\".

(** [s.replace(/\\c/g, by)]: a backslash followed by the character [c]. *)
Definition unescape (c : cu) (by_ : cu) (s : jsstring) : jsstring :=
  replaceAll [chr BACKSLASH; chr c] [by_] s.

Definition extractStringValue (raw : jsstring) : jsstring :=
  let str := dropPrefixChars (oneOf "rRbBuU") raw in
  let str := removeQuotes str in
  unescape DQUOTE DQUOTE
    (unescape SQUOTE SQUOTE
       (unescape BACKSLASH BACKSLASH
          (unescape (ch "r") CR
             (unescape (ch "t") TAB
                (unescape (ch "n") LF str))))).

(** *** f-strings *)

(** The inner loop of a format spec after [:]: it stops on the closing
    brace, without stepping over it. *)
Fixpoint formatSpec_loop (rest : jsstring) (i braceDepth : nat) : nat :=
  match rest with
  | [] => i
  | x :: rest' =>
      if Nat.eqb braceDepth 0 then i
      else
        let braceDepth' :=
          if cu_eqb x (ch "{") then braceDepth + 1
          else if cu_eqb x (ch "}") then braceDepth - 1
          else braceDepth in
        if 0 <? braceDepth' then formatSpec_loop rest' (i + 1) braceDepth' else i
  end.

(** What the scan of one replacement field finds: the index reached, the end
    of the expression when a conversion or a format spec closed it, the
    conversion and the format spec. *)
Record Field : Type := mkField {
  f_i : nat;
  f_exprEnd : option nat;
  f_conversion : Z;
  f_formatSpec : option jsstring
}.

Definition charCode (str : jsstring) (i : nat) : option cu := nth_error str i.

(** The branch of the scan for [!]. *)
Definition conversionField (str : jsstring) (i : nat) : Field :=
  let exprEnd := i in
  let i := i + 1 in
  let conversion :=
    if isCh (ch "r") (charCode str i) then 114%Z
    else if isCh (ch "s") (charCode str i) then 115%Z
    else if isCh (ch "a") (charCode str i) then 97%Z
    else (-1)%Z in
  let i := i + 1 in
  let '(i, formatSpec) :=
    if isCh (ch ":") (charCode str i) then
      let formatStart := i + 1 in
      let j := formatStart
               + span (fun x => negb (cu_eqb x (ch "}"))) (skipn formatStart str) in
      (j, Some (slice str formatStart j))
    else (i, None) in
  let i := if isCh (ch "}") (charCode str i) then i + 1 else i in
  mkField i (Some exprEnd) conversion formatSpec.

(** The branch of the scan for [:]. *)
Definition specField (str : jsstring) (i : nat) : Field :=
  let exprEnd := i in
  let formatStart := i + 1 in
  let j := formatSpec_loop (skipn formatStart str) formatStart 1 in
  mkField (j + 1) (Some exprEnd) (-1)%Z (Some (slice str formatStart j)).

(** The loop that looks for the closing brace of a replacement field. *)
Fixpoint field_loop (str rest : jsstring) (i braceDepth : nat) : Field :=
  match rest with
  | [] => mkField i None (-1)%Z None
  | x :: rest' =>
      if Nat.eqb braceDepth 0 then mkField i None (-1)%Z None
      else if cu_eqb x (ch "{") then field_loop str rest' (i + 1) (braceDepth + 1)
      else if cu_eqb x (ch "}") then field_loop str rest' (i + 1) (braceDepth - 1)
      else if Nat.eqb braceDepth 1 && cu_eqb x (ch "!") then conversionField str i
      else if Nat.eqb braceDepth 1 && cu_eqb x (ch ":") then specField str i
      else field_loop str rest' (i + 1) braceDepth
  end.

(** [new Parser(exprStr).parseExpression()] *)
Definition parseNested (self : Methods) (exprStr : jsstring) : M expr :=
  fun p =>
    match newParser exprStr with
    | Ok q =>
        match p_parseExpr self q with
        | Ok (e, _) => Ok (e, p)
        | Throw e => Throw e
        | OutOfFuel => OutOfFuel
        end
    | Throw e => Throw e
    | OutOfFuel => OutOfFuel
    end.

(** The text chunk pushed before an escaped brace. *)
Definition chunkWith (str : jsstring) (textStart i : nat) (brace : cu) : expr :=
  if textStart <? i then Constant (CStr (slice str textStart i ++ [brace]))
  else Constant (CStr [brace]).

Definition parseFStringValue (fuel : nat) (self : Methods) (raw : jsstring) : M expr :=
  let str := dropPrefixChars (oneOf "rfbuRFBU") raw in
  let str := removeQuotes str in
  '(textStart, values) <-
    loop fuel
      (fun '(i, textStart, values) =>
         if negb (i <? length str) then ret (inr (textStart, values))
         else if isCh (ch "{") (charCode str i) then
           if isCh (ch "{") (charCode str (i + 1)) then
             ret (inl (i + 2, i + 2, values ++ [chunkWith str textStart i (ch "{")]))
           else
             let values :=
               if textStart <? i
               then values ++ [Constant (CStr (slice str textStart i))] else values in
             let i := i + 1 in
             let exprStart := i in
             let f := field_loop str (skipn i str) i 1 in
             let i := f_i f in
             let exprEnd := match f_exprEnd f with
                            | Some e => e
                            | None => i - 1
                            end in
             let exprStr := trim (slice str exprStart exprEnd) in
             if negb (Transform.isEmpty exprStr) then
               exprNode <- parseNested self exprStr ;;
               let format_spec :=
                 match f_formatSpec f with
                 | Some spec =>
                     if Transform.isEmpty spec then None
                     else Some (JoinedStr [Constant (CStr spec)])
                 | None => None
                 end in
               ret (inl (i, i, values
                               ++ [FormattedValue exprNode (f_conversion f) format_spec]))
             else ret (inl (i, i, values))
         else if isCh (ch "}") (charCode str i) && isCh (ch "}") (charCode str (i + 1)) then
           ret (inl (i + 2, i + 2, values ++ [chunkWith str textStart i (ch "}")]))
         else ret (inl (i + 1, textStart, values)))
      (0, 0, []) ;;
  let values :=
    if textStart <? length str
    then values ++ [Constant (CStr (sliceFrom str textStart))] else values in
  let values := match values with
                | [] => [Constant (CStr [])]
                | _ :: _ => values
                end in
  ret (JoinedStr values).

Definition fstringPrefixes : list jsstring :=
  [js "f"; js "F"; js "rf"; js "fr"; js "RF"; js "FR"; js "Rf"; js "Fr"; js "rF"; js "fR"].

Definition parseStringLiteral (fuel : nat) (self : Methods) : M expr :=
  stringToken <- advance ;;
  let raw := tok_value stringToken in
  if existsb (fun prefix => startsWith prefix raw) fstringPrefixes
  then parseFStringValue fuel self raw
  else
    value <-
      loop fuel
        (fun value =>
           IFM matchType STRING THEN
             (tok <- advance ;;
              let nextRaw := tok_value tok in
              if startsWith (js "f") nextRaw || startsWith (js "F") nextRaw
              then ret (inr value)
              else ret (inl (value ++ extractStringValue nextRaw)))
           ELSE ret (inr value))
        (extractStringValue raw) ;;
    ret (Constant (CStr value)).

(** *** Expressions *)

Definition nonEmpty {A} (l : list A) : bool :=
  match l with
  | [] => false
  | _ :: _ => true
  end.

Definition isSome {A} (o : option A) : bool :=
  match o with
  | Some _ => true
  | None => false
  end.

Definition parseSliceItem (self : Methods) : M expr :=
  lower <- (IFM notM (matchOp ":") THEN (e <- p_parseExpr self ;; ret (Some e))
            ELSE ret None) ;;
  IFM matchOp ":" THEN
    (advance ;;;
     upper <- (IFM andM (notM (matchOp ":")) (andM (notM (matchOp "]")) (notM (matchOp ",")))
               THEN (e <- p_parseExpr self ;; ret (Some e)) ELSE ret None) ;;
     step <- (IFM matchOp ":" THEN
                (advance ;;;
                 IFM andM (notM (matchOp "]")) (notM (matchOp ","))
                 THEN (e <- p_parseExpr self ;; ret (Some e)) ELSE ret None)
              ELSE ret None) ;;
     ret (Slice lower upper step))
  ELSE
    match lower with
    | Some e => ret e
    | None => throw (js "TypeError")
    end.

Definition parseSubscriptSlice (fuel : nat) (self : Methods) : M expr :=
  first <- parseSliceItem self ;;
  IFM matchOp "," THEN
    (elts <-
       loop fuel
         (fun elts =>
            IFM matchOp "," THEN
              (advance ;;;
               IFM matchOp "]" THEN ret (inr elts)
               ELSE (e <- parseSliceItem self ;; ret (inl (elts ++ [e]))))
            ELSE ret (inr elts))
         [first] ;;
     ret (Tuple elts))
  ELSE ret first.

Definition parseSubscript (fuel : nat) (self : Methods) (value : expr) : M expr :=
  advance ;;;
  slice <- parseSubscriptSlice fuel self ;;
  expectOp "]" ;;;
  ret (Subscript value slice).

Definition parseCall (fuel : nat) (self : Methods) (func : expr) : M expr :=
  advance ;;;
  '(args, keywords) <-
    loop fuel
      (fun '(args, keywords) =>
         IFM notM (matchOp ")") THEN
           (stop <-
              (if nonEmpty args || nonEmpty keywords
               then (expectOp "," ;;; matchOp ")")
               else ret false) ;;
            if stop : bool then ret (inr (args, keywords))
            else
              IFM matchOp "**" THEN
                (advance ;;;
                 value <- p_parseExpr self ;;
                 ret (inl (args, keywords ++ [mkKeyword None value])))
              ELSE IFM matchOp "*" THEN
                (advance ;;;
                 value <- p_parseExpr self ;;
                 ret (inl (args ++ [Starred value], keywords)))
              ELSE IFM andM (matchType NAME)
                            (next <- peekToken ;; ret (str_eqb (tok_value next) (js "=")))
              THEN
                (tok <- advance ;;
                 advance ;;;
                 value <- p_parseExpr self ;;
                 ret (inl (args, keywords ++ [mkKeyword (Some (tok_value tok)) value])))
              ELSE
                (value <- p_parseExpr self ;;
                 ret (inl (args ++ [value], keywords))))
         ELSE ret (inr (args, keywords)))
      ([], []) ;;
  expectOp ")" ;;;
  ret (Call func args keywords).

(** The object that [parseLambdaArgs] fills, with its variable [seenStar]. *)
Record ArgsState : Type := mkArgsState {
  a_args : list arg;
  a_defaults : list expr;
  a_kwonlyargs : list arg;
  a_kw_defaults : list (option expr);
  a_vararg : option arg;
  a_kwarg : option arg;
  a_seenStar : bool
}.

Definition emptyArgs : ArgsState := mkArgsState [] [] [] [] None None false.

Definition toArguments (a : ArgsState) : arguments :=
  mkArguments [] (a_args a) (a_vararg a) (a_kwonlyargs a) (a_kw_defaults a)
    (a_kwarg a) (a_defaults a).

(** A parameter is filed under [args] or, after a star, under [kwonlyargs]. *)
Definition pushParam (a : ArgsState) (x : arg) (default : option expr) : ArgsState :=
  if a_seenStar a then
    mkArgsState (a_args a) (a_defaults a) (a_kwonlyargs a ++ [x])
      (a_kw_defaults a ++ [default]) (a_vararg a) (a_kwarg a) (a_seenStar a)
  else
    mkArgsState (a_args a ++ [x])
      (match default with Some d => a_defaults a ++ [d] | None => a_defaults a end)
      (a_kwonlyargs a) (a_kw_defaults a) (a_vararg a) (a_kwarg a) (a_seenStar a).

Definition setKwarg (a : ArgsState) (x : arg) : ArgsState :=
  mkArgsState (a_args a) (a_defaults a) (a_kwonlyargs a) (a_kw_defaults a)
    (a_vararg a) (Some x) (a_seenStar a).

Definition setStar (a : ArgsState) (x : option arg) : ArgsState :=
  mkArgsState (a_args a) (a_defaults a) (a_kwonlyargs a) (a_kw_defaults a)
    (match x with Some _ => x | None => a_vararg a end) (a_kwarg a) true.

Definition parseLambdaArgs (fuel : nat) (self : Methods) : M ArgsState :=
  loop fuel
    (fun a =>
       IFM notM (matchOp ":") THEN
         (stop <-
            (if nonEmpty (a_args a) || nonEmpty (a_kwonlyargs a)
                || isSome (a_vararg a) || isSome (a_kwarg a)
             then IFM notM (matchOp ",") THEN ret true ELSE (advance ;;; ret false)
             else ret false) ;;
          if stop : bool then ret (inr a)
          else
            IFM matchOp "**" THEN
              (advance ;;;
               name <- expectName ;;
               ret (inl (setKwarg a (mkArg name None))))
            ELSE IFM matchOp "*" THEN
              (advance ;;;
               IFM matchType NAME THEN
                 (name <- expectName ;;
                  ret (inl (setStar a (Some (mkArg name None)))))
               ELSE ret (inl (setStar a None)))
            ELSE
              (name <- expectName ;;
               IFM matchOp "=" THEN
                 (advance ;;;
                  defaultVal <- p_parseExpr self ;;
                  ret (inl (pushParam a (mkArg name None) (Some defaultVal))))
               ELSE ret (inl (pushParam a (mkArg name None) None))))
       ELSE ret (inr a))
    emptyArgs.

Definition parseLambda (fuel : nat) (self : Methods) : M expr :=
  advance ;;;
  a <- (IFM notM (matchOp ":") THEN parseLambdaArgs fuel self ELSE ret emptyArgs) ;;
  expectOp ":" ;;;
  body <- p_parseExpr self ;;
  ret (Lambda (toArguments a) body).

(** The elements between brackets of a target, up to the closing one. *)
Definition parseTargetElts (fuel : nat) (self : Methods) (close : string)
  : M (list expr) :=
  loop fuel
    (fun elts =>
       IFM notM (matchOp close) THEN
         (stop <- (if nonEmpty elts then (expectOp "," ;;; matchOp close)
                   else ret false) ;;
          if stop : bool then ret (inr elts)
          else (e <- p_parseTarget self ;; ret (inl (elts ++ [e]))))
       ELSE ret (inr elts))
    [].

Definition parseTarget (fuel : nat) (self : Methods) : M expr :=
  IFM matchOp "*" THEN
    (advance ;;; value <- p_parseTarget self ;; ret (Starred value))
  ELSE IFM matchOp "(" THEN
    (advance ;;;
     elts <- parseTargetElts fuel self ")" ;;
     expectOp ")" ;;;
     ret (Tuple elts))
  ELSE IFM matchOp "[" THEN
    (advance ;;;
     elts <- parseTargetElts fuel self "]" ;;
     expectOp "]" ;;;
     ret (List_ elts))
  ELSE
    (name <- expectName ;;
     loop fuel
       (fun target =>
          IFM matchOp "." THEN
            (advance ;;;
             attr <- expectName ;;
             ret (inl (Attribute target attr)))
          ELSE IFM matchOp "[" THEN
            (advance ;;;
             slice <- parseSubscriptSlice fuel self ;;
             expectOp "]" ;;;
             ret (inl (Subscript target slice)))
          ELSE ret (inr target))
       (Name name)).

Definition parseTargetList (fuel : nat) (self : Methods) : M expr :=
  first <- parseTarget fuel self ;;
  IFM matchOp "," THEN
    (elts <-
       loop fuel
         (fun elts =>
            IFM matchOp "," THEN
              (advance ;;;
               IFM matchKeyword "in" THEN ret (inr elts)
               ELSE (e <- parseTarget fuel self ;; ret (inl (elts ++ [e]))))
            ELSE ret (inr elts))
         [first] ;;
     ret (Tuple elts))
  ELSE ret first.

Definition parseNotTest (self : Methods) : M expr :=
  IFM matchKeyword "not" THEN
    (advance ;;; operand <- p_parseNotTest self ;; ret (UnaryOp Not operand))
  ELSE p_parseComparison self.

(** [values = [left]; while (matchKeyword(kw)) { advance(); push(operand) }] *)
Definition boolOperands (fuel : nat) (keyword : string) (operand : M expr)
           (left : expr) : M (list expr) :=
  while fuel (matchKeyword keyword)
    (fun values => advance ;;; v <- operand ;; ret (values ++ [v]))
    [left].

Definition parseAndTest (fuel : nat) (self : Methods) : M expr :=
  left <- parseNotTest self ;;
  IFM matchKeyword "and" THEN
    (values <- boolOperands fuel "and" (parseNotTest self) left ;;
     ret (BoolOp And values))
  ELSE ret left.

Definition parseOrTest (fuel : nat) (self : Methods) : M expr :=
  left <- parseAndTest fuel self ;;
  IFM matchKeyword "or" THEN
    (values <- boolOperands fuel "or" (parseAndTest fuel self) left ;;
     ret (BoolOp Or values))
  ELSE ret left.

Definition parseComprehensionClauses (fuel : nat) (self : Methods)
  : M (list comprehension) :=
  while fuel (orM (matchKeyword "for") (matchKeyword "async"))
    (fun generators =>
       isAsync <- (IFM matchKeyword "async" THEN (advance ;;; ret 1) ELSE ret 0) ;;
       advance ;;;
       target <- parseTargetList fuel self ;;
       expectKeyword "in" ;;;
       iter <- parseOrTest fuel self ;;
       ifs <- while fuel (matchKeyword "if")
                (fun ifs => advance ;;; c <- parseOrTest fuel self ;; ret (ifs ++ [c]))
                [] ;;
       ret (generators ++ [mkComprehension target iter ifs isAsync]))
    [].

(** The entries of a dict display after the first one. *)
Definition parseDictItems (fuel : nat) (self : Methods)
           (keys : list (option expr)) (values : list expr)
  : M (list (option expr) * list expr) :=
  loop fuel
    (fun '(keys, values) =>
       IFM matchOp "," THEN
         (advance ;;;
          IFM matchOp "}" THEN ret (inr (keys, values))
          ELSE IFM matchOp "**" THEN
            (advance ;;;
             value <- p_parseExpr self ;;
             ret (inl (keys ++ [None], values ++ [value])))
          ELSE
            (key <- p_parseExpr self ;;
             expectOp ":" ;;;
             value <- p_parseExpr self ;;
             ret (inl (keys ++ [Some key], values ++ [value]))))
       ELSE ret (inr (keys, values)))
    (keys, values).

(** [elts = [first]; while (match(',')) { advance(); if (match(close)) break;
    elts.push(parseExpr()) }] *)
Definition parseElts (fuel : nat) (self : Methods) (close : string) (first : expr)
  : M (list expr) :=
  loop fuel
    (fun elts =>
       IFM matchOp "," THEN
         (advance ;;;
          IFM matchOp close THEN ret (inr elts)
          ELSE (e <- p_parseExpr self ;; ret (inl (elts ++ [e]))))
       ELSE ret (inr elts))
    [first].

Definition parseDictOrSet (fuel : nat) (self : Methods) : M expr :=
  advance ;;;
  IFM matchOp "}" THEN (advance ;;; ret (Dict [] []))
  ELSE IFM matchOp "**" THEN
    (advance ;;;
     firstValue <- p_parseExpr self ;;
     '(keys, values) <- parseDictItems fuel self [None] [firstValue] ;;
     expectOp "}" ;;;
     ret (Dict keys values))
  ELSE
    (first <- p_parseExpr self ;;
     IFM matchOp ":" THEN
       (advance ;;;
        firstValue <- p_parseExpr self ;;
        IFM orM (matchKeyword "for") (matchKeyword "async") THEN
          (generators <- parseComprehensionClauses fuel self ;;
           expectOp "}" ;;;
           ret (DictComp first firstValue generators))
        ELSE
          ('(keys, values) <- parseDictItems fuel self [Some first] [firstValue] ;;
           expectOp "}" ;;;
           ret (Dict keys values)))
     ELSE IFM orM (matchKeyword "for") (matchKeyword "async") THEN
       (generators <- parseComprehensionClauses fuel self ;;
        expectOp "}" ;;;
        ret (SetComp first generators))
     ELSE
       (elts <- parseElts fuel self "}" first ;;
        expectOp "}" ;;;
        ret (Set_ elts))).

Definition parsePrimary (fuel : nat) (self : Methods) : M expr :=
  IFM matchKeyword "lambda" THEN parseLambda fuel self
  ELSE IFM matchKeyword "yield" THEN
    (advance ;;;
     IFM matchKeyword "from" THEN
       (advance ;;; value <- p_parseExpr self ;; ret (YieldFrom value))
     ELSE IFM andM (notM (matchType NEWLINE))
                   (andM (notM (matchOp ")")) (notM (matchOp ","))) THEN
       (value <- p_parseExpr self ;; ret (Yield (Some value)))
     ELSE ret (Yield None))
  ELSE IFM matchOp "(" THEN
    (advance ;;;
     IFM matchOp ")" THEN (advance ;;; ret (Tuple []))
     ELSE
       (first <- p_parseExpr self ;;
        IFM orM (matchKeyword "for") (matchKeyword "async") THEN
          (generators <- parseComprehensionClauses fuel self ;;
           expectOp ")" ;;;
           ret (GeneratorExp first generators))
        ELSE IFM matchOp "," THEN
          (elts <- parseElts fuel self ")" first ;;
           expectOp ")" ;;;
           ret (Tuple elts))
        ELSE (expectOp ")" ;;; ret first)))
  ELSE IFM matchOp "[" THEN
    (advance ;;;
     IFM matchOp "]" THEN (advance ;;; ret (List_ []))
     ELSE
       (first <- p_parseExpr self ;;
        IFM orM (matchKeyword "for") (matchKeyword "async") THEN
          (generators <- parseComprehensionClauses fuel self ;;
           expectOp "]" ;;;
           ret (ListComp first generators))
        ELSE
          (elts <- parseElts fuel self "]" first ;;
           expectOp "]" ;;;
           ret (List_ elts))))
  ELSE IFM matchOp "{" THEN parseDictOrSet fuel self
  ELSE IFM matchOp "*" THEN
    (advance ;;; value <- p_parseExpr self ;; ret (Starred value))
  ELSE IFM matchType NAME THEN
    (tok <- advance ;;
     let name := tok_value tok in
     if str_eqb name (js "True") then ret (Constant (CBool true))
     else if str_eqb name (js "False") then ret (Constant (CBool false))
     else if str_eqb name (js "None") then ret (Constant CNull)
     else ret (Name name))
  ELSE IFM matchType NUMBER THEN
    (tok <- advance ;; ret (Constant (CNum (parseNumber (tok_value tok)))))
  ELSE IFM matchType STRING THEN parseStringLiteral fuel self
  ELSE IFM matchOp "..." THEN (advance ;;; ret (Constant (CStr (js "..."))))
  ELSE (tok <- current ;; throw (js "Unexpected token: " ++ tok_value tok)).

Definition parseAtom (fuel : nat) (self : Methods) : M expr :=
  atom <- parsePrimary fuel self ;;
  loop fuel
    (fun atom =>
       IFM matchOp "(" THEN (e <- parseCall fuel self atom ;; ret (inl e))
       ELSE IFM matchOp "[" THEN (e <- parseSubscript fuel self atom ;; ret (inl e))
       ELSE IFM matchOp "." THEN
         (advance ;;;
          attr <- expectName ;;
          ret (inl (Attribute atom attr)))
       ELSE ret (inr atom))
    atom.

Definition parseAwait (fuel : nat) (self : Methods) : M expr :=
  IFM matchKeyword "await" THEN
    (advance ;;; value <- parsePrimary fuel self ;; ret (Await value))
  ELSE parseAtom fuel self.

Definition parsePower (fuel : nat) (self : Methods) : M expr :=
  left <- parseAwait fuel self ;;
  IFM matchOp "**" THEN
    (advance ;;; right <- p_parseFactor self ;; ret (BinOp left Pow right))
  ELSE ret left.

Definition parseFactor (fuel : nat) (self : Methods) : M expr :=
  IFM matchOp "+" THEN
    (advance ;;; operand <- p_parseFactor self ;; ret (UnaryOp UAdd operand))
  ELSE IFM matchOp "-" THEN
    (advance ;;; operand <- p_parseFactor self ;; ret (UnaryOp USub operand))
  ELSE IFM matchOp "~" THEN
    (advance ;;; operand <- p_parseFactor self ;; ret (UnaryOp Invert operand))
  ELSE parsePower fuel self.

(** [while (one of the operators matches) { op = ...advance().value...;
    right = operand(); left = BinOp(left, op, right) }] *)
Definition binaryChain (fuel : nat) (operators : list (string * operator))
           (operand : M expr) : M expr :=
  left <- operand ;;
  loop fuel
    (fun left =>
       tok <- current ;;
       match find (fun o => tokenIs tok OP (Some (js (fst o)))) operators with
       | Some o =>
           advance ;;;
           right <- operand ;;
           ret (inl (BinOp left (snd o) right))
       | None => ret (inr left)
       end)
    left.

Definition parseTerm (fuel : nat) (self : Methods) : M expr :=
  binaryChain fuel
    [("*", Mult); ("/", Div); ("//", FloorDiv); ("%", Mod); ("@", MatMult)]%string
    (parseFactor fuel self).

Definition parseArith (fuel : nat) (self : Methods) : M expr :=
  binaryChain fuel [("+", Add); ("-", Sub)]%string (parseTerm fuel self).

Definition parseShift (fuel : nat) (self : Methods) : M expr :=
  binaryChain fuel [("<<", LShift); (">>", RShift)]%string (parseArith fuel self).

Definition parseBitAnd (fuel : nat) (self : Methods) : M expr :=
  binaryChain fuel [("&", BitAnd)]%string (parseShift fuel self).

Definition parseBitXor (fuel : nat) (self : Methods) : M expr :=
  binaryChain fuel [("^", BitXor)]%string (parseBitAnd fuel self).

Definition parseBitOr (fuel : nat) (self : Methods) : M expr :=
  binaryChain fuel [("|", BitOr)]%string (parseBitXor fuel self).

(** The chain of tests at the head of the loop of [parseComparison]: the
    operator read, or [null]. *)
Definition compareOperator : M (option cmpop) :=
  IFM matchOp "<" THEN
    (advance ;;;
     IFM matchOp "=" THEN (advance ;;; ret (Some LtE)) ELSE ret (Some Lt))
  ELSE IFM matchOp ">" THEN
    (advance ;;;
     IFM matchOp "=" THEN (advance ;;; ret (Some GtE)) ELSE ret (Some Gt))
  ELSE IFM matchOp "==" THEN (advance ;;; ret (Some Eq))
  ELSE IFM matchOp "!=" THEN (advance ;;; ret (Some NotEq))
  ELSE IFM matchOp "<=" THEN (advance ;;; ret (Some LtE))
  ELSE IFM matchOp ">=" THEN (advance ;;; ret (Some GtE))
  ELSE IFM matchKeyword "in" THEN (advance ;;; ret (Some In))
  ELSE IFM matchKeyword "not" THEN
    (advance ;;; expectKeyword "in" ;;; ret (Some NotIn))
  ELSE IFM matchKeyword "is" THEN
    (advance ;;;
     IFM matchKeyword "not" THEN (advance ;;; ret (Some IsNot)) ELSE ret (Some Is))
  ELSE ret None.

Definition parseComparison (fuel : nat) (self : Methods) : M expr :=
  left <- parseBitOr fuel self ;;
  '(ops, comparators) <-
    loop fuel
      (fun '(ops, comparators) =>
         op <- compareOperator ;;
         match op with
         | None => ret (inr (ops, comparators))
         | Some op =>
             right <- parseBitOr fuel self ;;
             ret (inl (ops ++ [op], comparators ++ [right]))
         end)
      ([], []) ;;
  if Nat.eqb (length ops) 0 then ret left
  else ret (Compare left ops comparators).

Definition parseNot (fuel : nat) (self : Methods) : M expr :=
  IFM matchKeyword "not" THEN
    (advance ;;; operand <- p_parseNot self ;; ret (UnaryOp Not operand))
  ELSE parseComparison fuel self.

Definition parseAnd (fuel : nat) (self : Methods) : M expr :=
  left <- parseNot fuel self ;;
  IFM matchKeyword "and" THEN
    (values <- boolOperands fuel "and" (parseNot fuel self) left ;;
     ret (BoolOp And values))
  ELSE ret left.

Definition parseOr (fuel : nat) (self : Methods) : M expr :=
  left <- parseAnd fuel self ;;
  IFM matchKeyword "or" THEN
    (values <- boolOperands fuel "or" (parseAnd fuel self) left ;;
     ret (BoolOp Or values))
  ELSE ret left.

Definition parseTernary (fuel : nat) (self : Methods) : M expr :=
  expr <- parseOr fuel self ;;
  IFM matchKeyword "if" THEN
    (advance ;;;
     test <- parseOr fuel self ;;
     expectKeyword "else" ;;;
     orelse <- p_parseTernary self ;;
     ret (IfExp test expr orelse))
  ELSE ret expr.

Definition parseNamedExpr (fuel : nat) (self : Methods) : M expr :=
  expr <- parseTernary fuel self ;;
  IFM matchOp ":=" THEN
    (advance ;;;
     value <- p_parseExpr self ;;
     ret (NamedExpr expr value))
  ELSE ret expr.

Definition parseExpr (fuel : nat) (self : Methods) : M expr :=
  parseNamedExpr fuel self.

(** *** Statements *)

Definition keywords : list jsstring :=
  [js "False"; js "None"; js "True"; js "and"; js "as"; js "assert"; js "async";
   js "await"; js "break"; js "class"; js "continue"; js "def"; js "del";
   js "elif"; js "else"; js "except"; js "finally"; js "for"; js "from";
   js "global"; js "if"; js "import"; js "in"; js "is"; js "lambda";
   js "nonlocal"; js "not"; js "or"; js "pass"; js "raise"; js "return";
   js "try"; js "while"; js "with"; js "yield"; js "match"; js "case"; js "type"].

Definition isKeyword (value : jsstring) : bool := member value keywords.

Definition parseDottedName (fuel : nat) : M jsstring :=
  name <- expectName ;;
  while fuel (matchOp ".")
    (fun name =>
       advance ;;;
       tok <- current ;;
       if isKeyword (tok_value tok)
       then throw (js "Unexpected keyword " ++ tok_value tok ++ js " in dotted name")
       else (part <- expectName ;; ret (name ++ js "." ++ part)))
    name.

Definition parseDottedNameUntilImport (fuel : nat) : M jsstring :=
  name <- expectName ;;
  loop fuel
    (fun name =>
       IFM andM (matchOp ".") (notM (matchKeyword "import")) THEN
         (advance ;;;
          IFM matchKeyword "import" THEN ret (inr name)
          ELSE (part <- expectName ;; ret (inl (name ++ js "." ++ part))))
       ELSE ret (inr name))
    name.

(** [as name], when present. *)
Definition parseAsName : M (option jsstring) :=
  IFM matchKeyword "as" THEN (advance ;;; n <- expectName ;; ret (Some n))
  ELSE ret None.

Definition parseImport (fuel : nat) : M stmt :=
  advance ;;;
  names <-
    loop fuel
      (fun names =>
         (if nonEmpty names
          then IFM matchOp "," THEN (advance ;;; ret tt) ELSE ret tt
          else ret tt) ;;;
         name <- parseDottedName fuel ;;
         asname <- parseAsName ;;
         let names := names ++ [mkAlias name asname] in
         IFM matchOp "," THEN ret (inl names) ELSE ret (inr names))
      [] ;;
  ret (Import names).

(** The first loop of [parseFromImport]: the dots after [from]. *)
Definition parseLevel (fuel : nat) : M nat :=
  while fuel (orM (matchOp ".") (matchOp "..."))
    (fun level =>
       tok <- current ;;
       advance ;;;
       if str_eqb (tok_value tok) (js "...") then ret (level + 3)
       else ret (level + 1))
    0.

Definition parseFromImport (fuel : nat) : M stmt :=
  advance ;;;
  level <- parseLevel fuel ;;
  module <-
    (IFM andM (matchType NAME) (notM (matchKeyword "import"))
     THEN (m <- parseDottedNameUntilImport fuel ;; ret (Some m))
     ELSE ret None) ;;
  expectKeyword "import" ;;;
  names <-
    (IFM matchOp "*" THEN (advance ;;; ret [mkAlias (js "*") None])
     ELSE IFM matchOp "(" THEN
       (advance ;;;
        names <-
          loop fuel
            (fun names =>
               (IFM matchOp "," THEN (advance ;;; ret tt) ELSE ret tt) ;;;
               IFM matchOp ")" THEN ret (inr names)
               ELSE
                 (name <- expectName ;;
                  asname <- parseAsName ;;
                  let names := names ++ [mkAlias name asname] in
                  IFM matchOp "," THEN ret (inl names) ELSE ret (inr names)))
            [] ;;
        expectOp ")" ;;;
        ret names)
     ELSE
       loop fuel
         (fun names =>
            (if nonEmpty names then (expectOp "," ;;; ret tt) else ret tt) ;;;
            name <- expectName ;;
            asname <- parseAsName ;;
            let names := names ++ [mkAlias name asname] in
            IFM matchOp "," THEN ret (inl names) ELSE ret (inr names))
         []) ;;
  ret (ImportFrom (Some (match module with Some m => m | None => [] end)) names level).

Definition parseTypeParams (fuel : nat) : M (list typeparam) :=
  advance ;;;
  params <-
    while fuel (notM (matchOp "]"))
      (fun params =>
         (if nonEmpty params then (expectOp "," ;;; ret tt) else ret tt) ;;;
         name <- expectName ;;
         ret (params ++ [TypeVar name]))
      [] ;;
  expectOp "]" ;;;
  ret params.

(** [: annotation], when present. *)
Definition parseAnnotation (fuel : nat) (self : Methods) : M (option expr) :=
  IFM matchOp ":" THEN (advance ;;; e <- parseExpr fuel self ;; ret (Some e))
  ELSE ret None.

Definition parseArguments (fuel : nat) (self : Methods) : M arguments :=
  a <-
    loop fuel
      (fun a =>
         IFM notM (matchOp ")") THEN
           (stop <-
              (if nonEmpty (a_args a) || nonEmpty (a_kwonlyargs a)
                  || isSome (a_vararg a) || isSome (a_kwarg a) || a_seenStar a
               then IFM notM (matchOp ",") THEN ret true
                    ELSE (advance ;;; matchOp ")")
               else ret false) ;;
            if stop : bool then ret (inr a)
            else
              IFM matchOp "**" THEN
                (advance ;;;
                 argName <- expectName ;;
                 annotation <- parseAnnotation fuel self ;;
                 ret (inl (setKwarg a (mkArg argName annotation))))
              ELSE IFM matchOp "*" THEN
                (advance ;;;
                 IFM matchType NAME THEN
                   (argName <- expectName ;;
                    annotation <- parseAnnotation fuel self ;;
                    ret (inl (setStar a (Some (mkArg argName annotation)))))
                 ELSE ret (inl (setStar a None)))
              ELSE
                (argName <- expectName ;;
                 annotation <- parseAnnotation fuel self ;;
                 IFM matchOp "=" THEN
                   (advance ;;;
                    defaultVal <- parseExpr fuel self ;;
                    ret (inl (pushParam a (mkArg argName annotation) (Some defaultVal))))
                 ELSE ret (inl (pushParam a (mkArg argName annotation) None))))
         ELSE ret (inr a))
      emptyArgs ;;
  ret (toArguments a).

(** *** Patterns *)

(** The patterns between brackets of a sequence pattern. *)
Definition parsePatternElts (fuel : nat) (self : Methods) (close : string)
  : M (list pattern) :=
  loop fuel
    (fun patterns =>
       IFM notM (matchOp close) THEN
         (stop <- (if nonEmpty patterns then (expectOp "," ;;; matchOp close)
                   else ret false) ;;
          if stop : bool then ret (inr patterns)
          else (p <- p_parsePattern self ;; ret (inl (patterns ++ [p]))))
       ELSE ret (inr patterns))
    [].

Definition parsePrimaryPattern (fuel : nat) (self : Methods) : M pattern :=
  IFM andM (matchType NAME) (tok <- current ;; ret (str_eqb (tok_value tok) (js "_")))
  THEN (advance ;;; ret (MatchAs None None))
  ELSE IFM matchOp "(" THEN
    (advance ;;;
     patterns <- parsePatternElts fuel self ")" ;;
     expectOp ")" ;;;
     ret (MatchSequence patterns))
  ELSE IFM matchOp "[" THEN
    (advance ;;;
     patterns <- parsePatternElts fuel self "]" ;;
     expectOp "]" ;;;
     ret (MatchSequence patterns))
  ELSE IFM matchOp "{" THEN
    (advance ;;;
     '(keys, patterns, rest) <-
       loop fuel
         (fun '(keys, patterns, rest) =>
            IFM notM (matchOp "}") THEN
              (stop <- (if nonEmpty keys then (expectOp "," ;;; matchOp "}")
                        else ret false) ;;
               if stop : bool then ret (inr (keys, patterns, rest))
               else
                 IFM matchOp "**" THEN
                   (advance ;;;
                    name <- expectName ;;
                    ret (inl (keys, patterns, Some name)))
                 ELSE
                   (key <- parseExpr fuel self ;;
                    expectOp ":" ;;;
                    pat <- p_parsePattern self ;;
                    ret (inl (keys ++ [key], patterns ++ [pat], rest))))
            ELSE ret (inr (keys, patterns, rest)))
         ([], [], None) ;;
     expectOp "}" ;;;
     ret (MatchMapping keys patterns rest))
  ELSE IFM matchType NAME THEN
    (name <- advance ;;
     IFM matchOp "(" THEN
       (advance ;;;
        '(patterns, kwdAttrs, kwdPatterns) <-
          loop fuel
            (fun '(patterns, kwdAttrs, kwdPatterns) =>
               IFM notM (matchOp ")") THEN
                 (stop <- (if nonEmpty patterns || nonEmpty kwdAttrs
                           then (expectOp "," ;;; matchOp ")")
                           else ret false) ;;
                  if stop : bool then ret (inr (patterns, kwdAttrs, kwdPatterns))
                  else
                    IFM andM (matchType NAME)
                             (next <- peekToken ;;
                              ret (str_eqb (tok_value next) (js "=")))
                    THEN
                      (attr <- advance ;;
                       advance ;;;
                       pat <- p_parsePattern self ;;
                       ret (inl (patterns, kwdAttrs ++ [tok_value attr],
                                 kwdPatterns ++ [pat])))
                    ELSE
                      (pat <- p_parsePattern self ;;
                       ret (inl (patterns ++ [pat], kwdAttrs, kwdPatterns))))
               ELSE ret (inr (patterns, kwdAttrs, kwdPatterns)))
            ([], [], []) ;;
        expectOp ")" ;;;
        ret (MatchClass (Name (tok_value name)) patterns kwdAttrs kwdPatterns))
     ELSE IFM matchOp "." THEN
       (fullName <-
          while fuel (matchOp ".")
            (fun fullName =>
               advance ;;;
               attr <- expectName ;;
               ret (Attribute fullName attr))
            (Name (tok_value name)) ;;
        ret (MatchValue fullName))
     ELSE ret (MatchAs None (Some (tok_value name))))
  ELSE IFM orM (matchType NUMBER) (matchType STRING) THEN
    (value <- parsePrimary fuel self ;; ret (MatchValue value))
  ELSE IFM matchKeyword "None" THEN (advance ;;; ret (MatchSingleton None))
  ELSE IFM matchKeyword "True" THEN (advance ;;; ret (MatchSingleton (Some true)))
  ELSE IFM matchKeyword "False" THEN (advance ;;; ret (MatchSingleton (Some false)))
  ELSE (tok <- current ;; throw (js "Unexpected token in pattern: " ++ tok_value tok)).

Definition parseAsPattern (fuel : nat) (self : Methods) : M pattern :=
  pat <- parsePrimaryPattern fuel self ;;
  IFM matchKeyword "as" THEN
    (advance ;;;
     name <- expectName ;;
     ret (MatchAs (Some pat) (Some name)))
  ELSE ret pat.

Definition parseOrPattern (fuel : nat) (self : Methods) : M pattern :=
  pat <- parseAsPattern fuel self ;;
  IFM matchOp "|" THEN
    (patterns <-
       while fuel (matchOp "|")
         (fun patterns =>
            advance ;;;
            p <- parseAsPattern fuel self ;;
            ret (patterns ++ [p]))
         [pat] ;;
     ret (MatchOr patterns))
  ELSE ret pat.

Definition parsePattern (fuel : nat) (self : Methods) : M pattern :=
  parseOrPattern fuel self.

(** *** Simple statements *)

Definition parseReturn (fuel : nat) (self : Methods) : M stmt :=
  advance ;;;
  IFM andM (notM (matchType NEWLINE)) (notM (matchType ENDMARKER))
  THEN (value <- parseExpr fuel self ;; ret (Return (Some value)))
  ELSE ret (Return None).

Definition parseRaise (fuel : nat) (self : Methods) : M stmt :=
  advance ;;;
  IFM orM (matchType NEWLINE) (matchType ENDMARKER) THEN ret (Raise None None)
  ELSE
    (exc <- parseExpr fuel self ;;
     cause <- (IFM matchKeyword "from"
               THEN (advance ;;; c <- parseExpr fuel self ;; ret (Some c))
               ELSE ret None) ;;
     ret (Raise (Some exc) cause)).

(** [do { if (names.length > 0) expect(','); names.push(item()) }
    while (match(','))] *)
Definition commaSeparated {A} (fuel : nat) (item : M A) : M (list A) :=
  loop fuel
    (fun items =>
       (if nonEmpty items then (expectOp "," ;;; ret tt) else ret tt) ;;;
       x <- item ;;
       let items := items ++ [x] in
       IFM matchOp "," THEN ret (inl items) ELSE ret (inr items))
    [].

Definition parseGlobal (fuel : nat) : M stmt :=
  advance ;;;
  names <- commaSeparated fuel expectName ;;
  ret (Global names).

Definition parseNonlocal (fuel : nat) : M stmt :=
  advance ;;;
  names <- commaSeparated fuel expectName ;;
  ret (Nonlocal names).

Definition parseAssert (fuel : nat) (self : Methods) : M stmt :=
  advance ;;;
  test <- parseExpr fuel self ;;
  msg <- (IFM matchOp "," THEN (advance ;;; m <- parseExpr fuel self ;; ret (Some m))
          ELSE ret None) ;;
  ret (Assert test msg).

Definition parseDelete (fuel : nat) (self : Methods) : M stmt :=
  advance ;;;
  targets <- commaSeparated fuel (parseExpr fuel self) ;;
  ret (Delete targets).

Definition parseTypeAlias (fuel : nat) (self : Methods) : M stmt :=
  advance ;;;
  name <- expectName ;;
  typeParams <- (IFM matchOp "[" THEN parseTypeParams fuel ELSE ret []) ;;
  expectOp "=" ;;;
  value <- parseExpr fuel self ;;
  ret (TypeAlias (Name name) typeParams value).

Definition isAssignTarget : M bool :=
  next <- peekToken ;;
  ret (str_eqb (tok_value next) (js "=") || str_eqb (tok_value next) (js ":")
       || endsWith (js "=") (tok_value next)).

Definition isEndOfExprList : M bool :=
  orM (matchOp ")") (orM (matchOp "]") (orM (matchOp "}") (orM (matchOp ":")
    (orM (matchOp "=") (orM (matchType NEWLINE) (matchType ENDMARKER)))))).

Definition parseExprList (fuel : nat) (self : Methods) : M expr :=
  expr <- parseExpr fuel self ;;
  IFM andM (matchOp ",") (notM isAssignTarget) THEN
    (elts <-
       loop fuel
         (fun elts =>
            IFM matchOp "," THEN
              (advance ;;;
               IFM isEndOfExprList THEN ret (inr elts)
               ELSE (e <- parseExpr fuel self ;; ret (inl (elts ++ [e]))))
            ELSE ret (inr elts))
         [expr] ;;
     ret (Tuple elts))
  ELSE ret expr.

Definition augOps : list (jsstring * operator) :=
  [(js "+=", Add); (js "-=", Sub); (js "*=", Mult); (js "/=", Div);
   (js "//=", FloorDiv); (js "%=", Mod); (js "**=", Pow); (js "&=", BitAnd);
   (js "|=", BitOr); (js "^=", BitXor); (js ">>=", RShift); (js "<<=", LShift);
   (js "@=", MatMult)].

(** [augOps[key]] *)
Definition augOp (key : jsstring) : option operator :=
  match find (fun o => str_eqb key (fst o)) augOps with
  | Some o => Some (snd o)
  | None => None
  end.

Definition parseExpressionStatement (fuel : nat) (self : Methods) : M stmt :=
  expr <- parseExprList fuel self ;;
  IFM matchOp ":" THEN
    (advance ;;;
     annotation <- parseExpr fuel self ;;
     value <- (IFM matchOp "=" THEN (advance ;;; v <- parseExpr fuel self ;; ret (Some v))
               ELSE ret None) ;;
     ret (AnnAssign expr annotation value 1))
  ELSE
    tok <- current ;;
    match (if TokenType_eqb (tok_type tok) OP then augOp (tok_value tok) else None) with
    | Some op =>
        advance ;;;
        value <- parseExpr fuel self ;;
        ret (AugAssign expr op value)
    | None =>
        IFM matchOp "=" THEN
          (targets <-
             while fuel (matchOp "=")
               (fun targets =>
                  advance ;;;
                  e <- parseExprList fuel self ;;
                  ret (targets ++ [e]))
               [expr] ;;
           ret (Assign (removelast targets) (last targets expr)))
        ELSE ret (Expr expr)
    end.

Definition parseSimpleStatement (fuel : nat) (self : Methods) : M stmt :=
  stmt <-
    (IFM matchKeyword "import" THEN parseImport fuel
     ELSE IFM matchKeyword "from" THEN parseFromImport fuel
     ELSE IFM matchKeyword "pass" THEN (advance ;;; ret Pass)
     ELSE IFM matchKeyword "break" THEN (advance ;;; ret Break)
     ELSE IFM matchKeyword "continue" THEN (advance ;;; ret Continue)
     ELSE IFM matchKeyword "return" THEN parseReturn fuel self
     ELSE IFM matchKeyword "raise" THEN parseRaise fuel self
     ELSE IFM matchKeyword "global" THEN parseGlobal fuel
     ELSE IFM matchKeyword "nonlocal" THEN parseNonlocal fuel
     ELSE IFM matchKeyword "assert" THEN parseAssert fuel self
     ELSE IFM matchKeyword "del" THEN parseDelete fuel self
     ELSE parseExpressionStatement fuel self) ;;
  (IFM matchType NEWLINE THEN (advance ;;; ret tt) ELSE ret tt) ;;;
  ret stmt.

(** *** Compound statements *)

Definition isAtSuiteEnd : M bool := orM (matchType DEDENT) (matchType ENDMARKER).

Definition parseSuite (fuel : nat) (self : Methods) : M (list stmt) :=
  IFM matchType NEWLINE THEN
    (advance ;;;
     expect INDENT (Some []) ;;;
     body <-
       while fuel (notM isAtSuiteEnd)
         (fun body => stmt <- p_parseStatement self ;; ret (body ++ [stmt]))
         [] ;;
     (IFM matchType DEDENT THEN (advance ;;; ret tt) ELSE ret tt) ;;;
     ret body)
  ELSE (stmt <- parseSimpleStatement fuel self ;; ret [stmt]).

(** [type_params] is set only when the list is not empty. *)
Definition optionalTypeParams (typeParams : list typeparam) : option (list typeparam) :=
  if nonEmpty typeParams then Some typeParams else None.

Definition parseFunctionDef (fuel : nat) (self : Methods) (isAsync : bool) : M stmt :=
  advance ;;;
  name <- expectName ;;
  typeParams <- (IFM matchOp "[" THEN parseTypeParams fuel ELSE ret []) ;;
  expectOp "(" ;;;
  args <- parseArguments fuel self ;;
  expectOp ")" ;;;
  returns <- (IFM matchOp "->" THEN (advance ;;; e <- parseExpr fuel self ;; ret (Some e))
              ELSE ret None) ;;
  expectOp ":" ;;;
  body <- parseSuite fuel self ;;
  ret ((if isAsync then AsyncFunctionDef else FunctionDef)
         name args body [] returns (optionalTypeParams typeParams)).

Definition parseClassDef (fuel : nat) (self : Methods) : M stmt :=
  advance ;;;
  name <- expectName ;;
  typeParams <- (IFM matchOp "[" THEN parseTypeParams fuel ELSE ret []) ;;
  '(bases, keywords) <-
    (IFM matchOp "(" THEN
       (advance ;;;
        r <-
          loop fuel
            (fun '(bases, keywords) =>
               IFM notM (matchOp ")") THEN
                 (stop <- (if nonEmpty bases || nonEmpty keywords
                           then (expectOp "," ;;; matchOp ")")
                           else ret false) ;;
                  if stop : bool then ret (inr (bases, keywords))
                  else
                    IFM andM (matchType NAME)
                             (next <- peekToken ;;
                              ret (str_eqb (tok_value next) (js "=")))
                    THEN
                      (argName <- advance ;;
                       advance ;;;
                       value <- parseExpr fuel self ;;
                       ret (inl (bases,
                                 keywords ++ [mkKeyword (Some (tok_value argName)) value])))
                    ELSE
                      (base <- parseExpr fuel self ;;
                       ret (inl (bases ++ [base], keywords))))
               ELSE ret (inr (bases, keywords)))
            ([], []) ;;
        expectOp ")" ;;;
        ret r)
     ELSE ret ([], [])) ;;
  expectOp ":" ;;;
  body <- parseSuite fuel self ;;
  ret (ClassDef name bases keywords body [] (optionalTypeParams typeParams)).

(** [else: suite], when present. *)
Definition parseOrelse (fuel : nat) (self : Methods) : M (list stmt) :=
  IFM matchKeyword "else" THEN
    (advance ;;; expectOp ":" ;;; parseSuite fuel self)
  ELSE ret [].

(** The part that [parseIf] and [parseElif] share after their keyword. *)
Definition parseIfBody (fuel : nat) (self : Methods) : M stmt :=
  advance ;;;
  test <- parseExpr fuel self ;;
  expectOp ":" ;;;
  body <- parseSuite fuel self ;;
  orelse <- (IFM matchKeyword "elif" THEN (s <- p_parseElif self ;; ret [s])
             ELSE parseOrelse fuel self) ;;
  ret (If test body orelse).

Definition parseElif (fuel : nat) (self : Methods) : M stmt := parseIfBody fuel self.
Definition parseIf (fuel : nat) (self : Methods) : M stmt := parseIfBody fuel self.

Definition parseFor (fuel : nat) (self : Methods) (isAsync : bool) : M stmt :=
  advance ;;;
  target <- parseTargetList fuel self ;;
  expectKeyword "in" ;;;
  iter <- parseExpr fuel self ;;
  expectOp ":" ;;;
  body <- parseSuite fuel self ;;
  orelse <- parseOrelse fuel self ;;
  ret ((if isAsync then AsyncFor else For) target iter body orelse).

Definition parseWhile (fuel : nat) (self : Methods) : M stmt :=
  advance ;;;
  test <- parseExpr fuel self ;;
  expectOp ":" ;;;
  body <- parseSuite fuel self ;;
  orelse <- parseOrelse fuel self ;;
  ret (While test body orelse).

Definition parseWith (fuel : nat) (self : Methods) (isAsync : bool) : M stmt :=
  advance ;;;
  items <-
    commaSeparated fuel
      (contextExpr <- parseExpr fuel self ;;
       optionalVars <- (IFM matchKeyword "as"
                        THEN (advance ;;; v <- parseExpr fuel self ;; ret (Some v))
                        ELSE ret None) ;;
       ret (mkWithitem contextExpr optionalVars)) ;;
  expectOp ":" ;;;
  body <- parseSuite fuel self ;;
  ret ((if isAsync then AsyncWith else With) items body).

Definition parseMatchCase (fuel : nat) (self : Methods) : M match_case :=
  advance ;;;
  pat <- parsePattern fuel self ;;
  guard <- (IFM matchKeyword "if" THEN (advance ;;; g <- parseExpr fuel self ;; ret (Some g))
            ELSE ret None) ;;
  expectOp ":" ;;;
  body <- parseSuite fuel self ;;
  ret (mkMatchCase pat guard body).

Definition parseMatch (fuel : nat) (self : Methods) : M stmt :=
  advance ;;;
  subject <- parseExpr fuel self ;;
  expectOp ":" ;;;
  (IFM matchType NEWLINE THEN (advance ;;; ret tt) ELSE ret tt) ;;;
  expect INDENT (Some []) ;;;
  cases <-
    while fuel (matchKeyword "case")
      (fun cases => c <- parseMatchCase fuel self ;; ret (cases ++ [c]))
      [] ;;
  (IFM matchType DEDENT THEN (advance ;;; ret tt) ELSE ret tt) ;;;
  ret (Match subject cases).

Definition parseExceptHandler (fuel : nat) (self : Methods) : M excepthandler :=
  advance ;;;
  '(type_, name) <-
    (IFM notM (matchOp ":") THEN
       (t <- parseExpr fuel self ;;
        n <- parseAsName ;;
        ret (Some t, n))
     ELSE ret (None, None)) ;;
  expectOp ":" ;;;
  body <- parseSuite fuel self ;;
  ret (ExceptHandler type_ name body).

Definition parseTry (fuel : nat) (self : Methods) : M stmt :=
  advance ;;;
  expectOp ":" ;;;
  body <- parseSuite fuel self ;;
  handlers <-
    while fuel (matchKeyword "except")
      (fun handlers => h <- parseExceptHandler fuel self ;; ret (handlers ++ [h]))
      [] ;;
  orelse <- parseOrelse fuel self ;;
  finalbody <- (IFM matchKeyword "finally" THEN
                  (advance ;;; expectOp ":" ;;; parseSuite fuel self)
                ELSE ret []) ;;
  ret (Try body handlers orelse finalbody).

(** [node.decorator_list = decorators] *)
Definition setDecorators (node : stmt) (decorators : list expr) : stmt :=
  match node with
  | FunctionDef name args body _ returns type_params =>
      FunctionDef name args body decorators returns type_params
  | AsyncFunctionDef name args body _ returns type_params =>
      AsyncFunctionDef name args body decorators returns type_params
  | ClassDef name bases keywords body _ type_params =>
      ClassDef name bases keywords body decorators type_params
  | other => other
  end.

Definition parseDecorated (fuel : nat) (self : Methods) : M stmt :=
  decorators <-
    while fuel (matchOp "@")
      (fun decorators =>
         advance ;;;
         d <- parseExpr fuel self ;;
         (IFM matchType NEWLINE THEN (advance ;;; ret tt) ELSE ret tt) ;;;
         ret (decorators ++ [d]))
      [] ;;
  node <-
    (IFM matchKeyword "async" THEN
       (advance ;;;
        IFM matchKeyword "def" THEN parseFunctionDef fuel self true
        ELSE throw (js "Expected def after async"))
     ELSE IFM matchKeyword "def" THEN parseFunctionDef fuel self false
     ELSE IFM matchKeyword "class" THEN parseClassDef fuel self
     ELSE throw (js "Expected class or def after decorator")) ;;
  ret (setDecorators node decorators).

Definition parseAsyncStatement (fuel : nat) (self : Methods) : M stmt :=
  advance ;;;
  IFM matchKeyword "def" THEN parseFunctionDef fuel self true
  ELSE IFM matchKeyword "for" THEN parseFor fuel self true
  ELSE IFM matchKeyword "with" THEN parseWith fuel self true
  ELSE throw (js "Expected def, for, or with after async").

Definition parseStatement (fuel : nat) (self : Methods) : M stmt :=
  IFM matchOp "@" THEN parseDecorated fuel self
  ELSE IFM matchKeyword "def" THEN parseFunctionDef fuel self false
  ELSE IFM matchKeyword "async" THEN parseAsyncStatement fuel self
  ELSE IFM matchKeyword "class" THEN parseClassDef fuel self
  ELSE IFM matchKeyword "if" THEN parseIf fuel self
  ELSE IFM matchKeyword "for" THEN parseFor fuel self false
  ELSE IFM matchKeyword "while" THEN parseWhile fuel self
  ELSE IFM matchKeyword "with" THEN parseWith fuel self false
  ELSE IFM matchKeyword "match" THEN parseMatch fuel self
  ELSE IFM matchKeyword "try" THEN parseTry fuel self
  ELSE IFM matchKeyword "type" THEN parseTypeAlias fuel self
  ELSE parseSimpleStatement fuel self.

(** The method [parse] of the class. *)
Definition parseModule (fuel : nat) (self : Methods) : M ModuleNode :=
  body <-
    loop fuel
      (fun body =>
         IFM notM (matchType ENDMARKER) THEN
           IFM orM (matchType NEWLINE) (matchType NL) THEN (advance ;;; ret (inl body))
           ELSE (stmt <- parseStatement fuel self ;; ret (inl (body ++ [stmt])))
         ELSE ret (inr body))
      [] ;;
  ret (Module body).

(** *** The methods at a recursion depth *)

Definition noMethods : Methods :=
  mkMethods outOfFuel outOfFuel outOfFuel outOfFuel outOfFuel outOfFuel outOfFuel
    outOfFuel outOfFuel outOfFuel.

Fixpoint methods (fuel : nat) : Methods :=
  match fuel with
  | 0 => noMethods
  | S fuel' =>
      let self := methods fuel' in
      mkMethods
        (parseExpr fuel' self)
        (parseTernary fuel' self)
        (parseNot fuel' self)
        (parseComparison fuel' self)
        (parseFactor fuel' self)
        (parseTarget fuel' self)
        (parseNotTest self)
        (parsePattern fuel' self)
        (parseStatement fuel' self)
        (parseElif fuel' self)
  end.

(** Running a method of a new parser on a source. *)
Definition runParser {A} (m : M A) (source : jsstring) : result A :=
  match newParser source with
  | Ok p =>
      match m p with
      | Ok (a, _) => Ok a
      | Throw e => Throw e
      | OutOfFuel => OutOfFuel
      end
  | Throw e => Throw e
  | OutOfFuel => OutOfFuel
  end.

(** The exported [parse] and [parseExpression]. *)
Definition parse (fuel : nat) (source : jsstring) : result ModuleNode :=
  runParser (parseModule fuel (methods fuel)) source.

Definition parseExpression (fuel : nat) (source : jsstring) : result expr :=
  runParser (parseExpr fuel (methods fuel)) source.

End Parser.

(* ================================================================== *)
(** ** Facts about strings and the matcher *)
(* ================================================================== *)

Module RegexFacts.

Lemma cu_eqb_eq (a b : cu) : cu_eqb a b = true <-> a = b.
Proof. apply N.eqb_eq. Qed.

Lemma cu_eqb_refl (a : cu) : cu_eqb a a = true.
Proof. apply N.eqb_refl. Qed.

Lemma startsWith_app (p s : jsstring) :
  startsWith p s = true <-> exists t, s = p ++ t.
Proof.
  revert s; induction p as [|x p IH]; intros s; simpl.
  - split; eauto.
  - destruct s as [|y s]; simpl.
    + split; [discriminate | intros [t Ht]; discriminate].
    + rewrite andb_true_iff, cu_eqb_eq, IH. split.
      * intros [-> [t ->]]. eauto.
      * intros [t Ht]. injection Ht as -> ->. eauto.
Qed.

(** Matching a literal text consumes exactly that text. *)
Lemma run_chars (w : jsstring) (r : regex) prev rest pos caps :
  run (List.map chr w ++ r) prev rest pos caps =
  if startsWith w rest
  then run r (prev_after prev rest (length w)) (skipn (length w) rest)
           (pos + length w) caps
  else None.
Proof.
  revert prev rest pos; induction w as [|x w IH]; intros prev rest pos; simpl.
  - now rewrite Nat.add_0_r.
  - destruct rest as [|c rest]; [reflexivity|].
    unfold chr at 1. cbn [run].
    destruct (cu_eqb x c) eqn:E; simpl; [|reflexivity].
    rewrite IH. replace (S pos + length w) with (pos + S (length w)) by lia.
    destruct (startsWith w rest); [|reflexivity].
    destruct w; reflexivity.
Qed.

Lemma span_le p l : span p l <= length l.
Proof. induction l; simpl; [lia|]. destruct (p a); simpl; lia. Qed.

Lemma span_spec p l :
  Forall (fun c => p c = true) (firstn (span p l) l) /\
  match skipn (span p l) l with
  | c :: _ => p c = false
  | [] => True
  end.
Proof.
  induction l as [|c l [IH1 IH2]]; [split; constructor|].
  cbn [span]. destruct (p c) eqn:E; cbn [firstn skipn]; split; auto.
Qed.

Lemma span_app p w l :
  Forall (fun c => p c = true) w ->
  match l with c :: _ => p c = false | [] => True end ->
  span p (w ++ l) = length w.
Proof.
  induction 1 as [|c w Hc Hw IH]; intros Hl.
  - destruct l; [reflexivity|]. cbn [app span]. now rewrite Hl.
  - cbn [app span length]. rewrite Hc. f_equal. auto.
Qed.

Lemma first_some_none {A B} (f : A -> option B) l :
  (forall a, In a l -> f a = None) -> first_some f l = None.
Proof.
  induction l; simpl; intros H; [reflexivity|].
  rewrite H by auto. auto.
Qed.

Lemma nth_span_in p l k : k < span p l -> exists c, nth_error l k = Some c /\ p c = true.
Proof.
  revert k; induction l as [|c l IH]; simpl; intros k Hk; [lia|].
  destruct (p c) eqn:E; [|lia].
  destruct k; simpl; eauto. apply IH. lia.
Qed.

Lemma skipn_nth_cons {A} (l : list A) k c :
  nth_error l k = Some c -> skipn k l = c :: skipn (S k) l.
Proof.
  revert k; induction l; intros [|k]; simpl; try discriminate.
  - now intros [= ->].
  - apply IHl.
Qed.

Lemma run_rep_eq g mn p r prev rest pos caps :
  run (Rep g mn p :: r) prev rest pos caps =
  first_some
    (fun k => run r (prev_after prev rest k) (skipn k rest) (pos + k) caps)
    (counts g mn (span p rest)).
Proof. reflexivity. Qed.

(** A greedy repetition followed by a character outside its class takes the
    whole run: no shorter count can succeed. *)
Lemma run_rep_greedy_cls mn p q r prev rest pos caps :
  (forall c, p c = true -> q c = false) ->
  run (Rep true mn p :: Cls q :: r) prev rest pos caps =
  if mn <=? span p rest
  then run (Cls q :: r) (prev_after prev rest (span p rest))
           (skipn (span p rest) rest) (pos + span p rest) caps
  else None.
Proof.
  intros Hpq. rewrite run_rep_eq. unfold counts.
  set (n := span p rest).
  destruct (Nat.leb_spec mn n) as [Hle|Hlt].
  - replace (n + 1 - mn) with (S (n - mn)) by lia.
    rewrite seq_S, rev_app_distr. cbn [rev app first_some].
    replace (mn + (n - mn)) with n by lia.
    destruct (run (Cls q :: r) (prev_after prev rest n) (skipn n rest) (pos + n) caps)
      as [res|] eqn:E; [reflexivity|]. clear E.
    apply first_some_none.
    intros k Hk. rewrite <- in_rev, in_seq in Hk.
    destruct (nth_span_in p rest k) as [c [Hc Hp]]; [fold n; lia|].
    cbv beta. rewrite (skipn_nth_cons rest k c Hc). cbn [run]. now rewrite (Hpq _ Hp).
  - replace (n + 1 - mn) with 0 by lia. reflexivity.
Qed.

(** A greedy repetition at the end of a pattern takes the whole run. *)
Lemma run_rep_greedy_end mn p prev rest pos caps :
  run [Rep true mn p] prev rest pos caps =
  if mn <=? span p rest then Some (pos + span p rest, caps) else None.
Proof.
  cbn [run]. unfold counts. set (n := span p rest).
  destruct (Nat.leb_spec mn n) as [Hle|Hlt].
  - replace (n + 1 - mn) with (S (n - mn)) by lia.
    rewrite seq_S, rev_app_distr. cbn [rev app first_some].
    now replace (mn + (n - mn)) with n by lia.
  - now replace (n + 1 - mn) with 0 by lia.
Qed.

Definition prev_at (s : jsstring) (q : nat) : option cu := prev_after None s q.

(** The matcher started at index [q] of [s]. *)
Definition run_at (r : regex) (s : jsstring) (q : nat) : option (nat * captures) :=
  run r (prev_at s q) (skipn q s) q [].

Lemma skipn_S_cons {A} (l : list A) pos :
  pos < length l -> exists c, skipn pos l = c :: skipn (S pos) l /\ nth_error l pos = Some c.
Proof.
  intros H. destruct (nth_error l pos) eqn:E.
  - exists a. split; auto. now apply skipn_nth_cons.
  - apply nth_error_None in E. lia.
Qed.

Lemma matchAll_from_0 r whole prev rest pos :
  matchAll_from r whole prev rest pos 0 =
  match run r prev rest pos [] with
  | Some (e, caps) =>
      mkMatch whole pos e caps ::
      match rest with
      | [] => []
      | c :: rest' => matchAll_from r whole (Some c) rest' (S pos) (e - pos - 1)
      end
  | None =>
      match rest with
      | [] => []
      | c :: rest' => matchAll_from r whole (Some c) rest' (S pos) 0
      end
  end.
Proof. destruct rest; reflexivity. Qed.

Lemma matchAll_from_S r whole prev c rest pos k :
  matchAll_from r whole prev (c :: rest) pos (S k) =
  matchAll_from r whole (Some c) rest (S pos) k.
Proof. reflexivity. Qed.

(** The global iteration reports every position where the pattern matches,
    as long as no earlier match runs over it. *)
Lemma matchAll_from_complete r whole p e caps :
  run_at r whole p = Some (e, caps) ->
  p <= length whole ->
  forall d pos skip,
    p - pos = d -> pos + skip <= p ->
    (forall q e' c', pos + skip <= q < p -> run_at r whole q = Some (e', c') -> e' <= p) ->
    In (mkMatch whole p e caps)
       (matchAll_from r whole (prev_at whole pos) (skipn pos whole) pos skip).
Proof.
  intros Hp Hlen. induction d as [|d IH]; intros pos skip Hd Hskip Hno.
  - assert (pos = p) by lia. subst pos. assert (skip = 0) by lia. subst skip.
    rewrite matchAll_from_0. unfold run_at in Hp. rewrite Hp. now left.
  - assert (Hlt : pos < length whole) by lia.
    destruct (skipn_S_cons whole pos Hlt) as [c [Hsk Hc]].
    assert (Hprev : prev_at whole (S pos) = Some c) by exact Hc.
    destruct skip as [|k]; rewrite Hsk;
      [rewrite matchAll_from_0 | rewrite matchAll_from_S].
    + destruct (run r (prev_at whole pos) (c :: skipn (S pos) whole) pos [])
        as [[e' c']|] eqn:E.
      * right. rewrite <- Hprev. apply IH; [lia| |].
        -- assert (e' <= p).
           { apply (Hno pos e' c'); [lia|]. unfold run_at. now rewrite Hsk. }
           lia.
        -- intros q e2 c2 Hq. apply Hno. lia.
      * rewrite <- Hprev. apply IH; [lia|lia|].
        intros q e2 c2 Hq. apply Hno. lia.
    + rewrite <- Hprev. apply IH; [lia|lia|].
      intros q e2 c2 Hq. apply Hno. lia.
Qed.


(** *** What a pattern matches

    [sem r prev rest w]: the text [w] is a way for [r] to match at the front
    of [rest] when [prev] is the character before it.  The matcher returns
    the first such text in backtracking order. *)
Fixpoint sem (r : regex) (prev : option cu) (rest w : jsstring) : Prop :=
  match r with
  | [] => w = []
  | Cls p :: r' =>
      exists c rest' w', rest = c :: rest' /\ p c = true /\ w = c :: w'
                         /\ sem r' (Some c) rest' w'
  | Rep _ mn p :: r' =>
      exists k w', mn <= k <= span p rest /\ w = firstn k rest ++ w'
                   /\ sem r' (prev_after prev rest k) (skipn k rest) w'
  | Bol :: r' => prev = None /\ sem r' prev rest w
  | Eol :: r' => rest = [] /\ sem r' prev rest w
  | WordB :: r' =>
      xorb (isWordOpt prev) (isWordOpt (hd_error rest)) = true /\ sem r' prev rest w
  | NotBehind p :: r' =>
      match prev with Some c => p c = false | None => True end /\ sem r' prev rest w
  | NotAhead p :: r' =>
      match rest with c :: _ => p c = false | [] => True end /\ sem r' prev rest w
  | Save _ :: r' => sem r' prev rest w
  end.

Lemma first_some_some {A B} (f : A -> option B) l b :
  first_some f l = Some b -> exists a, In a l /\ f a = Some b.
Proof.
  induction l as [|a l IH]; simpl; [discriminate|].
  destruct (f a) eqn:E.
  - intros [= <-]. eauto.
  - intros H. destruct (IH H) as [a' [? ?]]. eauto.
Qed.

Lemma first_some_not_none {A B} (f : A -> option B) l a :
  In a l -> f a <> None -> first_some f l <> None.
Proof.
  induction l as [|x l IH]; simpl; [tauto|].
  intros [->|Hin] Hf.
  - destruct (f a); [discriminate|congruence].
  - destruct (f x); [discriminate|auto].
Qed.

Lemma in_counts g mn mx k : In k (counts g mn mx) <-> mn <= k <= mx.
Proof.
  unfold counts. destruct g; [rewrite <- in_rev|]; rewrite in_seq; lia.
Qed.

Lemma firstn_span_length p rest k : k <= span p rest -> length (firstn k rest) = k.
Proof. intros H. rewrite length_firstn. pose proof (span_le p rest). lia. Qed.

(** The matcher only answers with texts the pattern matches. *)
Lemma run_sound r : forall prev rest pos caps e caps',
  run r prev rest pos caps = Some (e, caps') ->
  exists w, sem r prev rest w /\ e = pos + length w.
Proof.
  induction r as [|n r IH]; intros prev rest pos caps e caps' H.
  - injection H as <- <-. exists []. simpl. split; [reflexivity|lia].
  - destruct n; cbn [run] in H; cbn [sem].
    + destruct rest as [|c rest]; [discriminate|].
      destruct (p c) eqn:E; [|discriminate].
      destruct (IH _ _ _ _ _ _ H) as [w [Hw ->]].
      exists (c :: w). split; [|simpl; lia]. exists c, rest, w. auto.
    + apply first_some_some in H. destruct H as [k [Hk H]].
      apply in_counts in Hk.
      destruct (IH _ _ _ _ _ _ H) as [w [Hw ->]].
      exists (firstn k rest ++ w). split.
      * exists k, w. auto.
      * rewrite length_app, (firstn_span_length p); lia.
    + destruct prev; [discriminate|].
      destruct (IH _ _ _ _ _ _ H) as [w [Hw ->]]. eauto.
    + destruct rest; [|discriminate].
      destruct (IH _ _ _ _ _ _ H) as [w [Hw ->]]. eauto.
    + destruct (xorb _ _) eqn:E; [|discriminate].
      destruct (IH _ _ _ _ _ _ H) as [w [Hw ->]]. eauto.
    + destruct prev as [c|].
      * destruct (p c) eqn:E; [discriminate|].
        destruct (IH _ _ _ _ _ _ H) as [w [Hw ->]]. eauto.
      * destruct (IH _ _ _ _ _ _ H) as [w [Hw ->]]. eauto.
    + destruct rest as [|c rest'].
      * destruct (IH _ _ _ _ _ _ H) as [w [Hw ->]]. eauto.
      * destruct (p c) eqn:E; [discriminate|].
        destruct (IH _ _ _ _ _ _ H) as [w [Hw ->]]. eauto.
    + destruct (IH _ _ _ _ _ _ H) as [w [Hw ->]]. eauto.
Qed.

(** Backtracking is exhaustive: when the pattern can match, the matcher
    answers. *)
Lemma run_complete r : forall prev rest w pos caps,
  sem r prev rest w -> run r prev rest pos caps <> None.
Proof.
  induction r as [|n r IH]; intros prev rest w pos caps H.
  - discriminate.
  - destruct n; cbn [run]; cbn [sem] in H.
    + destruct H as [c [rest' [w' [-> [Hp [-> H]]]]]]. rewrite Hp. eauto.
    + destruct H as [k [w' [Hk [-> H]]]].
      apply first_some_not_none with (a := k); [apply in_counts; lia|eauto].
    + destruct H as [-> H]. eauto.
    + destruct H as [-> H]. eauto.
    + destruct H as [-> H]. eauto.
    + destruct H as [Hp H]. destruct prev; [rewrite Hp|]; eauto.
    + destruct H as [Hp H]. destruct rest; [|rewrite Hp]; eauto.
    + eauto.
Qed.

(** A matched text is a prefix of the input. *)
Lemma sem_prefix r : forall prev rest w,
  sem r prev rest w -> exists tail, rest = w ++ tail.
Proof.
  induction r as [|n r IH]; intros prev rest w H.
  - simpl in H. subst. now exists rest.
  - destruct n; cbn [sem] in H.
    + destruct H as [c [rest' [w' [-> [Hp [-> H]]]]]].
      destruct (IH _ _ _ H) as [t ->]. now exists t.
    + destruct H as [k [w' [Hk [-> H]]]].
      destruct (IH _ _ _ H) as [t Ht]. exists t.
      rewrite <- app_assoc, <- Ht. now rewrite firstn_skipn.
    + destruct H as [_ H]; eauto.
    + destruct H as [_ H]; eauto.
    + destruct H as [_ H]; eauto.
    + destruct H as [_ H]; eauto.
    + destruct H as [_ H]; eauto.
    + eauto.
Qed.

(** *** Searching *)

Lemma search_eq r whole prev rest pos :
  search r whole prev rest pos =
  match run r prev rest pos [] with
  | Some (e, caps) => Some (mkMatch whole pos e caps)
  | None =>
      match rest with
      | [] => None
      | c :: rest' => search r whole (Some c) rest' (S pos)
      end
  end.
Proof. destruct rest; reflexivity. Qed.

Lemma search_spec r whole : forall d pos,
  length whole - pos = d -> pos <= length whole ->
  match search r whole (prev_at whole pos) (skipn pos whole) pos with
  | Some m =>
      m_input m = whole /\ pos <= m_index m <= length whole /\
      run_at r whole (m_index m) = Some (m_end m, m_caps m) /\
      forall q, pos <= q < m_index m -> run_at r whole q = None
  | None => forall q, pos <= q <= length whole -> run_at r whole q = None
  end.
Proof.
  induction d as [|d IH]; intros pos Hd Hle.
  - assert (pos = length whole) by lia. subst pos.
    rewrite skipn_all. cbn [search].
    destruct (run r (prev_at whole (length whole)) [] (length whole) []) as [[e c]|] eqn:E.
    + cbn. split; [reflexivity|]. split; [lia|]. split.
      * unfold run_at. now rewrite skipn_all.
      * intros; lia.
    + intros q Hq. assert (q = length whole) by lia. subst q.
      unfold run_at. now rewrite skipn_all.
  - assert (Hlt : pos < length whole) by lia.
    destruct (skipn_S_cons whole pos Hlt) as [c [Hsk Hc]].
    rewrite search_eq.
    destruct (run r (prev_at whole pos) (skipn pos whole) pos []) as [[e c']|] eqn:E.
    + cbn. split; [reflexivity|]. split; [lia|]. split; [exact E|intros; lia].
    + rewrite Hsk, <- Hc.
      change (nth_error whole pos) with (prev_at whole (S pos)).
      specialize (IH (S pos)).
      destruct (search r whole (prev_at whole (S pos)) (skipn (S pos) whole) (S pos)) as [m|].
      * destruct IH as [H1 [H2 [H3 H4]]]; [lia|lia|].
        split; [exact H1|]. split; [lia|]. split; [exact H3|].
        intros q Hq. destruct (Nat.eq_dec q pos) as [->|]; [exact E|apply H4; lia].
      * intros q Hq. destruct (Nat.eq_dec q pos) as [->|]; [exact E|apply IH; lia].
Qed.

Lemma exec_some r s m :
  exec r s = Some m ->
  m_input m = s /\ m_index m <= length s /\
  run_at r s (m_index m) = Some (m_end m, m_caps m) /\
  forall q, q < m_index m -> run_at r s q = None.
Proof.
  intros H. pose proof (search_spec r s (length s) 0) as S.
  unfold exec in H. change (search r s (prev_at s 0) (skipn 0 s) 0 = Some m) in H.
  rewrite H in S. destruct S as [H1 [H2 [H3 H4]]]; [lia|lia|].
  split; [exact H1|]. split; [lia|]. split; [exact H3|]. intros; apply H4; lia.
Qed.

Lemma exec_none r s :
  exec r s = None -> forall q, q <= length s -> run_at r s q = None.
Proof.
  intros H. pose proof (search_spec r s (length s) 0) as S.
  unfold exec in H. change (search r s (prev_at s 0) (skipn 0 s) 0 = None) in H.
  rewrite H in S. intros q Hq. apply S; lia.
Qed.

Lemma exec_complete r s q e c :
  q <= length s -> run_at r s q = Some (e, c) -> exec r s <> None.
Proof.
  intros Hq H Hn. rewrite (exec_none r s Hn q Hq) in H. discriminate.
Qed.

End RegexFacts.

Import RegexFacts.

(* ================================================================== *)
(** ** Facts about lines *)
(* ================================================================== *)

Module LineFacts.

Lemma In_firstn {A} (x : A) n l : In x (firstn n l) -> In x l.
Proof.
  revert n; induction l as [|a l IH]; intros [|n]; simpl; try tauto.
  intros [->|H]; eauto.
Qed.

Lemma In_skipn {A} (x : A) n l : In x (skipn n l) -> In x l.
Proof.
  revert n; induction l as [|a l IH]; intros [|n]; simpl; try tauto.
  intros H; eauto.
Qed.

(** Number of separators in a text. *)
Fixpoint count (sep : cu) (s : jsstring) : nat :=
  match s with
  | [] => 0
  | c :: s' => (if cu_eqb c sep then 1 else 0) + count sep s'
  end.

Lemma count_app sep a b : count sep (a ++ b) = count sep a + count sep b.
Proof. induction a; simpl; lia. Qed.

Lemma count_0_notin sep s : count sep s = 0 <-> ~ In sep s.
Proof.
  induction s as [|c s IH]; simpl; [tauto|].
  destruct (cu_eqb c sep) eqn:E.
  - apply cu_eqb_eq in E. subst. split; [discriminate|tauto].
  - assert (c <> sep) by (intros ->; rewrite cu_eqb_refl in E; discriminate).
    simpl. rewrite IH. tauto.
Qed.

Lemma split_nonempty sep s : split sep s <> [].
Proof.
  destruct s as [|c s]; simpl; [discriminate|].
  destruct (cu_eqb c sep); [discriminate|].
  destruct (split sep s); discriminate.
Qed.

Lemma split_length sep s : length (split sep s) = S (count sep s).
Proof.
  induction s as [|c s IH]; simpl; [reflexivity|].
  destruct (cu_eqb c sep); simpl; [now rewrite IH|].
  destruct (split sep s) eqn:E; simpl in *; lia.
Qed.

(** The pieces of a split hold no separator. *)
Lemma split_no_sep sep s : Forall (fun l => ~ In sep l) (split sep s).
Proof.
  induction s as [|c s IH]; simpl.
  - constructor; [tauto|constructor].
  - destruct (cu_eqb c sep) eqn:E.
    + constructor; [tauto|exact IH].
    + destruct (split sep s) as [|l ls]; [constructor; [|constructor]|].
      * intros [->|[]]. rewrite cu_eqb_refl in E. discriminate.
      * inversion IH; subst. constructor; [|assumption].
        intros [->|Hin]; [rewrite cu_eqb_refl in E; discriminate|tauto].
Qed.

(** Joining the pieces of a split gives the text back. *)
Lemma join_split sep s : join [sep] (split sep s) = s.
Proof.
  induction s as [|c s IH]; simpl; [reflexivity|].
  destruct (cu_eqb c sep) eqn:E.
  - apply cu_eqb_eq in E. subst c.
    pose proof (split_nonempty sep s).
    destruct (split sep s) eqn:E'; [tauto|].
    simpl in *. now rewrite IH.
  - destruct (split sep s) as [|l ls] eqn:E'; [now destruct (split_nonempty sep s)|].
    simpl in *. destruct ls; simpl in *; now rewrite <- IH.
Qed.

Lemma split_app_nosep sep l s :
  ~ In sep l ->
  split sep (l ++ s) =
  match split sep s with
  | x :: xs => (l ++ x) :: xs
  | [] => [l]
  end.
Proof.
  induction l as [|c l IH]; intros Hn; simpl.
  - destruct (split sep s) eqn:E; [now destruct (split_nonempty sep s)|reflexivity].
  - destruct (cu_eqb c sep) eqn:E.
    + apply cu_eqb_eq in E. subst. simpl in Hn. tauto.
    + rewrite IH by (simpl in Hn; tauto).
      destruct (split sep s); reflexivity.
Qed.

(** Splitting a join of separator-free lines gives the lines back. *)
Lemma split_join sep ls :
  ls <> [] -> Forall (fun l => ~ In sep l) ls -> split sep (join [sep] ls) = ls.
Proof.
  induction ls as [|l ls IH]; intros Hne Hall; [congruence|].
  inversion Hall as [|? ? Hl Hls]; subst.
  destruct ls as [|l' ls'].
  - simpl. rewrite <- (app_nil_r l) at 1. rewrite split_app_nosep by assumption.
    simpl. now rewrite app_nil_r.
  - change (join [sep] (l :: l' :: ls')) with (l ++ sep :: join [sep] (l' :: ls')).
    rewrite split_app_nosep by assumption.
    cbn [split]. rewrite cu_eqb_refl. rewrite IH by (auto; discriminate).
    now rewrite app_nil_r.
Qed.

(** A line of a text, with what is before and after it. *)
Lemma split_nth sep : forall s i line,
  nth_error (split sep s) i = Some line ->
  exists pre post,
    s = pre ++ line ++ post /\ count sep pre = i /\ ~ In sep line /\
    (pre = [] \/ exists pre0, pre = pre0 ++ [sep]) /\
    (post = [] \/ exists post0, post = sep :: post0).
Proof.
  induction s as [|c s IH]; intros i line H.
  - simpl in H. destruct i as [|[|i]]; simpl in H; try discriminate.
    injection H as <-. exists [], []. simpl. intuition.
  - simpl in H. destruct (cu_eqb c sep) eqn:E.
    + apply cu_eqb_eq in E. subst c. destruct i as [|i]; simpl in H.
      * injection H as <-. exists [], (sep :: s). simpl. intuition eauto.
      * destruct (IH _ _ H) as [pre [post [-> [Hc [Hn [Hpre Hpost]]]]]].
        exists (sep :: pre), post. simpl. rewrite cu_eqb_refl.
        split; [reflexivity|]. split; [lia|]. split; [assumption|]. split; [|assumption].
        right. destruct Hpre as [->|[pre0 ->]]; [exists []|exists (sep :: pre0)]; reflexivity.
    + assert (Hcs : c <> sep) by (intros ->; rewrite cu_eqb_refl in E; discriminate).
      destruct (split sep s) as [|l ls] eqn:E'; [now destruct (split_nonempty sep s)|].
      destruct i as [|i]; simpl in H.
      * injection H as <-.
        destruct (IH 0 l eq_refl) as [pre [post [-> [Hc [Hn [Hpre Hpost]]]]]].
        assert (pre = []) as ->.
        { destruct Hpre as [->|[pre0 ->]]; [reflexivity|].
          rewrite count_app in Hc. simpl in Hc. rewrite cu_eqb_refl in Hc. lia. }
        exists [], post. simpl. split; [reflexivity|]. split; [reflexivity|].
        split; [|split; [now left|assumption]].
        intros [->|Hin]; tauto.
      * destruct (IH (S i) line H) as [pre [post [-> [Hc [Hn [Hpre Hpost]]]]]].
        exists (c :: pre), post. simpl. rewrite E. simpl.
        split; [reflexivity|]. split; [assumption|]. split; [assumption|]. split; [|assumption].
        right. destruct Hpre as [->|[pre0 ->]]; [simpl in Hc; lia|].
        now exists (c :: pre0).
Qed.

End LineFacts.

Import LineFacts.

(* ================================================================== *)
(** ** The safety analyzer *)
(* ================================================================== *)

Module SafetyProofs.

Import Safety.

(** The two-line source of the scenario. *)
Definition scenario_os : jsstring :=
  js "import os" ++ [LF] ++ js "os.system('rm -rf /')".

Lemma applyRule_in code rule v :
  In v (applyRule code rule) <->
  exists pattern m,
    In pattern (patterns rule) /\ In m (matchAll pattern code) /\
    skipped rule code m = false /\
    v = mkViolation (type rule) (getMessage rule m)
          (Some (getLineNumber code (m_index m))) (severity rule).
Proof.
  unfold applyRule. rewrite in_flat_map. split.
  - intros [pattern [Hp Hv]]. apply in_flat_map in Hv. destruct Hv as [m [Hm Hv]].
    destruct (skipped rule code m) eqn:E; [destruct Hv|].
    destruct Hv as [<-|[]]. exists pattern, m. auto.
  - intros [pattern [m [Hp [Hm [Hs ->]]]]]. exists pattern. split; [assumption|].
    apply in_flat_map. exists m. split; [assumption|]. rewrite Hs. now left.
Qed.

Lemma analyze_in code v :
  In v (violations (analyze code)) <->
  exists rule, In rule allRules /\ In v (applyRule code rule).
Proof. unfold analyze. cbn [violations]. apply in_flat_map. Qed.

(** Only the two loop rules report [infinite_loop], and both carry the
    [break] test as their skip condition. *)
Lemma infinite_loop_rules :
  Forall (fun rule =>
            type rule = infinite_loop ->
            skipIf rule = Some (fun code _ => test break_re code))
         allRules.
Proof. repeat constructor; discriminate. Qed.

Definition while_re (kw : jsstring) : regex :=
  List.map chr (js "while") ++ [Rep true 1 isWhiteSpace] ++ List.map chr kw
  ++ [Rep true 0 isWhiteSpace] ++ List.map chr (js ":").

(** The texts matched by [while_re kw]. *)
Definition while_text (kw w : jsstring) : Prop :=
  exists w1 w2,
    w1 <> [] /\ Forall (fun c => isWhiteSpace c = true) w1 /\
    Forall (fun c => isWhiteSpace c = true) w2 /\
    w = js "while" ++ w1 ++ kw ++ w2 ++ js ":".

Lemma sem_chars w r prev rest t :
  sem (List.map chr w ++ r) prev rest t <->
  exists rest' t', rest = w ++ rest' /\ t = w ++ t' /\
                   sem r (prev_after prev rest (length w)) rest' t'.
Proof.
  revert prev rest t. induction w as [|x w IH]; intros prev rest t.
  - simpl. split; [intros H; exists rest, t; auto|intros [r' [t' [-> [-> H]]]]; exact H].
  - cbn [List.map app sem chr]. split.
    + intros [c [rest' [w' [-> [Hp [-> H]]]]]]. apply cu_eqb_eq in Hp. subst c.
      apply IH in H. destruct H as [r2 [t2 [-> [-> H]]]].
      exists r2, t2. split; [reflexivity|]. split; [reflexivity|].
      destruct w; exact H.
    + intros [r2 [t2 [-> [-> H]]]]. exists x, (w ++ r2), (w ++ t2).
      split; [reflexivity|]. split; [apply cu_eqb_refl|]. split; [reflexivity|].
      apply IH. exists r2, t2. split; [reflexivity|]. split; [reflexivity|].
      destruct w; exact H.
Qed.

Lemma Forall_ws_span w l :
  Forall (fun c => isWhiteSpace c = true) w -> length w <= span isWhiteSpace (w ++ l).
Proof.
  induction 1 as [|c w Hc Hw IH]; cbn [app span length]; [lia|].
  rewrite Hc. lia.
Qed.

Lemma firstn_span_all p rest k :
  k <= span p rest -> Forall (fun c => p c = true) (firstn k rest).
Proof.
  revert k. induction rest as [|c rest IH]; intros k Hk.
  - rewrite firstn_nil. constructor.
  - destruct k; [constructor|]. cbn [span] in Hk. cbn [firstn].
    destruct (p c) eqn:E; [|lia]. constructor; [assumption|apply IH; lia].
Qed.

Lemma sem_while kw prev rest w :
  sem (while_re kw) prev rest w <->
  while_text kw w /\ exists tail, rest = w ++ tail.
Proof.
  unfold while_re, while_text. split.
  - intros H. split; [|eapply sem_prefix; exact H].
    apply sem_chars in H. destruct H as [r1 [t1 [-> [-> H]]]].
    cbn [app sem] in H. destruct H as [k [t2 [Hk [-> H]]]].
    apply sem_chars in H. destruct H as [r3 [t3 [Hr3 [-> H]]]].
    cbn [app sem] in H. destruct H as [k' [t4 [Hk' [-> H]]]].
    change (List.map chr (js ":")) with [chr 58%N] in H. cbn [sem chr] in H.
    destruct H as [c [r5 [t5 [Hr5 [Hc [-> H]]]]]]. subst t5.
    apply cu_eqb_eq in Hc. subst c.
    exists (firstn k r1), (firstn k' r3).
    split. { intros E. apply (f_equal (@length _)) in E.
             rewrite (firstn_span_length isWhiteSpace) in E by lia. simpl in E. lia. }
    split; [apply firstn_span_all; lia|].
    split; [apply firstn_span_all; lia|].
    reflexivity.
  - intros [[w1 [w2 [Hne [H1 [H2 ->]]]]] [tail ->]].
    rewrite <- !app_assoc.
    apply sem_chars. eexists _, _. split; [reflexivity|]. split; [reflexivity|].
    cbn [app sem]. exists (length w1), (kw ++ w2 ++ js ":").
    split. { split; [destruct w1; [congruence|simpl; lia]|apply Forall_ws_span; assumption]. }
    rewrite firstn_app, firstn_all, Nat.sub_diag, firstn_O, app_nil_r.
    split; [reflexivity|].
    rewrite skipn_app, skipn_all, Nat.sub_diag, skipn_O. cbn [app].
    apply sem_chars. eexists _, _. split; [reflexivity|]. split; [reflexivity|].
    cbn [app sem]. exists (length w2), (js ":").
    split. { split; [lia|apply Forall_ws_span; assumption]. }
    rewrite firstn_app, firstn_all, Nat.sub_diag, firstn_O, app_nil_r.
    split; [reflexivity|].
    rewrite skipn_app, skipn_all, Nat.sub_diag, skipn_O. cbn [app].
    change (List.map chr (js ":")) with [chr 58%N]. cbn [sem chr].
    exists 58%N, tail, []. repeat split.
Qed.


Definition LOWER_W : cu := 119%N.

(** A matched text starts with its only [w]. *)
Lemma while_text_w kw w :
  ~ In LOWER_W kw -> while_text kw w ->
  exists u, w = LOWER_W :: u /\ ~ In LOWER_W u.
Proof.
  intros Hkw [w1 [w2 [_ [H1 [H2 ->]]]]].
  exists (js "hile" ++ w1 ++ kw ++ w2 ++ js ":"). split; [reflexivity|].
  rewrite !in_app_iff. intros [H|[H|[H|[H|H]]]].
  - vm_compute in H. intuition discriminate.
  - rewrite Forall_forall in H1. specialize (H1 _ H). discriminate.
  - tauto.
  - rewrite Forall_forall in H2. specialize (H2 _ H). discriminate.
  - vm_compute in H. intuition discriminate.
Qed.

Lemma nth_error_skipn_0 {A} (l : list A) p : nth_error (skipn p l) 0 = nth_error l p.
Proof. rewrite nth_error_skipn. f_equal. lia. Qed.

(** Two matches of a [while] pattern never overlap. *)
Lemma while_no_overlap kw code p q e' c' w tail :
  ~ In LOWER_W kw ->
  skipn p code = w ++ tail -> while_text kw w ->
  q < p -> run_at (while_re kw) code q = Some (e', c') -> e' <= p.
Proof.
  intros Hkw Hp Hw Hq Hrun.
  destruct (while_text_w _ _ Hkw Hw) as [u [-> _]].
  apply run_sound in Hrun. destruct Hrun as [w' [Hsem ->]].
  apply sem_while in Hsem. destruct Hsem as [Hw' [tail' Hq']].
  destruct (while_text_w _ _ Hkw Hw') as [u' [-> Hu']].
  destruct (Nat.le_gt_cases (q + length (LOWER_W :: u')) p) as [|Hgt]; [assumption|].
  exfalso. apply Hu'.
  assert (Hn : nth_error code p = Some LOWER_W).
  { rewrite <- nth_error_skipn_0, Hp. reflexivity. }
  assert (Hn' : nth_error (skipn q code) (p - q) = Some LOWER_W).
  { rewrite nth_error_skipn. replace (q + (p - q)) with p by lia. exact Hn. }
  rewrite Hq' in Hn'. simpl length in Hgt.
  rewrite nth_error_app1 in Hn' by (simpl; lia).
  destruct (p - q) as [|j] eqn:Ej; [lia|]. simpl in Hn'.
  eapply nth_error_In; exact Hn'.
Qed.

(** Every line holding a match of a [while] pattern is found by the global
    iteration over the whole source, on that line. *)
Lemma while_line_reported kw code i line :
  ~ In LOWER_W kw ->
  nth_error (split LF code) i = Some line ->
  test (while_re kw) line = true ->
  exists m, In m (matchAll (while_re kw) code)
            /\ getLineNumber code (m_index m) = S i.
Proof.
  intros Hkw Hline Htest.
  unfold test in Htest. destruct (exec (while_re kw) line) as [m0|] eqn:E; [|discriminate].
  apply exec_some in E. destruct E as [_ [Ho [Hrun _]]].
  set (o := m_index m0) in *.
  apply run_sound in Hrun. destruct Hrun as [w [Hsem _]].
  apply sem_while in Hsem. destruct Hsem as [Hw [tail Htail]].
  destruct (split_nth LF code i line Hline) as [pre [post [Hcode [Hcount [Hnl _]]]]].
  set (p := length pre + o).
  assert (Hskip : skipn p code = w ++ (tail ++ post)).
  { subst code p. rewrite skipn_app.
    replace (length pre + o - length pre) with o by lia.
    rewrite (skipn_all2 pre) by lia. cbn [app].
    rewrite skipn_app. replace (o - length line) with 0 by lia.
    rewrite skipn_O, Htail. now rewrite app_assoc. }
  assert (Hple : p <= length code).
  { subst code p. rewrite !length_app. lia. }
  destruct (run_at (while_re kw) code p) as [[e caps]|] eqn:Erun.
  2:{ exfalso. revert Erun. unfold run_at. eapply run_complete.
      apply sem_while. split; [exact Hw|]. eauto. }
  exists (mkMatch code p e caps). split.
  - change (matchAll (while_re kw) code)
      with (matchAll_from (while_re kw) code (prev_at code 0) (skipn 0 code) 0 0).
    eapply matchAll_from_complete; eauto; [lia|].
    intros q e' c' Hq Hr. eapply while_no_overlap; eauto. lia.
  - cbn [m_index]. unfold getLineNumber. rewrite split_length. f_equal.
    subst code p. rewrite firstn_app.
    replace (length pre + o - length pre) with o by lia.
    rewrite (firstn_all2 pre) by lia. rewrite count_app, Hcount.
    rewrite firstn_app. replace (o - length line) with 0 by lia.
    rewrite firstn_O, app_nil_r.
    assert (count LF (firstn o line) = 0); [|lia].
    apply count_0_notin. intros Hin. apply Hnl. eapply In_firstn; eauto.
Qed.

Lemma whileTrue_re_eq : whileTrue_re = while_re (js "True").
Proof. reflexivity. Qed.

Lemma while1_re_eq : while1_re = while_re (js "1").
Proof. reflexivity. Qed.


Lemma applyRule_type code rule v :
  In v (applyRule code rule) ->
  v_type v = type rule /\ v_severity v = severity rule /\
  exists m, skipped rule code m = false.
Proof.
  intros H. apply applyRule_in in H. destruct H as [pat [m [_ [_ [Hs ->]]]]].
  cbn. eauto.
Qed.

(** C1, as the specification states it, does not hold: the report for the
    scenario has no [command_injection] violation. *)
Lemma C1_counterexample :
  ~ (safe (analyze scenario_os) = false /\
     (exists v, In v (violations (analyze scenario_os)) /\
                v_type v = dangerous_import /\ v_line v = Some 1 /\
                includes (js "os") (v_message v) = true) /\
     (exists v, In v (violations (analyze scenario_os)) /\
                v_type v = command_injection)).
Proof.
  intros [_ [_ [v [Hin Hty]]]].
  vm_compute in Hin. destruct Hin as [<-|[]]. discriminate.
Qed.

(** C1 (amended): for the two-line source [import os], [os.system('rm -rf /')]
    the analyzer returns [safe = false] with exactly one violation: a
    [dangerous_import] error on line 1 whose message names the os module.
    No [command_injection] violation is reported, since the [os.system] rule
    asks for an f-string argument. *)
Theorem C1_scenario_os_report :
  analyze scenario_os =
  mkReport false
    [ mkViolation dangerous_import
        (js "Dangerous import: os module allows system access") (Some 1) error ]
  /\ includes (js "os") (js "Dangerous import: os module allows system access") = true
  /\ forall v, In v (violations (analyze scenario_os)) -> v_type v <> command_injection.
Proof.
  split; [vm_compute; reflexivity|]. split; [vm_compute; reflexivity|].
  intros v Hin. vm_compute in Hin. destruct Hin as [<-|[]]. discriminate.
Qed.

(** C9: the report of [analyze] has [safe = true] exactly when its list of
    violations is empty. *)
Theorem C9_safe_iff_no_violations (code : jsstring) :
  safe (analyze code) = true <-> violations (analyze code) = [].
Proof.
  unfold analyze. cbn [safe violations].
  rewrite Nat.eqb_eq. apply length_zero_iff_nil.
Qed.

(** C7: when the token [break] occurs anywhere in the source, [analyze]
    reports no [infinite_loop] violation at all; when it occurs nowhere,
    every line that matches the [while True:] pattern, or the [while 1:]
    pattern, gets an [infinite_loop] violation of severity [warning] carrying
    the number of that line.  An [infinite_loop] violation is always a
    warning. *)
Theorem C7_infinite_loop_and_break (code : jsstring) :
  (test break_re code = true ->
   forall v, In v (violations (analyze code)) -> v_type v <> infinite_loop)
  /\
  (test break_re code = false ->
   forall i line, nth_error (split LF code) i = Some line ->
     (test whileTrue_re line = true ->
      In (mkViolation infinite_loop whileTrue_msg (Some (S i)) warning)
         (violations (analyze code)))
     /\
     (test while1_re line = true ->
      In (mkViolation infinite_loop while1_msg (Some (S i)) warning)
         (violations (analyze code))))
  /\
  (forall v, In v (violations (analyze code)) ->
             v_type v = infinite_loop -> v_severity v = warning).
Proof.
  split; [|split].
  - intros Hbreak v Hin Hty.
    apply analyze_in in Hin. destruct Hin as [rule [Hrule Hin]].
    apply applyRule_type in Hin. destruct Hin as [Ht [_ [m Hs]]].
    pose proof infinite_loop_rules as Hall. rewrite Forall_forall in Hall.
    specialize (Hall rule Hrule). rewrite <- Ht, Hty in Hall.
    unfold skipped in Hs. rewrite (Hall eq_refl) in Hs. congruence.
  - intros Hbreak i line Hline. split; intros Htest.
    + rewrite whileTrue_re_eq in Htest.
      destruct (while_line_reported (js "True") code i line) as [m [Hm Hl]]; auto.
      { vm_compute. intuition discriminate. }
      apply analyze_in.
      exists (mkRule infinite_loop [ whileTrue_re ] (fun _ => whileTrue_msg)
                warning (Some (fun code _ => test break_re code))).
      split; [unfold allRules, infiniteLoopRules; rewrite !in_app_iff; simpl; tauto|].
      apply applyRule_in. exists whileTrue_re, m.
      split; [now left|]. split; [exact Hm|]. split; [exact Hbreak|].
      cbn. now rewrite Hl.
    + rewrite while1_re_eq in Htest.
      destruct (while_line_reported (js "1") code i line) as [m [Hm Hl]]; auto.
      { vm_compute. intuition discriminate. }
      apply analyze_in.
      exists (mkRule infinite_loop [ while1_re ] (fun _ => while1_msg)
                warning (Some (fun code _ => test break_re code))).
      split; [unfold allRules, infiniteLoopRules; rewrite !in_app_iff; simpl; tauto|].
      apply applyRule_in. exists while1_re, m.
      split; [now left|]. split; [exact Hm|]. split; [exact Hbreak|].
      cbn. now rewrite Hl.
  - intros v Hin Hty.
    apply analyze_in in Hin. destruct Hin as [rule [Hrule Hin]].
    apply applyRule_type in Hin. destruct Hin as [Ht [Hs _]].
    rewrite Hs. rewrite Ht in Hty. clear - Hrule Hty.
    unfold allRules in Hrule. rewrite !in_app_iff in Hrule. simpl in Hrule.
    repeat match goal with
           | H : _ \/ _ |- _ => destruct H as [H|H]
           | H : False |- _ => destruct H
           | H : _ = rule |- _ => subst rule; try discriminate; try reflexivity
           end.
Qed.

Definition loop_with_break : jsstring :=
  js "while True:" ++ [LF] ++ js "    break".
Definition loop_without_break : jsstring :=
  js "x = 0" ++ [LF] ++ js "while True:".

(** C7 on two sources: a loop with a [break] further down, and one without. *)
Lemma C7_witness :
  (test break_re loop_with_break = true /\
   forall v, In v (violations (analyze loop_with_break)) ->
             v_type v <> infinite_loop)
  /\
  (test break_re loop_without_break = false /\
   nth_error (split LF loop_without_break) 1 = Some (js "while True:") /\
   test whileTrue_re (js "while True:") = true /\
   In (mkViolation infinite_loop whileTrue_msg (Some 2) warning)
      (violations (analyze loop_without_break))).
Proof.
  assert (H1 : test break_re loop_with_break = true) by (vm_compute; reflexivity).
  assert (H2 : test break_re loop_without_break = false) by (vm_compute; reflexivity).
  assert (H3 : nth_error (split LF loop_without_break) 1 = Some (js "while True:"))
    by (vm_compute; reflexivity).
  assert (H4 : test whileTrue_re (js "while True:") = true) by (vm_compute; reflexivity).
  split; [split; [exact H1|]|split; [exact H2|split; [exact H3|split; [exact H4|]]]].
  - exact (proj1 (C7_infinite_loop_and_break loop_with_break) H1).
  - exact (proj1 (proj1 (proj2 (C7_infinite_loop_and_break loop_without_break))
                    H2 1 (js "while True:") H3) H4).
Defined.

End SafetyProofs.

(* ================================================================== *)
(** ** The transformation passes *)
(* ================================================================== *)

Module TransformProofs.

Import Transform.

(** *** Replacing every match *)

Lemma replace_from_0 r by_ prev rest pos :
  replace_from r by_ prev rest pos 0 =
  match run r prev rest pos [] with
  | Some (e, _) =>
      by_ ++
      match rest with
      | [] => []
      | c :: rest' =>
          (if Nat.eqb e pos then [c] else []) ++
          replace_from r by_ (Some c) rest' (S pos) (e - pos - 1)
      end
  | None =>
      match rest with
      | [] => []
      | c :: rest' => c :: replace_from r by_ (Some c) rest' (S pos) 0
      end
  end.
Proof. destruct rest; reflexivity. Qed.

(** Skipping the rest of a match resumes the scan right after it. *)
Lemma replace_from_skip r by_ : forall k rest prev pos,
  k <= length rest ->
  replace_from r by_ prev rest pos k =
  replace_from r by_ (prev_after prev rest k) (skipn k rest) (pos + k) 0.
Proof.
  induction k as [|k IH]; intros rest prev pos Hk.
  - simpl. now rewrite Nat.add_0_r.
  - destruct rest as [|c rest]; [simpl in Hk; lia|].
    cbn [replace_from]. rewrite IH by (simpl in Hk; lia).
    replace (S pos + k) with (pos + S k) by lia.
    destruct k; reflexivity.
Qed.

(** No text matches [r] at the front of [rest]. *)
Definition no_match (r : regex) (prev : option cu) (rest : jsstring) : Prop :=
  forall w, ~ sem r prev rest w.

Lemma run_none_iff r prev rest pos caps :
  run r prev rest pos caps = None <-> no_match r prev rest.
Proof.
  split.
  - intros H w Hw. exact (run_complete r prev rest w pos caps Hw H).
  - intros H. destruct (run r prev rest pos caps) as [[e c]|] eqn:E; [|reflexivity].
    apply run_sound in E. destruct E as [w [Hw _]]. now destruct (H w).
Qed.

(** No position of [t] starts a match. *)
Fixpoint clean (r : regex) (prev : option cu) (t : jsstring) : Prop :=
  no_match r prev t /\
  match t with
  | [] => True
  | c :: t' => clean r (Some c) t'
  end.

(** Replacing in a text without matches changes nothing. *)
Lemma replace_clean r by_ : forall t prev pos,
  clean r prev t -> replace_from r by_ prev t pos 0 = t.
Proof.
  induction t as [|c t IH]; intros prev pos [Hn Hc]; rewrite replace_from_0;
    rewrite (proj2 (run_none_iff r prev _ pos []) Hn); [reflexivity|].
  f_equal. now apply IH.
Qed.

(** *** [mockInput] *)

Definition input_text (w : jsstring) : Prop :=
  exists ws, Forall (fun c => isWhiteSpace c = true) ws
             /\ w = js "input" ++ ws ++ js "(".

Lemma sem_input prev rest w :
  sem input_re prev rest w ->
  isWordOpt prev = false /\ input_text w /\ exists tail, rest = w ++ tail.
Proof.
  intros H. pose proof (sem_prefix _ _ _ _ H) as Hpre.
  unfold input_re in H. cbn [app sem] in H. destruct H as [Hb H].
  apply SafetyProofs.sem_chars in H. destruct H as [r1 [t1 [-> [-> H]]]].
  cbn [app sem] in H. destruct H as [k [t2 [Hk [-> H]]]].
  change (lit "(") with [chr 40%N] in H. cbn [sem chr] in H.
  destruct H as [c [r3 [t3 [Hr3 [Hc [-> ->]]]]]].
  apply cu_eqb_eq in Hc. subst c.
  split; [|split; [|exact Hpre]].
  - cbn in Hb. now destruct (isWordOpt prev).
  - exists (firstn k r1). split; [|reflexivity].
    apply SafetyProofs.firstn_span_all with (p := isWhiteSpace). lia.
Qed.

Definition LOWER_A : cu := 97%N.

Lemma input_text_no_a w : input_text w -> ~ In LOWER_A w.
Proof.
  intros [ws [Hws ->]]. rewrite !in_app_iff. intros [H|[H|H]].
  - vm_compute in H. intuition discriminate.
  - rewrite Forall_forall in Hws. specialize (Hws _ H). discriminate.
  - vm_compute in H. intuition discriminate.
Qed.

Lemma input_text_length w : input_text w -> 6 <= length w.
Proof.
  intros [ws [_ ->]]. rewrite !length_app.
  change (length (js "input")) with 5. change (length (js "(")) with 1. lia.
Qed.

Lemma input_text_last w : input_text w -> nth_error w (length w - 1) = Some 40%N.
Proof.
  intros [ws [_ ->]]. rewrite !app_assoc, length_app.
  change (length (js "(")) with 1.
  rewrite nth_error_app2 by lia.
  replace (_ - _) with 0 by lia. reflexivity.
Qed.

(** The output agrees with the input up to the first replacement, which
    starts with the letter a. *)
Fixpoint agree (i o : jsstring) {struct o} : Prop :=
  match o with
  | [] => True
  | c :: o' =>
      c = LOWER_A \/
      match i with
      | c' :: i' => c' = c /\ agree i' o'
      | [] => False
      end
  end.

Lemma agree_prefix : forall w i tail,
  agree i (w ++ tail) -> ~ In LOWER_A w -> exists tail', i = w ++ tail'.
Proof.
  induction w as [|c w IH]; intros i tail Ha Hn.
  - now exists i.
  - cbn [app agree] in Ha. destruct Ha as [->|Ha]; [simpl in Hn; tauto|].
    destruct i as [|c' i]; [destruct Ha|]. destruct Ha as [-> Ha].
    destruct (IH i tail Ha) as [t ->]; [simpl in Hn; tauto|]. now exists t.
Qed.

Lemma mock_agree : forall rest prev pos,
  agree rest (replace_from input_re inputReplacement prev rest pos 0).
Proof.
  induction rest as [|c rest IH]; intros prev pos; rewrite replace_from_0;
    destruct (run input_re prev _ pos []) as [[e caps]|]; cbn; auto.
Qed.

(** No match of the pattern starts inside the replacement text. *)
Lemma replacement_clean prev t :
  isWordOpt prev = false ->
  clean input_re (Some 40%N) t ->
  clean input_re prev (inputReplacement ++ t).
Proof.
  intros Hprev Ht.
  change inputReplacement with
    [97; 119; 97; 105; 116; 32; 95; 95; 112; 121; 120; 95; 105; 110; 112; 117;
     116; 95; 95; 40]%N.
  cbn [app clean].
  repeat match goal with
         | |- _ /\ _ => split
         | |- no_match _ _ _ => apply (run_none_iff _ _ _ 0 []); try (vm_compute; reflexivity)
         end; try exact Ht.
  cbn. now rewrite Hprev.
Qed.

Lemma mock_clean : forall n rest prev pos,
  length rest <= n ->
  clean input_re prev (replace_from input_re inputReplacement prev rest pos 0).
Proof.
  induction n as [|n IH]; intros rest prev pos Hlen.
  - destruct rest; [|simpl in Hlen; lia].
    rewrite replace_from_0.
    destruct (run input_re prev [] pos []) as [[e caps]|] eqn:E.
    + apply run_sound in E. destruct E as [w [Hw _]].
      apply sem_input in Hw. destruct Hw as [_ [Hw [tail Ht]]].
      apply input_text_length in Hw. apply (f_equal (@length _)) in Ht.
      rewrite length_app in Ht. simpl in Ht. lia.
    + split; [|exact I]. eapply run_none_iff; eauto.
  - rewrite replace_from_0.
    destruct (run input_re prev rest pos []) as [[e caps]|] eqn:E.
    + apply run_sound in E. destruct E as [w [Hw ->]].
      apply sem_input in Hw. destruct Hw as [Hprev [Hw [tail ->]]].
      pose proof (input_text_length _ Hw) as Hl.
      pose proof (input_text_last _ Hw) as Hlast.
      destruct w as [|c w]; [simpl in Hl; lia|]. cbn [app].
      replace (Nat.eqb (pos + length (c :: w)) pos) with false
        by (symmetry; apply Nat.eqb_neq; simpl; lia).
      cbn [app]. rewrite replace_from_skip by (rewrite length_app; simpl; lia).
      replace (pos + length (c :: w) - pos - 1) with (length w) by (simpl; lia).
      rewrite skipn_app, skipn_all, Nat.sub_diag, skipn_O. cbn [app].
      assert (Hp : prev_after (Some c) (w ++ tail) (length w) = Some 40%N).
      { replace (length (c :: w) - 1) with (length w) in Hlast by (simpl; lia).
        destruct w as [|c' w]; [simpl in *; exact Hlast|].
        cbn [length prev_after]. cbn [length nth_error] in Hlast.
        rewrite nth_error_app1 by (simpl; lia). exact Hlast. }
      rewrite Hp. apply replacement_clean; [exact Hprev|].
      apply IH. rewrite length_app in Hlen. simpl in Hlen. lia.
    + destruct rest as [|c rest].
      * split; [|exact I]. eapply run_none_iff; eauto.
      * split.
        -- intros w Hw. apply sem_input in Hw. destruct Hw as [Hprev [Hw [tail Ht]]].
           pose proof (mock_agree (c :: rest) prev pos) as Ha.
           rewrite replace_from_0, E in Ha. rewrite Ht in Ha.
           destruct (agree_prefix _ _ _ Ha (input_text_no_a _ Hw)) as [tail' Hr].
           apply (proj1 (run_none_iff _ _ _ _ _) E w).
           rewrite Hr. unfold input_re. cbn [app sem].
           destruct Hw as [ws [Hws ->]]. split; [cbn; now rewrite Hprev|].
           rewrite <- !app_assoc.
           apply SafetyProofs.sem_chars. eexists _, _.
           split; [reflexivity|]. split; [reflexivity|].
           cbn [app sem]. exists (length ws), (js "(").
           split. { split; [lia|apply SafetyProofs.Forall_ws_span; assumption]. }
           rewrite firstn_app, firstn_all, Nat.sub_diag, firstn_O, app_nil_r.
           split; [reflexivity|].
           rewrite skipn_app, skipn_all, Nat.sub_diag, skipn_O. cbn [app].
           change (lit "(") with [chr 40%N]. cbn [sem chr].
           exists 40%N, tail', []. repeat split.
        -- apply IH. simpl in Hlen. lia.
Qed.

(** C10: [mockInput] is idempotent, because its output holds no match of the
    [input(] pattern: none inside the replacement text and none beside it. *)
Theorem C10_mockInput_idempotent (x : jsstring) :
  mockInput (mockInput x) = mockInput x
  /\ clean input_re None (mockInput x).
Proof.
  assert (H : clean input_re None (mockInput x))
    by (apply (mock_clean (length x)); lia).
  split; [|exact H].
  unfold mockInput at 1. unfold replaceAll. now apply replace_clean.
Qed.


(** *** [rewriteImports] *)

(** The import line asks for an install line, given the packages installed
    so far in this call. *)
Definition needsInstall (installed : list jsstring) (line : jsstring) : bool :=
  match extractModuleName line with
  | Some moduleName =>
      negb (isEmpty moduleName) && negb (isStdlibModule moduleName)
      && negb (has installed moduleName)
  | None => false
  end.

Lemma rewriteImports_loop_cons line lines installed :
  rewriteImports_loop (line :: lines) installed =
  if needsInstall installed line
  then match extractModuleName line with
       | Some m => installLine m :: line :: rewriteImports_loop lines (m :: installed)
       | None => line :: rewriteImports_loop lines installed
       end
  else line :: rewriteImports_loop lines installed.
Proof.
  unfold needsInstall. cbn [rewriteImports_loop].
  destruct (extractModuleName line) as [m|]; [|reflexivity].
  destruct (negb (isEmpty m) && negb (isStdlibModule m) && negb (has installed m));
    reflexivity.
Qed.

Lemma loop_length lines : forall installed,
  length lines <= length (rewriteImports_loop lines installed).
Proof.
  induction lines as [|line lines IH]; intros installed; [simpl; lia|].
  rewrite rewriteImports_loop_cons.
  destruct (needsInstall installed line); [destruct (extractModuleName line) as [m|]|];
    simpl; [pose proof (IH (m :: installed))|pose proof (IH installed)
           |pose proof (IH installed)]; lia.
Qed.

(** Without a line that asks for an install, the loop copies its input. *)
Lemma loop_id lines : forall installed,
  Forall (fun line => needsInstall installed line = false) lines ->
  rewriteImports_loop lines installed = lines.
Proof.
  induction lines as [|line lines IH]; intros installed H; [reflexivity|].
  inversion H as [|? ? Hl Hls]; subst.
  rewrite rewriteImports_loop_cons, Hl. f_equal. now apply IH.
Qed.

(** With such a line, the loop output is longer than its input. *)
Lemma loop_grows lines : forall installed,
  Exists (fun line => needsInstall installed line = true) lines ->
  length lines < length (rewriteImports_loop lines installed).
Proof.
  induction lines as [|line lines IH]; intros installed H; [inversion H|].
  rewrite rewriteImports_loop_cons.
  destruct (needsInstall installed line) eqn:E.
  - unfold needsInstall in E. destruct (extractModuleName line) as [m|]; [|discriminate].
    simpl. pose proof (loop_length lines (m :: installed)). lia.
  - inversion H as [? ? Hl|? ? Hls]; subst; [congruence|].
    simpl. specialize (IH installed Hls). lia.
Qed.

(** The loop keeps every line of its input. *)
Lemma loop_keeps lines : forall installed line,
  In line lines -> In line (rewriteImports_loop lines installed).
Proof.
  induction lines as [|l lines IH]; intros installed line H; [destruct H|].
  rewrite rewriteImports_loop_cons.
  destruct H as [->|H].
  - destruct (needsInstall installed line); [destruct (extractModuleName line)|];
      simpl; auto.
  - destruct (needsInstall installed l); [destruct (extractModuleName l)|];
      simpl; auto.
Qed.

Lemma topLevelOf_subset g c : In c (topLevelOf g) -> In c g.
Proof.
  unfold topLevelOf. pose proof (join_split DOT g) as H.
  destruct (split DOT g) as [|x [|y xs]]; intros Hin.
  - destruct Hin.
  - simpl in H. now subst.
  - rewrite <- H. cbn [join]. apply in_or_app. now left.
Qed.

Lemma mgroup_subset m k g c : mgroup m k = Some g -> In c g -> In c (m_input m).
Proof.
  unfold mgroup, substring.
  destruct k.
  - intros [= <-] H. eapply In_skipn, In_firstn, H.
  - destruct (slot _ _); [|discriminate]. destruct (slot _ _); [|discriminate].
    intros [= <-] H. eapply In_skipn, In_firstn, H.
Qed.

Lemma extractModuleName_subset line m c :
  extractModuleName line = Some m -> In c m -> In c line.
Proof.
  unfold extractModuleName. intros H Hin.
  destruct (exec import_re line) as [im|] eqn:E1.
  - destruct (mgroup im 1) as [g|] eqn:G; [|discriminate]. injection H as <-.
    apply exec_some in E1. destruct E1 as [<- _].
    eapply mgroup_subset; eauto. now apply topLevelOf_subset.
  - destruct (exec from_re line) as [fm|] eqn:E2; [|discriminate].
    destruct (mgroup fm 1) as [g|] eqn:G; [|discriminate]. injection H as <-.
    apply exec_some in E2. destruct E2 as [<- _].
    eapply mgroup_subset; eauto. now apply topLevelOf_subset.
Qed.

Lemma installLine_no_NL m : ~ In LF m -> ~ In LF (installLine m).
Proof.
  intros Hm. unfold installLine. rewrite !in_app_iff.
  intros [H|[H|[H|[H|H]]]]; try tauto;
    vm_compute in H; intuition discriminate.
Qed.

Lemma loop_no_NL lines : forall installed,
  Forall (fun l => ~ In LF l) lines ->
  Forall (fun l => ~ In LF l) (rewriteImports_loop lines installed).
Proof.
  induction lines as [|line lines IH]; intros installed H; [constructor|].
  inversion H as [|? ? Hl Hls]; subst.
  rewrite rewriteImports_loop_cons.
  destruct (needsInstall installed line);
    [destruct (extractModuleName line) as [m|] eqn:E|]; repeat constructor; auto.
  apply installLine_no_NL. intros Hin. apply Hl.
  eapply extractModuleName_subset; eauto.
Qed.

Lemma loop_nonempty lines installed :
  lines <> [] -> rewriteImports_loop lines installed <> [].
Proof.
  intros H E. pose proof (loop_length lines installed) as L. rewrite E in L.
  destruct lines; [congruence|simpl in L; lia].
Qed.

Lemma split_rewriteImports x :
  split LF (rewriteImports x) = rewriteImports_loop (split LF x) [].
Proof.
  unfold rewriteImports. apply split_join.
  - apply loop_nonempty, split_nonempty.
  - apply loop_no_NL, split_no_sep.
Qed.

(** Every import line of the source names a standard-library module (or no
    module name at all). *)
Definition importsOnlyStdlib (x : jsstring) : Prop :=
  forall line m,
    In line (split LF x) -> extractModuleName line = Some m ->
    m = [] \/ isStdlibModule m = true.

Lemma needsInstall_nil line :
  needsInstall [] line = false <->
  forall m, extractModuleName line = Some m -> m = [] \/ isStdlibModule m = true.
Proof.
  unfold needsInstall. destruct (extractModuleName line) as [m|].
  - cbn [has existsb negb]. rewrite andb_true_r. split.
    + intros H m' [= <-]. destruct m; [now left|right].
      simpl in H. now destruct (isStdlibModule (c :: m)).
    + intros H. destruct (H m eq_refl) as [->|Hs]; [reflexivity|].
      rewrite Hs. apply andb_false_r.
  - split; [discriminate|reflexivity].
Qed.

Lemma importsOnlyStdlib_iff x :
  importsOnlyStdlib x <->
  Forall (fun line => needsInstall [] line = false) (split LF x).
Proof.
  unfold importsOnlyStdlib. rewrite Forall_forall. split.
  - intros H line Hin. apply needsInstall_nil. intros m Hm. eauto.
  - intros H line m Hin Hm. exact (proj1 (needsInstall_nil line) (H line Hin) m Hm).
Qed.

Lemma not_all_exists lines :
  ~ Forall (fun line => needsInstall [] line = false) lines ->
  Exists (fun line => needsInstall [] line = true) lines.
Proof.
  induction lines as [|l lines IH]; intros H; [destruct H; constructor|].
  destruct (needsInstall [] l) eqn:E; [now left|].
  right. apply IH. intros Hall. apply H. now constructor.
Qed.

(** A source with only standard-library imports is left as it is. *)
Lemma rewriteImports_stdlib x : importsOnlyStdlib x -> rewriteImports x = x.
Proof.
  intros H. apply importsOnlyStdlib_iff in H.
  unfold rewriteImports. rewrite loop_id by assumption. apply join_split.
Qed.

Definition import_numpy : jsstring := js "import numpy as np".

(** C2, as the specification states it, does not hold: a second pass over
    the rewritten [import numpy as np] adds a second install line. *)
Lemma C2_counterexample :
  rewriteImports (rewriteImports import_numpy) <> rewriteImports import_numpy.
Proof. vm_compute. discriminate. Qed.

(** C2 (amended): a second pass of [rewriteImports] reproduces the first one
    exactly for the sources whose import lines all name standard-library
    modules, and those are the sources the pass leaves unchanged.  On any
    other source the second pass inserts install lines again: the original
    import line is still there, and the set of installed packages is not
    kept between calls. *)
Theorem C2_rewriteImports_second_pass (x : jsstring) :
  (rewriteImports (rewriteImports x) = rewriteImports x <-> importsOnlyStdlib x)
  /\ (importsOnlyStdlib x <-> rewriteImports x = x)
  /\ (~ importsOnlyStdlib x ->
      length (split LF (rewriteImports x))
      < length (split LF (rewriteImports (rewriteImports x)))).
Proof.
  assert (Hgrow : ~ importsOnlyStdlib x ->
                  length (split LF (rewriteImports x))
                  < length (split LF (rewriteImports (rewriteImports x)))).
  { intros Hn. rewrite importsOnlyStdlib_iff in Hn. apply not_all_exists in Hn.
    rewrite (split_rewriteImports (rewriteImports x)).
    apply loop_grows. rewrite split_rewriteImports.
    apply Exists_exists in Hn. destruct Hn as [line [Hin Hl]].
    apply Exists_exists. exists line. split; [now apply loop_keeps|assumption]. }
  assert (Hdec : importsOnlyStdlib x \/ ~ importsOnlyStdlib x).
  { rewrite importsOnlyStdlib_iff.
    induction (split LF x) as [|l ls [IH|IH]]; [left; constructor| |].
    - destruct (needsInstall [] l) eqn:E; [right|left; now constructor].
      intros H. inversion H; congruence.
    - right. intros H. inversion H; tauto. }
  split; [|split; [|exact Hgrow]].
  - split.
    + intros Heq. destruct Hdec as [|Hn]; [assumption|].
      specialize (Hgrow Hn). rewrite Heq in Hgrow. lia.
    + intros H. rewrite (rewriteImports_stdlib x H). now apply rewriteImports_stdlib.
  - split; [apply rewriteImports_stdlib|].
    intros Heq. destruct Hdec as [|Hn]; [assumption|].
    specialize (Hgrow Hn). rewrite !Heq in Hgrow. lia.
Qed.

(** C2 (amended) on [import os]. *)
Lemma C2_witness :
  importsOnlyStdlib (js "import os")
  /\ rewriteImports (rewriteImports (js "import os")) = rewriteImports (js "import os").
Proof.
  assert (H : importsOnlyStdlib (js "import os")).
  { intros line m Hin Hm. vm_compute in Hin. destruct Hin as [<-|[]].
    vm_compute in Hm. injection Hm as <-. right. vm_compute. reflexivity. }
  split; [exact H|].
  exact (proj2 (proj1 (C2_rewriteImports_second_pass (js "import os"))) H).
Defined.


(** *** [wrapTopLevelAwait] *)

(** A greedy repetition takes its longest run when the rest of the pattern
    matches after it. *)
Lemma run_rep_greedy_first mn p r prev rest pos caps x :
  mn <= span p rest ->
  run r (prev_after prev rest (span p rest)) (skipn (span p rest) rest)
      (pos + span p rest) caps = Some x ->
  run (Rep true mn p :: r) prev rest pos caps = Some x.
Proof.
  intros Hle H. rewrite run_rep_eq. unfold counts.
  replace (span p rest + 1 - mn) with (S (span p rest - mn)) by lia.
  rewrite seq_S, rev_app_distr. cbn [rev app first_some].
  replace (mn + (span p rest - mn)) with (span p rest) by lia.
  now rewrite H.
Qed.

Lemma leadingSpace_eq line :
  leadingSpace line = Some (firstn (span isWhiteSpace line) line).
Proof.
  unfold leadingSpace, exec. rewrite search_eq.
  change (run indent_re None line 0 [])
    with (run [Rep true 0 isWhiteSpace; Save 3] None line 0 [(2, 0)]).
  erewrite run_rep_greedy_first; [|lia|reflexivity].
  unfold mgroup, substring. cbn. now rewrite Nat.sub_0_r.
Qed.

Lemma currentIndentOf_eq line : currentIndentOf line = span isWhiteSpace line.
Proof.
  unfold currentIndentOf. rewrite leadingSpace_eq.
  apply firstn_span_length with (p := isWhiteSpace). lia.
Qed.

(** What the scan of [hasTopLevelAwait] computes, said without its loop.  A
    line is skipped when it is empty or a comment; the loop remembers one
    [async def] header, the closest one above the line; the line is inside
    as long as every line in between, and the line itself, is no header and
    is indented deeper than that header. *)
Definition meaningful (line : jsstring) : bool :=
  negb (isEmpty (trim line) || startsWith (js "#") (trim line)).

Definition isAsyncDefHeader (line : jsstring) : bool :=
  meaningful line && startsWith (js "async def ") (trim line).















(** *** The condition of the specification *)




















(** *** [extractReturnValue] *)

Lemma trimStart_subset s c : In c (trimStart s) -> In c s.
Proof.
  induction s as [|x s IH]; simpl; [tauto|].
  destruct (isWhiteSpace x); simpl; tauto.
Qed.

Lemma trim_subset s c : In c (trim s) -> In c s.
Proof.
  unfold trim, trimEnd. intros H. apply in_rev in H. apply trimStart_subset in H.
  apply in_rev in H. now apply trimStart_subset.
Qed.

Lemma groupOr_no_NL m k : ~ In LF (m_input m) -> ~ In LF (groupOr m k).
Proof.
  intros H. unfold groupOr. destruct (mgroup m k) as [g|] eqn:E.
  - intros Hin. apply H. eapply mgroup_subset; eauto.
  - vm_compute. intuition discriminate.
Qed.

Lemma resultLine_no_NL line : ~ In LF line -> ~ In LF (resultLine line).
Proof.
  intros H. unfold resultLine. rewrite leadingSpace_eq.
  assert (Ht : ~ In LF (trim line)) by (intros Hin; apply H; now apply trim_subset).
  assert (Hi : ~ In LF (firstn (span isWhiteSpace line) line))
    by (intros Hin; apply H; eapply In_firstn; eauto).
  assert (Hp : ~ In LF resultPrefix) by (vm_compute; intuition discriminate).
  destruct (exec comment_re (trim line)) as [m|] eqn:E.
  - apply exec_some in E. destruct E as [Em _].
    rewrite !in_app_iff. intros [?|[?|[Hg|[Hs|Hg]]]]; try tauto.
    + revert Hg. apply groupOr_no_NL. now rewrite Em.
    + vm_compute in Hs. intuition discriminate.
    + revert Hg. apply groupOr_no_NL. now rewrite Em.
  - rewrite !in_app_iff. tauto.
Qed.

Lemma setAt_eq : forall lines i v,
  i < length lines -> setAt lines i v = firstn i lines ++ v :: skipn (S i) lines.
Proof.
  induction lines as [|l lines IH]; intros [|i] v H; simpl in *; try lia; [reflexivity|].
  f_equal. apply IH. lia.
Qed.

Lemma nth_error_nth_nil (lines : list jsstring) i line :
  nth_error lines i = Some line -> nth i lines [] = line.
Proof. intros H. now apply nth_error_nth. Qed.

(** The backward scan stops at the last meaningful line and decides there. *)
Lemma lastExprIndex_loop_at (lines : list jsstring) i : forall n,
  i < n ->
  meaningful (nth i lines []) = true ->
  (forall j, i < j < n -> meaningful (nth j lines []) = false) ->
  lastExprIndex_loop lines n =
  let codeOnly := codeOnlyOf (trim (nth i lines [])) in
  if isStatementKeyword codeOnly then None
  else if negb (isAssignment codeOnly) then Some i else None.
Proof.
  induction n as [|n IH]; intros Hi Hm Hafter; [lia|].
  cbn [lastExprIndex_loop]. cbv zeta.
  destruct (Nat.eq_dec i n) as [->|Hne].
  - match goal with
    | |- (if ?c then _ else _) = _ =>
        assert (Hc : c = false) by (apply negb_true_iff; exact Hm); rewrite Hc
    end. reflexivity.
  - assert (Hn : meaningful (nth n lines []) = false) by (apply Hafter; lia).
    match goal with
    | |- (if ?c then _ else _) = _ =>
        assert (Hc : c = true) by (apply negb_false_iff; exact Hn); rewrite Hc
    end.
    apply IH; [lia|assumption|]. intros j Hj. apply Hafter. lia.
Qed.

Lemma lastExprIndex_loop_none (lines : list jsstring) : forall n,
  (forall j, j < n -> meaningful (nth j lines []) = false) ->
  lastExprIndex_loop lines n = None.
Proof.
  induction n as [|n IH]; intros H; [reflexivity|].
  cbn [lastExprIndex_loop]. cbv zeta.
  assert (Hn : meaningful (nth n lines []) = false) by (apply H; lia).
  match goal with
  | |- (if ?c then _ else _) = _ =>
      assert (Hc : c = true) by (apply negb_false_iff; exact Hn); rewrite Hc
  end.
  apply IH. intros j Hj. apply H. lia.
Qed.

Definition EQ : cu := 61%N.

(** The first [=] of the text is not part of a comparison operator: no other
    [=] comes before it, it does not follow one of [! < >], and no [=] follows
    it. *)
Definition firstEqAssigns (c : jsstring) : Prop :=
  exists pre post,
    c = pre ++ EQ :: post /\ ~ In EQ pre /\
    (forall pre0 x, pre = pre0 ++ [x] -> oneOf "!<>" x = false) /\
    (forall y post', post = y :: post' -> y <> EQ).

Lemma test_iff r s :
  test r s = true <->
  exists q w, q <= length s /\ sem r (prev_at s q) (skipn q s) w.
Proof.
  unfold test. split.
  - destruct (exec r s) as [m|] eqn:E; [|discriminate]. intros _.
    apply exec_some in E. destruct E as [_ [Hq [Hrun _]]].
    apply run_sound in Hrun. destruct Hrun as [w [Hw _]]. eauto.
  - intros [q [w [Hq Hw]]].
    destruct (exec r s) as [m|] eqn:E; [reflexivity|].
    pose proof (exec_none r s E q Hq) as Hn. unfold run_at in Hn.
    now destruct (run_complete r _ _ w q [] Hw).
Qed.

Lemma noneOf_eq_span_notin c k :
  k <= span (noneOf "=") c -> ~ In EQ (firstn k c).
Proof.
  intros Hk Hin.
  pose proof (SafetyProofs.firstn_span_all (noneOf "=") c k Hk) as Hall.
  rewrite Forall_forall in Hall. specialize (Hall _ Hin). discriminate.
Qed.

Lemma oneOf_eq c : oneOf "=" c = true <-> c = EQ.
Proof.
  unfold oneOf. cbn. rewrite orb_false_r. unfold cu_eqb. apply N.eqb_eq.
Qed.

Lemma notin_span_noneOf pre post :
  ~ In EQ pre -> span (noneOf "=") (pre ++ EQ :: post) = length pre.
Proof.
  intros H. apply span_app.
  - apply Forall_forall. intros x Hx. unfold noneOf.
    destruct (oneOf "=" x) eqn:E; [|reflexivity].
    apply oneOf_eq in E. subst. tauto.
  - reflexivity.
Qed.

Lemma prev_after_snoc pre0 x tail :
  prev_after None ((pre0 ++ [x]) ++ tail) (length (pre0 ++ [x])) = Some x.
Proof.
  rewrite length_app. cbn [length]. replace (length pre0 + 1) with (S (length pre0)) by lia.
  cbn [prev_after]. rewrite <- app_assoc. rewrite nth_error_app2 by lia.
  now rewrite Nat.sub_diag.
Qed.

Lemma test_assign_re c : test assign_re c = true <-> firstEqAssigns c.
Proof.
  rewrite test_iff. unfold assign_re, firstEqAssigns. split.
  - intros [q [w [Hq H]]]. cbn [sem] in H.
    destruct H as [Hprev [k [w' [Hk [-> [Hb [x [rest' [w2 [Hx [Heq [-> [Ha ->]]]]]]]]]]]]].
    assert (q = 0) as ->.
    { destruct q; [reflexivity|]. unfold prev_at in Hprev. cbn in Hprev.
      apply nth_error_None in Hprev. lia. }
    rewrite skipn_O in *. apply oneOf_eq in Heq. subst x.
    exists (firstn k c), rest'. split; [|split; [|split]].
    + rewrite <- Hx. symmetry. apply firstn_skipn.
    + apply noneOf_eq_span_notin. lia.
    + intros pre0 x Hpre.
      assert (Hlen : k = length (pre0 ++ [x])).
      { rewrite <- Hpre. symmetry. apply firstn_span_length with (p := noneOf "="). lia. }
      rewrite <- (firstn_skipn k c), Hpre, Hlen, prev_after_snoc in Hb.
      assert (x <> EQ).
      { intros ->. apply (noneOf_eq_span_notin c k); [lia|].
        rewrite Hpre. apply in_or_app. right. now left. }
      unfold oneOf in *. cbn in Hb |- *. apply orb_false_iff in Hb. exact (proj2 Hb).
    + intros y post' ->. destruct (oneOf "=" y) eqn:E; [discriminate|].
      intros ->. discriminate.
  - intros [pre [post [-> [Hpre [Hb Ha]]]]].
    exists 0, (pre ++ [EQ]). split; [lia|]. cbn [sem]. rewrite skipn_O.
    split; [reflexivity|].
    exists (length pre), [EQ]. rewrite notin_span_noneOf by assumption.
    split; [lia|]. rewrite firstn_app, firstn_all, Nat.sub_diag, firstn_O, app_nil_r.
    split; [reflexivity|]. split.
    + destruct pre as [|p0 pre'] using rev_ind; [exact I|].
      rewrite prev_after_snoc.
      assert (p0 <> EQ) by (intros ->; apply Hpre, in_or_app; right; now left).
      specialize (Hb pre' p0 eq_refl).
      unfold oneOf in *. cbn in Hb |- *. rewrite Hb, orb_false_r.
      apply N.eqb_neq. assumption.
    + rewrite skipn_app, skipn_all, Nat.sub_diag, skipn_O. cbn [app].
      exists EQ, post, []. split; [reflexivity|]. split; [reflexivity|].
      split; [reflexivity|]. split; [|reflexivity].
      destruct post as [|y post']; [exact I|].
      specialize (Ha y post' eq_refl). unfold oneOf. cbn. rewrite orb_false_r.
      apply N.eqb_neq. assumption.
Qed.



Lemma first_occurrence_unique {A} (x : A) : forall pre pre' post post',
  pre ++ x :: post = pre' ++ x :: post' -> ~ In x pre -> ~ In x pre' -> pre = pre'.
Proof.
  induction pre as [|a pre IH]; intros [|a' pre'] post post' E H H'; simpl in *.
  - reflexivity.
  - injection E as <- _. tauto.
  - injection E as -> _. tauto.
  - injection E as -> E. f_equal. eapply IH; eauto.
Qed.

(** When the code treats a line as an assignment. *)
Lemma isAssignment_iff c :
  isAssignment c = true <->
  firstEqAssigns c /\ includes (js "==") c = false /\ includes (js "lambda") c = false.
Proof.
  unfold isAssignment. rewrite !andb_true_iff, !negb_true_iff, test_assign_re. tauto.
Qed.

(** The words of the specification for an assignment: the line holds an [=]
    that is not part of [==], [!=], [<=] or [>=] and has no lambda before
    it. *)
Definition specAssignment (c : jsstring) : Prop :=
  exists pre post,
    c = pre ++ EQ :: post /\
    (forall pre0 x, pre = pre0 ++ [x] -> oneOf "=!<>" x = false) /\
    (forall y post', post = y :: post' -> y <> EQ) /\
    includes (js "lambda") pre = false.

Definition assign_compare : jsstring := js "x = a == b".

(** C3, as the specification states it, does not hold: [x = a == b] is an
    assignment in the words of the specification, and the function rewrites
    it. *)
Lemma C3_counterexample :
  ~ (specAssignment assign_compare ->
     extractReturnValue assign_compare = assign_compare).
Proof.
  intros H.
  assert (Hs : specAssignment assign_compare).
  { exists (js "x "), (js " a == b"). split; [reflexivity|]. split; [|split].
    - intros pre0 x E. destruct pre0 as [|a [|b [|c pre0]]]; cbn in E; try discriminate.
      injection E as _ <-. reflexivity.
    - intros y post' E. injection E as <- _. discriminate.
    - reflexivity. }
  specialize (H Hs). vm_compute in H. discriminate.
Qed.

Lemma resultLine_shape line :
  exists rest,
    resultLine line
    = firstn (span isWhiteSpace line) line ++ resultPrefix ++ rest
    /\ match exec comment_re (trim line) with
       | Some m => rest = groupOr m 1 ++ js "  " ++ groupOr m 2
       | None => rest = trim line
       end.
Proof.
  unfold resultLine. rewrite leadingSpace_eq.
  destruct (exec comment_re (trim line)) as [m|]; eexists; split; reflexivity.
Qed.

Lemma extractReturnValue_at code i line :
  nth_error (split LF code) i = Some line ->
  meaningful line = true ->
  (forall j l, i < j -> nth_error (split LF code) j = Some l -> meaningful l = false) ->
  extractReturnValue code =
  if isStatementKeyword (codeOnlyOf (trim line)) then code
  else if isAssignment (codeOnlyOf (trim line)) then code
       else join [LF] (firstn i (split LF code) ++ resultLine line
                         :: skipn (S i) (split LF code)).
Proof.
  intros Hi Hm Hafter. unfold extractReturnValue.
  assert (Hlt : i < length (split LF code)) by (apply nth_error_Some; congruence).
  pose proof (nth_error_nth_nil _ _ _ Hi) as Hnth.
  rewrite (lastExprIndex_loop_at (split LF code) i); [|assumption|now rewrite Hnth|].
  - cbv zeta. rewrite Hnth.
    destruct (isStatementKeyword _); [reflexivity|].
    destruct (isAssignment _); [reflexivity|]. cbn [negb].
    rewrite setAt_eq by assumption. now rewrite Hnth.
  - intros j [Hj1 Hj2]. destruct (nth_error (split LF code) j) as [l|] eqn:E.
    + rewrite (nth_error_nth_nil _ _ _ E). eauto.
    + apply nth_error_None in E. lia.
Qed.

(** C3 (amended): [extractReturnValue] scans backward past the lines that are
    blank or comments.  Without a meaningful line the source is returned
    unchanged.  Otherwise the last meaningful line decides: when its code
    begins with one of the statement prefixes of the source, or is an
    assignment in the sense of the code (its first [=] is not part of
    [==], [!=], [<=], [>=], and the line holds neither [==] nor the word
    lambda anywhere), the source is returned unchanged; otherwise exactly
    that line is replaced, by its own leading white space followed by
    [__pyx_result__ = ] and the trimmed line (or, with a trailing comment,
    the two groups of the comment pattern two spaces apart).  A line
    holding [==], and a line whose first [=] belongs to [!=], is never an
    assignment. *)
Theorem C3_extractReturnValue (code : jsstring) :
  ((forall line, In line (split LF code) -> meaningful line = false) ->
   extractReturnValue code = code)
  /\
  (forall i line,
     nth_error (split LF code) i = Some line ->
     meaningful line = true ->
     (forall j l, i < j -> nth_error (split LF code) j = Some l -> meaningful l = false) ->
     (isStatementKeyword (codeOnlyOf (trim line)) = true
      \/ isAssignment (codeOnlyOf (trim line)) = true ->
      extractReturnValue code = code)
     /\
     (isStatementKeyword (codeOnlyOf (trim line)) = false ->
      isAssignment (codeOnlyOf (trim line)) = false ->
      split LF (extractReturnValue code)
      = firstn i (split LF code) ++ resultLine line :: skipn (S i) (split LF code)
      /\ exists rest,
           resultLine line
           = firstn (span isWhiteSpace line) line ++ js "__pyx_result__ = " ++ rest
           /\ match exec comment_re (trim line) with
              | Some m => rest = groupOr m 1 ++ js "  " ++ groupOr m 2
              | None => rest = trim line
              end))
  /\
  (forall c,
     isAssignment c = true <->
     firstEqAssigns c /\ includes (js "==") c = false
     /\ includes (js "lambda") c = false)
  /\
  (forall c, includes (js "==") c = true -> isAssignment c = false)
  /\
  (forall pre post, ~ In EQ pre -> isAssignment (pre ++ js "!=" ++ post) = false).
Proof.
  split; [|split; [|split; [|split]]].
  - intros H. unfold extractReturnValue.
    rewrite lastExprIndex_loop_none; [reflexivity|].
    intros j Hj. apply H. apply nth_In. assumption.
  - intros i line Hi Hm Hafter.
    pose proof (extractReturnValue_at code i line Hi Hm Hafter) as E.
    split.
    + intros [Hk|Ha]; rewrite E.
      * now rewrite Hk.
      * rewrite Ha. now destruct (isStatementKeyword _).
    + intros Hk Ha. rewrite E, Hk, Ha. split; [|apply resultLine_shape].
      apply split_join.
      * destruct (firstn i (split LF code)); discriminate.
      * pose proof (split_no_sep LF code) as Hall.
        apply Forall_app. split; [|constructor].
        -- apply Forall_forall. intros l Hl. rewrite Forall_forall in Hall.
           apply Hall. eapply In_firstn; eauto.
        -- apply resultLine_no_NL. rewrite Forall_forall in Hall.
           apply Hall. eapply nth_error_In; eauto.
        -- apply Forall_forall. intros l Hl. rewrite Forall_forall in Hall.
           apply Hall. eapply In_skipn; eauto.
  - apply isAssignment_iff.
  - intros c Hc. unfold isAssignment. rewrite Hc. cbn. now rewrite andb_false_r.
  - intros pre post Hpre.
    destruct (isAssignment (pre ++ js "!=" ++ post)) eqn:E; [|reflexivity].
    apply isAssignment_iff in E. destruct E as [[pre' [post' [E [Hn [Hb _]]]]] _].
    change (pre ++ js "!=" ++ post) with (pre ++ [33%N] ++ EQ :: post) in E.
    rewrite app_assoc in E.
    assert (pre ++ [33%N] = pre').
    { eapply first_occurrence_unique; eauto.
      rewrite in_app_iff. intros [?|[?|[]]]; [tauto|discriminate]. }
    subst pre'. specialize (Hb pre 33%N eq_refl). discriminate.
Qed.

Definition last_line_expr : jsstring :=
  js "x = 5" ++ [LF] ++ js "  x + 1" ++ [LF] ++ js "# done".

(** C3 (amended) on a source whose last meaningful line is an indented
    expression followed by a comment line. *)
Lemma C3_witness :
  split LF (extractReturnValue last_line_expr)
  = [js "x = 5"; js "  __pyx_result__ = x + 1"; js "# done"].
Proof.
  assert (Hi : nth_error (split LF last_line_expr) 1 = Some (js "  x + 1"))
    by (vm_compute; reflexivity).
  assert (Hm : meaningful (js "  x + 1") = true) by (vm_compute; reflexivity).
  assert (Hafter : forall j l, 1 < j -> nth_error (split LF last_line_expr) j = Some l ->
                               meaningful l = false).
  { intros j l Hj E. destruct j as [|[|[|j]]]; try lia.
    - vm_compute in E. injection E as <-. vm_compute. reflexivity.
    - vm_compute in E. destruct j; discriminate. }
  assert (Hk : isStatementKeyword (codeOnlyOf (trim (js "  x + 1"))) = false)
    by (vm_compute; reflexivity).
  assert (Ha : isAssignment (codeOnlyOf (trim (js "  x + 1"))) = false)
    by (vm_compute; reflexivity).
  rewrite (proj1 (proj2 (proj1 (proj2 (C3_extractReturnValue last_line_expr))
                           1 (js "  x + 1") Hi Hm Hafter) Hk Ha)).
  vm_compute. reflexivity.
Defined.

End TransformProofs.

(* ================================================================== *)
(** ** The parser: shape of the trees it returns *)
(* ================================================================== *)

Module ParserProofs.

Import Ast Tokenizer Parser.
Local Open Scope parser_scope.

(** *** Every node of a tree *)

Section Every.
Context {A : Type} (P : A -> Prop).

(** [P] holds of every element of a list, and of an optional value when it
    is there. *)
Fixpoint All (l : list A) : Prop :=
  match l with
  | [] => True
  | x :: l' => P x /\ All l'
  end.

Definition AllOpt (o : option A) : Prop :=
  match o with
  | Some x => P x
  | None => True
  end.
End Every.

(** [P] holds of an expression and of every expression below it. *)
Fixpoint every_expr (P : expr -> Prop) (e : expr) {struct e} : Prop :=
  P e /\
  match e with
  | BoolOp _ values => All (every_expr P) values
  | NamedExpr target value => every_expr P target /\ every_expr P value
  | BinOp lhs _ rhs => every_expr P lhs /\ every_expr P rhs
  | UnaryOp _ operand => every_expr P operand
  | Lambda args body => every_arguments P args /\ every_expr P body
  | IfExp test body orelse =>
      every_expr P test /\ every_expr P body /\ every_expr P orelse
  | Dict keys values =>
      All (AllOpt (every_expr P)) keys /\ All (every_expr P) values
  | Set_ elts => All (every_expr P) elts
  | List_ elts => All (every_expr P) elts
  | Tuple elts => All (every_expr P) elts
  | ListComp elt generators =>
      every_expr P elt /\ All (every_comprehension P) generators
  | SetComp elt generators =>
      every_expr P elt /\ All (every_comprehension P) generators
  | DictComp key value generators =>
      every_expr P key /\ every_expr P value
      /\ All (every_comprehension P) generators
  | GeneratorExp elt generators =>
      every_expr P elt /\ All (every_comprehension P) generators
  | Await value => every_expr P value
  | Yield value => AllOpt (every_expr P) value
  | YieldFrom value => every_expr P value
  | Compare lhs _ comparators =>
      every_expr P lhs /\ All (every_expr P) comparators
  | Call func args keywords =>
      every_expr P func /\ All (every_expr P) args
      /\ All (every_keyword P) keywords
  | FormattedValue value _ format_spec =>
      every_expr P value /\ AllOpt (every_expr P) format_spec
  | JoinedStr values => All (every_expr P) values
  | Constant _ => True
  | Attribute value _ => every_expr P value
  | Subscript value slice => every_expr P value /\ every_expr P slice
  | Starred value => every_expr P value
  | Name _ => True
  | Slice lower upper step =>
      AllOpt (every_expr P) lower /\ AllOpt (every_expr P) upper
      /\ AllOpt (every_expr P) step
  end
with every_arguments (P : expr -> Prop) (a : arguments) {struct a} : Prop :=
  match a with
  | mkArguments posonlyargs args vararg kwonlyargs kw_defaults kwarg defaults =>
      All (every_arg P) posonlyargs /\ All (every_arg P) args
      /\ AllOpt (every_arg P) vararg /\ All (every_arg P) kwonlyargs
      /\ All (AllOpt (every_expr P)) kw_defaults /\ AllOpt (every_arg P) kwarg
      /\ All (every_expr P) defaults
  end
with every_arg (P : expr -> Prop) (a : arg) {struct a} : Prop :=
  match a with
  | mkArg _ annotation => AllOpt (every_expr P) annotation
  end
with every_keyword (P : expr -> Prop) (k : keyword) {struct k} : Prop :=
  match k with
  | mkKeyword _ value => every_expr P value
  end
with every_comprehension (P : expr -> Prop) (c : comprehension) {struct c} : Prop :=
  match c with
  | mkComprehension target iter ifs _ =>
      every_expr P target /\ every_expr P iter /\ All (every_expr P) ifs
  end.

(** [Q] holds of every expression of a pattern. *)
Fixpoint every_pattern (Q : expr -> Prop) (p : pattern) {struct p} : Prop :=
  match p with
  | MatchValue value => every_expr Q value
  | MatchSingleton _ => True
  | MatchSequence patterns => All (every_pattern Q) patterns
  | MatchMapping keys patterns _ =>
      All (every_expr Q) keys /\ All (every_pattern Q) patterns
  | MatchClass cls patterns _ kwd_patterns =>
      every_expr Q cls /\ All (every_pattern Q) patterns
      /\ All (every_pattern Q) kwd_patterns
  | MatchStar _ => True
  | MatchAs pat _ => AllOpt (every_pattern Q) pat
  | MatchOr patterns => All (every_pattern Q) patterns
  end.

Definition every_withitem (Q : expr -> Prop) (w : withitem) : Prop :=
  every_expr Q (context_expr w) /\ AllOpt (every_expr Q) (optional_vars w).

(** [P] holds of a statement and of every statement below it, and [Q] of
    every expression of these statements. *)
Fixpoint every_stmt (P : stmt -> Prop) (Q : expr -> Prop) (s : stmt) {struct s} : Prop :=
  P s /\
  match s with
  | Import _ => True
  | ImportFrom _ _ _ => True
  | FunctionDef _ args body decorator_list returns _ =>
      every_arguments Q args /\ All (every_stmt P Q) body
      /\ All (every_expr Q) decorator_list /\ AllOpt (every_expr Q) returns
  | AsyncFunctionDef _ args body decorator_list returns _ =>
      every_arguments Q args /\ All (every_stmt P Q) body
      /\ All (every_expr Q) decorator_list /\ AllOpt (every_expr Q) returns
  | ClassDef _ bases keywords body decorator_list _ =>
      All (every_expr Q) bases /\ All (every_keyword Q) keywords
      /\ All (every_stmt P Q) body /\ All (every_expr Q) decorator_list
  | Assign targets value => All (every_expr Q) targets /\ every_expr Q value
  | AugAssign target _ value => every_expr Q target /\ every_expr Q value
  | AnnAssign target annotation value _ =>
      every_expr Q target /\ every_expr Q annotation /\ AllOpt (every_expr Q) value
  | If test body orelse =>
      every_expr Q test /\ All (every_stmt P Q) body /\ All (every_stmt P Q) orelse
  | For target iter body orelse =>
      every_expr Q target /\ every_expr Q iter
      /\ All (every_stmt P Q) body /\ All (every_stmt P Q) orelse
  | AsyncFor target iter body orelse =>
      every_expr Q target /\ every_expr Q iter
      /\ All (every_stmt P Q) body /\ All (every_stmt P Q) orelse
  | While test body orelse =>
      every_expr Q test /\ All (every_stmt P Q) body /\ All (every_stmt P Q) orelse
  | With items body => All (every_withitem Q) items /\ All (every_stmt P Q) body
  | AsyncWith items body => All (every_withitem Q) items /\ All (every_stmt P Q) body
  | Match subject cases => every_expr Q subject /\ All (every_match_case P Q) cases
  | Try body handlers orelse finalbody =>
      All (every_stmt P Q) body /\ All (every_excepthandler P Q) handlers
      /\ All (every_stmt P Q) orelse /\ All (every_stmt P Q) finalbody
  | Raise exc cause => AllOpt (every_expr Q) exc /\ AllOpt (every_expr Q) cause
  | Return value => AllOpt (every_expr Q) value
  | Delete targets => All (every_expr Q) targets
  | Pass => True
  | Break => True
  | Continue => True
  | Global _ => True
  | Nonlocal _ => True
  | Assert test msg => every_expr Q test /\ AllOpt (every_expr Q) msg
  | Expr value => every_expr Q value
  | TypeAlias name _ value => every_expr Q name /\ every_expr Q value
  end
with every_match_case (P : stmt -> Prop) (Q : expr -> Prop) (c : match_case)
       {struct c} : Prop :=
  match c with
  | mkMatchCase pat guard body =>
      every_pattern Q pat /\ AllOpt (every_expr Q) guard /\ All (every_stmt P Q) body
  end
with every_excepthandler (P : stmt -> Prop) (Q : expr -> Prop) (h : excepthandler)
       {struct h} : Prop :=
  match h with
  | ExceptHandler type_ _ body =>
      AllOpt (every_expr Q) type_ /\ All (every_stmt P Q) body
  end.

(** [P] holds of a statement and of every statement below it. *)
Fixpoint each_stmt (P : stmt -> Prop) (s : stmt) {struct s} : Prop :=
  P s /\
  match s with
  | FunctionDef _ _ body _ _ _ => All (each_stmt P) body
  | AsyncFunctionDef _ _ body _ _ _ => All (each_stmt P) body
  | ClassDef _ _ _ body _ _ => All (each_stmt P) body
  | If _ body orelse => All (each_stmt P) body /\ All (each_stmt P) orelse
  | For _ _ body orelse => All (each_stmt P) body /\ All (each_stmt P) orelse
  | AsyncFor _ _ body orelse => All (each_stmt P) body /\ All (each_stmt P) orelse
  | While _ body orelse => All (each_stmt P) body /\ All (each_stmt P) orelse
  | With _ body => All (each_stmt P) body
  | AsyncWith _ body => All (each_stmt P) body
  | Match _ cases => All (each_match_case P) cases
  | Try body handlers orelse finalbody =>
      All (each_stmt P) body /\ All (each_excepthandler P) handlers
      /\ All (each_stmt P) orelse /\ All (each_stmt P) finalbody
  | _ => True
  end
with each_match_case (P : stmt -> Prop) (c : match_case) {struct c} : Prop :=
  match c with
  | mkMatchCase _ _ body => All (each_stmt P) body
  end
with each_excepthandler (P : stmt -> Prop) (h : excepthandler) {struct h} : Prop :=
  match h with
  | ExceptHandler _ _ body => All (each_stmt P) body
  end.

(** *** The two shapes *)

(** A [Compare] has as many operators as comparators, and at least one. *)
Definition compareShape (e : expr) : Prop :=
  match e with
  | Compare _ ops comparators =>
      length ops = length comparators /\ 1 <= length ops
  | _ => True
  end.

(** The states of a parser of the source [src]: the one that [new Parser]
    builds, and those that reading or peeking a token leads to. *)
Inductive reach (src : jsstring) : Parser -> Prop :=
| reach_new (p : Parser) :
    newParser src = Ok p -> reach src p
| reach_advance (p : Parser) (tok : Token) (p' : Parser) :
    reach src p -> advance p = Ok (tok, p') -> reach src p'
| reach_peek (p : Parser) (tok : Token) (p' : Parser) :
    reach src p -> peekToken p = Ok (tok, p') -> reach src p'.

(** An [ImportFrom] over the source [src] is what [parseFromImport] returned
    when it was called on the keyword [from], in a parser of [src]. *)
Definition fromImport (src : jsstring) (s : stmt) : Prop :=
  match s with
  | ImportFrom _ _ _ =>
      exists fuel p p',
        reach src p
        /\ tokenIs (currentToken p) NAME (Some (js "from")) = true
        /\ parseFromImport fuel p = Ok (s, p')
  | _ => True
  end.

(** *** What a method keeps true *)

(** The shape that a value of each type has when a parser of the source
    [src] returns it. *)
Class WF (A : Type) : Type := wf : jsstring -> A -> Prop.

#[export] Instance WF_expr : WF expr := fun _ => every_expr compareShape.
#[export] Instance WF_arguments : WF arguments := fun _ => every_arguments compareShape.
#[export] Instance WF_arg : WF arg := fun _ => every_arg compareShape.
#[export] Instance WF_keyword : WF keyword := fun _ => every_keyword compareShape.
#[export] Instance WF_comprehension : WF comprehension :=
  fun _ => every_comprehension compareShape.
#[export] Instance WF_pattern : WF pattern := fun _ => every_pattern compareShape.
#[export] Instance WF_withitem : WF withitem := fun _ => every_withitem compareShape.
#[export] Instance WF_stmt : WF stmt :=
  fun src => every_stmt (fromImport src) compareShape.
#[export] Instance WF_match_case : WF match_case :=
  fun src => every_match_case (fromImport src) compareShape.
#[export] Instance WF_excepthandler : WF excepthandler :=
  fun src => every_excepthandler (fromImport src) compareShape.
#[export] Instance WF_ModuleNode : WF ModuleNode :=
  fun src m => All (every_stmt (fromImport src) compareShape) (body m).
#[export] Instance WF_ArgsState : WF ArgsState :=
  fun _ a => every_arguments compareShape (toArguments a).
#[export] Instance WF_list {A} {W : WF A} : WF (list A) := fun src => All (wf src).
#[export] Instance WF_option {A} {W : WF A} : WF (option A) := fun src => AllOpt (wf src).
#[export] Instance WF_prod {A B} {WA : WF A} {WB : WF B} : WF (A * B) :=
  fun src x => wf src (fst x) /\ wf src (snd x).
#[export] Instance WF_sum {A B} {WA : WF A} {WB : WF B} : WF (A + B) :=
  fun src x => match x with inl a => wf src a | inr b => wf src b end.
#[export] Instance WF_bool : WF bool := fun _ _ => True.
#[export] Instance WF_unit : WF unit := fun _ _ => True.
#[export] Instance WF_nat : WF nat := fun _ _ => True.
#[export] Instance WF_cu : WF cu := fun _ _ => True.
#[export] Instance WF_Token : WF Token := fun _ _ => True.
#[export] Instance WF_cmpop : WF cmpop := fun _ _ => True.
#[export] Instance WF_alias : WF alias := fun _ _ => True.
#[export] Instance WF_typeparam : WF typeparam := fun _ _ => True.

(** [m], run in a state of which [Inv] holds, returns only values of which
    [Q] holds, and leaves a state of which [Inv] holds. *)
Definition keeps {A} (Inv : Parser -> Prop) (Q : A -> Prop) (m : M A) : Prop :=
  forall p a p',
    Inv p ->
    m p = Ok (a, p') ->
    Q a /\ Inv p'.

(** [m], run in a parser of [src], returns only values of which [Q] holds,
    and leaves a parser of [src]. *)
Abbreviation ok src := (keeps (reach src)).

(** The methods reached through [self] keep the shapes. *)
Record methods_ok (self : Methods) : Prop := mkMethodsOk {
  ok_parseExpr : forall src, ok src (wf src) (p_parseExpr self);
  ok_parseTernary : forall src, ok src (wf src) (p_parseTernary self);
  ok_parseNot : forall src, ok src (wf src) (p_parseNot self);
  ok_parseComparison : forall src, ok src (wf src) (p_parseComparison self);
  ok_parseFactor : forall src, ok src (wf src) (p_parseFactor self);
  ok_parseTarget : forall src, ok src (wf src) (p_parseTarget self);
  ok_parseNotTest : forall src, ok src (wf src) (p_parseNotTest self);
  ok_parsePattern : forall src, ok src (wf src) (p_parsePattern self);
  ok_parseStatement : forall src, ok src (wf src) (p_parseStatement self);
  ok_parseElif : forall src, ok src (wf src) (p_parseElif self)
}.

(** *** The tokens after a parser state *)

(** The next [n] tokens that the tokenizer gives. *)
Fixpoint upcoming (n : nat) (t : Tokenizer) : option (list Token) :=
  match n with
  | 0 => Some []
  | S n' =>
      match next t with
      | Ok (tok, t') =>
          match upcoming n' t' with
          | Some toks => Some (tok :: toks)
          | None => None
          end
      | Throw _ => None
      | OutOfFuel => None
      end
  end.

(** A token that is one dot or three. *)
Definition isDots (tok : Token) : bool :=
  tokenIs tok OP (Some (js ".")) || tokenIs tok OP (Some (js "...")).

(** The number of characters of a run of tokens. *)
Definition charCount (toks : list Token) : nat :=
  length (concat (map tok_value toks)).

(** A token that starts the name of a module: a name other than [import]. *)
Definition isModuleStart (tok : Token) : bool :=
  tokenIs tok NAME None && negb (tokenIs tok NAME (Some (js "import"))).

(** What an [ImportFrom] says of the text it was read from: after [from]
    come the dot tokens [dots] and then the token [tok]; the level is the
    number of dots, and the module is the empty string when [tok] starts no
    name and a text that starts with [tok] when it does. *)
Definition importFromShape (src : jsstring) (s : stmt) : Prop :=
  match s with
  | ImportFrom module _ level =>
      exists p dots tok,
        reach src p
        /\ tokenIs (currentToken p) NAME (Some (js "from")) = true
        /\ upcoming (length dots + 1) (tokenizer p) = Some (dots ++ [tok])
        /\ forallb isDots dots = true
        /\ isDots tok = false
        /\ level = charCount dots
        /\ (module = None -> isModuleStart tok = false)
        /\ (isModuleStart tok = false -> module = Some [])
        /\ (isModuleStart tok = true ->
            exists rest, module = Some (tok_value tok ++ rest))
  | _ => True
  end.

(* ------------------------------------------------------------------ *)
(** *** Lists *)

Lemma All_app {A} (P : A -> Prop) (l1 l2 : list A) :
  All P (l1 ++ l2) <-> All P l1 /\ All P l2.
Proof.
  induction l1 as [|x l1 IH]; cbn [All app].
  - tauto.
  - rewrite IH. tauto.
Qed.

Lemma All_snoc {A} (P : A -> Prop) (l : list A) (x : A) :
  All P l -> P x -> All P (l ++ [x]).
Proof. intros Hl Hx. apply All_app. cbn [All]. tauto. Qed.

Lemma All_impl {A} (P P' : A -> Prop) (l : list A) :
  (forall x, P x -> P' x) -> All P l -> All P' l.
Proof.
  intros H. induction l as [|x l IH]; cbn [All]; [tauto|].
  intros [Hx Hl]. split; [apply H; exact Hx | apply IH; exact Hl].
Qed.

Lemma All_trivial {A} (P : A -> Prop) (l : list A) : (forall x, P x) -> All P l.
Proof. intros H. induction l as [|x l IH]; cbn [All]; auto. Qed.

Lemma All_True {A} (l : list A) : All (fun _ => True) l.
Proof. apply All_trivial. intros x. exact I. Qed.

Lemma All_removelast {A} (P : A -> Prop) (l : list A) :
  All P l -> All P (removelast l).
Proof.
  induction l as [|x l IH]; cbn [All removelast]; [tauto|].
  intros [Hx Hl]. destruct l as [|y l]; [exact I|].
  cbn [All]. split; [exact Hx | apply IH; exact Hl].
Qed.

Lemma All_last {A} (P : A -> Prop) (l : list A) (d : A) :
  All P l -> P d -> P (last l d).
Proof.
  induction l as [|x l IH]; cbn [All last]; [tauto|].
  intros [Hx Hl] Hd. destruct l as [|y l]; [exact Hx|].
  apply IH; assumption.
Qed.

(* ------------------------------------------------------------------ *)
(** *** The tokenizer keeps its source *)

Lemma source_atEnd (t : Tokenizer) : source (snd (atEnd t)) = source t.
Proof.
  unfold atEnd. destruct (indentStack t) as [|x [|y s]]; reflexivity.
Qed.

Lemma source_readString (t : Tokenizer) (tok : Token) (t' : Tokenizer) :
  readString t = Ok (tok, t') -> source t' = source t.
Proof.
  unfold readString. destruct (charAt t 0) as [quote|].
  - cbv zeta.
    destruct (readString_loop _ _ _ _ _ _) as [[[p l] c]| |]; try discriminate.
    intros H. injection H as _ <-. reflexivity.
  - intros H. injection H as _ <-. reflexivity.
Qed.

Lemma source_readRawString (t : Tokenizer) : source (snd (readRawString t)) = source t.
Proof.
  unfold readRawString. cbv zeta.
  destruct (readRawString_loop _ _ _ _ _ _) as [[p l] c]. reflexivity.
Qed.

Lemma source_readFStringContent (t : Tokenizer) :
  source (snd (readFStringContent t)) = source t.
Proof.
  unfold readFStringContent. cbv zeta.
  destruct (readFStringContent_loop _ _ _ _ _ _ _) as [[p l] c]. reflexivity.
Qed.

Lemma source_readByteString (t : Tokenizer) (tok : Token) (t' : Tokenizer) :
  readByteString t = Ok (tok, t') -> source t' = source t.
Proof.
  unfold readByteString. cbv zeta.
  destruct (readString _) as [[tok0 t0]| |] eqn:E; try discriminate.
  intros H. injection H as _ <-.
  apply source_readString in E. exact E.
Qed.

Lemma source_readNumber (t : Tokenizer) : source (snd (readNumber t)) = source t.
Proof.
  unfold readNumber. cbv zeta.
  repeat match goal with
         | |- context [if ?c then _ else _] => destruct c
         end; reflexivity.
Qed.

Lemma source_readOperator (t : Tokenizer) : source (snd (readOperator t)) = source t.
Proof.
  unfold readOperator. cbv zeta.
  repeat match goal with
         | |- context [if ?c then _ else _] => destruct c
         end; reflexivity.
Qed.

Lemma source_handleIndentation
      (k : Tokenizer -> result (Token * Tokenizer)) (t : Tokenizer)
      (tok : Token) (t' : Tokenizer) :
  (forall t0 tok0 t1, k t0 = Ok (tok0, t1) -> source t1 = source t0) ->
  handleIndentation k t = Ok (tok, t') -> source t' = source t.
Proof.
  intros Hk. unfold handleIndentation.
  destruct (handleIndentation_loop _ _ _ _ _ _) as [[[indent p] l] c].
  set (t1 := setAtLineStart (move t p l c) false).
  assert (H1 : source t1 = source t) by reflexivity.
  destruct (length (source t1) <=? pos t1).
  - intros H. injection H as H.
    pose proof (source_atEnd t1) as E. rewrite H in E. cbn [snd] in E. congruence.
  - destruct (hd 0 (indentStack t1) <? indent).
    + intros H. injection H as _ <-. exact H1.
    + destruct (indent <? hd 0 (indentStack t1)).
      * destruct (popDedents _ _ _) as [stack dedents].
        destruct (pendingTokens t1 ++ dedents) as [|first pending]; [discriminate|].
        intros H. injection H as _ <-. exact H1.
      * intros H. apply Hk in H. congruence.
Qed.

Lemma source_nextToken (fuel : nat) :
  forall t tok t', nextToken fuel t = Ok (tok, t') -> source t' = source t.
Proof.
  induction fuel as [|fuel IH]; intros t tok t'; cbn [nextToken]; [discriminate|].
  destruct (atLineStart t).
  - apply source_handleIndentation. exact IH.
  - cbv zeta.
    set (t1 := skipWhitespace t).
    assert (H1 : source t1 = source t).
    { unfold t1, skipWhitespace.
      destruct (skipWhitespace_loop _ _ _ _) as [[p l] c]. reflexivity. }
    repeat match goal with
           | |- (if ?c then _ else _) = _ -> _ => destruct c
           end;
      intros H.
    all: try (apply IH in H; rewrite H; exact H1).
    all: try (apply source_readString in H; congruence).
    all: try (apply source_readByteString in H; congruence).
    all: try (injection H as _ <-; exact H1).
    all: injection H as H; apply (f_equal snd) in H; cbn [snd] in H; subst t';
      unfold readFString;
      rewrite ?source_atEnd, ?source_readRawString, ?source_readFStringContent,
        ?source_readNumber, ?source_readOperator;
      exact H1.
Qed.

Lemma source_next (t : Tokenizer) (tok : Token) (t' : Tokenizer) :
  next t = Ok (tok, t') -> source t' = source t.
Proof.
  unfold next. destruct (pendingTokens t) as [|x pending].
  - apply source_nextToken.
  - intros H. injection H as _ <-. reflexivity.
Qed.

Lemma source_peek (t : Tokenizer) (tok : Token) (t' : Tokenizer) :
  peek t = Ok (tok, t') -> source t' = source t.
Proof.
  unfold peek. destruct (pendingTokens t) as [|x pending].
  - destruct (nextToken nextTokenDepth t) as [[tok0 t0]| |] eqn:E; try discriminate.
    intros H. injection H as _ <-. apply source_nextToken in E. exact E.
  - intros H. injection H as _ <-. reflexivity.
Qed.


(* ------------------------------------------------------------------ *)
(** *** The tokenizer always answers *)

(** [nextToken] calls itself at most twice in a row: once after the
    indentation of a line and once after a comment, which ends before a line
    feed or at the end of the input.  The bound [nextTokenDepth] is thus never
    reached. *)

Lemma nth_error_span (f : cu -> bool) (l : jsstring) (x : cu) :
  nth_error l (span f l) = Some x -> f x = false.
Proof.
  induction l as [|c l IH]; cbn [span]; [discriminate|].
  destruct (f c) eqn:E; cbn [nth_error].
  - exact IH.
  - intros H. injection H as <-. exact E.
Qed.

Lemma charAt_skipn (t : Tokenizer) (k : nat) :
  charAt t k = nth_error (skipn (pos t) (source t)) k.
Proof. unfold charAt. symmetry. apply nth_error_skipn. Qed.

(** After a comment comes a line feed or nothing. *)
Definition atLineEnd (t : Tokenizer) : Prop :=
  charAt t 0 = Some LF \/ charAt t 0 = None.

Lemma skipComment_atLineEnd (t : Tokenizer) : atLineEnd (skipComment t).
Proof.
  unfold atLineEnd, skipComment, charAt. cbn [source pos move].
  rewrite Nat.add_0_r, <- nth_error_skipn.
  destruct (nth_error _ _) as [x|] eqn:E; [left|right; reflexivity].
  apply nth_error_span in E. apply negb_false_iff, cu_eqb_eq in E.
  rewrite E. reflexivity.
Qed.

Lemma skipWhitespace_atLineStart (t : Tokenizer) :
  atLineStart (skipWhitespace t) = atLineStart t.
Proof.
  unfold skipWhitespace. destruct (skipWhitespace_loop _ _ _ _) as [[p l] c].
  reflexivity.
Qed.

Lemma skipWhitespace_atLineEnd (t : Tokenizer) :
  atLineEnd t -> atLineEnd (skipWhitespace t).
Proof.
  unfold atLineEnd. intros H. rewrite !charAt_skipn in H.
  unfold skipWhitespace.
  destruct (skipn (pos t) (source t)) as [|x rest] eqn:E; cbn [nth_error] in H.
  - cbn [skipWhitespace_loop]. rewrite !charAt_skipn. cbn [pos source move].
    rewrite E. right. reflexivity.
  - destruct H as [H|H]; [|discriminate]. injection H as ->.
    cbn [skipWhitespace_loop].
    change (cu_eqb LF (ch " ") || cu_eqb LF TAB) with false.
    change (cu_eqb LF (ch "\")) with false. cbv iota.
    rewrite !charAt_skipn. cbn [pos source move]. rewrite E. left. reflexivity.
Qed.

Lemma readString_loop_answers (quote : cu) (triple : bool) (rest : jsstring) :
  forall p l c, readString_loop quote triple rest p l c <> OutOfFuel.
Proof.
  induction rest as [rest IH] using (well_founded_induction
                                       (Wf_nat.well_founded_ltof _ (@length cu))).
  unfold Wf_nat.ltof in IH.
  intros p l c. destruct rest as [|x rest]; cbn [readString_loop]; [discriminate|].
  destruct (cu_eqb x (ch "\")).
  - destruct rest as [|y rest]; [discriminate|].
    destruct (cu_eqb y LF); apply IH; cbn [length]; lia.
  - destruct (cu_eqb x quote).
    + destruct triple; [|discriminate].
      destruct (_ && _); [discriminate|]. apply IH. cbn [length]. lia.
    + destruct (cu_eqb x LF && negb triple); [discriminate|].
      destruct (cu_eqb x LF); apply IH; cbn [length]; lia.
Qed.

Lemma readString_answers (t : Tokenizer) : readString t <> OutOfFuel.
Proof.
  unfold readString. destruct (charAt t 0) as [quote|]; [|discriminate].
  cbv zeta.
  destruct (readString_loop _ _ _ _ _ _) as [[[p l] c]| |] eqn:E; try discriminate.
  exfalso. exact (readString_loop_answers _ _ _ _ _ _ E).
Qed.

Lemma readByteString_answers (t : Tokenizer) : readByteString t <> OutOfFuel.
Proof.
  unfold readByteString. cbv zeta.
  destruct (readString _) as [[tok t']| |] eqn:E; try discriminate.
  exfalso. exact (readString_answers _ E).
Qed.

(** At the end of a line one call is enough. *)
Lemma nextToken_atLineEnd (fuel : nat) (t : Tokenizer) :
  atLineStart t = false -> atLineEnd t -> nextToken (S fuel) t <> OutOfFuel.
Proof.
  intros Hstart Hend. cbn [nextToken]. rewrite Hstart. cbv zeta.
  apply skipWhitespace_atLineEnd in Hend.
  set (t1 := skipWhitespace t) in *.
  destruct (length (source t1) <=? pos t1); [discriminate|].
  destruct Hend as [H|H]; rewrite H; cbn [isCh].
  - change (cu_eqb LF (ch "#")) with false.
    change (cu_eqb LF LF) with true. cbv iota. discriminate.
  - cbn. discriminate.
Qed.

(** Inside a line two calls are enough. *)
Lemma nextToken_inLine (fuel : nat) (t : Tokenizer) :
  atLineStart t = false -> nextToken (2 + fuel) t <> OutOfFuel.
Proof.
  intros Hstart. change (2 + fuel) with (S (S fuel)).
  remember (S fuel) as fuel' eqn:Efuel.
  cbn [nextToken]. rewrite Hstart. cbv zeta. subst fuel'.
  pose proof (skipWhitespace_atLineStart t) as H1. rewrite Hstart in H1.
  set (t1 := skipWhitespace t) in *.
  repeat match goal with
         | |- (if ?c then _ else _) <> _ => destruct c
         end;
    try discriminate.
  - apply nextToken_atLineEnd; [exact H1 | apply skipComment_atLineEnd].
  - apply readString_answers.
  - apply readByteString_answers.
Qed.

Lemma handleIndentation_answers
      (k : Tokenizer -> result (Token * Tokenizer)) (t : Tokenizer) :
  (forall t', atLineStart t' = false -> k t' <> OutOfFuel) ->
  handleIndentation k t <> OutOfFuel.
Proof.
  intros Hk. unfold handleIndentation.
  destruct (handleIndentation_loop _ _ _ _ _ _) as [[[indent p] l] c].
  set (t1 := setAtLineStart (move t p l c) false).
  destruct (length (source t1) <=? pos t1); [discriminate|].
  destruct (hd 0 (indentStack t1) <? indent); [discriminate|].
  destruct (indent <? hd 0 (indentStack t1)).
  - destruct (popDedents _ _ _) as [stack dedents].
    destruct (pendingTokens t1 ++ dedents); discriminate.
  - apply Hk. reflexivity.
Qed.

Lemma nextToken_answers (t : Tokenizer) : nextToken nextTokenDepth t <> OutOfFuel.
Proof.
  destruct (atLineStart t) eqn:Hstart.
  - unfold nextTokenDepth. remember 2 as fuel' eqn:Efuel.
    cbn [nextToken]. rewrite Hstart. subst fuel'.
    apply handleIndentation_answers. intros t' H'.
    apply (nextToken_inLine 0). exact H'.
  - apply (nextToken_inLine 1). exact Hstart.
Qed.

(** [next] and [peek] return a token or throw. *)
Lemma next_answers (t : Tokenizer) : next t <> OutOfFuel.
Proof.
  unfold next. destruct (pendingTokens t); [apply nextToken_answers | discriminate].
Qed.

Lemma peek_answers (t : Tokenizer) : peek t <> OutOfFuel.
Proof.
  unfold peek. destruct (pendingTokens t); [|discriminate].
  destruct (nextToken nextTokenDepth t) as [[tok t']| |] eqn:E; try discriminate.
  exfalso. exact (nextToken_answers t E).
Qed.

(* ------------------------------------------------------------------ *)
(** *** The rules of [ok] *)

Lemma ok_ret {A} (Inv : Parser -> Prop) (Q : A -> Prop) (a : A) :
  Q a -> keeps Inv Q (ret a).
Proof. intros H p a' p' Hp E. injection E as <- <-. split; assumption. Qed.

Lemma ok_throw {A} (Inv : Parser -> Prop) (Q : A -> Prop) (e : jsstring) :
  keeps Inv Q (throw e).
Proof. intros p a p' _ E. discriminate E. Qed.

Lemma ok_outOfFuel {A} (Inv : Parser -> Prop) (Q : A -> Prop) :
  keeps Inv Q outOfFuel.
Proof. intros p a p' _ E. discriminate E. Qed.

Lemma bind_Ok {A B} (m : M A) (k : A -> M B) (p : Parser) (r : B * Parser) :
  bind m k p = Ok r -> exists a p1, m p = Ok (a, p1) /\ k a p1 = Ok r.
Proof.
  unfold bind. destruct (m p) as [[a p1]| |]; try discriminate.
  intros H. exists a, p1. split; [reflexivity | exact H].
Qed.

Lemma ok_bind {A B} (Inv : Parser -> Prop) (Q1 : A -> Prop) (Q : B -> Prop)
      (m : M A) (k : A -> M B) :
  keeps Inv Q1 m -> (forall a, Q1 a -> keeps Inv Q (k a)) -> keeps Inv Q (bind m k).
Proof.
  intros Hm Hk p b p' Hp E.
  apply bind_Ok in E. destruct E as (a & p1 & E1 & E2).
  destruct (Hm p a p1 Hp E1) as [Ha Hp1].
  exact (Hk a Ha p1 b p' Hp1 E2).
Qed.

(** The rule for [bind] with the shape of the type in the middle. *)
Lemma ok_bind_wf {A B} {W : WF A} (src : jsstring) (Q : B -> Prop)
      (m : M A) (k : A -> M B) :
  ok src (wf src) m -> (forall a, wf src a -> ok src Q (k a)) -> ok src Q (bind m k).
Proof. apply ok_bind. Qed.

Lemma ok_weaken {A} (Inv : Parser -> Prop) (Q Q' : A -> Prop) (m : M A) :
  keeps Inv Q m -> (forall a, Q a -> Q' a) -> keeps Inv Q' m.
Proof.
  intros Hm HQ p a p' Hp E. destruct (Hm p a p' Hp E) as [Ha Hp'].
  split; [apply HQ; exact Ha | exact Hp'].
Qed.

Lemma ok_loop_inv {S A} (Inv : Parser -> Prop) (V : S -> Prop) (Q : A -> Prop)
      (fuel : nat) (body : S -> M (S + A)) :
  (forall s, V s ->
             keeps Inv (fun r => match r with inl s' => V s' | inr a => Q a end)
                   (body s)) ->
  forall s, V s -> keeps Inv Q (loop fuel body s).
Proof.
  intros Hbody. induction fuel as [|fuel IH]; intros s Hs; cbn [loop].
  - apply ok_outOfFuel.
  - eapply ok_bind; [apply Hbody; exact Hs|].
    intros [s'|a] Hr.
    + apply IH. exact Hr.
    + apply ok_ret. exact Hr.
Qed.

(** The rule for a loop whose variables keep the shape of their type. *)
Lemma ok_loop {S A} {WS : WF S} (src : jsstring) (Q : A -> Prop)
      (fuel : nat) (body : S -> M (S + A)) (s : S) :
  (forall s, wf src s ->
             ok src (fun r => match r with inl s' => wf src s' | inr a => Q a end) (body s)) ->
  wf src s -> ok src Q (loop fuel body s).
Proof.
  intros Hbody Hs. exact (ok_loop_inv (reach src) (wf src) Q fuel body Hbody s Hs).
Qed.

Lemma ok_while {S} {WS : WF S} (src : jsstring) (fuel : nat)
      (cond : M bool) (body : S -> M S) (s : S) :
  ok src (wf src) cond ->
  (forall s, wf src s -> ok src (wf src) (body s)) ->
  wf src s -> ok src (wf src) (while fuel cond body s).
Proof.
  intros Hc Hbody Hs. unfold while. apply ok_loop; [|exact Hs].
  intros s0 Hs0. eapply ok_bind; [exact Hc|].
  intros [|] _.
  - eapply ok_bind; [apply Hbody; exact Hs0|].
    intros s' Hs'. apply ok_ret. exact Hs'.
  - apply ok_ret. exact Hs0.
Qed.

(* ------------------------------------------------------------------ *)
(** *** The methods that read tokens *)

Create HintDb parser_ok.

Lemma current_ok (src : jsstring) : ok src (wf src) current.
Proof. intros p a p' Hp E. injection E as <- <-. split; [exact I | exact Hp]. Qed.

Lemma advance_ok (src : jsstring) : ok src (wf src) advance.
Proof.
  intros p a p' Hp E. split; [exact I|]. exact (reach_advance src p a p' Hp E).
Qed.

Lemma peekToken_ok (src : jsstring) : ok src (wf src) peekToken.
Proof.
  intros p a p' Hp E. split; [exact I|]. exact (reach_peek src p a p' Hp E).
Qed.

Lemma match_ok (src : jsstring) (type : TokenType) (value : option jsstring) :
  ok src (wf src) (match_ type value).
Proof. intros p a p' Hp E. injection E as <- <-. split; [exact I | exact Hp]. Qed.

Lemma matchOp_ok (src : jsstring) (value : string) : ok src (wf src) (matchOp value).
Proof. apply match_ok. Qed.

Lemma matchType_ok (src : jsstring) (type : TokenType) : ok src (wf src) (matchType type).
Proof. apply match_ok. Qed.

Lemma matchKeyword_ok (src : jsstring) (keyword : string) :
  ok src (wf src) (matchKeyword keyword).
Proof. intros p a p' Hp E. injection E as <- <-. split; [exact I | exact Hp]. Qed.

Lemma expect_ok (src : jsstring) (type : TokenType) (value : option jsstring) :
  ok src (wf src) (expect type value).
Proof.
  unfold expect. eapply ok_bind; [apply current_ok|]. intros token _.
  destruct (tokenIs token type value).
  - eapply ok_bind; [apply advance_ok|]. intros _ _. apply ok_ret. exact I.
  - apply ok_throw.
Qed.

Lemma expectOp_ok (src : jsstring) (value : string) : ok src (wf src) (expectOp value).
Proof. apply expect_ok. Qed.

Lemma expectKeyword_ok (src : jsstring) (keyword : string) :
  ok src (wf src) (expectKeyword keyword).
Proof. apply expect_ok. Qed.

Lemma wf_jsstring (src : jsstring) (s : jsstring) : wf src s.
Proof. apply All_trivial. intros x. exact I. Qed.

Lemma expectName_ok (src : jsstring) : ok src (wf src) expectName.
Proof.
  unfold expectName. eapply ok_bind; [apply expect_ok|]. intros tok _.
  apply ok_ret. apply wf_jsstring.
Qed.

Lemma notM_ok (src : jsstring) (a : M bool) :
  ok src (wf src) a -> ok src (wf src) (notM a).
Proof.
  intros Ha. unfold notM. eapply ok_bind; [exact Ha|]. intros t _.
  apply ok_ret. exact I.
Qed.

Lemma orM_ok (src : jsstring) (a b : M bool) :
  ok src (wf src) a -> ok src (wf src) b -> ok src (wf src) (orM a b).
Proof.
  intros Ha Hb. unfold orM. eapply ok_bind; [exact Ha|]. intros [|] _.
  - apply ok_ret. exact I.
  - exact Hb.
Qed.

Lemma andM_ok (src : jsstring) (a b : M bool) :
  ok src (wf src) a -> ok src (wf src) b -> ok src (wf src) (andM a b).
Proof.
  intros Ha Hb. unfold andM. eapply ok_bind; [exact Ha|]. intros [|] _.
  - exact Hb.
  - apply ok_ret. exact I.
Qed.

#[export] Hint Resolve current_ok advance_ok peekToken_ok match_ok matchOp_ok
  matchType_ok matchKeyword_ok expect_ok expectOp_ok expectKeyword_ok expectName_ok
  notM_ok orM_ok andM_ok : parser_ok.

(* ------------------------------------------------------------------ *)
(** *** Shapes of the values that the methods build *)

Create HintDb wf_db.
#[export] Hint Resolve All_snoc All_removelast wf_jsstring : wf_db.

(** Unfolding the shape of a type down to the shapes of its parts. *)
Ltac wf_unfold :=
  cbv [wf WF_expr WF_arguments WF_arg WF_keyword WF_comprehension WF_pattern
       WF_withitem WF_stmt WF_match_case WF_excepthandler WF_ModuleNode
       WF_ArgsState WF_list WF_option WF_prod WF_sum WF_bool WF_unit WF_nat
       WF_cu WF_Token WF_cmpop WF_alias WF_typeparam every_withitem] in *;
  cbn [every_expr every_arguments every_arg every_keyword every_comprehension
       every_pattern every_withitem every_stmt every_match_case
       every_excepthandler compareShape fromImport All AllOpt fst snd
       context_expr optional_vars body] in *.

Ltac wf_solve :=
  wf_unfold;
  repeat match goal with
         | H : _ /\ _ |- _ => destruct H
         end;
  repeat first
    [ assumption
    | exact I
    | apply All_True
    | solve [auto with wf_db]
    | match goal with
      | |- _ /\ _ => split
      end
    | apply All_snoc
    | apply All_removelast
    | apply All_last
    | progress wf_unfold ].

(** One step through the text of a method. *)
Ltac ok_step :=
  cbv beta;
  lazymatch goal with
  | |- ok _ _ (ret _) => apply ok_ret; wf_solve
  | |- ok _ _ (throw _) => apply ok_throw
  | |- ok _ _ outOfFuel => apply ok_outOfFuel
  | |- ok _ _ (bind _ _) =>
      apply ok_bind_wf; [| let a := fresh "a" in let Ha := fresh "Ha" in intros a Ha]
  | |- ok _ _ (loop _ _ _) =>
      apply ok_loop;
      [ let s := fresh "s" in let Hs := fresh "Hs" in intros s Hs | wf_solve ]
  | |- ok _ _ (while _ _ _ _) =>
      eapply ok_weaken;
      [ apply ok_while;
        [ | let s := fresh "s" in let Hs := fresh "Hs" in intros s Hs | wf_solve ]
      | intros; wf_solve ]
  | |- ok _ _ (andM _ _) => apply andM_ok
  | |- ok _ _ (orM _ _) => apply orM_ok
  | |- ok _ _ (notM _) => apply notM_ok
  | |- ok _ _ (match ?x with _ => _ end) => destruct x
  | |- ok _ _ (if ?c then _ else _) => destruct c
  | |- ok _ _ (let _ := _ in _) => cbv zeta
  | |- ok _ _ _ =>
      first [ solve [eauto 30 with parser_ok]
            | eapply ok_weaken; [solve [eauto 30 with parser_ok] | intros; wf_solve] ]
  end.

Ltac ok_auto := repeat ok_step.

#[export] Hint Extern 5 (wf _ _) => solve [wf_solve] : parser_ok.

(** The methods reached through [self]. *)
Ltac use_methods H :=
  pose proof (ok_parseExpr _ H);
  pose proof (ok_parseTernary _ H);
  pose proof (ok_parseNot _ H);
  pose proof (ok_parseComparison _ H);
  pose proof (ok_parseFactor _ H);
  pose proof (ok_parseTarget _ H);
  pose proof (ok_parseNotTest _ H);
  pose proof (ok_parsePattern _ H);
  pose proof (ok_parseStatement _ H);
  pose proof (ok_parseElif _ H).

(* ------------------------------------------------------------------ *)
(** *** Expressions *)

Section Invariant.
Variable fuel : nat.
Variable self : Methods.
Hypothesis Hself : methods_ok self.
Variable src : jsstring.

Lemma parseNested_ok (exprStr : jsstring) :
  ok src (wf src) (parseNested self exprStr).
Proof.
  intros p a p' Hp. unfold parseNested.
  destruct (newParser exprStr) as [q| |] eqn:Eq; try discriminate.
  destruct (p_parseExpr self q) as [[e q']| |] eqn:E; try discriminate.
  intros H. injection H as <- <-. split; [|exact Hp].
  exact (proj1 (ok_parseExpr self Hself exprStr q e q' (reach_new exprStr q Eq) E)).
Qed.
Hint Resolve parseNested_ok : parser_ok.

Lemma wf_chunkWith (str : jsstring) (textStart i : nat) (brace : cu) :
  every_expr compareShape (chunkWith str textStart i brace).
Proof. unfold chunkWith. destruct (textStart <? i); wf_solve. Qed.
Hint Resolve wf_chunkWith : wf_db.

Lemma All_or_default {A} (P : A -> Prop) (l : list A) (d : A) :
  All P l -> P d -> All P (match l with [] => [d] | _ :: _ => l end).
Proof. intros Hl Hd. destruct l; [cbn [All]; tauto | exact Hl]. Qed.

Lemma parseFStringValue_ok (raw : jsstring) :
  ok src (wf src) (parseFStringValue fuel self raw).
Proof.
  unfold parseFStringValue. cbv zeta. ok_step.
  - ok_auto.
    all: repeat match goal with
                | |- context [if ?c then _ else _] => destruct c
                | |- context [match f_formatSpec ?c with _ => _ end] =>
                    destruct (f_formatSpec c)
                end; wf_solve.
  - destruct a as [textStart values]. apply ok_ret.
    wf_unfold. destruct Ha as [_ Ha]. split; [exact I|].
    apply All_or_default; [|wf_solve].
    destruct (textStart <? _); wf_solve.
Qed.
Hint Resolve parseFStringValue_ok : parser_ok.

Lemma parseStringLiteral_ok : ok src (wf src) (parseStringLiteral fuel self).
Proof. unfold parseStringLiteral. ok_auto. Qed.
Hint Resolve parseStringLiteral_ok : parser_ok.

Lemma parseSliceItem_ok : ok src (wf src) (parseSliceItem self).
Proof. use_methods Hself. unfold parseSliceItem. ok_auto. Qed.
Hint Resolve parseSliceItem_ok : parser_ok.

Lemma parseSubscriptSlice_ok : ok src (wf src) (parseSubscriptSlice fuel self).
Proof. unfold parseSubscriptSlice. ok_auto. Qed.
Hint Resolve parseSubscriptSlice_ok : parser_ok.

Lemma parseSubscript_ok (value : expr) :
  wf src value -> ok src (wf src) (parseSubscript fuel self value).
Proof. intros Hv. unfold parseSubscript. ok_auto. Qed.
Hint Resolve parseSubscript_ok : parser_ok.

Lemma parseCall_ok (func : expr) :
  wf src func -> ok src (wf src) (parseCall fuel self func).
Proof. intros Hf. use_methods Hself. unfold parseCall. ok_auto. Qed.
Hint Resolve parseCall_ok : parser_ok.

Lemma wf_emptyArgs : every_arguments compareShape (toArguments emptyArgs).
Proof. cbn. tauto. Qed.

Lemma wf_pushParam (a : ArgsState) (x : arg) (default : option expr) :
  every_arguments compareShape (toArguments a) ->
  every_arg compareShape x ->
  AllOpt (every_expr compareShape) default ->
  every_arguments compareShape (toArguments (pushParam a x default)).
Proof.
  unfold pushParam, toArguments. cbn [every_arguments].
  intros (H1 & H2 & H3 & H4 & H5 & H6 & H7) Hx Hd.
  destruct (a_seenStar a); [|destruct default];
    cbn [a_args a_defaults a_kwonlyargs a_kw_defaults a_vararg a_kwarg];
    repeat split; try assumption; apply All_snoc; assumption.
Qed.

Lemma wf_setKwarg (a : ArgsState) (x : arg) :
  every_arguments compareShape (toArguments a) ->
  every_arg compareShape x ->
  every_arguments compareShape (toArguments (setKwarg a x)).
Proof.
  unfold setKwarg, toArguments. cbn [every_arguments].
  intros (H1 & H2 & H3 & H4 & H5 & H6 & H7) Hx.
  cbn [a_args a_defaults a_kwonlyargs a_kw_defaults a_vararg a_kwarg AllOpt].
  repeat split; assumption.
Qed.

Lemma wf_setStar (a : ArgsState) (x : option arg) :
  every_arguments compareShape (toArguments a) ->
  AllOpt (every_arg compareShape) x ->
  every_arguments compareShape (toArguments (setStar a x)).
Proof.
  unfold setStar, toArguments. cbn [every_arguments].
  intros (H1 & H2 & H3 & H4 & H5 & H6 & H7) Hx.
  cbn [a_args a_defaults a_kwonlyargs a_kw_defaults a_vararg a_kwarg].
  destruct x; repeat split; assumption.
Qed.

Hint Resolve wf_emptyArgs wf_pushParam wf_setKwarg wf_setStar : wf_db.

Lemma parseLambdaArgs_ok : ok src (wf src) (parseLambdaArgs fuel self).
Proof. use_methods Hself. unfold parseLambdaArgs. ok_auto. Qed.
Hint Resolve parseLambdaArgs_ok : parser_ok.

Lemma parseLambda_ok : ok src (wf src) (parseLambda fuel self).
Proof. use_methods Hself. unfold parseLambda. ok_auto. Qed.
Hint Resolve parseLambda_ok : parser_ok.

Lemma parseTargetElts_ok (close : string) :
  ok src (wf src) (parseTargetElts fuel self close).
Proof. use_methods Hself. unfold parseTargetElts. ok_auto. Qed.
Hint Resolve parseTargetElts_ok : parser_ok.

Lemma parseTarget_ok : ok src (wf src) (parseTarget fuel self).
Proof. use_methods Hself. unfold parseTarget. ok_auto. Qed.
Hint Resolve parseTarget_ok : parser_ok.

Lemma parseTargetList_ok : ok src (wf src) (parseTargetList fuel self).
Proof. unfold parseTargetList. ok_auto. Qed.
Hint Resolve parseTargetList_ok : parser_ok.

Lemma parseNotTest_ok : ok src (wf src) (parseNotTest self).
Proof. use_methods Hself. unfold parseNotTest. ok_auto. Qed.
Hint Resolve parseNotTest_ok : parser_ok.

Lemma boolOperands_ok (keyword : string) (operand : M expr) (lhs : expr) :
  ok src (wf src) operand -> wf src lhs ->
  ok src (wf src) (boolOperands fuel keyword operand lhs).
Proof. intros Ho Hl. unfold boolOperands. ok_auto. Qed.
Hint Resolve boolOperands_ok : parser_ok.

Lemma parseAndTest_ok : ok src (wf src) (parseAndTest fuel self).
Proof. unfold parseAndTest. ok_auto. Qed.
Hint Resolve parseAndTest_ok : parser_ok.

Lemma parseOrTest_ok : ok src (wf src) (parseOrTest fuel self).
Proof. unfold parseOrTest. ok_auto. Qed.
Hint Resolve parseOrTest_ok : parser_ok.

Lemma parseComprehensionClauses_ok :
  ok src (wf src) (parseComprehensionClauses fuel self).
Proof. unfold parseComprehensionClauses. ok_auto. Qed.
Hint Resolve parseComprehensionClauses_ok : parser_ok.

Lemma parseDictItems_ok (keys : list (option expr)) (values : list expr) :
  wf src keys -> wf src values ->
  ok src (wf src) (parseDictItems fuel self keys values).
Proof. intros Hk Hv. use_methods Hself. unfold parseDictItems. ok_auto. Qed.
Hint Resolve parseDictItems_ok : parser_ok.

Lemma parseElts_ok (close : string) (first : expr) :
  wf src first -> ok src (wf src) (parseElts fuel self close first).
Proof. intros Hf. use_methods Hself. unfold parseElts. ok_auto. Qed.
Hint Resolve parseElts_ok : parser_ok.

Lemma parseDictOrSet_ok : ok src (wf src) (parseDictOrSet fuel self).
Proof. use_methods Hself. unfold parseDictOrSet. ok_auto. Qed.
Hint Resolve parseDictOrSet_ok : parser_ok.

Lemma parsePrimary_ok : ok src (wf src) (parsePrimary fuel self).
Proof. use_methods Hself. unfold parsePrimary. ok_auto. Qed.
Hint Resolve parsePrimary_ok : parser_ok.

Lemma parseAtom_ok : ok src (wf src) (parseAtom fuel self).
Proof. unfold parseAtom. ok_auto. Qed.
Hint Resolve parseAtom_ok : parser_ok.

Lemma parseAwait_ok : ok src (wf src) (parseAwait fuel self).
Proof. unfold parseAwait. ok_auto. Qed.
Hint Resolve parseAwait_ok : parser_ok.

Lemma parsePower_ok : ok src (wf src) (parsePower fuel self).
Proof. use_methods Hself. unfold parsePower. ok_auto. Qed.
Hint Resolve parsePower_ok : parser_ok.

Lemma parseFactor_ok : ok src (wf src) (parseFactor fuel self).
Proof. use_methods Hself. unfold parseFactor. ok_auto. Qed.
Hint Resolve parseFactor_ok : parser_ok.

Lemma binaryChain_ok (operators : list (string * operator)) (operand : M expr) :
  ok src (wf src) operand -> ok src (wf src) (binaryChain fuel operators operand).
Proof. intros Ho. unfold binaryChain. ok_auto. Qed.
Hint Resolve binaryChain_ok : parser_ok.

Lemma parseBitOr_ok : ok src (wf src) (parseBitOr fuel self).
Proof.
  unfold parseBitOr, parseBitXor, parseBitAnd, parseShift, parseArith, parseTerm.
  auto 10 with parser_ok.
Qed.
Hint Resolve parseBitOr_ok : parser_ok.

Lemma compareOperator_ok : ok src (wf src) compareOperator.
Proof. unfold compareOperator. ok_auto. Qed.
Hint Resolve compareOperator_ok : parser_ok.

(** The loop of [parseComparison] pushes an operator and a comparator
    together. *)
Lemma parseComparison_ok : ok src (wf src) (parseComparison fuel self).
Proof.
  unfold parseComparison. ok_step; [ok_auto|].
  eapply ok_bind.
  - apply (ok_loop_inv (reach src)
             (fun s : list cmpop * list expr =>
                length (fst s) = length (snd s) /\ wf src (snd s))
             (fun s : list cmpop * list expr =>
                length (fst s) = length (snd s) /\ wf src (snd s))).
    + intros [ops comparators] [Hlen Hwf]. cbn [fst snd] in Hlen, Hwf.
      ok_step; [ok_auto|].
      destruct a0 as [op|].
      * ok_step; [ok_auto|]. apply ok_ret. cbn [fst snd].
        split; [rewrite !length_app; cbn [length]; lia | wf_solve].
      * apply ok_ret. cbn [fst snd]. split; assumption.
    + cbn [fst snd]. split; [reflexivity | exact I].
  - intros [ops comparators] [Hlen Hwf]. cbn [fst snd] in Hlen, Hwf.
    destruct (Nat.eqb (length ops) 0) eqn:E.
    + apply ok_ret. exact Ha.
    + apply ok_ret. apply Nat.eqb_neq in E. wf_solve. lia.
Qed.
Hint Resolve parseComparison_ok : parser_ok.

Lemma parseNot_ok : ok src (wf src) (parseNot fuel self).
Proof. use_methods Hself. unfold parseNot. ok_auto. Qed.
Hint Resolve parseNot_ok : parser_ok.

Lemma parseAnd_ok : ok src (wf src) (parseAnd fuel self).
Proof. unfold parseAnd. ok_auto. Qed.
Hint Resolve parseAnd_ok : parser_ok.

Lemma parseOr_ok : ok src (wf src) (parseOr fuel self).
Proof. unfold parseOr. ok_auto. Qed.
Hint Resolve parseOr_ok : parser_ok.

Lemma parseTernary_ok : ok src (wf src) (parseTernary fuel self).
Proof. use_methods Hself. unfold parseTernary. ok_auto. Qed.
Hint Resolve parseTernary_ok : parser_ok.

Lemma parseNamedExpr_ok : ok src (wf src) (parseNamedExpr fuel self).
Proof. use_methods Hself. unfold parseNamedExpr. ok_auto. Qed.
Hint Resolve parseNamedExpr_ok : parser_ok.

Lemma parseExpr_ok : ok src (wf src) (parseExpr fuel self).
Proof. unfold parseExpr. apply parseNamedExpr_ok. Qed.
Hint Resolve parseExpr_ok : parser_ok.

(* ---------------------------------------------------------------- *)
(** *** Statements *)

Lemma parseDottedName_ok : ok src (wf src) (parseDottedName fuel).
Proof. unfold parseDottedName. ok_auto. Qed.
Hint Resolve parseDottedName_ok : parser_ok.

Lemma parseDottedNameUntilImport_ok :
  ok src (wf src) (parseDottedNameUntilImport fuel).
Proof. unfold parseDottedNameUntilImport. ok_auto. Qed.
Hint Resolve parseDottedNameUntilImport_ok : parser_ok.

Lemma parseAsName_ok : ok src (wf src) parseAsName.
Proof. unfold parseAsName. ok_auto. Qed.
Hint Resolve parseAsName_ok : parser_ok.

Lemma parseImport_ok : ok src (wf src) (parseImport fuel).
Proof. unfold parseImport. ok_auto. Qed.
Hint Resolve parseImport_ok : parser_ok.

Lemma parseLevel_ok : ok src (wf src) (parseLevel fuel).
Proof. unfold parseLevel. ok_auto. Qed.
Hint Resolve parseLevel_ok : parser_ok.

(** [parseFromImport] returns an [ImportFrom]. *)
Lemma parseFromImport_returns :
  ok src (fun s => exists module names level, s = ImportFrom module names level)
     (parseFromImport fuel).
Proof. unfold parseFromImport. ok_auto. all: eauto. Qed.

(** The [ImportFrom] of the branch for [from] of [parseSimpleStatement]. *)
Lemma fromImport_guarded_ok (rest : M stmt) :
  ok src (wf src) rest ->
  ok src (wf src) (IFM matchKeyword "from" THEN parseFromImport fuel ELSE rest).
Proof.
  intros Hrest p a p' Hp E. unfold bind, matchKeyword in E.
  destruct (tokenIs (currentToken p) NAME (Some (js "from"))) eqn:T.
  - destruct (parseFromImport_returns p a p' Hp E)
      as [(module & names & level & ->) Hp'].
    split; [|exact Hp']. wf_unfold. split; [|exact I].
    exists fuel, p, p'. split; [exact Hp|]. split; [exact T | exact E].
  - exact (Hrest p a p' Hp E).
Qed.

Ltac ok_stmt := repeat first [apply fromImport_guarded_ok | ok_step].

Lemma parseTypeParams_ok : ok src (wf src) (parseTypeParams fuel).
Proof. unfold parseTypeParams. ok_auto. Qed.
Hint Resolve parseTypeParams_ok : parser_ok.

Lemma parseAnnotation_ok : ok src (wf src) (parseAnnotation fuel self).
Proof. unfold parseAnnotation. ok_auto. Qed.
Hint Resolve parseAnnotation_ok : parser_ok.

Lemma parseArguments_ok : ok src (wf src) (parseArguments fuel self).
Proof. unfold parseArguments. ok_auto. Qed.
Hint Resolve parseArguments_ok : parser_ok.

Lemma parsePatternElts_ok (close : string) :
  ok src (wf src) (parsePatternElts fuel self close).
Proof. use_methods Hself. unfold parsePatternElts. ok_auto. Qed.
Hint Resolve parsePatternElts_ok : parser_ok.

Lemma parsePrimaryPattern_ok : ok src (wf src) (parsePrimaryPattern fuel self).
Proof. use_methods Hself. unfold parsePrimaryPattern. ok_auto. Qed.
Hint Resolve parsePrimaryPattern_ok : parser_ok.

Lemma parseAsPattern_ok : ok src (wf src) (parseAsPattern fuel self).
Proof. unfold parseAsPattern. ok_auto. Qed.
Hint Resolve parseAsPattern_ok : parser_ok.

Lemma parseOrPattern_ok : ok src (wf src) (parseOrPattern fuel self).
Proof. unfold parseOrPattern. ok_auto. Qed.
Hint Resolve parseOrPattern_ok : parser_ok.

Lemma parsePattern_ok : ok src (wf src) (parsePattern fuel self).
Proof. unfold parsePattern. apply parseOrPattern_ok. Qed.
Hint Resolve parsePattern_ok : parser_ok.

Lemma parseReturn_ok : ok src (wf src) (parseReturn fuel self).
Proof. unfold parseReturn. ok_auto. Qed.
Hint Resolve parseReturn_ok : parser_ok.

Lemma parseRaise_ok : ok src (wf src) (parseRaise fuel self).
Proof. unfold parseRaise. ok_auto. Qed.
Hint Resolve parseRaise_ok : parser_ok.

Lemma commaSeparated_ok {A} {W : WF A} (item : M A) :
  ok src (wf src) item -> ok src (wf src) (commaSeparated fuel item).
Proof. intros Hi. unfold commaSeparated. ok_auto. Qed.
Hint Resolve commaSeparated_ok : parser_ok.

Lemma parseGlobal_ok : ok src (wf src) (parseGlobal fuel).
Proof. unfold parseGlobal. ok_auto. Qed.
Hint Resolve parseGlobal_ok : parser_ok.

Lemma parseNonlocal_ok : ok src (wf src) (parseNonlocal fuel).
Proof. unfold parseNonlocal. ok_auto. Qed.
Hint Resolve parseNonlocal_ok : parser_ok.

Lemma parseAssert_ok : ok src (wf src) (parseAssert fuel self).
Proof. unfold parseAssert. ok_auto. Qed.
Hint Resolve parseAssert_ok : parser_ok.

Lemma parseDelete_ok : ok src (wf src) (parseDelete fuel self).
Proof. unfold parseDelete. ok_auto. Qed.
Hint Resolve parseDelete_ok : parser_ok.

Lemma parseTypeAlias_ok : ok src (wf src) (parseTypeAlias fuel self).
Proof. unfold parseTypeAlias. ok_auto. Qed.
Hint Resolve parseTypeAlias_ok : parser_ok.

Lemma isAssignTarget_ok : ok src (wf src) isAssignTarget.
Proof. unfold isAssignTarget. ok_auto. Qed.
Hint Resolve isAssignTarget_ok : parser_ok.

Lemma isEndOfExprList_ok : ok src (wf src) isEndOfExprList.
Proof. unfold isEndOfExprList. ok_auto. Qed.
Hint Resolve isEndOfExprList_ok : parser_ok.

Lemma parseExprList_ok : ok src (wf src) (parseExprList fuel self).
Proof. unfold parseExprList. ok_auto. Qed.
Hint Resolve parseExprList_ok : parser_ok.

Lemma parseExpressionStatement_ok :
  ok src (wf src) (parseExpressionStatement fuel self).
Proof. unfold parseExpressionStatement. ok_auto. Qed.
Hint Resolve parseExpressionStatement_ok : parser_ok.

Lemma parseSimpleStatement_ok : ok src (wf src) (parseSimpleStatement fuel self).
Proof. unfold parseSimpleStatement. ok_stmt. Qed.
Hint Resolve parseSimpleStatement_ok : parser_ok.

Lemma isAtSuiteEnd_ok : ok src (wf src) isAtSuiteEnd.
Proof. unfold isAtSuiteEnd. ok_auto. Qed.
Hint Resolve isAtSuiteEnd_ok : parser_ok.

Lemma parseSuite_ok : ok src (wf src) (parseSuite fuel self).
Proof. use_methods Hself. unfold parseSuite. ok_auto. Qed.
Hint Resolve parseSuite_ok : parser_ok.

Lemma parseFunctionDef_ok (isAsync : bool) :
  ok src (wf src) (parseFunctionDef fuel self isAsync).
Proof. unfold parseFunctionDef. destruct isAsync; ok_auto. Qed.
Hint Resolve parseFunctionDef_ok : parser_ok.

Lemma parseClassDef_ok : ok src (wf src) (parseClassDef fuel self).
Proof. unfold parseClassDef. ok_auto. Qed.
Hint Resolve parseClassDef_ok : parser_ok.

Lemma parseOrelse_ok : ok src (wf src) (parseOrelse fuel self).
Proof. unfold parseOrelse. ok_auto. Qed.
Hint Resolve parseOrelse_ok : parser_ok.

Lemma parseIfBody_ok : ok src (wf src) (parseIfBody fuel self).
Proof. use_methods Hself. unfold parseIfBody. ok_auto. Qed.
Hint Resolve parseIfBody_ok : parser_ok.

Lemma parseElif_ok : ok src (wf src) (parseElif fuel self).
Proof. unfold parseElif. apply parseIfBody_ok. Qed.

Lemma parseIf_ok : ok src (wf src) (parseIf fuel self).
Proof. unfold parseIf. apply parseIfBody_ok. Qed.
Hint Resolve parseIf_ok : parser_ok.

Lemma parseFor_ok (isAsync : bool) : ok src (wf src) (parseFor fuel self isAsync).
Proof. unfold parseFor. destruct isAsync; ok_auto. Qed.
Hint Resolve parseFor_ok : parser_ok.

Lemma parseWhile_ok : ok src (wf src) (parseWhile fuel self).
Proof. unfold parseWhile. ok_auto. Qed.
Hint Resolve parseWhile_ok : parser_ok.

Lemma parseWith_ok (isAsync : bool) : ok src (wf src) (parseWith fuel self isAsync).
Proof.
  unfold parseWith. ok_step; [ok_auto|].
  ok_step; [apply commaSeparated_ok; ok_auto | destruct isAsync; ok_auto].
Qed.
Hint Resolve parseWith_ok : parser_ok.

Lemma parseMatchCase_ok : ok src (wf src) (parseMatchCase fuel self).
Proof. unfold parseMatchCase. ok_auto. Qed.
Hint Resolve parseMatchCase_ok : parser_ok.

Lemma parseMatch_ok : ok src (wf src) (parseMatch fuel self).
Proof. unfold parseMatch. ok_auto. Qed.
Hint Resolve parseMatch_ok : parser_ok.

Lemma parseExceptHandler_ok : ok src (wf src) (parseExceptHandler fuel self).
Proof. unfold parseExceptHandler. ok_auto. Qed.
Hint Resolve parseExceptHandler_ok : parser_ok.

Lemma parseTry_ok : ok src (wf src) (parseTry fuel self).
Proof. unfold parseTry. ok_auto. Qed.
Hint Resolve parseTry_ok : parser_ok.

Lemma wf_setDecorators (node : stmt) (decorators : list expr) :
  every_stmt (fromImport src) compareShape node ->
  All (every_expr compareShape) decorators ->
  every_stmt (fromImport src) compareShape (setDecorators node decorators).
Proof.
  intros Hn Hd. destruct node; cbn [setDecorators]; try exact Hn;
    cbn [every_stmt fromImport] in *; tauto.
Qed.
Hint Resolve wf_setDecorators : wf_db.

Lemma parseDecorated_ok : ok src (wf src) (parseDecorated fuel self).
Proof. unfold parseDecorated. ok_auto. Qed.
Hint Resolve parseDecorated_ok : parser_ok.

Lemma parseAsyncStatement_ok : ok src (wf src) (parseAsyncStatement fuel self).
Proof. unfold parseAsyncStatement. ok_auto. Qed.
Hint Resolve parseAsyncStatement_ok : parser_ok.

Lemma parseStatement_ok : ok src (wf src) (parseStatement fuel self).
Proof. unfold parseStatement. ok_auto. Qed.
Hint Resolve parseStatement_ok : parser_ok.

Lemma parseModule_ok : ok src (wf src) (parseModule fuel self).
Proof. unfold parseModule. ok_auto. Qed.

End Invariant.

(* ------------------------------------------------------------------ *)
(** *** The whole parser *)

Lemma methods_ok_all (fuel : nat) : methods_ok (methods fuel).
Proof.
  induction fuel as [|fuel IH].
  - constructor; intros src; apply ok_outOfFuel.
  - constructor; intros src;
      cbn [methods p_parseExpr p_parseTernary p_parseNot p_parseComparison
           p_parseFactor p_parseTarget p_parseNotTest p_parsePattern
           p_parseStatement p_parseElif].
    + apply parseExpr_ok; exact IH.
    + apply parseTernary_ok; exact IH.
    + apply parseNot_ok; exact IH.
    + apply parseComparison_ok; exact IH.
    + apply parseFactor_ok; exact IH.
    + apply parseTarget_ok; exact IH.
    + apply parseNotTest_ok; exact IH.
    + apply parsePattern_ok; exact IH.
    + apply parseStatement_ok; exact IH.
    + apply parseElif_ok; exact IH.
Qed.

Lemma newParser_source (src : jsstring) (p : Parser) :
  newParser src = Ok p -> source (tokenizer p) = src.
Proof.
  unfold newParser.
  destruct (next (newTokenizer src)) as [[tok t]| |] eqn:E; try discriminate.
  intros H. injection H as <-. apply source_next in E. exact E.
Qed.

(** Every state of a parser of [src] reads the text [src]. *)
Lemma reach_source (src : jsstring) (p : Parser) :
  reach src p -> source (tokenizer p) = src.
Proof.
  induction 1 as [p H|p tok p' _ IH H|p tok p' _ IH H].
  - apply newParser_source. exact H.
  - unfold advance in H.
    destruct (next (tokenizer p)) as [[tok' t]| |] eqn:E; try discriminate.
    injection H as _ <-. cbn [tokenizer]. apply source_next in E. congruence.
  - unfold peekToken in H.
    destruct (peek (tokenizer p)) as [[tok' t]| |] eqn:E; try discriminate.
    injection H as _ <-. cbn [tokenizer]. apply source_peek in E. congruence.
Qed.

Lemma runParser_ok {A} (src : jsstring) (Q : A -> Prop) (m : M A) (a : A) :
  ok src Q m -> runParser m src = Ok a -> Q a.
Proof.
  intros Hm. unfold runParser.
  destruct (newParser src) as [p| |] eqn:E; try discriminate.
  destruct (m p) as [[a' p']| |] eqn:E2; try discriminate.
  intros H. injection H as <-.
  exact (proj1 (Hm p a' p' (reach_new src p E) E2)).
Qed.

Lemma parse_wf (fuel : nat) (src : jsstring) (tree : ModuleNode) :
  parse fuel src = Ok tree -> wf src tree.
Proof.
  apply runParser_ok. apply parseModule_ok. apply methods_ok_all.
Qed.

Lemma parseExpression_wf (fuel : nat) (src : jsstring) (e : expr) :
  parseExpression fuel src = Ok e -> wf src e.
Proof.
  apply runParser_ok. apply parseExpr_ok. apply methods_ok_all.
Qed.

(** The step of an induction over a list of statements below [s]. *)
Ltac stmt_list IH :=
  match goal with
  | H : All _ ?l |- All _ ?l =>
      revert H; clear -IH;
      let x := fresh "x" in
      let IHl := fresh "IHl" in
      let Hx := fresh "Hx" in
      let Hl := fresh "Hl" in
      induction l as [|x l IHl]; cbn [All];
      [ trivial
      | intros [Hx Hl]; split; [apply IH; exact Hx | apply IHl; exact Hl] ]
  end.

(** A property of the statements that follows from another one. *)
Lemma every_stmt_impl (P P' : stmt -> Prop) (Q : expr -> Prop) :
  (forall s, P s -> P' s) ->
  forall s, every_stmt P Q s -> every_stmt P' Q s.
Proof.
  intros HP. fix IH 1. intros s.
  destruct s; cbn [every_stmt]; intros [H0 H]; (split; [apply HP; exact H0|]);
    try exact H.
  all: repeat match goal with
              | H : _ /\ _ |- _ => destruct H
              end.
  all: repeat match goal with
              | |- _ /\ _ => split
              end; try assumption.
  all: try stmt_list IH.
  - revert H1. clear -IH. induction cases as [|c cases IHc]; cbn [All]; [trivial|].
    intros [Hc Hcs]. split; [|apply IHc; exact Hcs].
    destruct c as [pat guard body]. cbn [every_match_case] in *.
    destruct Hc as (Hp & Hg & Hb). split; [exact Hp|]. split; [exact Hg|].
    stmt_list IH.
  - revert H1. clear -IH. induction handlers as [|h handlers IHh]; cbn [All]; [trivial|].
    intros [Hh Hhs]. split; [|apply IHh; exact Hhs].
    destruct h as [type_ name body]. cbn [every_excepthandler] in *.
    destruct Hh as (Ht & Hb). split; [exact Ht|].
    stmt_list IH.
Qed.

(** The statements alone. *)
Lemma every_stmt_each (P P' : stmt -> Prop) (Q : expr -> Prop) :
  (forall s, P s -> P' s) ->
  forall s, every_stmt P Q s -> each_stmt P' s.
Proof.
  intros HP. fix IH 1. intros s.
  destruct s; cbn [every_stmt each_stmt]; intros [H0 H];
    (split; [apply HP; exact H0|]); try exact I.
  all: repeat match goal with
              | H : _ /\ _ |- _ => destruct H
              end.
  all: repeat match goal with
              | |- _ /\ _ => split
              end.
  all: try stmt_list IH.
  - revert H1. clear -IH. induction cases as [|c cases IHc]; cbn [All]; [trivial|].
    intros [Hc Hcs]. split; [|apply IHc; exact Hcs].
    destruct c as [pat guard body]. cbn [every_match_case each_match_case] in *.
    destruct Hc as (Hp & Hg & Hb).
    stmt_list IH.
  - revert H1. clear -IH. induction handlers as [|h handlers IHh]; cbn [All]; [trivial|].
    intros [Hh Hhs]. split; [|apply IHh; exact Hhs].
    destruct h as [type_ name body]. cbn [every_excepthandler each_excepthandler] in *.
    destruct Hh as (Ht & Hb).
    stmt_list IH.
Qed.


(* ------------------------------------------------------------------ *)
(** *** The text that [parseFromImport] reads *)

Lemma str_eqb_eq (a b : jsstring) : str_eqb a b = true -> a = b.
Proof.
  revert b. induction a as [|x a IH]; intros [|y b]; cbn [str_eqb];
    try discriminate; [reflexivity|].
  intros H. apply andb_prop in H. destruct H as [H1 H2].
  apply cu_eqb_eq in H1. apply IH in H2. congruence.
Qed.

Lemma charCount_cons (tok : Token) (toks : list Token) :
  charCount (tok :: toks) = length (tok_value tok) + charCount toks.
Proof. unfold charCount. cbn [map concat]. apply length_app. Qed.

(** A dot token counts for three when it is the ellipsis and for one
    otherwise. *)
Lemma isDots_length (tok : Token) :
  isDots tok = true ->
  length (tok_value tok) = if str_eqb (tok_value tok) (js "...") then 3 else 1.
Proof.
  unfold isDots, tokenIs. intros H.
  destruct (str_eqb (tok_value tok) (js "...")) eqn:E3.
  - apply str_eqb_eq in E3. rewrite E3. reflexivity.
  - rewrite andb_false_r, orb_false_r in H.
    apply andb_prop in H. destruct H as [_ H].
    apply str_eqb_eq in H. rewrite H. reflexivity.
Qed.

Lemma dots_test (p : Parser) :
  orM (matchOp ".") (matchOp "...") p = Ok (isDots (currentToken p), p).
Proof.
  unfold orM, bind, matchOp, match_, ret, isDots.
  destruct (tokenIs (currentToken p) OP (Some (js "."))); reflexivity.
Qed.

Lemma moduleStart_test (p : Parser) :
  andM (matchType NAME) (notM (matchKeyword "import")) p
  = Ok (isModuleStart (currentToken p), p).
Proof.
  unfold andM, notM, bind, matchType, match_, matchKeyword, ret, isModuleStart.
  destruct (tokenIs (currentToken p) NAME None); reflexivity.
Qed.

Lemma advance_next (p : Parser) (tok : Token) (p' : Parser) :
  advance p = Ok (tok, p') ->
  tok = currentToken p /\ next (tokenizer p) = Ok (currentToken p', tokenizer p').
Proof.
  unfold advance. destruct (next (tokenizer p)) as [[tok' t]| |]; try discriminate.
  intros H. injection H as <- <-. split; reflexivity.
Qed.

Lemma expectName_value (p : Parser) (name : jsstring) (p' : Parser) :
  expectName p = Ok (name, p') -> name = tok_value (currentToken p).
Proof.
  unfold expectName, expect. intros H.
  apply bind_Ok in H. destruct H as (tok & p1 & H1 & H2).
  injection H2 as <- <-.
  apply bind_Ok in H1. destruct H1 as (token & p2 & H1 & H3).
  injection H1 as <- <-.
  destruct (tokenIs (currentToken p) NAME None); [|discriminate].
  apply bind_Ok in H3. destruct H3 as (x & p3 & _ & H3).
  injection H3 as <- _. reflexivity.
Qed.

(** The loop of [parseLevel] reads the dot tokens and adds their lengths. *)
Lemma parseLevel_loop (fuel : nat) :
  forall (level0 : nat) (p : Parser) (level : nat) (p' : Parser),
    while fuel (orM (matchOp ".") (matchOp "..."))
      (fun level =>
         tok <- current ;;
         advance ;;;
         if str_eqb (tok_value tok) (js "...") then ret (level + 3)
         else ret (level + 1))
      level0 p = Ok (level, p') ->
    exists dots upcoming_tokens,
      upcoming (length dots) (tokenizer p) = Some upcoming_tokens
      /\ currentToken p :: upcoming_tokens = dots ++ [currentToken p']
      /\ forallb isDots dots = true
      /\ isDots (currentToken p') = false
      /\ level = level0 + charCount dots.
Proof.
  unfold while.
  induction fuel as [|fuel IH]; intros level0 p level p'; cbn [loop]; [discriminate|].
  intros H. apply bind_Ok in H. destruct H as (r & p1 & H1 & H2).
  apply bind_Ok in H1. destruct H1 as (t & p2 & Ht & H1).
  rewrite dots_test in Ht. injection Ht as <- <-.
  destruct (isDots (currentToken p)) eqn:Edots.
  - apply bind_Ok in H1. destruct H1 as (level1 & p3 & H1 & H3).
    injection H3 as <- <-.
    apply bind_Ok in H1. destruct H1 as (tok & p4 & Hc & H1).
    injection Hc as <- <-.
    apply bind_Ok in H1. destruct H1 as (x & p5 & Ha & H1).
    apply advance_next in Ha. destruct Ha as [_ Hnext].
    assert (Hlevel : level1 = level0 + length (tok_value (currentToken p))
                     /\ p3 = p5).
    { rewrite (isDots_length _ Edots).
      destruct (str_eqb (tok_value (currentToken p)) (js "..."));
        injection H1 as <- <-; split; reflexivity. }
    destruct Hlevel as [-> ->].
    apply IH in H2. destruct H2 as (dots & u & Hu & Hcons & Hall & Hlast & ->).
    exists (currentToken p :: dots), (currentToken p5 :: u).
    split; [|split; [|split; [|split]]].
    + cbn [length upcoming]. rewrite Hnext, Hu. reflexivity.
    + cbn [app]. rewrite Hcons. reflexivity.
    + cbn [forallb]. rewrite Edots, Hall. reflexivity.
    + exact Hlast.
    + rewrite charCount_cons. lia.
  - injection H1 as <- <-. injection H2 as <- <-.
    exists [], []. cbn [length upcoming app forallb].
    split; [reflexivity|]. split; [reflexivity|]. split; [reflexivity|].
    split; [exact Edots|]. unfold charCount. cbn. lia.
Qed.

(** The name that [parseDottedNameUntilImport] returns starts with the
    current token. *)
Lemma parseDottedNameUntilImport_prefix
      (fuel : nat) (p : Parser) (m : jsstring) (p' : Parser) :
  parseDottedNameUntilImport fuel p = Ok (m, p') ->
  exists rest, m = tok_value (currentToken p) ++ rest.
Proof.
  unfold parseDottedNameUntilImport. intros H.
  apply bind_Ok in H. destruct H as (name & p1 & H1 & H2).
  apply expectName_value in H1. subst name.
  set (name := tok_value (currentToken p)) in *.
  assert (Hany : forall A (c : M A), keeps (fun _ => True) (fun _ => True) c).
  { intros A c q a q' _ _. split; exact I. }
  refine (proj1 (ok_loop_inv (fun _ => True)
                   (fun s => exists rest, s = name ++ rest)
                   (fun s => exists rest, s = name ++ rest)
                   fuel _ _ name _ p1 m p' I H2)).
  - intros s [rest ->].
    eapply ok_bind; [apply Hany|]. intros [|] _; [|apply ok_ret; eauto].
    eapply ok_bind; [apply Hany|]. intros _ _.
    eapply ok_bind; [apply Hany|]. intros [|] _; [apply ok_ret; eauto|].
    eapply ok_bind; [apply Hany|]. intros part _.
    apply ok_ret. exists (rest ++ js "." ++ part). symmetry. apply app_assoc.
  - exists []. rewrite app_nil_r. reflexivity.
Qed.

(** What [parseFromImport] returns, in terms of the tokens after [from]. *)
Lemma parseFromImport_shape
      (fuel : nat) (p : Parser) (module : option jsstring) (names : list alias)
      (level : nat) (p' : Parser) :
  parseFromImport fuel p = Ok (ImportFrom module names level, p') ->
  exists dots tok,
    upcoming (length dots + 1) (tokenizer p) = Some (dots ++ [tok])
    /\ forallb isDots dots = true
    /\ isDots tok = false
    /\ level = charCount dots
    /\ (module = None -> isModuleStart tok = false)
    /\ (isModuleStart tok = false -> module = Some [])
    /\ (isModuleStart tok = true ->
        exists rest, module = Some (tok_value tok ++ rest)).
Proof.
  unfold parseFromImport, parseLevel. intros H.
  apply bind_Ok in H. destruct H as (x & p1 & Ha & H).
  apply advance_next in Ha. destruct Ha as [_ Hnext].
  apply bind_Ok in H. destruct H as (level' & p2 & Hl & H).
  apply parseLevel_loop in Hl.
  destruct Hl as (dots & u & Hu & Hcons & Hall & Hlast & Hlevel).
  apply bind_Ok in H. destruct H as (module' & p3 & Hm & H).
  apply bind_Ok in H. destruct H as (y & p4 & _ & H).
  apply bind_Ok in H. destruct H as (names' & p5 & _ & H).
  injection H as <- <- <- <-.
  exists dots, (currentToken p2).
  split; [|split; [exact Hall|split; [exact Hlast|split; [exact Hlevel|]]]].
  - rewrite Nat.add_1_r. cbn [upcoming]. rewrite Hnext, Hu, Hcons. reflexivity.
  - apply bind_Ok in Hm. destruct Hm as (t & p6 & Ht & Hm).
    rewrite moduleStart_test in Ht. injection Ht as <- <-.
    destruct (isModuleStart (currentToken p2)) eqn:Estart.
    + apply bind_Ok in Hm. destruct Hm as (m & p7 & Hm & Hr).
      injection Hr as <- <-.
      apply parseDottedNameUntilImport_prefix in Hm. destruct Hm as [rest ->].
      split; [discriminate|]. split; [discriminate|].
      intros _. exists rest. reflexivity.
    + injection Hm as <- <-.
      split; [reflexivity|]. split; [reflexivity|]. discriminate.
Qed.

Lemma fromImport_shape (src : jsstring) (s : stmt) :
  fromImport src s -> importFromShape src s.
Proof.
  destruct s; try exact (fun H => H).
  cbn [fromImport importFromShape].
  intros (fuel & p & p' & Hp & Hfrom & H).
  apply parseFromImport_shape in H. destruct H as (dots & tok & H).
  exists p, dots, tok. split; [exact Hp|]. split; [exact Hfrom | exact H].
Qed.

(* ------------------------------------------------------------------ *)
(** *** The claims on the parser *)

(** C4. [parseExpression] on the text [a < b <= c] returns one [Compare]
    whose left side is the name [a], whose operators are [Lt] and [LtE] in
    this order, and whose comparators are the names [b] and [c] in this
    order.  The recursion bound 3 is enough, and so is every larger one. *)
Theorem C4_chained_comparison (k : nat) :
  parseExpression (3 + k) (js "a < b <= c")
  = Ok (Compare (Name (js "a")) [Lt; LtE] [Name (js "b"); Name (js "c")]).
Proof. vm_compute. reflexivity. Qed.

(** C5. [parse] on the text [from ...pkg.sub import item] returns a module
    whose body is one [ImportFrom] with the module [pkg.sub], the one alias
    [item] and the level 3.  And in every tree that [parse] returns, every
    [ImportFrom] was read after a keyword [from] of the source that a run of
    dot tokens followed: its level is the number of these dots, its module
    is never null, it is the empty string when no name follows the dots, and
    it starts with the name that follows them otherwise. *)
Theorem C5_import_from_level_and_module :
  (forall k,
      parse (2 + k) (js "from ...pkg.sub import item")
      = Ok (Module [ImportFrom (Some (js "pkg.sub")) [mkAlias (js "item") None] 3]))
  /\ (forall fuel src tree,
         parse fuel src = Ok tree ->
         All (each_stmt (importFromShape src)) (body tree)).
Proof.
  split.
  - intros k. vm_compute. reflexivity.
  - intros fuel src tree H. apply parse_wf in H.
    revert H. apply All_impl. apply every_stmt_each. apply fromImport_shape.
Qed.

Definition relative_import : jsstring :=
  js "def f():" ++ [LF] ++ js "    from .. import a" ++ [LF] ++ js "from pkg import b".

Lemma C5_witness :
  All (each_stmt (importFromShape relative_import))
      [FunctionDef (js "f") (mkArguments [] [] None [] [] None [])
         [ImportFrom (Some []) [mkAlias (js "a") None] 2] [] None None;
       ImportFrom (Some (js "pkg")) [mkAlias (js "b") None] 0].
Proof.
  apply (proj2 C5_import_from_level_and_module 5 relative_import
           (Module [FunctionDef (js "f") (mkArguments [] [] None [] [] None [])
                      [ImportFrom (Some []) [mkAlias (js "a") None] 2] [] None None;
                    ImportFrom (Some (js "pkg")) [mkAlias (js "b") None] 0])).
  vm_compute. reflexivity.
Defined.

(** C6. In every tree that [parse] returns, and in every expression that
    [parseExpression] returns, every [Compare] has as many operators as
    comparators, and at least one. *)
Theorem C6_compare_lengths (fuel : nat) (src : jsstring) :
  (forall tree,
      parse fuel src = Ok tree ->
      All (every_stmt (fun _ => True) compareShape) (body tree))
  /\ (forall e, parseExpression fuel src = Ok e -> every_expr compareShape e).
Proof.
  split.
  - intros tree H. apply parse_wf in H.
    revert H. apply All_impl. apply every_stmt_impl. intros s _. exact I.
  - intros e H. apply parseExpression_wf in H. exact H.
Qed.

Definition comparisons : jsstring :=
  js "if a < b <= c:" ++ [LF] ++ js "    x = [y for y in z if not y is not None]".

Lemma C6_witness :
  All (every_stmt (fun _ => True) compareShape)
      [If (Compare (Name (js "a")) [Lt; LtE] [Name (js "b"); Name (js "c")])
          [Assign [Name (js "x")]
             (ListComp (Name (js "y"))
                [mkComprehension (Name (js "y")) (Name (js "z"))
                   [UnaryOp Not (Compare (Name (js "y")) [IsNot] [Constant CNull])] 0])]
          []]
  /\ every_expr compareShape
       (Compare (Name (js "a")) [Lt; LtE] [Name (js "b"); Name (js "c")]).
Proof.
  split.
  - apply (proj1 (C6_compare_lengths 6 comparisons)
             (Module
                [If (Compare (Name (js "a")) [Lt; LtE] [Name (js "b"); Name (js "c")])
                    [Assign [Name (js "x")]
                       (ListComp (Name (js "y"))
                          [mkComprehension (Name (js "y")) (Name (js "z"))
                             [UnaryOp Not
                                (Compare (Name (js "y")) [IsNot] [Constant CNull])] 0])]
                    []])).
    vm_compute. reflexivity.
  - apply (proj2 (C6_compare_lengths 3 (js "a < b <= c"))).
    vm_compute. reflexivity.
Defined.

End ParserProofs.

Module ParserFuel.

Import Ast Tokenizer Parser ParserProofs.
Local Open Scope parser_scope.

(* ------------------------------------------------------------------ *)
(** *** A larger recursion bound changes no answer *)

(** [r2] is [r1], unless [r1] ran out of fuel. *)
Definition le_result {A} (r1 r2 : result A) : Prop := r1 = OutOfFuel \/ r1 = r2.

Definition le_M {A} (m1 m2 : M A) : Prop := forall p, le_result (m1 p) (m2 p).

Record le_methods (self self' : Methods) : Prop := mkLeMethods {
  le_parseExpr : le_M (p_parseExpr self) (p_parseExpr self');
  le_parseTernary : le_M (p_parseTernary self) (p_parseTernary self');
  le_parseNot : le_M (p_parseNot self) (p_parseNot self');
  le_parseComparison : le_M (p_parseComparison self) (p_parseComparison self');
  le_parseFactor : le_M (p_parseFactor self) (p_parseFactor self');
  le_parseTarget : le_M (p_parseTarget self) (p_parseTarget self');
  le_parseNotTest : le_M (p_parseNotTest self) (p_parseNotTest self');
  le_parsePattern : le_M (p_parsePattern self) (p_parsePattern self');
  le_parseStatement : le_M (p_parseStatement self) (p_parseStatement self');
  le_parseElif : le_M (p_parseElif self) (p_parseElif self')
}.

Lemma le_M_refl {A} (m : M A) : le_M m m.
Proof. intros p. right. reflexivity. Qed.

Lemma le_M_outOfFuel {A} (m : M A) : le_M outOfFuel m.
Proof. intros p. left. reflexivity. Qed.

Lemma le_M_bind {A B} (m1 m2 : M A) (k1 k2 : A -> M B) :
  le_M m1 m2 -> (forall a, le_M (k1 a) (k2 a)) -> le_M (bind m1 k1) (bind m2 k2).
Proof.
  intros Hm Hk p. unfold bind. destruct (Hm p) as [E|E]; rewrite E.
  - left. reflexivity.
  - destruct (m2 p) as [[a p']| |]; [apply Hk | right; reflexivity..].
Qed.

Lemma le_M_loop {S A} (b1 b2 : S -> M (S + A)) :
  (forall s, le_M (b1 s) (b2 s)) ->
  forall n n', n <= n' -> forall s, le_M (loop n b1 s) (loop n' b2 s).
Proof.
  intros Hb. induction n as [|n IH]; intros n' Hn s; cbn [loop].
  - apply le_M_outOfFuel.
  - destruct n' as [|n']; [lia|]. cbn [loop].
    apply le_M_bind; [apply Hb|].
    intros [s'|a]; [apply IH; lia | apply le_M_refl].
Qed.

Lemma le_M_while {S} (c : M bool) (b1 b2 : S -> M S) (n n' : nat) (s : S) :
  n <= n' -> (forall s, le_M (b1 s) (b2 s)) ->
  le_M (while n c b1 s) (while n' c b2 s).
Proof.
  intros Hn Hb. unfold while. apply le_M_loop; [|exact Hn].
  intros s0. apply le_M_bind; [apply le_M_refl|].
  intros [|]; [|apply le_M_refl].
  apply le_M_bind; [apply Hb|]. intros s'. apply le_M_refl.
Qed.

Create HintDb parser_le.

(** One step through the texts of a method at two bounds. *)
Ltac le_step :=
  cbv beta;
  lazymatch goal with
  | |- le_M ?a ?b =>
      first
        [ constr_eq a b; apply le_M_refl
        | lazymatch goal with
          | |- le_M (bind _ _) (bind _ _) => apply le_M_bind; [|intros ?]
          | |- le_M (loop _ _ _) (loop _ _ _) =>
              apply le_M_loop; [intros ?|assumption]
          | |- le_M (while _ _ _ _) (while _ _ _ _) =>
              apply le_M_while; [assumption|intros ?]
          | |- le_M (match ?x with _ => _ end) (match ?x with _ => _ end) =>
              destruct x
          | |- le_M (if ?c then _ else _) (if ?c then _ else _) => destruct c
          | |- le_M _ _ => solve [eauto 10 with parser_le]
          end ]
  end.

Ltac le_auto := repeat le_step.

Ltac use_le H :=
  pose proof (le_parseExpr _ _ H);
  pose proof (le_parseTernary _ _ H);
  pose proof (le_parseNot _ _ H);
  pose proof (le_parseComparison _ _ H);
  pose proof (le_parseFactor _ _ H);
  pose proof (le_parseTarget _ _ H);
  pose proof (le_parseNotTest _ _ H);
  pose proof (le_parsePattern _ _ H);
  pose proof (le_parseStatement _ _ H);
  pose proof (le_parseElif _ _ H).

Section Fuel.
Variables n n' : nat.
Hypothesis Hn : n <= n'.
Variables self self' : Methods.
Hypothesis Hself : le_methods self self'.

Lemma parseNested_le (exprStr : jsstring) :
  le_M (parseNested self exprStr) (parseNested self' exprStr).
Proof.
  intros p. unfold parseNested.
  destruct (newParser exprStr) as [q| |]; [|right; reflexivity..].
  destruct (le_parseExpr _ _ Hself q) as [E|E]; rewrite E.
  - left. reflexivity.
  - right. reflexivity.
Qed.
Hint Resolve parseNested_le : parser_le.

Lemma parseFStringValue_le (raw : jsstring) :
  le_M (parseFStringValue n self raw) (parseFStringValue n' self' raw).
Proof. unfold parseFStringValue. cbv zeta. le_auto. Qed.
Hint Resolve parseFStringValue_le : parser_le.

Lemma parseStringLiteral_le :
  le_M (parseStringLiteral n self) (parseStringLiteral n' self').
Proof. unfold parseStringLiteral. le_auto. Qed.
Hint Resolve parseStringLiteral_le : parser_le.

Lemma parseSliceItem_le : le_M (parseSliceItem self) (parseSliceItem self').
Proof. use_le Hself. unfold parseSliceItem. le_auto. Qed.
Hint Resolve parseSliceItem_le : parser_le.

Lemma parseSubscriptSlice_le :
  le_M (parseSubscriptSlice n self) (parseSubscriptSlice n' self').
Proof. unfold parseSubscriptSlice. le_auto. Qed.
Hint Resolve parseSubscriptSlice_le : parser_le.

Lemma parseSubscript_le (value : expr) :
  le_M (parseSubscript n self value) (parseSubscript n' self' value).
Proof. unfold parseSubscript. le_auto. Qed.
Hint Resolve parseSubscript_le : parser_le.

Lemma parseCall_le (func : expr) :
  le_M (parseCall n self func) (parseCall n' self' func).
Proof. use_le Hself. unfold parseCall. le_auto. Qed.
Hint Resolve parseCall_le : parser_le.

Lemma parseLambdaArgs_le : le_M (parseLambdaArgs n self) (parseLambdaArgs n' self').
Proof. use_le Hself. unfold parseLambdaArgs. le_auto. Qed.
Hint Resolve parseLambdaArgs_le : parser_le.

Lemma parseLambda_le : le_M (parseLambda n self) (parseLambda n' self').
Proof. use_le Hself. unfold parseLambda. le_auto. Qed.
Hint Resolve parseLambda_le : parser_le.

Lemma parseTargetElts_le (close : string) :
  le_M (parseTargetElts n self close) (parseTargetElts n' self' close).
Proof. use_le Hself. unfold parseTargetElts. le_auto. Qed.
Hint Resolve parseTargetElts_le : parser_le.

Lemma parseTarget_le : le_M (parseTarget n self) (parseTarget n' self').
Proof. use_le Hself. unfold parseTarget. le_auto. Qed.
Hint Resolve parseTarget_le : parser_le.

Lemma parseTargetList_le : le_M (parseTargetList n self) (parseTargetList n' self').
Proof. unfold parseTargetList. le_auto. Qed.
Hint Resolve parseTargetList_le : parser_le.

Lemma parseNotTest_le : le_M (parseNotTest self) (parseNotTest self').
Proof. use_le Hself. unfold parseNotTest. le_auto. Qed.
Hint Resolve parseNotTest_le : parser_le.

Lemma boolOperands_le (keyword : string) (o1 o2 : M expr) (lhs : expr) :
  le_M o1 o2 -> le_M (boolOperands n keyword o1 lhs) (boolOperands n' keyword o2 lhs).
Proof. intros Ho. unfold boolOperands. le_auto. Qed.
Hint Resolve boolOperands_le : parser_le.

Lemma parseAndTest_le : le_M (parseAndTest n self) (parseAndTest n' self').
Proof. unfold parseAndTest. le_auto. Qed.
Hint Resolve parseAndTest_le : parser_le.

Lemma parseOrTest_le : le_M (parseOrTest n self) (parseOrTest n' self').
Proof. unfold parseOrTest. le_auto. Qed.
Hint Resolve parseOrTest_le : parser_le.

Lemma parseComprehensionClauses_le :
  le_M (parseComprehensionClauses n self) (parseComprehensionClauses n' self').
Proof. unfold parseComprehensionClauses. le_auto. Qed.
Hint Resolve parseComprehensionClauses_le : parser_le.

Lemma parseDictItems_le (keys : list (option expr)) (values : list expr) :
  le_M (parseDictItems n self keys values) (parseDictItems n' self' keys values).
Proof. use_le Hself. unfold parseDictItems. le_auto. Qed.
Hint Resolve parseDictItems_le : parser_le.

Lemma parseElts_le (close : string) (first : expr) :
  le_M (parseElts n self close first) (parseElts n' self' close first).
Proof. use_le Hself. unfold parseElts. le_auto. Qed.
Hint Resolve parseElts_le : parser_le.

Lemma parseDictOrSet_le : le_M (parseDictOrSet n self) (parseDictOrSet n' self').
Proof. use_le Hself. unfold parseDictOrSet. le_auto. Qed.
Hint Resolve parseDictOrSet_le : parser_le.

Lemma parsePrimary_le : le_M (parsePrimary n self) (parsePrimary n' self').
Proof. use_le Hself. unfold parsePrimary. le_auto. Qed.
Hint Resolve parsePrimary_le : parser_le.

Lemma parseAtom_le : le_M (parseAtom n self) (parseAtom n' self').
Proof. unfold parseAtom. le_auto. Qed.
Hint Resolve parseAtom_le : parser_le.

Lemma parseAwait_le : le_M (parseAwait n self) (parseAwait n' self').
Proof. unfold parseAwait. le_auto. Qed.
Hint Resolve parseAwait_le : parser_le.

Lemma parsePower_le : le_M (parsePower n self) (parsePower n' self').
Proof. use_le Hself. unfold parsePower. le_auto. Qed.
Hint Resolve parsePower_le : parser_le.

Lemma parseFactor_le : le_M (parseFactor n self) (parseFactor n' self').
Proof. use_le Hself. unfold parseFactor. le_auto. Qed.
Hint Resolve parseFactor_le : parser_le.

Lemma binaryChain_le (operators : list (string * operator)) (o1 o2 : M expr) :
  le_M o1 o2 -> le_M (binaryChain n operators o1) (binaryChain n' operators o2).
Proof. intros Ho. unfold binaryChain. le_auto. Qed.
Hint Resolve binaryChain_le : parser_le.

Lemma parseBitOr_le : le_M (parseBitOr n self) (parseBitOr n' self').
Proof.
  unfold parseBitOr, parseBitXor, parseBitAnd, parseShift, parseArith, parseTerm.
  auto 10 with parser_le.
Qed.
Hint Resolve parseBitOr_le : parser_le.

Lemma parseComparison_le : le_M (parseComparison n self) (parseComparison n' self').
Proof. unfold parseComparison. le_auto. Qed.
Hint Resolve parseComparison_le : parser_le.

Lemma parseNot_le : le_M (parseNot n self) (parseNot n' self').
Proof. use_le Hself. unfold parseNot. le_auto. Qed.
Hint Resolve parseNot_le : parser_le.

Lemma parseAnd_le : le_M (parseAnd n self) (parseAnd n' self').
Proof. unfold parseAnd. le_auto. Qed.
Hint Resolve parseAnd_le : parser_le.

Lemma parseOr_le : le_M (parseOr n self) (parseOr n' self').
Proof. unfold parseOr. le_auto. Qed.
Hint Resolve parseOr_le : parser_le.

Lemma parseTernary_le : le_M (parseTernary n self) (parseTernary n' self').
Proof. use_le Hself. unfold parseTernary. le_auto. Qed.
Hint Resolve parseTernary_le : parser_le.

Lemma parseNamedExpr_le : le_M (parseNamedExpr n self) (parseNamedExpr n' self').
Proof. use_le Hself. unfold parseNamedExpr. le_auto. Qed.
Hint Resolve parseNamedExpr_le : parser_le.

Lemma parseExpr_le : le_M (parseExpr n self) (parseExpr n' self').
Proof. unfold parseExpr. apply parseNamedExpr_le. Qed.
Hint Resolve parseExpr_le : parser_le.

Lemma parseDottedName_le : le_M (parseDottedName n) (parseDottedName n').
Proof. unfold parseDottedName. le_auto. Qed.
Hint Resolve parseDottedName_le : parser_le.

Lemma parseDottedNameUntilImport_le :
  le_M (parseDottedNameUntilImport n) (parseDottedNameUntilImport n').
Proof. unfold parseDottedNameUntilImport. le_auto. Qed.
Hint Resolve parseDottedNameUntilImport_le : parser_le.

Lemma parseImport_le : le_M (parseImport n) (parseImport n').
Proof. unfold parseImport. le_auto. Qed.
Hint Resolve parseImport_le : parser_le.

Lemma parseLevel_le : le_M (parseLevel n) (parseLevel n').
Proof. unfold parseLevel. le_auto. Qed.
Hint Resolve parseLevel_le : parser_le.

Lemma parseFromImport_le : le_M (parseFromImport n) (parseFromImport n').
Proof. unfold parseFromImport. le_auto. Qed.
Hint Resolve parseFromImport_le : parser_le.

Lemma parseTypeParams_le : le_M (parseTypeParams n) (parseTypeParams n').
Proof. unfold parseTypeParams. le_auto. Qed.
Hint Resolve parseTypeParams_le : parser_le.

Lemma parseAnnotation_le : le_M (parseAnnotation n self) (parseAnnotation n' self').
Proof. unfold parseAnnotation. le_auto. Qed.
Hint Resolve parseAnnotation_le : parser_le.

Lemma parseArguments_le : le_M (parseArguments n self) (parseArguments n' self').
Proof. unfold parseArguments. le_auto. Qed.
Hint Resolve parseArguments_le : parser_le.

Lemma parsePatternElts_le (close : string) :
  le_M (parsePatternElts n self close) (parsePatternElts n' self' close).
Proof. use_le Hself. unfold parsePatternElts. le_auto. Qed.
Hint Resolve parsePatternElts_le : parser_le.

Lemma parsePrimaryPattern_le :
  le_M (parsePrimaryPattern n self) (parsePrimaryPattern n' self').
Proof. use_le Hself. unfold parsePrimaryPattern. le_auto. Qed.
Hint Resolve parsePrimaryPattern_le : parser_le.

Lemma parseAsPattern_le : le_M (parseAsPattern n self) (parseAsPattern n' self').
Proof. unfold parseAsPattern. le_auto. Qed.
Hint Resolve parseAsPattern_le : parser_le.

Lemma parseOrPattern_le : le_M (parseOrPattern n self) (parseOrPattern n' self').
Proof. unfold parseOrPattern. le_auto. Qed.
Hint Resolve parseOrPattern_le : parser_le.

Lemma parsePattern_le : le_M (parsePattern n self) (parsePattern n' self').
Proof. unfold parsePattern. apply parseOrPattern_le. Qed.
Hint Resolve parsePattern_le : parser_le.

Lemma parseReturn_le : le_M (parseReturn n self) (parseReturn n' self').
Proof. unfold parseReturn. le_auto. Qed.
Hint Resolve parseReturn_le : parser_le.

Lemma parseRaise_le : le_M (parseRaise n self) (parseRaise n' self').
Proof. unfold parseRaise. le_auto. Qed.
Hint Resolve parseRaise_le : parser_le.

Lemma commaSeparated_le {A} (i1 i2 : M A) :
  le_M i1 i2 -> le_M (commaSeparated n i1) (commaSeparated n' i2).
Proof. intros Hi. unfold commaSeparated. le_auto. Qed.
Hint Resolve commaSeparated_le : parser_le.

Lemma parseGlobal_le : le_M (parseGlobal n) (parseGlobal n').
Proof.
  unfold parseGlobal. le_step; [le_auto|]. le_step; [|le_auto].
  apply commaSeparated_le. apply le_M_refl.
Qed.
Hint Resolve parseGlobal_le : parser_le.

Lemma parseNonlocal_le : le_M (parseNonlocal n) (parseNonlocal n').
Proof.
  unfold parseNonlocal. le_step; [le_auto|]. le_step; [|le_auto].
  apply commaSeparated_le. apply le_M_refl.
Qed.
Hint Resolve parseNonlocal_le : parser_le.

Lemma parseAssert_le : le_M (parseAssert n self) (parseAssert n' self').
Proof. unfold parseAssert. le_auto. Qed.
Hint Resolve parseAssert_le : parser_le.

Lemma parseDelete_le : le_M (parseDelete n self) (parseDelete n' self').
Proof. unfold parseDelete. le_auto. Qed.
Hint Resolve parseDelete_le : parser_le.

Lemma parseTypeAlias_le : le_M (parseTypeAlias n self) (parseTypeAlias n' self').
Proof. unfold parseTypeAlias. le_auto. Qed.
Hint Resolve parseTypeAlias_le : parser_le.

Lemma parseExprList_le : le_M (parseExprList n self) (parseExprList n' self').
Proof. unfold parseExprList. le_auto. Qed.
Hint Resolve parseExprList_le : parser_le.

Lemma parseExpressionStatement_le :
  le_M (parseExpressionStatement n self) (parseExpressionStatement n' self').
Proof. unfold parseExpressionStatement. le_auto. Qed.
Hint Resolve parseExpressionStatement_le : parser_le.

Lemma parseSimpleStatement_le :
  le_M (parseSimpleStatement n self) (parseSimpleStatement n' self').
Proof. unfold parseSimpleStatement. le_auto. Qed.
Hint Resolve parseSimpleStatement_le : parser_le.

Lemma parseSuite_le : le_M (parseSuite n self) (parseSuite n' self').
Proof. use_le Hself. unfold parseSuite. le_auto. Qed.
Hint Resolve parseSuite_le : parser_le.

Lemma parseFunctionDef_le (isAsync : bool) :
  le_M (parseFunctionDef n self isAsync) (parseFunctionDef n' self' isAsync).
Proof. unfold parseFunctionDef. destruct isAsync; le_auto. Qed.
Hint Resolve parseFunctionDef_le : parser_le.

Lemma parseClassDef_le : le_M (parseClassDef n self) (parseClassDef n' self').
Proof. unfold parseClassDef. le_auto. Qed.
Hint Resolve parseClassDef_le : parser_le.

Lemma parseOrelse_le : le_M (parseOrelse n self) (parseOrelse n' self').
Proof. unfold parseOrelse. le_auto. Qed.
Hint Resolve parseOrelse_le : parser_le.

Lemma parseIfBody_le : le_M (parseIfBody n self) (parseIfBody n' self').
Proof. use_le Hself. unfold parseIfBody. le_auto. Qed.
Hint Resolve parseIfBody_le : parser_le.

Lemma parseElif_le : le_M (parseElif n self) (parseElif n' self').
Proof. unfold parseElif. apply parseIfBody_le. Qed.
Hint Resolve parseElif_le : parser_le.

Lemma parseIf_le : le_M (parseIf n self) (parseIf n' self').
Proof. unfold parseIf. apply parseIfBody_le. Qed.
Hint Resolve parseIf_le : parser_le.

Lemma parseFor_le (isAsync : bool) :
  le_M (parseFor n self isAsync) (parseFor n' self' isAsync).
Proof. unfold parseFor. destruct isAsync; le_auto. Qed.
Hint Resolve parseFor_le : parser_le.

Lemma parseWhile_le : le_M (parseWhile n self) (parseWhile n' self').
Proof. unfold parseWhile. le_auto. Qed.
Hint Resolve parseWhile_le : parser_le.

Lemma parseWith_le (isAsync : bool) :
  le_M (parseWith n self isAsync) (parseWith n' self' isAsync).
Proof.
  unfold parseWith. le_step; [le_auto|]. le_step; [|destruct isAsync; le_auto].
  apply commaSeparated_le. le_auto.
Qed.
Hint Resolve parseWith_le : parser_le.

Lemma parseMatchCase_le : le_M (parseMatchCase n self) (parseMatchCase n' self').
Proof. unfold parseMatchCase. le_auto. Qed.
Hint Resolve parseMatchCase_le : parser_le.

Lemma parseMatch_le : le_M (parseMatch n self) (parseMatch n' self').
Proof. unfold parseMatch. le_auto. Qed.
Hint Resolve parseMatch_le : parser_le.

Lemma parseExceptHandler_le :
  le_M (parseExceptHandler n self) (parseExceptHandler n' self').
Proof. unfold parseExceptHandler. le_auto. Qed.
Hint Resolve parseExceptHandler_le : parser_le.

Lemma parseTry_le : le_M (parseTry n self) (parseTry n' self').
Proof. unfold parseTry. le_auto. Qed.
Hint Resolve parseTry_le : parser_le.

Lemma parseDecorated_le : le_M (parseDecorated n self) (parseDecorated n' self').
Proof. unfold parseDecorated. le_auto. Qed.
Hint Resolve parseDecorated_le : parser_le.

Lemma parseAsyncStatement_le :
  le_M (parseAsyncStatement n self) (parseAsyncStatement n' self').
Proof. unfold parseAsyncStatement. le_auto. Qed.
Hint Resolve parseAsyncStatement_le : parser_le.

Lemma parseStatement_le : le_M (parseStatement n self) (parseStatement n' self').
Proof. unfold parseStatement. le_auto. Qed.
Hint Resolve parseStatement_le : parser_le.

Lemma parseModule_le : le_M (parseModule n self) (parseModule n' self').
Proof. unfold parseModule. le_auto. Qed.
Hint Resolve parseModule_le : parser_le.

End Fuel.

Lemma methods_le : forall n n', n <= n' -> le_methods (methods n) (methods n').
Proof.
  induction n as [|n IH]; intros n' Hn.
  - constructor; apply le_M_outOfFuel.
  - destruct n' as [|n']; [lia|].
    assert (Hle : n <= n') by lia. specialize (IH n' Hle).
    constructor;
      cbn [methods p_parseExpr p_parseTernary p_parseNot p_parseComparison
           p_parseFactor p_parseTarget p_parseNotTest p_parsePattern
           p_parseStatement p_parseElif].
    + apply parseExpr_le; assumption.
    + apply parseTernary_le; assumption.
    + apply parseNot_le; assumption.
    + apply parseComparison_le; assumption.
    + apply parseFactor_le; assumption.
    + apply parseTarget_le; assumption.
    + apply parseNotTest_le; assumption.
    + apply parsePattern_le; assumption.
    + apply parseStatement_le; assumption.
    + apply parseElif_le; assumption.
Qed.

Lemma runParser_le {A} (m1 m2 : M A) (src : jsstring) :
  le_M m1 m2 -> le_result (runParser m1 src) (runParser m2 src).
Proof.
  intros H. unfold runParser. destruct (newParser src) as [p| |]; [|right; reflexivity..].
  destruct (H p) as [E|E]; rewrite E; [left|right]; reflexivity.
Qed.

(** What [parse] and [parseExpression] answer at one bound, they answer at
    every larger bound. *)
Lemma parse_fuel (n n' : nat) (src : jsstring) :
  n <= n' -> parse n src <> OutOfFuel -> parse n' src = parse n src.
Proof.
  intros Hn H. unfold parse in *.
  destruct (runParser_le (parseModule n (methods n)) (parseModule n' (methods n')) src)
    as [E|E].
  - apply parseModule_le; [exact Hn | apply methods_le; exact Hn].
  - contradiction.
  - symmetry. exact E.
Qed.

Lemma parseExpression_fuel (n n' : nat) (src : jsstring) :
  n <= n' -> parseExpression n src <> OutOfFuel ->
  parseExpression n' src = parseExpression n src.
Proof.
  intros Hn H. unfold parseExpression in *.
  destruct (runParser_le (parseExpr n (methods n)) (parseExpr n' (methods n')) src)
    as [E|E].
  - apply parseExpr_le; [exact Hn | apply methods_le; exact Hn].
  - contradiction.
  - symmetry. exact E.
Qed.

End ParserFuel.

(* ================================================================== *)
(** ** Further properties of the safety analyzer *)
(* ================================================================== *)

Module SafetyExtras.

Import Safety SafetyProofs.

Lemma count_firstn_mono sep : forall s i j,
  i <= j -> count sep (firstn i s) <= count sep (firstn j s).
Proof.
  induction s as [|c s IH]; intros i j Hij.
  - now rewrite !firstn_nil.
  - destruct i as [|i]; [cbn; lia|].
    destruct j as [|j]; [lia|].
    cbn. specialize (IH i j). lia.
Qed.

Lemma count_firstn_le sep s i : count sep (firstn i s) <= count sep s.
Proof.
  rewrite <- (firstn_all s) at 2.
  destruct (Nat.le_ge_cases i (length s)).
  - now apply count_firstn_mono.
  - rewrite firstn_all2 by assumption. now rewrite firstn_all.
Qed.

(** The rules are of two kinds: a rule that is not an [infinite_loop] rule
    has severity [error] and no skip condition; an [infinite_loop] rule is a
    warning skipped when the word [break] occurs in the source. *)
Lemma rule_kinds :
  Forall (fun rule =>
            (type rule <> infinite_loop /\ severity rule = error
             /\ skipIf rule = None)
            \/ (type rule = infinite_loop /\ severity rule = warning
                /\ skipIf rule = Some (fun code _ => test break_re code)))
         allRules.
Proof.
  repeat (apply Forall_cons;
          [ first [ left; split; [discriminate | split; reflexivity]
                  | right; split; [reflexivity | split; reflexivity] ] | ]).
  apply Forall_nil.
Qed.

(** The list of all matches is empty exactly when there is no first one. *)
Lemma matchAll_from_nil r whole : forall rest prev pos,
  matchAll_from r whole prev rest pos 0 = [] <->
  search r whole prev rest pos = None.
Proof.
  induction rest as [|c rest IH]; intros prev pos;
    rewrite matchAll_from_0, search_eq;
    destruct (run r prev _ pos []) as [[e caps]|].
  - split; discriminate.
  - tauto.
  - split; discriminate.
  - apply IH.
Qed.

Lemma matchAll_nil r s : matchAll r s = [] <-> test r s = false.
Proof.
  unfold matchAll, test, exec. rewrite matchAll_from_nil.
  destruct (search r s None s 0); split; congruence.
Qed.

(** X1: the line number of an index is one more than the number of line
    feeds before it; it lies between 1 and the number of lines of the
    source, also for an index past the end, and it grows with the index. *)
Theorem getLineNumber_range (code : jsstring) :
  (forall pre post, code = pre ++ post ->
     getLineNumber code (length pre) = S (count LF pre))
  /\ (forall i, 1 <= getLineNumber code i <= length (split LF code))
  /\ (forall i j, i <= j -> getLineNumber code i <= getLineNumber code j).
Proof.
  unfold getLineNumber. repeat split.
  - intros pre post ->. rewrite split_length.
    now rewrite firstn_app, Nat.sub_diag, firstn_all, firstn_O, app_nil_r.
  - rewrite split_length. lia.
  - rewrite !split_length. pose proof (count_firstn_le LF code i). lia.
  - intros i j Hij. rewrite !split_length.
    pose proof (count_firstn_mono LF code i j Hij). lia.
Qed.

(** X2: every violation reported by [analyze] carries a line number, which
    is a line of the source (between 1 and the number of lines); a violation
    of any type other than [infinite_loop] has severity [error], and it is
    reported whether or not the source holds the word [break]. *)
Theorem analyze_violation_fields (code : jsstring) (v : SafetyViolation) :
  In v (violations (analyze code)) ->
  (exists n, v_line v = Some n /\ 1 <= n <= length (split LF code))
  /\ (v_type v <> infinite_loop -> v_severity v = error)
  /\ (v_type v = infinite_loop -> v_severity v = warning /\ test break_re code = false).
Proof.
  intros Hv. apply analyze_in in Hv. destruct Hv as [rule [Hr Hv]].
  apply applyRule_in in Hv. destruct Hv as [pattern [m [Hp [Hm [Hs ->]]]]].
  cbn [v_line v_type v_severity].
  pose proof rule_kinds as K. rewrite Forall_forall in K. specialize (K rule Hr).
  split; [|split].
  - eexists. split; [reflexivity|].
    unfold getLineNumber. rewrite !split_length.
    pose proof (count_firstn_le LF code (m_index m)). lia.
  - intros Ht. destruct K as [[_ [Hsev _]]|[Ht' _]]; [assumption|contradiction].
  - intros Ht. destruct K as [[Ht' _]|[_ [Hsev Hskip]]]; [contradiction|].
    split; [assumption|]. unfold skipped in Hs. now rewrite Hskip in Hs.
Qed.

Definition eval_call : jsstring := js "x = 1" ++ [LF] ++ js "eval(x)".

Definition eval_violation : SafetyViolation :=
  mkViolation code_execution
    (js "Dangerous function: eval() can execute arbitrary code") (Some 2) error.

Lemma analyze_violation_fields_witness :
  In eval_violation (violations (analyze eval_call))
  /\ (exists n, v_line eval_violation = Some n
                /\ 1 <= n <= length (split LF eval_call))
  /\ (v_type eval_violation <> infinite_loop -> v_severity eval_violation = error)
  /\ (v_type eval_violation = infinite_loop ->
      v_severity eval_violation = warning /\ test break_re eval_call = false).
Proof.
  assert (H : In eval_violation (violations (analyze eval_call))).
  { vm_compute. left. reflexivity. }
  split; [exact H|].
  exact (analyze_violation_fields eval_call eval_violation H).
Defined.

(** X3: a source is reported unsafe exactly when some pattern of some rule
    matches somewhere in it, where a match of an [infinite_loop] rule counts
    only if the word [break] occurs nowhere in the source. *)
Theorem analyze_unsafe_iff (code : jsstring) :
  safe (analyze code) = false <->
  exists rule pattern,
    In rule allRules /\ In pattern (patterns rule)
    /\ test pattern code = true
    /\ (type rule = infinite_loop -> test break_re code = false).
Proof.
  pose proof rule_kinds as K. rewrite Forall_forall in K.
  assert (E : safe (analyze code) = false <-> violations (analyze code) <> []).
  { unfold analyze. cbn [safe violations].
    rewrite Nat.eqb_neq. now rewrite length_zero_iff_nil. }
  rewrite E. split.
  - intros Hne. destruct (violations (analyze code)) as [|v vs] eqn:Ev; [congruence|].
    assert (Hv : In v (violations (analyze code))) by (rewrite Ev; now left).
    apply analyze_in in Hv. destruct Hv as [rule [Hr Hv]].
    apply applyRule_in in Hv. destruct Hv as [pattern [m [Hp [Hm [Hs _]]]]].
    exists rule, pattern. repeat split; try assumption.
    + destruct (test pattern code) eqn:T; [reflexivity|].
      apply matchAll_nil in T. rewrite T in Hm. destruct Hm.
    + intros Ht. destruct (K rule Hr) as [[Ht' _]|[_ [_ Hskip]]]; [contradiction|].
      unfold skipped in Hs. now rewrite Hskip in Hs.
  - intros [rule [pattern [Hr [Hp [Ht Hb]]]]] Hnil.
    destruct (matchAll pattern code) as [|m ms] eqn:Em.
    { apply matchAll_nil in Em. congruence. }
    assert (Hin : In (mkViolation (type rule) (getMessage rule m)
                        (Some (getLineNumber code (m_index m))) (severity rule))
                     (violations (analyze code))).
    { apply analyze_in. exists rule. split; [assumption|].
      apply applyRule_in. exists pattern, m. repeat split; try assumption.
      - rewrite Em. now left.
      - unfold skipped.
        destruct (K rule Hr) as [[_ [_ Hskip]]|[Hty [_ Hskip]]]; rewrite Hskip.
        + reflexivity.
        + now apply Hb. }
    rewrite Hnil in Hin. destruct Hin.
Qed.

End SafetyExtras.

(* ================================================================== *)
(** ** Further properties of the transformation passes *)
(* ================================================================== *)

Module TransformExtras.

Import Transform TransformProofs.

(** *** Lines of a wrapped source *)

(** What [wrapAsync] and [wrapExceptions] do to one line. *)
Definition indentLine (line : jsstring) : jsstring :=
  if isEmpty line then line else js "    " ++ line.

Lemma split_app_line sep : forall a b,
  split sep (a ++ sep :: b) = split sep a ++ split sep b.
Proof.
  induction a as [|c a IH]; intros b; cbn [app split].
  - now rewrite cu_eqb_refl.
  - destruct (cu_eqb c sep); [now rewrite IH|].
    rewrite IH. destruct (split sep a) as [|x xs] eqn:E; [|reflexivity].
    now apply split_nonempty in E.
Qed.

Lemma indentLine_no_LF l : ~ In LF l -> ~ In LF (indentLine l).
Proof.
  unfold indentLine. destruct (isEmpty l); [tauto|].
  intros H. rewrite in_app_iff. intros [Hi|Hi]; [|tauto].
  cbn in Hi. unfold LF in Hi.
  repeat (destruct Hi as [Hi|Hi]; [discriminate|]). destruct Hi.
Qed.

Lemma indented_no_LF code :
  Forall (fun l => ~ In LF l) (List.map indentLine (split LF code)).
Proof.
  apply Forall_map. eapply Forall_impl; [|apply split_no_sep].
  intros l. apply indentLine_no_LF.
Qed.

Lemma split_indented code :
  split LF (join [LF] (List.map indentLine (split LF code)))
  = List.map indentLine (split LF code).
Proof.
  apply split_join; [|apply indented_no_LF].
  destruct (split LF code) eqn:E; [now apply split_nonempty in E|discriminate].
Qed.

Lemma join_nil_inv sep (ls : list jsstring) :
  sep <> [] -> join sep ls = [] -> ls = [] \/ ls = [[]].
Proof.
  intros Hsep. destruct ls as [|l [|l' ls]]; cbn [join]; intros H.
  - now left.
  - right. now subst.
  - apply app_eq_nil in H. destruct H as [_ H].
    apply app_eq_nil in H. destruct H as [H _]. contradiction.
Qed.

Lemma indented_empty code :
  isEmpty (join [LF] (List.map indentLine (split LF code))) = isEmpty code.
Proof.
  destruct code as [|c code]; [reflexivity|].
  destruct (join [LF] (List.map indentLine (split LF (c :: code)))) eqn:E;
    [|reflexivity].
  exfalso. apply join_nil_inv in E; [|discriminate].
  pose proof (join_split LF (c :: code)) as J.
  destruct (split LF (c :: code)) as [|l [|l' ls]]; cbn [List.map] in E;
    destruct E as [E|E]; try discriminate.
  injection E as E. unfold indentLine in E.
  destruct l; [discriminate J|discriminate E].
Qed.

(** X4: the lines of [wrapAsync code] are the header, then the lines of the
    code in order, each non-empty one with four more spaces in front and each
    empty one kept empty, then one empty line; for the empty code the body is
    the single line [pass]. *)
Theorem wrapAsync_lines (code : jsstring) :
  split LF (wrapAsync code)
  = js "async def __pyx_main__():"
    :: (if isEmpty code then [js "    pass"]
        else List.map indentLine (split LF code))
    ++ [[]].
Proof.
  unfold wrapAsync.
  change (fun line : jsstring => if isEmpty line then line else js "    " ++ line)
    with indentLine.
  rewrite indented_empty. cbn [app].
  rewrite !split_app_line.
  destruct (isEmpty code); [reflexivity|now rewrite split_indented].
Qed.

(** X5: the lines of [wrapExceptions code] are the three lines up to [try:],
    then the lines of the code in order, each non-empty one with four more
    spaces in front and each empty one kept empty, then the six lines of the
    handler and one empty line.  So line [i] of the code is line [i + 3] of
    the result. *)
Theorem wrapExceptions_lines (code : jsstring) :
  split LF (wrapExceptions code)
  = [ js "import traceback"; js "__pyx_error__ = None"; js "try:" ]
    ++ List.map indentLine (split LF code)
    ++ [ js "except Exception as __pyx_exc__:";
         js "    __pyx_error__ = {";
         js "        'type': type(__pyx_exc__).__name__,";
         js "        'message': str(__pyx_exc__),";
         js "        'traceback': traceback.format_exc()";
         js "    }";
         [] ].
Proof.
  unfold wrapExceptions.
  change (fun line : jsstring => if isEmpty line then line else js "    " ++ line)
    with indentLine.
  cbn [app]. rewrite !split_app_line. rewrite split_indented. reflexivity.
Qed.

(** *** Capturing the output *)

Definition setupLines : list jsstring :=
  [ js "import sys"; js "import io"; js "__pyx_stdout__ = io.StringIO()";
    js "_original_stdout = sys.stdout"; js "sys.stdout = __pyx_stdout__" ].

Lemma capturePrint_split code :
  split LF (capturePrint code) = setupLines ++ split LF code.
Proof.
  unfold capturePrint, captureSetup. rewrite <- !app_assoc. cbn [app].
  rewrite !split_app_line. reflexivity.
Qed.

Lemma join_setupLines (ls : list jsstring) :
  ls <> [] -> join [LF] (setupLines ++ ls) = captureSetup ++ join [LF] ls.
Proof.
  intros H. destruct ls as [|l ls]; [contradiction|].
  unfold setupLines, captureSetup. cbn [app join].
  now rewrite <- !app_assoc.
Qed.

(** Either no line is meaningful or there is a last meaningful one. *)
Lemma last_meaningful (lines : list jsstring) :
  (forall l, In l lines -> meaningful l = false)
  \/ exists i line,
       nth_error lines i = Some line /\ meaningful line = true
       /\ forall j l, i < j -> nth_error lines j = Some l -> meaningful l = false.
Proof.
  induction lines as [|l lines IH].
  - left. intros l [].
  - destruct IH as [IH|[i [line [Hi [Hm Hafter]]]]].
    + destruct (meaningful l) eqn:El.
      * right. exists 0, l. repeat split; [assumption|].
        intros [|j] l' Hj Hn; [lia|]. apply IH. eapply nth_error_In. exact Hn.
      * left. intros l' [<-|Hl]; [assumption|now apply IH].
    + right. exists (S i), line. repeat split; [assumption..|].
      intros [|j] l' Hj Hn; [lia|]. apply (Hafter j); [lia|assumption].
Qed.

Lemma nth_error_setupLines (ls : list jsstring) j :
  nth_error (setupLines ++ ls) (5 + j) = nth_error ls j.
Proof. reflexivity. Qed.

(** X6: [capturePrint] puts the five setup lines in front of the lines of
    the code, and it commutes with [extractReturnValue]: the result
    assignment is made in the same line of the code whether the setup is
    added before or after, and the setup itself is never rewritten. *)
Theorem capturePrint_extractReturnValue (code : jsstring) :
  split LF (capturePrint code) = setupLines ++ split LF code
  /\ extractReturnValue (capturePrint code) = capturePrint (extractReturnValue code).
Proof.
  split; [apply capturePrint_split|].
  destruct (last_meaningful (split LF code)) as [Hnone|[i [line [Hi [Hm Hafter]]]]].
  - assert (E : extractReturnValue code = code).
    { unfold extractReturnValue. rewrite lastExprIndex_loop_none; [reflexivity|].
      intros j Hj. apply Hnone. now apply nth_In. }
    rewrite E.
    rewrite (extractReturnValue_at (capturePrint code) 4
               (js "sys.stdout = __pyx_stdout__")).
    + reflexivity.
    + now rewrite capturePrint_split.
    + reflexivity.
    + intros j l Hj. rewrite capturePrint_split.
      replace j with (5 + (j - 5)) by lia. rewrite nth_error_setupLines.
      intros Hn. apply Hnone. eapply nth_error_In. exact Hn.
  - rewrite (extractReturnValue_at code i line Hi Hm Hafter).
    rewrite (extractReturnValue_at (capturePrint code) (5 + i) line).
    + destruct (isStatementKeyword _); [reflexivity|].
      destruct (isAssignment _); [reflexivity|].
      rewrite capturePrint_split.
      change (firstn (5 + i) (setupLines ++ split LF code))
        with (setupLines ++ firstn i (split LF code)).
      change (skipn (S (5 + i)) (setupLines ++ split LF code))
        with (skipn (S i) (split LF code)).
      rewrite <- app_assoc. rewrite join_setupLines; [reflexivity|].
      destruct (firstn i (split LF code)); discriminate.
    + rewrite capturePrint_split. now rewrite nth_error_setupLines.
    + assumption.
    + intros j l Hj. rewrite capturePrint_split.
      replace j with (5 + (j - 5)) by lia. rewrite nth_error_setupLines.
      apply Hafter. lia.
Qed.

(** *** Wrapping twice *)

(** No line of the code is the header of an [async def]. *)
Definition noAsyncDef (code : jsstring) : Prop :=
  Forall (fun line => isAsyncDefHeader line = false) (split LF code).

Lemma loop_main_header lines inside indent :
  hasTopLevelAwait_loop (js "async def __pyx_main__():" :: lines) inside indent
  = hasTopLevelAwait_loop lines true 0.
Proof. reflexivity. Qed.

Lemma trim_indented l : trim (js "    " ++ l) = trim l.
Proof. reflexivity. Qed.

Lemma span_indented l :
  span isWhiteSpace (js "    " ++ l) = 4 + span isWhiteSpace l.
Proof. reflexivity. Qed.

Lemma loop_indented : forall ls tail,
  Forall (fun line => isAsyncDefHeader line = false) ls ->
  hasTopLevelAwait_loop (List.map indentLine ls ++ tail) true 0
  = hasTopLevelAwait_loop tail true 0.
Proof.
  induction ls as [|l ls IH]; intros tail H; [reflexivity|].
  inversion H as [|? ? Hl Hls]; subst.
  destruct l as [|c l].
  - cbn. now apply IH.
  - cbn [List.map app hasTopLevelAwait_loop].
    change (indentLine (c :: l)) with (js "    " ++ c :: l).
    rewrite trim_indented.
    unfold isAsyncDefHeader, meaningful in Hl.
    destruct (isEmpty (trim (c :: l)) || startsWith (js "#") (trim (c :: l)));
      [now apply IH|].
    cbn [negb andb] in Hl. rewrite Hl.
    rewrite currentIndentOf_eq, span_indented.
    cbn [Nat.add Nat.leb andb negb]. now apply IH.
Qed.

Lemma hasTopLevelAwait_wrapAsync code :
  noAsyncDef code -> hasTopLevelAwait (wrapAsync code) = false.
Proof.
  intros H. unfold hasTopLevelAwait.
  assert (E : split LF (wrapAsync code)
              = js "async def __pyx_main__():"
                :: (if isEmpty code then [js "    pass"]
                    else List.map indentLine (split LF code)) ++ [[]]).
  { unfold wrapAsync.
    change (fun line : jsstring => if isEmpty line then line else js "    " ++ line)
      with indentLine.
    rewrite indented_empty. cbn [app]. rewrite !split_app_line.
    destruct (isEmpty code); [reflexivity|now rewrite split_indented]. }
  rewrite E, loop_main_header.
  destruct (isEmpty code); [reflexivity|].
  rewrite loop_indented by exact H. reflexivity.
Qed.

(** A source with an [async def] of its own, for which wrapping once is not
    enough: the wrapped source still counts as having a top-level await. *)
Definition nested_async : jsstring :=
  js "async def f():" ++ [LF] ++ js "    pass" ++ [LF] ++ js "await f()".

(** X7: when no line of the code is the header of an [async def], the
    wrapped code has no top-level await, so [wrapTopLevelAwait] applied twice
    is the same as applied once.  With an [async def] in the code this can
    fail: [nested_async] is wrapped a second time. *)
Theorem wrapTopLevelAwait_twice (code : jsstring) :
  (noAsyncDef code ->
   hasTopLevelAwait (wrapAsync code) = false
   /\ wrapTopLevelAwait (wrapTopLevelAwait code) = wrapTopLevelAwait code)
  /\ wrapTopLevelAwait (wrapTopLevelAwait nested_async)
     = wrapAsync (wrapAsync nested_async).
Proof.
  split; [|reflexivity].
  intros H. pose proof (hasTopLevelAwait_wrapAsync code H) as E.
  split; [exact E|].
  unfold wrapTopLevelAwait at 2.
  destruct (hasTopLevelAwait code) eqn:Ec; cbn [negb].
  - unfold wrapTopLevelAwait. now rewrite E, Ec.
  - unfold wrapTopLevelAwait. now rewrite Ec.
Qed.

Definition bare_await : jsstring := js "x = await f()" ++ [LF] ++ js "print(x)".

Lemma wrapTopLevelAwait_twice_witness :
  noAsyncDef bare_await
  /\ hasTopLevelAwait (wrapAsync bare_await) = false
  /\ wrapTopLevelAwait (wrapTopLevelAwait bare_await) = wrapTopLevelAwait bare_await
  /\ wrapTopLevelAwait bare_await = wrapAsync bare_await.
Proof.
  assert (H : noAsyncDef bare_await).
  { unfold noAsyncDef. repeat constructor. }
  split; [exact H|].
  destruct (wrapTopLevelAwait_twice bare_await) as [T _].
  destruct (T H) as [T1 T2].
  split; [exact T1|]. split; [exact T2|]. reflexivity.
Defined.

(** *** Sources without a call of [input] *)

Lemma search_none_clean r whole : forall rest prev pos,
  search r whole prev rest pos = None <-> clean r prev rest.
Proof.
  induction rest as [|c rest IH]; intros prev pos; rewrite search_eq; cbn [clean].
  - rewrite <- (run_none_iff r prev [] pos []).
    destruct (run r prev [] pos []) as [[e caps]|]; split; try tauto; try discriminate.
    intros [H _]. discriminate.
  - rewrite <- (run_none_iff r prev (c :: rest) pos []).
    destruct (run r prev (c :: rest) pos []) as [[e caps]|].
    + split; [discriminate|]. intros [H _]. discriminate.
    + rewrite IH. tauto.
Qed.

Definition LOWER_I : cu := 105%N.

(** Where the pattern matches, the text starts with the letter i. *)
Lemma input_match_starts prev rest pos caps x :
  run input_re prev rest pos caps = Some x -> exists tail, rest = LOWER_I :: tail.
Proof.
  destruct x as [e caps']. intros H. apply run_sound in H.
  destruct H as [w [Hw _]]. apply sem_input in Hw.
  destruct Hw as [_ [[ws [_ ->]] [tail ->]]]. cbn. eauto.
Qed.

Lemma replace_fixed_clean : forall rest prev pos,
  replace_from input_re inputReplacement prev rest pos 0 = rest ->
  clean input_re prev rest.
Proof.
  induction rest as [|c rest IH]; intros prev pos; rewrite replace_from_0;
    destruct (run input_re prev _ pos []) as [[e caps]|] eqn:E.
  - discriminate.
  - intros _. split; [|exact I]. now apply (run_none_iff _ _ _ pos []).
  - apply input_match_starts in E. destruct E as [tail E]. injection E as -> _.
    discriminate.
  - intros H. injection H as H. split.
    + now apply (run_none_iff _ _ _ pos []).
    + now apply (IH _ (S pos)).
Qed.

(** X8: [mockInput] returns its argument unchanged exactly when the pattern
    of a call of [input] matches nowhere in it. *)
Theorem mockInput_identity_iff (code : jsstring) :
  mockInput code = code <-> test input_re code = false.
Proof.
  assert (T : test input_re code = false <-> clean input_re None code).
  { unfold test, exec. rewrite <- (search_none_clean input_re code code None 0).
    destruct (search input_re code None code 0); split; congruence. }
  rewrite T. unfold mockInput, replaceAll. split.
  - apply replace_fixed_clean.
  - apply replace_clean.
Qed.

(** *** The install lines of [rewriteImports] *)

Lemma str_eqb_iff (a b : jsstring) : str_eqb a b = true <-> a = b.
Proof.
  revert b. induction a as [|x a IH]; intros [|y b]; cbn [str_eqb];
    try (split; [discriminate|congruence]); [tauto|].
  rewrite andb_true_iff, cu_eqb_eq, IH. split; [intros [-> ->]|intros [= -> ->]]; auto.
Qed.

Lemma has_cons set y x : has (y :: set) x = str_eqb x y || has set x.
Proof. reflexivity. Qed.

Lemma has_self set x : has (x :: set) x = true.
Proof. rewrite has_cons. now rewrite (proj2 (str_eqb_iff x x) eq_refl). Qed.

Lemma has_other set y x : x <> y -> has (y :: set) x = has set x.
Proof.
  intros H. rewrite has_cons. destruct (str_eqb x y) eqn:E; [|reflexivity].
  now apply str_eqb_iff in E.
Qed.

(** [m] is a module that some line imports and that is not part of Python's
    standard library. *)
Definition thirdParty (lines : list jsstring) (m : jsstring) : Prop :=
  exists line,
    In line lines /\ extractModuleName line = Some m
    /\ m <> [] /\ isStdlibModule m = false.

Lemma needsInstall_true installed line :
  needsInstall installed line = true <->
  exists m, extractModuleName line = Some m /\ m <> []
            /\ isStdlibModule m = false /\ has installed m = false.
Proof.
  unfold needsInstall. destruct (extractModuleName line) as [m|].
  - rewrite !andb_true_iff, !negb_true_iff. split.
    + intros [[H1 H2] H3]. exists m. repeat split; try assumption.
      intros ->. discriminate.
    + intros [m' [[= <-] [H1 [H2 H3]]]]. repeat split; try assumption.
      destruct m; [contradiction|reflexivity].
  - split; [discriminate|]. intros [m [H _]]. discriminate.
Qed.

Lemma loop_installs : forall lines installed,
  exists ms,
    NoDup ms
    /\ (forall m, In m ms <-> thirdParty lines m /\ has installed m = false)
    /\ Permutation (rewriteImports_loop lines installed)
                   (List.map installLine ms ++ lines).
Proof.
  induction lines as [|line lines IH]; intros installed.
  - exists []. split; [constructor|]. split; [|constructor].
    intros m. split; [intros []|]. intros [[l [[] _]] _].
  - rewrite rewriteImports_loop_cons.
    destruct (needsInstall installed line) eqn:En.
    + apply needsInstall_true in En. destruct En as [m0 [Em [Hne [Hstd Hhas]]]].
      rewrite Em. destruct (IH (m0 :: installed)) as [ms [Hnd [Hin Hperm]]].
      exists (m0 :: ms). split; [|split].
      * constructor; [|assumption]. intros H. apply Hin in H.
        destruct H as [_ H]. now rewrite has_self in H.
      * intros m. cbn [In]. rewrite Hin. split.
        -- intros [<-|[[l [Hl Hrest]] Hh]].
           ++ split; [|assumption]. exists line. cbn [In]. auto.
           ++ split; [exists l; cbn [In]; tauto|].
              rewrite has_cons in Hh. now apply orb_false_elim in Hh.
        -- intros [[l [Hl [He Hrest]]] Hh].
           destruct (str_eqb m m0) eqn:E.
           { left. symmetry. now apply str_eqb_iff. }
           right. assert (Hmm : m <> m0).
           { intros ->. now rewrite (proj2 (str_eqb_iff m0 m0) eq_refl) in E. }
           split; [|now rewrite has_other].
           destruct Hl as [<-|Hl]; [congruence|]. exists l. auto.
      * cbn [List.map app]. constructor.
        apply Permutation_cons_app. exact Hperm.
    + destruct (IH installed) as [ms [Hnd [Hin Hperm]]].
      exists ms. split; [assumption|]. split.
      * intros m. rewrite Hin. split.
        -- intros [[l [Hl Hrest]] Hh]. split; [exists l; cbn [In]; tauto|assumption].
        -- intros [[l [Hl [He [Hne Hstd]]]] Hh]. split; [|assumption].
           destruct Hl as [<-|Hl]; [|exists l; auto].
           assert (needsInstall installed line = true); [|congruence].
           apply needsInstall_true. exists m. auto.
      * apply Permutation_cons_app. exact Hperm.
Qed.

(** X9: the lines of [rewriteImports code] are the lines of the code and, in
    addition, one install line for each third-party module that the code
    imports: each such module once, however often it is imported, and no
    install line for any other module. *)
Theorem rewriteImports_installs (code : jsstring) :
  exists ms,
    NoDup ms
    /\ (forall m, In m ms <-> thirdParty (split LF code) m)
    /\ Permutation (split LF (rewriteImports code))
                   (List.map installLine ms ++ split LF code).
Proof.
  rewrite split_rewriteImports.
  destruct (loop_installs (split LF code) []) as [ms [Hnd [Hin Hperm]]].
  exists ms. split; [assumption|]. split; [|assumption].
  intros m. rewrite Hin. cbn. tauto.
Qed.

(** A pattern anchored at the start matches at no later position. *)
Lemma search_bol_none r whole : forall rest c pos,
  search (Bol :: r) whole (Some c) rest pos = None.
Proof.
  induction rest as [|c' rest IH]; intros c pos; rewrite search_eq;
    cbn [run]; [reflexivity|apply IH].
Qed.

(** An install line is not an import. *)
Lemma extractModuleName_installLine m : extractModuleName (installLine m) = None.
Proof.
  unfold extractModuleName, exec.
  assert (E1 : search import_re (installLine m) None (installLine m) 0 = None).
  { rewrite search_eq.
    change (run import_re None (installLine m) 0 []) with (@None (nat * captures)).
    apply (search_bol_none (tl import_re)). }
  assert (E2 : search from_re (installLine m) None (installLine m) 0 = None).
  { rewrite search_eq.
    change (run from_re None (installLine m) 0 []) with (@None (nat * captures)).
    apply (search_bol_none (tl from_re)). }
  now rewrite E1, E2.
Qed.

Lemma loop_install_first : forall lines installed m,
  thirdParty lines m -> has installed m = false ->
  exists pre line post,
    rewriteImports_loop lines installed = pre ++ installLine m :: line :: post
    /\ extractModuleName line = Some m
    /\ forall l, In l pre -> extractModuleName l <> Some m.
Proof.
  induction lines as [|line lines IH]; intros installed m [l [Hl [He [Hne Hstd]]]] Hh;
    [destruct Hl|].
  rewrite rewriteImports_loop_cons.
  destruct (extractModuleName line) as [m0|] eqn:Em.
  - destruct (str_eqb m0 m) eqn:E.
    + apply str_eqb_iff in E. subst m0.
      assert (En : needsInstall installed line = true).
      { apply needsInstall_true. exists m. auto. }
      rewrite En. exists [], line. eexists. split; [reflexivity|].
      split; [assumption|]. intros l' [].
    + assert (Hmm : m <> m0).
      { intros ->. now rewrite (proj2 (str_eqb_iff m0 m0) eq_refl) in E. }
      assert (Ht : thirdParty lines m).
      { destruct Hl as [<-|Hl]; [congruence|]. exists l. auto. }
      destruct (needsInstall installed line).
      * destruct (IH (m0 :: installed) m Ht) as [pre [l1 [post [E1 [E2 E3]]]]].
        { now rewrite has_other. }
        exists (installLine m0 :: line :: pre), l1, post. rewrite E1.
        split; [reflexivity|]. split; [assumption|].
        intros l' [<-|[<-|Hin]].
        -- now rewrite extractModuleName_installLine.
        -- congruence.
        -- now apply E3.
      * destruct (IH installed m Ht Hh) as [pre [l1 [post [E1 [E2 E3]]]]].
        exists (line :: pre), l1, post. rewrite E1.
        split; [reflexivity|]. split; [assumption|].
        intros l' [<-|Hin]; [congruence|now apply E3].
  - assert (Ht : thirdParty lines m).
    { destruct Hl as [<-|Hl]; [congruence|]. exists l. auto. }
    assert (En : needsInstall installed line = false).
    { unfold needsInstall. now rewrite Em. }
    rewrite En.
    destruct (IH installed m Ht Hh) as [pre [l1 [post [E1 [E2 E3]]]]].
    exists (line :: pre), l1, post. rewrite E1.
    split; [reflexivity|]. split; [assumption|].
    intros l' [<-|Hin]; [congruence|now apply E3].
Qed.

(** X10: for every third-party module that the code imports, the result of
    [rewriteImports] has the install line of the module directly in front of
    a line that imports it, and no line before that install line imports the
    module: a package is installed before its first import. *)
Theorem rewriteImports_install_first (code m : jsstring) :
  thirdParty (split LF code) m ->
  exists pre line post,
    split LF (rewriteImports code) = pre ++ installLine m :: line :: post
    /\ extractModuleName line = Some m
    /\ forall l, In l pre -> extractModuleName l <> Some m.
Proof.
  intros H. rewrite split_rewriteImports.
  now apply loop_install_first.
Qed.

Definition import_twice : jsstring :=
  js "import os" ++ [LF] ++ js "import requests" ++ [LF]
  ++ js "from requests.adapters import HTTPAdapter".

Lemma rewriteImports_install_first_witness :
  thirdParty (split LF import_twice) (js "requests")
  /\ exists pre line post,
       split LF (rewriteImports import_twice)
       = pre ++ installLine (js "requests") :: line :: post
       /\ extractModuleName line = Some (js "requests")
       /\ forall l, In l pre -> extractModuleName l <> Some (js "requests").
Proof.
  assert (H : thirdParty (split LF import_twice) (js "requests")).
  { exists (js "import requests"). split; [vm_compute; tauto|].
    split; [reflexivity|]. split; [discriminate|reflexivity]. }
  split; [exact H|].
  exact (rewriteImports_install_first import_twice (js "requests") H).
Defined.

(** *** The module name of an import line *)

Definition headNot (p : cu -> bool) (l : jsstring) : Prop :=
  match l with
  | c :: _ => p c = false
  | [] => True
  end.

Lemma skipn_length_app {A} (w X : list A) : skipn (length w) (w ++ X) = X.
Proof. induction w as [|c w IH]; [reflexivity|exact IH]. Qed.

(** A greedy repetition in front of a text that starts with a run of the
    class, followed by a character outside of it, takes the whole run when
    the rest of the pattern matches there. *)
Lemma run_rep_exact p mn r prev w X pos caps x :
  Forall (fun c => p c = true) w -> headNot p X -> mn <= length w ->
  run r (prev_after prev (w ++ X) (length w)) X (pos + length w) caps = Some x ->
  run (Rep true mn p :: r) prev (w ++ X) pos caps = Some x.
Proof.
  intros Hw HX Hmn H.
  apply run_rep_greedy_first; rewrite (span_app p w X Hw HX); [assumption|].
  now rewrite skipn_length_app.
Qed.

Lemma run_save i r prev rest pos caps :
  run (Save i :: r) prev rest pos caps = run r prev rest pos ((i, pos) :: caps).
Proof. reflexivity. Qed.

Lemma run_bol r rest pos caps :
  run (Bol :: r) None rest pos caps = run r None rest pos caps.
Proof. reflexivity. Qed.

Lemma exec_bol r s :
  exec (Bol :: r) s
  = match run (Bol :: r) None s 0 [] with
    | Some (e, caps) => Some (mkMatch s 0 e caps)
    | None => None
    end.
Proof.
  unfold exec. rewrite search_eq.
  destruct (run (Bol :: r) None s 0 []) as [[e caps]|]; [reflexivity|].
  destruct s as [|c s]; [reflexivity|apply search_bol_none].
Qed.

Lemma nonempty_length {A} (l : list A) : l <> [] -> 1 <= length l.
Proof. destruct l; [contradiction|cbn; lia]. Qed.

Lemma headNot_space_name name X :
  name <> [] -> Forall (fun c => isWhiteSpace c = false) name ->
  headNot isWhiteSpace (name ++ X).
Proof.
  intros Hne H. destruct name as [|c name]; [contradiction|].
  inversion H; subst. assumption.
Qed.

Lemma notSpace_all name :
  Forall (fun c => isWhiteSpace c = false) name ->
  Forall (fun c => notSpace c = true) name.
Proof.
  apply Forall_impl. intros c H. unfold notSpace. now rewrite H.
Qed.

Section ImportLine.

Variables ws ws1 name : jsstring.
Hypothesis Hws : Forall (fun c => isWhiteSpace c = true) ws.
Hypothesis Hws1 : Forall (fun c => isWhiteSpace c = true) ws1.
Hypothesis Hne1 : ws1 <> [].
Hypothesis Hname : Forall (fun c => isWhiteSpace c = false) name.
Hypothesis Hne : name <> [].

(** The position of the module name. *)
Definition nameStart (kw : jsstring) : nat := 0 + length ws + length kw + length ws1.

Lemma run_import_line tail :
  headNot notSpace tail ->
  run import_re None (ws ++ js "import" ++ ws1 ++ name ++ tail) 0 []
  = Some (nameStart (js "import") + length name,
          [(3, nameStart (js "import") + length name);
           (2, nameStart (js "import"))]).
Proof.
  intros Htail.
  change import_re
    with (Bol :: Rep true 0 isWhiteSpace
          :: (List.map chr (js "import")
              ++ Rep true 1 isWhiteSpace :: Save 2
                 :: Rep true 1 notSpace :: [Save 3])).
  rewrite run_bol. apply run_rep_exact; [assumption|reflexivity|lia|].
  rewrite run_chars.
  rewrite (proj2 (startsWith_app (js "import") _)) by eauto.
  rewrite skipn_length_app.
  apply run_rep_exact;
    [assumption|now apply headNot_space_name|now apply nonempty_length|].
  rewrite run_save.
  apply run_rep_exact;
    [now apply notSpace_all|assumption|now apply nonempty_length|].
  reflexivity.
Qed.

Lemma run_import_from_line tail :
  run import_re None (ws ++ js "from" ++ tail) 0 [] = None.
Proof.
  change import_re
    with (Bol :: Rep true 0 isWhiteSpace
          :: Cls (cu_eqb 105%N)
          :: (List.map chr (js "mport")
              ++ Rep true 1 isWhiteSpace :: Save 2
                 :: Rep true 1 notSpace :: [Save 3])).
  rewrite run_bol. rewrite run_rep_greedy_cls.
  - rewrite (span_app isWhiteSpace ws _ Hws) by reflexivity.
    rewrite skipn_length_app. reflexivity.
  - intros c Hc. destruct (cu_eqb 105%N c) eqn:E; [|reflexivity].
    apply cu_eqb_eq in E. subst c. discriminate.
Qed.

Lemma run_from_line ws2 rest :
  Forall (fun c => isWhiteSpace c = true) ws2 -> ws2 <> [] ->
  run from_re None
      (ws ++ js "from" ++ ws1 ++ name ++ ws2 ++ js "import" ++ rest) 0 []
  = Some (nameStart (js "from") + length name + length ws2 + 6,
          [(3, nameStart (js "from") + length name);
           (2, nameStart (js "from"))]).
Proof.
  intros Hws2 Hne2.
  change from_re
    with (Bol :: Rep true 0 isWhiteSpace
          :: (List.map chr (js "from")
              ++ Rep true 1 isWhiteSpace :: Save 2
                 :: Rep true 1 notSpace :: Save 3
                 :: Rep true 1 isWhiteSpace
                 :: (List.map chr (js "import") ++ []))).
  rewrite run_bol. apply run_rep_exact; [assumption|reflexivity|lia|].
  rewrite run_chars.
  rewrite (proj2 (startsWith_app (js "from") _)) by eauto.
  rewrite skipn_length_app.
  apply run_rep_exact;
    [assumption|now apply headNot_space_name|now apply nonempty_length|].
  rewrite run_save.
  apply run_rep_exact; [now apply notSpace_all| |now apply nonempty_length|].
  { destruct ws2 as [|c ws2]; [contradiction|].
    inversion Hws2; subst. cbn. unfold notSpace. now rewrite H1. }
  rewrite run_save.
  apply run_rep_exact; [assumption|reflexivity|now apply nonempty_length|].
  rewrite run_chars.
  rewrite (proj2 (startsWith_app (js "import") _)) by eauto.
  rewrite skipn_length_app. reflexivity.
Qed.

Lemma substring_name kw tail :
  substring (ws ++ kw ++ ws1 ++ name ++ tail) (nameStart kw)
            (nameStart kw + length name)
  = name.
Proof.
  unfold substring, nameStart.
  replace (0 + length ws + length kw + length ws1 + length name
           - (0 + length ws + length kw + length ws1))
    with (length name) by lia.
  replace (ws ++ kw ++ ws1 ++ name ++ tail)
    with ((ws ++ kw ++ ws1) ++ name ++ tail)
    by (now rewrite <- !app_assoc).
  replace (0 + length ws + length kw + length ws1)
    with (length (ws ++ kw ++ ws1))
    by (rewrite !length_app; lia).
  rewrite skipn_length_app.
  now rewrite firstn_app, Nat.sub_diag, firstn_all, firstn_O, app_nil_r.
Qed.

Lemma extractModuleName_import tail :
  headNot notSpace tail ->
  extractModuleName (ws ++ js "import" ++ ws1 ++ name ++ tail)
  = Some (topLevelOf name).
Proof.
  intros Htail. unfold extractModuleName.
  change import_re with (Bol :: tl import_re). rewrite exec_bol.
  change (Bol :: tl import_re) with import_re.
  rewrite (run_import_line tail Htail).
  unfold mgroup. cbn [m_caps m_input slot Nat.mul Nat.add Nat.eqb].
  now rewrite substring_name.
Qed.

Lemma extractModuleName_from ws2 rest :
  Forall (fun c => isWhiteSpace c = true) ws2 -> ws2 <> [] ->
  extractModuleName
    (ws ++ js "from" ++ ws1 ++ name ++ ws2 ++ js "import" ++ rest)
  = Some (topLevelOf name).
Proof.
  intros Hws2 Hne2. unfold extractModuleName.
  change import_re with (Bol :: tl import_re). rewrite exec_bol.
  change (Bol :: tl import_re) with import_re.
  rewrite run_import_from_line.
  change from_re with (Bol :: tl from_re). rewrite exec_bol.
  change (Bol :: tl from_re) with from_re.
  rewrite (run_from_line ws2 rest Hws2 Hne2).
  unfold mgroup. cbn [m_caps m_input slot Nat.mul Nat.add Nat.eqb].
  now rewrite substring_name.
Qed.

End ImportLine.

Lemma split_nosep sep l : ~ In sep l -> split sep l = [l].
Proof.
  intros H. pose proof (split_app_nosep sep l [] H) as E.
  rewrite app_nil_r in E. cbn in E. now rewrite app_nil_r in E.
Qed.

Lemma topLevelOf_dotted top sub :
  ~ In DOT top -> sub = [] \/ (exists s, sub = DOT :: s) ->
  topLevelOf (top ++ sub) = top.
Proof.
  intros Hd [->|[s ->]]; unfold topLevelOf.
  - rewrite app_nil_r. now rewrite split_nosep.
  - rewrite split_app_line. now rewrite split_nosep.
Qed.

(** X11: on an import line -- optional white space, [import], white space,
    a dotted name, then the end of the line or white space -- the result of
    [extractModuleName] is the part of the name before its first dot; the
    same holds on a line [from <name> import ...].  For a relative import
    ([from .x import y]) that part is the empty string. *)
Theorem extractModuleName_import_line (ws ws1 top sub : jsstring) :
  Forall (fun c => isWhiteSpace c = true) ws ->
  Forall (fun c => isWhiteSpace c = true) ws1 -> ws1 <> [] ->
  Forall (fun c => isWhiteSpace c = false) (top ++ sub) -> top ++ sub <> [] ->
  ~ In DOT top -> sub = [] \/ (exists s, sub = DOT :: s) ->
  (forall tail,
     tail = [] \/ (exists c t, tail = c :: t /\ isWhiteSpace c = true) ->
     extractModuleName (ws ++ js "import" ++ ws1 ++ (top ++ sub) ++ tail)
     = Some top)
  /\ (forall ws2 rest,
        Forall (fun c => isWhiteSpace c = true) ws2 -> ws2 <> [] ->
        extractModuleName
          (ws ++ js "from" ++ ws1 ++ (top ++ sub) ++ ws2 ++ js "import" ++ rest)
        = Some top).
Proof.
  intros Hws Hws1 Hne1 Hname Hne Hdot Hsub. split.
  - intros tail Htail.
    rewrite extractModuleName_import; try assumption.
    + now rewrite topLevelOf_dotted.
    + destruct Htail as [->|[c [t [-> Hc]]]]; [exact I|].
      cbn. unfold notSpace. now rewrite Hc.
  - intros ws2 rest Hws2 Hne2.
    rewrite extractModuleName_from; try assumption.
    now rewrite topLevelOf_dotted.
Qed.

Lemma extractModuleName_import_line_witness :
  extractModuleName (js "  import numpy.linalg as la") = Some (js "numpy")
  /\ extractModuleName (js "from .models import User") = Some [].
Proof.
  split.
  - refine (proj1 (extractModuleName_import_line (js "  ") (js " ") (js "numpy")
                     (js ".linalg") _ _ _ _ _ _ _) (js " as la") _).
    + repeat constructor.
    + repeat constructor.
    + discriminate.
    + repeat constructor.
    + discriminate.
    + vm_compute. intuition discriminate.
    + right. eexists. reflexivity.
    + right. do 2 eexists. split; reflexivity.
  - refine (proj2 (extractModuleName_import_line [] (js " ") [] (js ".models")
                     _ _ _ _ _ _ _) (js " ") (js " User") _ _).
    + constructor.
    + repeat constructor.
    + discriminate.
    + repeat constructor.
    + discriminate.
    + intros [].
    + right. eexists. reflexivity.
    + repeat constructor.
    + discriminate.
Defined.

End TransformExtras.

(* ================================================================== *)
(** ** Further properties of the tokenizer *)
(* ================================================================== *)

Module TokenizerExtras.

Import Ast Tokenizer Parser ParserProofs.

(** *** What one call of [nextToken] does to the stack and to the queue *)

(** The types of the tokens that the reading methods build. *)
Definition plainType (ty : TokenType) : Prop :=
  match ty with
  | INDENT | DEDENT | ENDMARKER => False
  | _ => True
  end.

(** A token of a plain type, read without a change of the indentation stack
    or of the queue of pending tokens. *)
Definition plain (t : Tokenizer) (r : Token * Tokenizer) : Prop :=
  plainType (tok_type (fst r))
  /\ indentStack (snd r) = indentStack t
  /\ pendingTokens (snd r) = pendingTokens t.

Lemma plain_readString (t : Tokenizer) (r : Token * Tokenizer) :
  readString t = Ok r -> plain t r.
Proof.
  unfold readString. destruct (charAt t 0) as [quote|].
  - cbv zeta.
    destruct (readString_loop _ _ _ _ _ _) as [[[p l] c]| |]; try discriminate.
    intros H. injection H as <-. repeat split.
  - intros H. injection H as <-. repeat split.
Qed.

Lemma plain_readRawString (t : Tokenizer) : plain t (readRawString t).
Proof.
  unfold readRawString. cbv zeta.
  destruct (readRawString_loop _ _ _ _ _ _) as [[p l] c]. repeat split.
Qed.

Lemma plain_readFStringContent (t : Tokenizer) : plain t (readFStringContent t).
Proof.
  unfold readFStringContent. cbv zeta.
  destruct (readFStringContent_loop _ _ _ _ _ _ _) as [[p l] c]. repeat split.
Qed.

Lemma plain_readByteString (t : Tokenizer) (r : Token * Tokenizer) :
  readByteString t = Ok r -> plain t r.
Proof.
  unfold readByteString. cbv zeta.
  destruct (readString _) as [[tok0 t0]| |] eqn:E; try discriminate.
  intros H. injection H as <-.
  apply plain_readString in E. destruct E as (E1 & E2 & E3).
  repeat split; assumption.
Qed.

Lemma plain_readNumber (t : Tokenizer) : plain t (readNumber t).
Proof.
  unfold readNumber. cbv zeta.
  repeat match goal with
         | |- context [if ?c then _ else _] => destruct c
         end; repeat split.
Qed.

Lemma plain_readName (t : Tokenizer) : plain t (readName t).
Proof. repeat split. Qed.

Lemma plain_readOperator (t : Tokenizer) : plain t (readOperator t).
Proof.
  unfold readOperator. cbv zeta.
  repeat match goal with
         | |- context [if ?c then _ else _] => destruct c
         end; repeat split.
Qed.

Lemma popDedents_spec (tok : Token) (indent : nat) : forall stack s toks,
  popDedents stack indent tok = (s, toks) ->
  Forall (eq tok) toks
  /\ length stack = length s + length toks
  /\ (stack <> [] -> s <> []).
Proof.
  induction stack as [|top below IH]; intros s toks; cbn [popDedents].
  - intros H. injection H as <- <-. repeat split; first [constructor|tauto].
  - destruct below as [|x below].
    + intros H. injection H as <- <-.
      repeat split; first [constructor|tauto|cbn; lia].
    + destruct (indent <? top).
      * destruct (popDedents (x :: below) indent tok) as [s0 toks0] eqn:E.
        intros H. injection H as <- <-.
        destruct (IH s0 toks0 eq_refl) as (H1 & H2 & H3).
        repeat split.
        -- constructor; [reflexivity|assumption].
        -- cbn [length] in *. lia.
        -- intros _. apply H3. discriminate.
      * intros H. injection H as <- <-.
        repeat split; first [constructor|tauto|cbn; lia].
Qed.

(** What a call of [nextToken] with an empty queue returns: a plain token
    or the end marker, with the stack as it was; an INDENT, with one more
    level on the stack; or a DEDENT, with as many copies of it left in the
    queue as further levels were taken off the stack. *)
Definition step (t : Tokenizer) (tok : Token) (t1 : Tokenizer) : Prop :=
  (tok_type tok <> INDENT /\ tok_type tok <> DEDENT
   /\ indentStack t1 = indentStack t /\ pendingTokens t1 = []
   /\ (tok_type tok = ENDMARKER -> length (indentStack t) <= 1))
  \/ (tok_type tok = INDENT /\ pendingTokens t1 = []
      /\ exists n, indentStack t1 = n :: indentStack t)
  \/ (tok_type tok = DEDENT /\ Forall (eq tok) (pendingTokens t1)
      /\ indentStack t1 <> []
      /\ length (indentStack t)
         = length (indentStack t1) + 1 + length (pendingTokens t1)).

Lemma step_plain (t t0 : Tokenizer) (r : Token * Tokenizer) :
  indentStack t0 = indentStack t -> pendingTokens t0 = pendingTokens t ->
  pendingTokens t = [] ->
  plain t0 r -> step t (fst r) (snd r).
Proof.
  intros Hs Hp He (H1 & H2 & H3). left.
  destruct (tok_type (fst r)); cbn in H1; try contradiction;
    repeat split; try discriminate; congruence.
Qed.

Lemma step_atEnd (t t0 : Tokenizer) :
  indentStack t0 = indentStack t -> pendingTokens t0 = pendingTokens t ->
  pendingTokens t = [] ->
  step t (fst (atEnd t0)) (snd (atEnd t0)).
Proof.
  intros Hs Hp He. unfold atEnd.
  destruct (indentStack t0) as [|x [|y s]] eqn:E.
  - left. cbn. repeat split; try discriminate; try congruence.
    intros _. rewrite <- Hs. cbn. lia.
  - left. cbn. repeat split; try discriminate; try congruence.
    intros _. rewrite <- Hs. cbn. lia.
  - right. right. cbn. rewrite Hp, He, <- Hs.
    repeat split; [constructor|discriminate|cbn; lia].
Qed.

Lemma step_frame (t0 t : Tokenizer) (tok : Token) (t' : Tokenizer) :
  indentStack t0 = indentStack t -> step t0 tok t' -> step t tok t'.
Proof. unfold step. intros ->. trivial. Qed.

Lemma step_handleIndentation
      (k : Tokenizer -> result (Token * Tokenizer)) (t : Tokenizer)
      (tok : Token) (t' : Tokenizer) :
  (forall t0 tok0 t1,
      pendingTokens t0 = [] -> k t0 = Ok (tok0, t1) -> step t0 tok0 t1) ->
  pendingTokens t = [] ->
  handleIndentation k t = Ok (tok, t') -> step t tok t'.
Proof.
  intros Hk He. unfold handleIndentation.
  destruct (handleIndentation_loop _ _ _ _ _ _) as [[[indent p] l] c].
  set (t1 := setAtLineStart (move t p l c) false).
  assert (Hs : indentStack t1 = indentStack t) by reflexivity.
  assert (Hp : pendingTokens t1 = pendingTokens t) by reflexivity.
  destruct (length (source t1) <=? pos t1).
  - intros H. injection H as H.
    pose proof (step_atEnd t t1 Hs Hp He) as S.
    rewrite H in S. exact S.
  - destruct (hd 0 (indentStack t1) <? indent).
    + intros H. injection H as <- <-. right. left.
      cbn. repeat split; [congruence|]. exists indent. reflexivity.
    + destruct (indent <? hd 0 (indentStack t1)).
      * destruct (popDedents _ _ _) as [stack dedents] eqn:E.
        rewrite Hp, He. cbn [app].
        destruct dedents as [|first pending]; [discriminate|].
        intros H. injection H as <- <-.
        apply popDedents_spec in E. destruct E as (E1 & E2 & E3).
        inversion E1 as [|? ? Hf Hr]; subst.
        right. right. cbn. repeat split.
        -- assumption.
        -- apply E3. intros E0. rewrite E0 in E2. cbn [length] in E2. lia.
        -- rewrite <- Hs, E2. cbn [length]. lia.
      * intros H. apply Hk in H; [|congruence].
        exact (step_frame t1 t tok t' Hs H).
Qed.

Lemma step_nextToken (fuel : nat) :
  forall t tok t',
    pendingTokens t = [] ->
    nextToken fuel t = Ok (tok, t') -> step t tok t'.
Proof.
  induction fuel as [|fuel IH]; intros t tok t' He; cbn [nextToken];
    [discriminate|].
  destruct (atLineStart t).
  - apply step_handleIndentation; assumption.
  - cbv zeta.
    set (t1 := skipWhitespace t).
    assert (Hs : indentStack t1 = indentStack t).
    { unfold t1, skipWhitespace.
      destruct (skipWhitespace_loop _ _ _ _) as [[p l] c]. reflexivity. }
    assert (Hp : pendingTokens t1 = pendingTokens t).
    { unfold t1, skipWhitespace.
      destruct (skipWhitespace_loop _ _ _ _) as [[p l] c]. reflexivity. }
    assert (Plain : forall r, plain t1 r -> Ok r = Ok (tok, t') -> step t tok t').
    { intros r Hr H. injection H as ->.
      exact (step_plain t t1 (tok, t') Hs Hp He Hr). }
    assert (Moved : forall n r, plain (forward t1 n) r -> Ok r = Ok (tok, t') ->
                                step t tok t').
    { intros n r Hr H. injection H as ->.
      exact (step_plain t (forward t1 n) (tok, t') Hs Hp He Hr). }
    repeat match goal with
           | |- (if ?c then _ else _) = _ -> _ => destruct c
           end;
      intros H.
    all: try (injection H as H;
              pose proof (step_atEnd t t1 Hs Hp He) as S;
              rewrite H in S; exact S).
    all: try (apply IH in H;
              [ exact (step_frame (skipComment t1) t tok t' Hs H)
              | exact (eq_trans Hp He) ]).
    all: try (apply plain_readString in H;
              exact (step_plain t t1 (tok, t') Hs Hp He H)).
    all: try (apply plain_readByteString in H;
              exact (step_plain t t1 (tok, t') Hs Hp He H)).
    all: try (injection H as <- <-; left; cbn;
              repeat split; try discriminate; congruence).
    all: first
           [ apply (Plain _ (plain_readRawString t1) H)
           | apply (Plain _ (plain_readNumber t1) H)
           | apply (Plain _ (plain_readName t1) H)
           | apply (Plain _ (plain_readOperator t1) H)
           | apply (Moved 2 _ (plain_readFStringContent (forward t1 2)) H)
           | apply (Moved 1 _ (plain_readFStringContent (forward t1 1)) H) ].
Qed.

(** *** Looking ahead *)

Lemma all_eq_rotate {A} (x : A) (l : list A) :
  Forall (eq x) l -> l ++ [x] = x :: l.
Proof.
  induction 1 as [|y l Hy Hl IH]; [reflexivity|].
  subst y. cbn [app]. now rewrite IH.
Qed.

Lemma setPending_restore (t : Tokenizer) (q : list Token) :
  setPending (setPending t q) (pendingTokens t) = t.
Proof. destruct t. reflexivity. Qed.

(** X12: [peek] does not change what the tokenizer delivers.  After a
    [peek] that returned the token [tok], another [peek] returns [tok]
    again without a change of state, and [next] returns [tok] and leaves
    the tokenizer in the very state that [next] without the [peek] leaves it
    in -- also when one line closes several blocks and the DEDENT tokens
    wait in the queue. *)
Theorem peek_then_next (t : Tokenizer) (tok : Token) (t' : Tokenizer) :
  peek t = Ok (tok, t') ->
  peek t' = Ok (tok, t')
  /\ next t' = next t
  /\ exists t'', next t = Ok (tok, t'').
Proof.
  unfold peek at 1. destruct (pendingTokens t) as [|x pending] eqn:Ep.
  - destruct (nextToken nextTokenDepth t) as [[tok0 t0]| |] eqn:E; try discriminate.
    intros H. injection H as -> <-.
    assert (Hn : next t = Ok (tok, t0)) by (unfold next; now rewrite Ep).
    pose proof (step_nextToken _ t tok t0 Ep E) as S.
    assert (Hall : Forall (eq tok) (pendingTokens t0)).
    { destruct S as [(_ & _ & _ & A & _)|[(_ & A & _)|(_ & A & _)]];
        [rewrite A; constructor|rewrite A; constructor|exact A]. }
    rewrite Hn. unfold peek, next.
    change (pendingTokens (setPending t0 (pendingTokens t0 ++ [tok])))
      with (pendingTokens t0 ++ [tok]).
    rewrite (all_eq_rotate tok _ Hall).
    split; [|split; [|eauto]].
    + now rewrite <- (all_eq_rotate tok _ Hall).
    + f_equal. f_equal.
      destruct t0 as [s p l c st pend a]. unfold setPending. cbn in *.
      f_equal.
  - intros H. injection H as -> <-. split; [|split].
    + unfold peek. now rewrite Ep.
    + reflexivity.
    + unfold next. rewrite Ep. eauto.
Qed.

(** The tokenizer after [n] calls of [next]. *)
Fixpoint after (n : nat) (t : Tokenizer) : Tokenizer :=
  match n with
  | 0 => t
  | S n' =>
      match next t with
      | Ok (_, t') => after n' t'
      | _ => t
      end
  end.

(** Two blocks that the last line closes together. *)
Definition nested_blocks : jsstring :=
  js "if a:" ++ [LF] ++ js "  if b:" ++ [LF] ++ js "    c" ++ [LF] ++ js "d".

Lemma peek_then_next_witness :
  exists tok t',
    peek (after 12 (newTokenizer nested_blocks)) = Ok (tok, t')
    /\ tok_type tok = DEDENT /\ length (pendingTokens t') = 2
    /\ peek t' = Ok (tok, t')
    /\ next t' = next (after 12 (newTokenizer nested_blocks))
    /\ exists t'', next (after 12 (newTokenizer nested_blocks)) = Ok (tok, t'').
Proof.
  eexists. eexists.
  assert (H : peek (after 12 (newTokenizer nested_blocks))
              = Ok (mkToken DEDENT [] (4, 0) (4, 0),
                    mkTokenizer nested_blocks 20 4 0 [0]
                      [mkToken DEDENT [] (4, 0) (4, 0);
                       mkToken DEDENT [] (4, 0) (4, 0)] false)).
  { vm_compute. reflexivity. }
  split; [exact H|]. split; [reflexivity|]. split; [reflexivity|].
  exact (peek_then_next _ _ _ H).
Defined.

(** *** Blocks are well nested *)

(** The number of tokens of a type. *)
Definition countType (ty : TokenType) (toks : list Token) : nat :=
  length (filter (fun tok => TokenType_eqb (tok_type tok) ty) toks).

(** The tokens that a tokenizer of the source [src] has delivered through
    [next], with any calls of [peek] in between, and the state it is in. *)
Inductive delivers (src : jsstring) : Tokenizer -> list Token -> Prop :=
| delivers_new : delivers src (newTokenizer src) []
| delivers_next (t : Tokenizer) (toks : list Token) (tok : Token) (t' : Tokenizer) :
    delivers src t toks -> next t = Ok (tok, t') -> delivers src t' (toks ++ [tok])
| delivers_peek (t : Tokenizer) (toks : list Token) (tok : Token) (t' : Tokenizer) :
    delivers src t toks -> peek t = Ok (tok, t') -> delivers src t' toks.

Lemma TokenType_eqb_eq (a b : TokenType) : TokenType_eqb a b = true <-> a = b.
Proof. destruct a, b; cbn; split; intros H; try reflexivity; discriminate H. Qed.

Lemma countType_app ty l1 l2 :
  countType ty (l1 ++ l2) = countType ty l1 + countType ty l2.
Proof. unfold countType. now rewrite filter_app, length_app. Qed.

Lemma countType_cons ty tok l :
  countType ty (tok :: l)
  = (if TokenType_eqb (tok_type tok) ty then 1 else 0) + countType ty l.
Proof.
  unfold countType. cbn [filter].
  destruct (TokenType_eqb (tok_type tok) ty); reflexivity.
Qed.

Lemma countType_one ty tok :
  countType ty [tok] = if TokenType_eqb (tok_type tok) ty then 1 else 0.
Proof. rewrite countType_cons. cbn. lia. Qed.

Lemma countType_copies ty tok l :
  Forall (eq tok) l ->
  countType ty l = if TokenType_eqb (tok_type tok) ty then length l else 0.
Proof.
  induction 1 as [|x l Hx Hl IH].
  - now destruct (TokenType_eqb (tok_type tok) ty).
  - subst x. rewrite countType_cons, IH.
    destruct (TokenType_eqb (tok_type tok) ty); reflexivity.
Qed.

(** The tokens delivered, the stack and the queue fit together. *)
Definition balanced (t : Tokenizer) (toks : list Token) : Prop :=
  length (indentStack t) + countType DEDENT toks + countType DEDENT (pendingTokens t)
  = 1 + countType INDENT toks + countType INDENT (pendingTokens t)
  /\ 1 + countType INDENT (pendingTokens t) <= length (indentStack t)
  /\ (forall e, List.In e (pendingTokens t) -> tok_type e = ENDMARKER ->
                length (indentStack t) = 1 /\ pendingTokens t = [e])
  /\ (forall toks' e, toks = toks' ++ [e] -> tok_type e = ENDMARKER ->
                      countType DEDENT toks = countType INDENT toks).

Ltac type_cases :=
  repeat match goal with
         | H : tok_type ?tok = _ |- _ => rewrite H in *
         | |- context [TokenType_eqb (tok_type ?tok) ?ty] =>
             let E := fresh "E" in
             destruct (TokenType_eqb (tok_type tok) ty) eqn:E;
             [apply TokenType_eqb_eq in E|]
         | H : context [TokenType_eqb (tok_type ?tok) ?ty] |- _ =>
             let E := fresh "E" in
             destruct (TokenType_eqb (tok_type tok) ty) eqn:E;
             [apply TokenType_eqb_eq in E|]
         end;
  cbn [TokenType_eqb] in *; try congruence.

Lemma balanced_new (src : jsstring) : balanced (newTokenizer src) [].
Proof.
  unfold balanced. cbn. repeat split; try lia; try tauto.
  all: intros toks' e H; destruct toks'; discriminate H.
Qed.

Lemma snoc_inj {A} (l l' : list A) (x y : A) : l ++ [x] = l' ++ [y] -> x = y.
Proof. intros H. apply app_inj_tail in H. tauto. Qed.

Lemma not_type (tok : Token) (ty : TokenType) :
  tok_type tok <> ty -> TokenType_eqb (tok_type tok) ty = false.
Proof.
  intros H. destruct (TokenType_eqb (tok_type tok) ty) eqn:E; [|reflexivity].
  apply TokenType_eqb_eq in E. contradiction.
Qed.

Lemma is_type (tok : Token) (ty : TokenType) :
  tok_type tok = ty -> TokenType_eqb (tok_type tok) ty = true.
Proof. intros H. now apply TokenType_eqb_eq. Qed.

(** One call of [nextToken] with an empty queue, seen by the counts: the
    token [tok] is returned and the tokens [queue ++ extra] are put in the
    queue, where [extra] is [[tok]] for [peek] and empty for [next]. *)
Lemma balanced_step (t : Tokenizer) (toks : list Token) (tok : Token)
      (t1 : Tokenizer) :
  balanced t toks -> pendingTokens t = [] -> step t tok t1 ->
  balanced t1 (toks ++ [tok])
  /\ balanced (setPending t1 (pendingTokens t1 ++ [tok])) toks.
Proof.
  unfold balanced. intros (B1 & B2 & B3 & B4) Hp S. rewrite Hp in *.
  change (countType DEDENT []) with 0 in *.
  change (countType INDENT []) with 0 in *.
  change (indentStack (setPending t1 (pendingTokens t1 ++ [tok])))
    with (indentStack t1).
  change (pendingTokens (setPending t1 (pendingTokens t1 ++ [tok])))
    with (pendingTokens t1 ++ [tok]).
  rewrite !countType_app, !countType_one.
  destruct S as [(A1 & A2 & A3 & A4 & A5)
                |[(A1 & A2 & n & A3)|(A1 & A2 & A3 & A4)]].
  - rewrite A3, A4. cbn [app].
    change (countType DEDENT []) with 0. change (countType INDENT []) with 0.
    rewrite (not_type tok INDENT A1), (not_type tok DEDENT A2).
    split; (split; [lia|]); (split; [lia|]); split.
    + intros e [].
    + intros toks' e H He. apply snoc_inj in H. subst e.
      specialize (A5 He). lia.
    + intros e [<-|[]] He. specialize (A5 He). split; [lia|reflexivity].
    + exact B4.
  - rewrite A3, A2. cbn [app length].
    change (countType DEDENT []) with 0. change (countType INDENT []) with 0.
    rewrite (is_type tok INDENT A1).
    assert (ED : TokenType_eqb (tok_type tok) DEDENT = false)
      by (rewrite A1; reflexivity).
    rewrite ED.
    split; (split; [lia|]); (split; [lia|]); split.
    + intros e [].
    + intros toks' e H He. apply snoc_inj in H. subst e. congruence.
    + intros e [<-|[]] He. congruence.
    + exact B4.
  - rewrite !(countType_copies _ tok _ A2).
    rewrite (is_type tok DEDENT A1).
    assert (EI : TokenType_eqb (tok_type tok) INDENT = false)
      by (rewrite A1; reflexivity).
    rewrite EI.
    assert (HL : 1 <= length (indentStack t1)).
    { destruct (indentStack t1); [contradiction|cbn; lia]. }
    split; (split; [lia|]); (split; [lia|]); split.
    + intros e He Hty. rewrite Forall_forall in A2. apply A2 in He. subst e.
      congruence.
    + intros toks' e H He. apply snoc_inj in H. subst e. congruence.
    + intros e He Hty. apply in_app_or in He.
      assert (e = tok); [|congruence].
      destruct He as [He|[<-|[]]]; [|reflexivity].
      rewrite Forall_forall in A2. symmetry. now apply A2.
    + exact B4.
Qed.

Lemma delivers_balanced (src : jsstring) (t : Tokenizer) (toks : list Token) :
  delivers src t toks -> balanced t toks.
Proof.
  induction 1 as [|t toks tok t' _ IH H|t toks tok t' _ IH H].
  - apply balanced_new.
  - unfold next in H. destruct (pendingTokens t) as [|x pending] eqn:Ep.
    + apply step_nextToken in H; [|exact Ep].
      exact (proj1 (balanced_step t toks tok t' IH Ep H)).
    + injection H as -> <-.
      destruct IH as (B1 & B2 & B3 & B4). rewrite Ep in *.
      unfold balanced.
      change (indentStack (setPending t pending)) with (indentStack t).
      change (pendingTokens (setPending t pending)) with pending.
      rewrite !countType_cons in *. rewrite !countType_app, !countType_one.
      split; [lia|]. split; [lia|]. split.
      * intros e He Hty.
        destruct (B3 e (or_intror He) Hty) as [_ B]. injection B as _ ->.
        destruct He.
      * intros toks' e H0 He. apply snoc_inj in H0. subst e.
        destruct (B3 tok (or_introl eq_refl) He) as [B5 B6].
        injection B6 as ->.
        change (countType DEDENT []) with 0 in *.
        change (countType INDENT []) with 0 in *.
        assert (E1 : TokenType_eqb (tok_type tok) DEDENT = false)
          by (rewrite He; reflexivity).
        assert (E2 : TokenType_eqb (tok_type tok) INDENT = false)
          by (rewrite He; reflexivity).
        rewrite E1, E2 in *. lia.
  - unfold peek in H. destruct (pendingTokens t) as [|x pending] eqn:Ep.
    + destruct (nextToken nextTokenDepth t) as [[tok0 t0]| |] eqn:E;
        try discriminate.
      injection H as -> <-.
      apply step_nextToken in E; [|exact Ep].
      exact (proj2 (balanced_step t toks tok t0 IH Ep E)).
    + injection H as _ <-. exact IH.
Qed.

(** X13: in the tokens that a tokenizer delivers, blocks are well nested:
    at no point have more DEDENT tokens than INDENT tokens been delivered,
    and when the end marker is delivered there have been exactly as many.
    This holds however the calls of [next] are mixed with calls of
    [peek]. *)
Theorem indent_dedent_balance (src : jsstring) (t : Tokenizer) (toks : list Token) :
  delivers src t toks ->
  countType DEDENT toks <= countType INDENT toks
  /\ (forall toks' e, toks = toks' ++ [e] -> tok_type e = ENDMARKER ->
                      countType DEDENT toks = countType INDENT toks).
Proof.
  intros H. apply delivers_balanced in H.
  destruct H as (B1 & B2 & B3 & B4). split; [lia|exact B4].
Qed.

(** The tokens that [n] calls of [next] deliver. *)
Fixpoint tokensOf (n : nat) (t : Tokenizer) : list Token :=
  match n with
  | 0 => []
  | S n' =>
      match next t with
      | Ok (tok, t') => tok :: tokensOf n' t'
      | _ => []
      end
  end.

Lemma delivers_run (src : jsstring) (n : nat) : forall t toks,
  delivers src t toks -> delivers src (after n t) (toks ++ tokensOf n t).
Proof.
  induction n as [|n IH]; intros t toks H; cbn [after tokensOf].
  - now rewrite app_nil_r.
  - destruct (next t) as [[tok t']| |] eqn:E; try (now rewrite app_nil_r).
    replace (toks ++ tok :: tokensOf n t') with ((toks ++ [tok]) ++ tokensOf n t')
      by (now rewrite <- app_assoc).
    apply IH. exact (delivers_next src t toks tok t' H E).
Qed.

Lemma indent_dedent_balance_witness :
  delivers nested_blocks (after 16 (newTokenizer nested_blocks))
           (tokensOf 16 (newTokenizer nested_blocks))
  /\ List.map tok_type (tokensOf 16 (newTokenizer nested_blocks))
     = [NAME; NAME; OP; NEWLINE; INDENT; NAME; NAME; OP; NEWLINE; INDENT;
        NAME; NEWLINE; DEDENT; DEDENT; NAME; ENDMARKER]
  /\ countType DEDENT (tokensOf 16 (newTokenizer nested_blocks))
     <= countType INDENT (tokensOf 16 (newTokenizer nested_blocks)).
Proof.
  pose proof (delivers_run nested_blocks 16 _ _ (delivers_new nested_blocks)) as H.
  cbn [app] in H.
  split; [exact H|]. split; [reflexivity|].
  exact (proj1 (indent_dedent_balance _ _ _ H)).
Defined.

(** X14. The tokenizer always answers: in every state [next] and [peek]
    return a token or throw.  [nextToken] calls itself at most twice in a
    row, once behind the indentation of a line and once behind a comment,
    where it stands at the end of the line and returns; three nested calls
    are the depth that the model gives it. *)
Theorem tokenizer_answers (t : Tokenizer) :
  next t <> OutOfFuel /\ peek t <> OutOfFuel
  /\ forall fuel, nextToken (nextTokenDepth + fuel) t <> OutOfFuel.
Proof.
  split; [apply next_answers|]. split; [apply peek_answers|].
  intros fuel. destruct (atLineStart t) eqn:Hstart.
  - unfold nextTokenDepth. change (3 + fuel) with (S (2 + fuel)).
    remember (2 + fuel) as fuel' eqn:Efuel.
    cbn [nextToken]. rewrite Hstart. subst fuel'.
    apply handleIndentation_answers. intros t' H'.
    apply (nextToken_inLine fuel). exact H'.
  - apply (nextToken_inLine (1 + fuel)). exact Hstart.
Qed.

End TokenizerExtras.

(* ================================================================== *)
(** ** The shapes of the trees that the parser builds *)
(* ================================================================== *)

Module ParserShapes.

Import Ast Tokenizer Parser ParserProofs.
Local Open Scope parser_scope.

(** *** The shapes *)

(** The parameters of a function: none is positional-only, every
    keyword-only parameter has its entry in [kw_defaults], and there are at
    most as many defaults as parameters. *)
Definition argsShape (a : arguments) : Prop :=
  match a with
  | mkArguments posonlyargs args _ kwonlyargs kw_defaults _ defaults =>
      posonlyargs = [] /\ length kw_defaults = length kwonlyargs
      /\ length defaults <= length args
  end.

(** The conversion of a replacement field: none, [!r], [!s] or [!a]. *)
Definition conversionShape (c : Z) : Prop :=
  (c = -1 \/ c = 114 \/ c = 115 \/ c = 97)%Z.

(** A format spec is a [JoinedStr] of one text that is not empty. *)
Definition formatSpecShape (spec : option expr) : Prop :=
  match spec with
  | None => True
  | Some (JoinedStr [Constant (CStr text)]) => text <> []
  | Some _ => False
  end.

Definition asyncFlag (g : comprehension) : nat :=
  match g with
  | mkComprehension _ _ _ is_async => is_async
  end.

(** The clauses of a comprehension: at least one, each with the flag 0 or
    1. *)
Definition generatorsShape (generators : list comprehension) : Prop :=
  1 <= length generators /\ All (fun g => asyncFlag g <= 1) generators.

Definition exprShape (e : expr) : Prop :=
  match e with
  | BoolOp _ values => 2 <= length values
  | Dict keys values => length keys = length values
  | Set_ elts => 1 <= length elts
  | Lambda args _ => argsShape args
  | ListComp _ generators => generatorsShape generators
  | SetComp _ generators => generatorsShape generators
  | DictComp _ _ generators => generatorsShape generators
  | GeneratorExp _ generators => generatorsShape generators
  | JoinedStr values => 1 <= length values
  | FormattedValue _ conversion format_spec =>
      conversionShape conversion /\ formatSpecShape format_spec
  | _ => True
  end.

(** A pattern: the parser builds no [MatchSingleton] and no [MatchStar]; the
    keys and the patterns of a mapping, and the keyword names and patterns of
    a class pattern, are aligned; the class is a name; an or-pattern has at
    least two alternatives. *)
Fixpoint patternShape (p : pattern) {struct p} : Prop :=
  match p with
  | MatchValue _ => True
  | MatchSingleton _ => False
  | MatchSequence patterns => All patternShape patterns
  | MatchMapping keys patterns _ =>
      length keys = length patterns /\ All patternShape patterns
  | MatchClass cls patterns kwd_attrs kwd_patterns =>
      (exists id, cls = Name id)
      /\ length kwd_attrs = length kwd_patterns
      /\ All patternShape patterns /\ All patternShape kwd_patterns
  | MatchStar _ => False
  | MatchAs pat _ => AllOpt patternShape pat
  | MatchOr patterns => 2 <= length patterns /\ All patternShape patterns
  end.

Definition casePattern (c : match_case) : pattern :=
  match c with
  | mkMatchCase pat _ _ => pat
  end.

Definition stmtShape (s : stmt) : Prop :=
  match s with
  | FunctionDef _ args _ _ _ type_params =>
      argsShape args /\ type_params <> Some []
  | AsyncFunctionDef _ args _ _ _ type_params =>
      argsShape args /\ type_params <> Some []
  | ClassDef _ _ _ _ _ type_params => type_params <> Some []
  | Import names => 1 <= length names
  | ImportFrom module _ _ => module <> None
  | Assign targets _ => 1 <= length targets
  | AnnAssign _ _ _ simple => simple = 1
  | With items _ => 1 <= length items
  | AsyncWith items _ => 1 <= length items
  | Delete targets => 1 <= length targets
  | Global names => 1 <= length names
  | Nonlocal names => 1 <= length names
  | Raise exc cause => exc = None -> cause = None
  | Match _ cases => All (fun c => patternShape (casePattern c)) cases
  | _ => True
  end.

(** *** What a method returns *)

(** [m] returns only values of which [Q] holds. *)
Definition gives {A} (Q : A -> Prop) (m : M A) : Prop :=
  forall p a p', m p = Ok (a, p') -> Q a.

(** The shape of the values of each type. *)
Class Shape (A : Type) : Type := shape : A -> Prop.

#[export] Instance Shape_expr : Shape expr := every_expr exprShape.
#[export] Instance Shape_arguments : Shape arguments :=
  fun a => every_arguments exprShape a /\ argsShape a.
#[export] Instance Shape_arg : Shape arg := every_arg exprShape.
#[export] Instance Shape_keyword : Shape keyword := every_keyword exprShape.
#[export] Instance Shape_comprehension : Shape comprehension :=
  fun g => every_comprehension exprShape g /\ asyncFlag g <= 1.
#[export] Instance Shape_pattern : Shape pattern :=
  fun p => every_pattern exprShape p /\ patternShape p.
#[export] Instance Shape_withitem : Shape withitem := every_withitem exprShape.
#[export] Instance Shape_stmt : Shape stmt := every_stmt stmtShape exprShape.
#[export] Instance Shape_match_case : Shape match_case :=
  fun c => every_match_case stmtShape exprShape c /\ patternShape (casePattern c).
#[export] Instance Shape_excepthandler : Shape excepthandler :=
  every_excepthandler stmtShape exprShape.
#[export] Instance Shape_ModuleNode : Shape ModuleNode :=
  fun m => All (every_stmt stmtShape exprShape) (body m).
#[export] Instance Shape_ArgsState : Shape ArgsState :=
  fun a => every_arguments exprShape (toArguments a) /\ argsShape (toArguments a).
#[export] Instance Shape_list {A} {W : Shape A} : Shape (list A) := All shape.
#[export] Instance Shape_option {A} {W : Shape A} : Shape (option A) := AllOpt shape.
#[export] Instance Shape_prod {A B} {WA : Shape A} {WB : Shape B} : Shape (A * B) :=
  fun x => shape (fst x) /\ shape (snd x).
#[export] Instance Shape_sum {A B} {WA : Shape A} {WB : Shape B} : Shape (A + B) :=
  fun x => match x with inl a => shape a | inr b => shape b end.
#[export] Instance Shape_bool : Shape bool := fun _ => True.
#[export] Instance Shape_unit : Shape unit := fun _ => True.
#[export] Instance Shape_nat : Shape nat := fun _ => True.
#[export] Instance Shape_cu : Shape cu := fun _ => True.
#[export] Instance Shape_Token : Shape Token := fun _ => True.
#[export] Instance Shape_cmpop : Shape cmpop := fun _ => True.
#[export] Instance Shape_alias : Shape alias := fun _ => True.
#[export] Instance Shape_typeparam : Shape typeparam := fun _ => True.

(** The methods reached through [self] return shaped values. *)
Record methods_give (self : Methods) : Prop := mkMethodsGive {
  give_parseExpr : gives shape (p_parseExpr self);
  give_parseTernary : gives shape (p_parseTernary self);
  give_parseNot : gives shape (p_parseNot self);
  give_parseComparison : gives shape (p_parseComparison self);
  give_parseFactor : gives shape (p_parseFactor self);
  give_parseTarget : gives shape (p_parseTarget self);
  give_parseNotTest : gives shape (p_parseNotTest self);
  give_parsePattern : gives shape (p_parsePattern self);
  give_parseStatement : gives shape (p_parseStatement self);
  give_parseElif : gives shape (p_parseElif self)
}.

(* ------------------------------------------------------------------ *)
(** *** The rules of [gives] *)

Lemma gives_ret {A} (Q : A -> Prop) (a : A) : Q a -> gives Q (ret a).
Proof. intros H p a' p' E. injection E as <- <-. exact H. Qed.

Lemma gives_throw {A} (Q : A -> Prop) (e : jsstring) : gives Q (throw e).
Proof. intros p a p' E. discriminate E. Qed.

Lemma gives_outOfFuel {A} (Q : A -> Prop) : gives Q outOfFuel.
Proof. intros p a p' E. discriminate E. Qed.

Lemma gives_any {A} (Q : A -> Prop) (m : M A) : (forall a, Q a) -> gives Q m.
Proof. intros H p a p' _. apply H. Qed.

Lemma gives_bind {A B} (Q1 : A -> Prop) (Q : B -> Prop) (m : M A) (k : A -> M B) :
  gives Q1 m -> (forall a, Q1 a -> gives Q (k a)) -> gives Q (bind m k).
Proof.
  intros Hm Hk p b p' E.
  apply bind_Ok in E. destruct E as (a & p1 & E1 & E2).
  exact (Hk a (Hm p a p1 E1) p1 b p' E2).
Qed.

Lemma gives_bind_shape {A B} {W : Shape A} (Q : B -> Prop) (m : M A) (k : A -> M B) :
  gives shape m -> (forall a, shape a -> gives Q (k a)) -> gives Q (bind m k).
Proof. apply gives_bind. Qed.

Lemma gives_weaken {A} (Q Q' : A -> Prop) (m : M A) :
  gives Q m -> (forall a, Q a -> Q' a) -> gives Q' m.
Proof. intros Hm HQ p a p' E. apply HQ. exact (Hm p a p' E). Qed.

Lemma gives_loop_inv {S A} (V : S -> Prop) (Q : A -> Prop)
      (fuel : nat) (body : S -> M (S + A)) :
  (forall s, V s ->
             gives (fun r => match r with inl s' => V s' | inr a => Q a end) (body s)) ->
  forall s, V s -> gives Q (loop fuel body s).
Proof.
  intros Hbody. induction fuel as [|fuel IH]; intros s Hs; cbn [loop].
  - apply gives_outOfFuel.
  - eapply gives_bind; [apply Hbody; exact Hs|].
    intros [s'|a] Hr.
    + apply IH. exact Hr.
    + apply gives_ret. exact Hr.
Qed.

Lemma gives_loop {S A} {WS : Shape S} (Q : A -> Prop)
      (fuel : nat) (body : S -> M (S + A)) (s : S) :
  (forall s, shape s ->
             gives (fun r => match r with inl s' => shape s' | inr a => Q a end) (body s)) ->
  shape s -> gives Q (loop fuel body s).
Proof. intros Hbody Hs. exact (gives_loop_inv shape Q fuel body Hbody s Hs). Qed.

Lemma gives_while_inv {S} (V : S -> Prop) (fuel : nat)
      (cond : M bool) (body : S -> M S) (s : S) :
  (forall s, V s -> gives V (body s)) -> V s -> gives V (while fuel cond body s).
Proof.
  intros Hbody Hs. unfold while. apply (gives_loop_inv V V); [|exact Hs].
  intros s0 Hs0. eapply gives_bind; [apply (gives_any (fun _ => True)); trivial|].
  intros [|] _.
  - eapply gives_bind; [apply Hbody; exact Hs0|].
    intros s' Hs'. apply gives_ret. exact Hs'.
  - apply gives_ret. exact Hs0.
Qed.

Lemma gives_while {S} {WS : Shape S} (fuel : nat)
      (cond : M bool) (body : S -> M S) (s : S) :
  (forall s, shape s -> gives shape (body s)) ->
  shape s -> gives shape (while fuel cond body s).
Proof. apply gives_while_inv. Qed.

(** *** Tests that leave the parser as it is *)

(** [t] returns without a change of the parser. *)
Definition pure (t : M bool) : Prop :=
  forall p, exists b, t p = Ok (b, p).

Lemma pure_match (type : TokenType) (value : option jsstring) : pure (match_ type value).
Proof. intros p. eexists. reflexivity. Qed.

Lemma pure_matchOp (value : string) : pure (matchOp value).
Proof. apply pure_match. Qed.

Lemma pure_matchType (type : TokenType) : pure (matchType type).
Proof. apply pure_match. Qed.

Lemma pure_matchKeyword (keyword : string) : pure (matchKeyword keyword).
Proof. intros p. eexists. reflexivity. Qed.

Lemma pure_notM (a : M bool) : pure a -> pure (notM a).
Proof.
  intros Ha p. destruct (Ha p) as [b E]. exists (negb b).
  unfold notM, bind. rewrite E. reflexivity.
Qed.

Lemma pure_orM (a b : M bool) : pure a -> pure b -> pure (orM a b).
Proof.
  intros Ha Hb p. destruct (Ha p) as [x E]. unfold orM, bind. rewrite E.
  destruct x; [eexists; reflexivity|apply Hb].
Qed.

Lemma pure_andM (a b : M bool) : pure a -> pure b -> pure (andM a b).
Proof.
  intros Ha Hb p. destruct (Ha p) as [x E]. unfold andM, bind. rewrite E.
  destruct x; [apply Hb|eexists; reflexivity].
Qed.

Create HintDb pure_db.
#[export] Hint Resolve pure_match pure_matchOp pure_matchType pure_matchKeyword
  pure_notM pure_orM pure_andM : pure_db.

(** [m], run in a parser of which [Pre] holds, returns only values of which
    [Q] holds. *)
Definition givesIn {A} (Pre : Parser -> Prop) (Q : A -> Prop) (m : M A) : Prop :=
  forall p a p', Pre p -> m p = Ok (a, p') -> Q a.

Lemma gives_givesIn {A} (Pre : Parser -> Prop) (Q : A -> Prop) (m : M A) :
  gives Q m -> givesIn Pre Q m.
Proof. intros H p a p' _. apply H. Qed.

Lemma givesIn_gives {A} (Q : A -> Prop) (m : M A) :
  givesIn (fun _ => True) Q m -> gives Q m.
Proof. intros H p a p' E. exact (H p a p' I E). Qed.

(** The rule for a test that leaves the parser as it is: each branch runs
    in a parser for which the test has the answer of the branch. *)
Lemma givesIn_test {A} (Pre : Parser -> Prop) (Q : A -> Prop)
      (t : M bool) (a b : M A) :
  pure t ->
  givesIn (fun p => Pre p /\ t p = Ok (true, p)) Q a ->
  givesIn (fun p => Pre p /\ t p = Ok (false, p)) Q b ->
  givesIn Pre Q (IFM t THEN a ELSE b).
Proof.
  intros Ht Ha Hb p x p' Hp E. unfold bind in E.
  destruct (Ht p) as [c Ec]. rewrite Ec in E. destruct c.
  - exact (Ha p x p' (conj Hp Ec) E).
  - exact (Hb p x p' (conj Hp Ec) E).
Qed.

Lemma givesIn_bind {A B} (Pre : Parser -> Prop) (Q1 : A -> Prop) (Q : B -> Prop)
      (m : M A) (k : A -> M B) :
  givesIn Pre Q1 m -> (forall a, Q1 a -> gives Q (k a)) -> givesIn Pre Q (bind m k).
Proof.
  intros Hm Hk p b p' Hp E.
  apply bind_Ok in E. destruct E as (a & p1 & E1 & E2).
  exact (Hk a (Hm p a p1 Hp E1) p1 b p' E2).
Qed.

(** A loop that is entered: when the test holds in the parser at hand, the
    body runs at least once. *)
Lemma givesIn_while_entered {S} (Pre : Parser -> Prop) (V V1 : S -> Prop)
      (fuel : nat) (cond : M bool) (body : S -> M S) (s : S) :
  (forall p, Pre p -> cond p = Ok (true, p)) ->
  (forall s, V s -> gives V1 (body s)) ->
  (forall s, V1 s -> V s) ->
  V s -> givesIn Pre V1 (while fuel cond body s).
Proof.
  intros Hc Hbody HV Hs p a p' Hp E.
  destruct fuel as [|fuel]; [discriminate E|].
  unfold while in E. cbn [loop] in E. fold (while fuel cond body) in E.
  unfold bind at 1 in E. unfold bind at 1 in E. rewrite (Hc p Hp) in E.
  apply bind_Ok in E. destruct E as (r & p1 & E1 & E2).
  apply bind_Ok in E1. destruct E1 as (s' & p2 & E3 & E4).
  injection E4 as <- <-.
  assert (Hs' : V1 s') by exact (Hbody s Hs p s' p2 E3).
  refine (gives_loop_inv V1 V1 fuel _ _ s' Hs' p2 a p' E2).
  intros s0 Hs0. eapply gives_bind; [apply (gives_any (fun _ => True)); trivial|].
  intros [|] _.
  - eapply gives_bind; [apply Hbody; apply HV; exact Hs0|].
    intros s1 Hs1. apply gives_ret. exact Hs1.
  - apply gives_ret. exact Hs0.
Qed.

(** A loop behind the test that it repeats: [if (c) { while (c) ... }]. *)
Lemma guarded_while {S B} (V V1 : S -> Prop) (Q : B -> Prop) (fuel : nat)
      (cond : M bool) (body : S -> M S) (s : S) (k : S -> M B) (b : M B) :
  pure cond -> V s ->
  (forall s, V s -> gives V1 (body s)) ->
  (forall s, V1 s -> V s) ->
  (forall x, V1 x -> gives Q (k x)) ->
  gives Q b ->
  gives Q (IFM cond THEN (x <- while fuel cond body s ;; k x) ELSE b).
Proof.
  intros Hc Hs Hbody HV Hk Hb. apply givesIn_gives.
  apply givesIn_test; [exact Hc| |apply gives_givesIn; exact Hb].
  eapply givesIn_bind; [|exact Hk].
  eapply givesIn_while_entered; [|exact Hbody|exact HV|exact Hs].
  intros p [_ E]. exact E.
Qed.

(* ------------------------------------------------------------------ *)
(** *** Solving the shapes *)

Create HintDb shape_db.

Lemma shape_jsstring (s : jsstring) : shape s.
Proof. apply All_True. Qed.

Lemma All_both_l {A} (P Q : A -> Prop) (l : list A) :
  All (fun x => P x /\ Q x) l -> All P l.
Proof. apply All_impl. tauto. Qed.

Lemma All_both_r {A} (P Q : A -> Prop) (l : list A) :
  All (fun x => P x /\ Q x) l -> All Q l.
Proof. apply All_impl. tauto. Qed.

Lemma generators_shape (generators : list comprehension) :
  All (fun g => every_comprehension exprShape g /\ asyncFlag g <= 1) generators ->
  1 <= length generators -> generatorsShape generators.
Proof. intros H Hl. split; [exact Hl|]. revert H. apply All_both_r. Qed.

Lemma AllOpt_True {A} (o : option A) : AllOpt (fun _ => True) o.
Proof. destruct o; exact I. Qed.

Lemma generators_every (generators : list comprehension) :
  All (fun g => every_comprehension exprShape g /\ asyncFlag g <= 1) generators ->
  All (every_comprehension exprShape) generators.
Proof. apply All_both_l. Qed.

Lemma patterns_every (patterns : list pattern) :
  All (fun p => every_pattern exprShape p /\ patternShape p) patterns ->
  All (every_pattern exprShape) patterns.
Proof. apply All_both_l. Qed.

Lemma patterns_shape (patterns : list pattern) :
  All (fun p => every_pattern exprShape p /\ patternShape p) patterns ->
  All patternShape patterns.
Proof. apply All_both_r. Qed.

Lemma cases_every (cases : list match_case) :
  All (fun c => every_match_case stmtShape exprShape c
                /\ patternShape (casePattern c)) cases ->
  All (every_match_case stmtShape exprShape) cases.
Proof. apply All_both_l. Qed.

Lemma cases_shape (cases : list match_case) :
  All (fun c => every_match_case stmtShape exprShape c
                /\ patternShape (casePattern c)) cases ->
  All (fun c => patternShape (casePattern c)) cases.
Proof. apply All_both_r. Qed.

#[export] Hint Resolve All_snoc All_removelast shape_jsstring AllOpt_True generators_shape
  generators_every patterns_every patterns_shape cases_every cases_shape
  : shape_db.

(** Unfolding the shape of a type down to the shapes of its parts. *)
Ltac sh_unfold :=
  cbv [shape Shape_expr Shape_arguments Shape_arg Shape_keyword
       Shape_comprehension Shape_pattern Shape_withitem Shape_stmt
       Shape_match_case Shape_excepthandler Shape_ModuleNode Shape_ArgsState
       Shape_list Shape_option Shape_prod Shape_sum Shape_bool Shape_unit
       Shape_nat Shape_cu Shape_Token Shape_cmpop Shape_alias Shape_typeparam
       every_withitem] in *;
  cbn [every_expr every_arguments every_arg every_keyword every_comprehension
       every_pattern every_withitem every_stmt every_match_case
       every_excepthandler exprShape stmtShape patternShape casePattern
       asyncFlag All AllOpt fst snd context_expr optional_vars body] in *.

(** Lengths of the lists that the methods build. *)
Ltac sh_lengths :=
  unfold generatorsShape, argsShape in *;
  repeat match goal with
         | H : _ /\ _ |- _ => destruct H
         end;
  rewrite ?length_app in *; cbn [length] in *;
  first [ lia | discriminate | congruence ].

Ltac sh_solve :=
  sh_unfold;
  repeat match goal with
         | H : _ /\ _ |- _ => destruct H
         end;
  repeat first
    [ assumption
    | exact I
    | apply All_True
    | apply AllOpt_True
    | solve [eauto with shape_db]
    | match goal with
      | |- _ /\ _ => split
      end
    | apply All_snoc
    | apply All_removelast
    | apply All_last
    | progress sh_unfold
    | solve [sh_lengths] ].

(** One step through the text of a method. *)
Ltac sh_step :=
  cbv beta;
  lazymatch goal with
  | |- gives _ (ret _) => apply gives_ret; sh_solve
  | |- gives _ (throw _) => apply gives_throw
  | |- gives _ outOfFuel => apply gives_outOfFuel
  | |- gives _ (bind _ _) =>
      apply gives_bind_shape; [| let a := fresh "a" in let Ha := fresh "Ha" in intros a Ha]
  | |- gives _ (loop _ _ _) =>
      apply gives_loop;
      [ let s := fresh "s" in let Hs := fresh "Hs" in intros s Hs | sh_solve ]
  | |- gives _ (while _ _ _ _) =>
      eapply gives_weaken;
      [ apply gives_while;
        [ let s := fresh "s" in let Hs := fresh "Hs" in intros s Hs | sh_solve ]
      | intros; sh_solve ]
  | |- gives _ (match ?x with _ => _ end) => destruct x
  | |- gives _ (if ?c then _ else _) => destruct c
  | |- gives _ (let _ := _ in _) => cbv zeta
  | |- gives _ _ =>
      first [ solve [eauto 30 with shape_db]
            | solve [apply gives_any; intros; sh_solve]
            | eapply gives_weaken; [solve [eauto 30 with shape_db] | intros; sh_solve] ]
  end.

Ltac sh_auto := repeat sh_step.

#[export] Hint Extern 5 (shape _) => solve [sh_solve] : shape_db.

(** The methods reached through [self]. *)
Ltac use_gives H :=
  pose proof (give_parseExpr _ H);
  pose proof (give_parseTernary _ H);
  pose proof (give_parseNot _ H);
  pose proof (give_parseComparison _ H);
  pose proof (give_parseFactor _ H);
  pose proof (give_parseTarget _ H);
  pose proof (give_parseNotTest _ H);
  pose proof (give_parsePattern _ H);
  pose proof (give_parseStatement _ H);
  pose proof (give_parseElif _ H).

(* ------------------------------------------------------------------ *)
(** *** Expressions *)

Lemma conversionField_shape (str : jsstring) (i : nat) :
  conversionShape (f_conversion (conversionField str i)).
Proof.
  unfold conversionField, conversionShape. cbv zeta.
  destruct (isCh (ch ":") _); cbn [f_conversion];
    repeat match goal with
           | |- context [if ?c then _ else _] => destruct c
           end; tauto.
Qed.

Lemma field_loop_shape (str : jsstring) : forall rest i braceDepth,
  conversionShape (f_conversion (field_loop str rest i braceDepth)).
Proof.
  induction rest as [|x rest IH]; intros i braceDepth; cbn [field_loop].
  - left. reflexivity.
  - repeat match goal with
           | |- context [if ?c then _ else _] => destruct c
           end;
      try apply IH; try apply conversionField_shape; left; reflexivity.
Qed.

Section Shapes.
Variable fuel : nat.
Variable self : Methods.
Hypothesis Hself : methods_give self.

Lemma parseNested_gives (exprStr : jsstring) : gives shape (parseNested self exprStr).
Proof.
  intros p a p'. unfold parseNested.
  destruct (newParser exprStr) as [q| |] eqn:Eq; try discriminate.
  destruct (p_parseExpr self q) as [[e q']| |] eqn:E; try discriminate.
  intros H. injection H as <- <-.
  exact (give_parseExpr self Hself q e q' E).
Qed.
Hint Resolve parseNested_gives : shape_db.

Lemma shape_chunkWith (str : jsstring) (textStart i : nat) (brace : cu) :
  every_expr exprShape (chunkWith str textStart i brace).
Proof. unfold chunkWith. destruct (textStart <? i); sh_solve. Qed.
Hint Resolve shape_chunkWith : shape_db.

Lemma shape_formatted (e : expr) (f : Field) :
  conversionShape (f_conversion f) ->
  every_expr exprShape e ->
  every_expr exprShape
    (FormattedValue e (f_conversion f)
       (match f_formatSpec f with
        | Some spec =>
            if Transform.isEmpty spec then None
            else Some (JoinedStr [Constant (CStr spec)])
        | None => None
        end)).
Proof.
  intros Hc He. cbn [every_expr exprShape].
  destruct (f_formatSpec f) as [[|c spec]|]; cbn; repeat split;
    try assumption; try lia; discriminate.
Qed.
Hint Resolve shape_formatted field_loop_shape : shape_db.

Lemma parseFStringValue_gives (raw : jsstring) :
  gives shape (parseFStringValue fuel self raw).
Proof.
  unfold parseFStringValue. cbv zeta. sh_step.
  - sh_auto.
    all: repeat match goal with
                | |- context [if (?x <? ?y) then _ else _] => destruct (x <? y)
                end; sh_solve.
  - destruct a as [textStart values]. apply gives_ret.
    sh_unfold. destruct Ha as [_ Ha]. split.
    + destruct values as [|v values]; destruct (textStart <? _); cbn; lia.
    + apply All_or_default; [|sh_solve].
      destruct (textStart <? _); sh_solve.
Qed.
Hint Resolve parseFStringValue_gives : shape_db.

Lemma parseStringLiteral_gives : gives shape (parseStringLiteral fuel self).
Proof. unfold parseStringLiteral. sh_auto. Qed.
Hint Resolve parseStringLiteral_gives : shape_db.

Lemma parseSliceItem_gives : gives shape (parseSliceItem self).
Proof. use_gives Hself. unfold parseSliceItem. sh_auto. Qed.
Hint Resolve parseSliceItem_gives : shape_db.

Lemma parseSubscriptSlice_gives : gives shape (parseSubscriptSlice fuel self).
Proof. unfold parseSubscriptSlice. sh_auto. Qed.
Hint Resolve parseSubscriptSlice_gives : shape_db.

Lemma parseSubscript_gives (value : expr) :
  shape value -> gives shape (parseSubscript fuel self value).
Proof. intros Hv. unfold parseSubscript. sh_auto. Qed.
Hint Resolve parseSubscript_gives : shape_db.

Lemma parseCall_gives (func : expr) :
  shape func -> gives shape (parseCall fuel self func).
Proof. intros Hf. use_gives Hself. unfold parseCall. sh_auto. Qed.
Hint Resolve parseCall_gives : shape_db.

(** The parameters read so far keep the shape of a parameter list. *)
Lemma shape_emptyArgs :
  every_arguments exprShape (toArguments emptyArgs)
  /\ argsShape (toArguments emptyArgs).
Proof. cbv. intuition lia. Qed.

Lemma shape_pushParam (a : ArgsState) (x : arg) (default : option expr) :
  every_arguments exprShape (toArguments a) -> argsShape (toArguments a) ->
  every_arg exprShape x -> AllOpt (every_expr exprShape) default ->
  every_arguments exprShape (toArguments (pushParam a x default))
  /\ argsShape (toArguments (pushParam a x default)).
Proof.
  unfold pushParam, toArguments. cbn [every_arguments argsShape].
  intros (H1 & H2 & H3 & H4 & H5 & H6 & H7) (A1 & A2 & A3) Hx Hd.
  destruct (a_seenStar a); [|destruct default];
    cbn [a_args a_defaults a_kwonlyargs a_kw_defaults a_vararg a_kwarg];
    repeat split; try assumption; try (apply All_snoc; assumption);
    rewrite ?length_app; cbn [length]; lia.
Qed.

Lemma shape_setKwarg (a : ArgsState) (x : arg) :
  every_arguments exprShape (toArguments a) -> argsShape (toArguments a) ->
  every_arg exprShape x ->
  every_arguments exprShape (toArguments (setKwarg a x))
  /\ argsShape (toArguments (setKwarg a x)).
Proof.
  unfold setKwarg, toArguments. cbn [every_arguments argsShape].
  intros (H1 & H2 & H3 & H4 & H5 & H6 & H7) (A1 & A2 & A3) Hx.
  cbn [a_args a_defaults a_kwonlyargs a_kw_defaults a_vararg a_kwarg AllOpt].
  repeat split; assumption.
Qed.

Lemma shape_setStar (a : ArgsState) (x : option arg) :
  every_arguments exprShape (toArguments a) -> argsShape (toArguments a) ->
  AllOpt (every_arg exprShape) x ->
  every_arguments exprShape (toArguments (setStar a x))
  /\ argsShape (toArguments (setStar a x)).
Proof.
  unfold setStar, toArguments. cbn [every_arguments argsShape].
  intros (H1 & H2 & H3 & H4 & H5 & H6 & H7) (A1 & A2 & A3) Hx.
  cbn [a_args a_defaults a_kwonlyargs a_kw_defaults a_vararg a_kwarg].
  destruct x; repeat split; assumption.
Qed.

Hint Resolve shape_emptyArgs shape_pushParam shape_setKwarg shape_setStar : shape_db.

Lemma parseLambdaArgs_gives : gives shape (parseLambdaArgs fuel self).
Proof. use_gives Hself. unfold parseLambdaArgs. sh_auto. Qed.
Hint Resolve parseLambdaArgs_gives : shape_db.

Lemma parseLambda_gives : gives shape (parseLambda fuel self).
Proof. use_gives Hself. unfold parseLambda. sh_auto. Qed.
Hint Resolve parseLambda_gives : shape_db.

Lemma parseTargetElts_gives (close : string) :
  gives shape (parseTargetElts fuel self close).
Proof. use_gives Hself. unfold parseTargetElts. sh_auto. Qed.
Hint Resolve parseTargetElts_gives : shape_db.

Lemma parseTarget_gives : gives shape (parseTarget fuel self).
Proof. use_gives Hself. unfold parseTarget. sh_auto. Qed.
Hint Resolve parseTarget_gives : shape_db.

Lemma parseTargetList_gives : gives shape (parseTargetList fuel self).
Proof. unfold parseTargetList. sh_auto. Qed.
Hint Resolve parseTargetList_gives : shape_db.

Lemma parseNotTest_gives : gives shape (parseNotTest self).
Proof. use_gives Hself. unfold parseNotTest. sh_auto. Qed.
Hint Resolve parseNotTest_gives : shape_db.

(** The operands of [and] and [or]: the loop runs behind the test of its
    keyword, so there are at least two. *)
Lemma guarded_boolOperands {B} (Q : B -> Prop) (keyword : string)
      (operand : M expr) (lhs : expr) (k : list expr -> M B) (b : M B) :
  gives shape operand -> shape lhs ->
  (forall values, shape values -> 2 <= length values -> gives Q (k values)) ->
  gives Q b ->
  gives Q (IFM matchKeyword keyword
           THEN (values <- boolOperands fuel keyword operand lhs ;; k values)
           ELSE b).
Proof.
  intros Ho Hl Hk Hb. unfold boolOperands.
  apply (guarded_while (fun s : list expr => shape s /\ 1 <= length s)
                       (fun s : list expr => shape s /\ 2 <= length s)).
  - apply pure_matchKeyword.
  - split; [sh_solve|cbn; lia].
  - intros s [Hs Hlen]. sh_auto.
  - intros s [Hs Hlen]. split; [exact Hs|lia].
  - intros values [Hs Hlen]. apply Hk; assumption.
  - exact Hb.
Qed.

Lemma parseAndTest_gives : gives shape (parseAndTest fuel self).
Proof.
  unfold parseAndTest. sh_step; [sh_auto|].
  apply guarded_boolOperands; [sh_auto|exact Ha| |sh_auto].
  intros values Hv Hlen. sh_auto.
Qed.
Hint Resolve parseAndTest_gives : shape_db.

Lemma parseOrTest_gives : gives shape (parseOrTest fuel self).
Proof.
  unfold parseOrTest. sh_step; [sh_auto|].
  apply guarded_boolOperands; [sh_auto|exact Ha| |sh_auto].
  intros values Hv Hlen. sh_auto.
Qed.
Hint Resolve parseOrTest_gives : shape_db.

(** The clauses of a comprehension: the loop runs behind the test of its
    keywords, so there is at least one. *)
Lemma guarded_comprehension {B} (Q : B -> Prop)
      (k : list comprehension -> M B) (b : M B) :
  (forall generators, shape generators -> 1 <= length generators ->
                      gives Q (k generators)) ->
  gives Q b ->
  gives Q (IFM orM (matchKeyword "for") (matchKeyword "async")
           THEN (generators <- parseComprehensionClauses fuel self ;; k generators)
           ELSE b).
Proof.
  intros Hk Hb. unfold parseComprehensionClauses.
  apply (guarded_while (fun s : list comprehension => shape s)
                       (fun s : list comprehension => shape s /\ 1 <= length s)).
  - auto with pure_db.
  - exact I.
  - intros s Hs.
    eapply gives_bind with (Q1 := fun n : nat => n <= 1); [sh_auto|].
    intros isAsync Hflag. sh_auto.
  - intros s [Hs _]. exact Hs.
  - intros generators [Hs Hlen]. apply Hk; assumption.
  - exact Hb.
Qed.

Lemma parseDictItems_gives (keys : list (option expr)) (values : list expr) :
  shape keys -> shape values -> length keys = length values ->
  gives (fun r => shape r /\ length (fst r) = length (snd r))
        (parseDictItems fuel self keys values).
Proof.
  intros Hk Hv Hl. use_gives Hself. unfold parseDictItems.
  apply (gives_loop_inv
           (fun s : list (option expr) * list expr =>
              shape s /\ length (fst s) = length (snd s))).
  - intros [ks vs] [Hs Hlen]. cbn [fst snd] in Hlen. sh_auto.
  - split; [sh_solve|exact Hl].
Qed.

Lemma parseElts_gives (close : string) (first : expr) :
  shape first ->
  gives (fun elts => shape elts /\ 1 <= length elts)
        (parseElts fuel self close first).
Proof.
  intros Hf. use_gives Hself. unfold parseElts.
  apply (gives_loop_inv (fun s : list expr => shape s /\ 1 <= length s)).
  - intros s [Hs Hlen]. sh_auto.
  - split; [sh_solve|cbn; lia].
Qed.

(** The steps through a display or a comprehension. *)
Ltac sh_display :=
  repeat first
    [ apply guarded_comprehension;
      [ let g := fresh "generators" in
        let Hg := fresh "Hg" in
        let Hn := fresh "Hn" in
        intros g Hg Hn
      | ]
    | lazymatch goal with
      | |- gives _ (bind (parseDictItems _ _ _ _) _) =>
          eapply gives_bind;
          [ apply parseDictItems_gives; [sh_solve|sh_solve|reflexivity]
          | let ks := fresh "keys" in
            let vs := fresh "values" in
            let Hs := fresh "Hs" in
            let Hl := fresh "Hl" in
            intros [ks vs] [Hs Hl]; cbn [fst snd] in Hl ]
      | |- gives _ (bind (parseElts _ _ _ _) _) =>
          eapply gives_bind;
          [ apply parseElts_gives; sh_solve
          | let es := fresh "elts" in
            let Hs := fresh "Hs" in
            let Hl := fresh "Hl" in
            intros es [Hs Hl] ]
      end
    | sh_step ].

Lemma parseDictOrSet_gives : gives shape (parseDictOrSet fuel self).
Proof. use_gives Hself. unfold parseDictOrSet. sh_display. Qed.
Hint Resolve parseDictOrSet_gives : shape_db.

Lemma parsePrimary_gives : gives shape (parsePrimary fuel self).
Proof. use_gives Hself. unfold parsePrimary. sh_display. Qed.
Hint Resolve parsePrimary_gives : shape_db.

Lemma parseAtom_gives : gives shape (parseAtom fuel self).
Proof. unfold parseAtom. sh_auto. Qed.
Hint Resolve parseAtom_gives : shape_db.

Lemma parseAwait_gives : gives shape (parseAwait fuel self).
Proof. unfold parseAwait. sh_auto. Qed.
Hint Resolve parseAwait_gives : shape_db.

Lemma parsePower_gives : gives shape (parsePower fuel self).
Proof. use_gives Hself. unfold parsePower. sh_auto. Qed.
Hint Resolve parsePower_gives : shape_db.

Lemma parseFactor_gives : gives shape (parseFactor fuel self).
Proof. use_gives Hself. unfold parseFactor. sh_auto. Qed.
Hint Resolve parseFactor_gives : shape_db.

Lemma binaryChain_gives (operators : list (string * operator)) (operand : M expr) :
  gives shape operand -> gives shape (binaryChain fuel operators operand).
Proof. intros Ho. unfold binaryChain. sh_auto. Qed.
Hint Resolve binaryChain_gives : shape_db.

Lemma parseBitOr_gives : gives shape (parseBitOr fuel self).
Proof.
  unfold parseBitOr, parseBitXor, parseBitAnd, parseShift, parseArith, parseTerm.
  auto 10 with shape_db.
Qed.
Hint Resolve parseBitOr_gives : shape_db.

Lemma parseComparison_gives : gives shape (parseComparison fuel self).
Proof. unfold parseComparison. sh_auto. Qed.
Hint Resolve parseComparison_gives : shape_db.

Lemma parseNot_gives : gives shape (parseNot fuel self).
Proof. use_gives Hself. unfold parseNot. sh_auto. Qed.
Hint Resolve parseNot_gives : shape_db.

Lemma parseAnd_gives : gives shape (parseAnd fuel self).
Proof.
  unfold parseAnd. sh_step; [sh_auto|].
  apply guarded_boolOperands; [sh_auto|exact Ha| |sh_auto].
  intros values Hv Hlen. sh_auto.
Qed.
Hint Resolve parseAnd_gives : shape_db.

Lemma parseOr_gives : gives shape (parseOr fuel self).
Proof.
  unfold parseOr. sh_step; [sh_auto|].
  apply guarded_boolOperands; [sh_auto|exact Ha| |sh_auto].
  intros values Hv Hlen. sh_auto.
Qed.
Hint Resolve parseOr_gives : shape_db.

Lemma parseTernary_gives : gives shape (parseTernary fuel self).
Proof. use_gives Hself. unfold parseTernary. sh_auto. Qed.
Hint Resolve parseTernary_gives : shape_db.

Lemma parseNamedExpr_gives : gives shape (parseNamedExpr fuel self).
Proof. use_gives Hself. unfold parseNamedExpr. sh_auto. Qed.
Hint Resolve parseNamedExpr_gives : shape_db.

Lemma parseExpr_gives : gives shape (parseExpr fuel self).
Proof. unfold parseExpr. apply parseNamedExpr_gives. Qed.
Hint Resolve parseExpr_gives : shape_db.

(* ---------------------------------------------------------------- *)
(** *** Statements *)

Lemma parseDottedName_gives : gives shape (parseDottedName fuel).
Proof. apply gives_any. intros a. apply shape_jsstring. Qed.
Hint Resolve parseDottedName_gives : shape_db.

Lemma parseAsName_gives : gives shape parseAsName.
Proof. unfold parseAsName. sh_auto. Qed.
Hint Resolve parseAsName_gives : shape_db.

(** The loop of [parseImport] ends behind a name. *)
Lemma parseImport_gives : gives shape (parseImport fuel).
Proof.
  unfold parseImport. sh_step; [sh_auto|].
  eapply gives_bind with (Q1 := fun names : list alias => 1 <= length names).
  - apply (gives_loop_inv (fun _ : list alias => True)); [|exact I].
    intros names _. sh_auto.
  - intros names Hn. sh_auto.
Qed.
Hint Resolve parseImport_gives : shape_db.

Lemma parseFromImport_gives : gives shape (parseFromImport fuel).
Proof.
  unfold parseFromImport.
  repeat (eapply gives_bind;
          [apply (gives_any (fun _ => True)); trivial | intros ? _]).
  apply gives_ret. sh_solve.
Qed.
Hint Resolve parseFromImport_gives : shape_db.

Lemma parseTypeParams_gives : gives shape (parseTypeParams fuel).
Proof. unfold parseTypeParams. sh_auto. Qed.
Hint Resolve parseTypeParams_gives : shape_db.

Lemma optionalTypeParams_shape (typeParams : list typeparam) :
  optionalTypeParams typeParams <> Some [].
Proof. destruct typeParams; discriminate. Qed.
Hint Resolve optionalTypeParams_shape : shape_db.

Lemma parseAnnotation_gives : gives shape (parseAnnotation fuel self).
Proof. unfold parseAnnotation. sh_auto. Qed.
Hint Resolve parseAnnotation_gives : shape_db.

Lemma parseArguments_gives : gives shape (parseArguments fuel self).
Proof. unfold parseArguments. sh_auto. Qed.
Hint Resolve parseArguments_gives : shape_db.

(* ---------------------------------------------------------------- *)
(** *** Patterns *)

Lemma parsePatternElts_gives (close : string) :
  gives shape (parsePatternElts fuel self close).
Proof. use_gives Hself. unfold parsePatternElts. sh_auto. Qed.
Hint Resolve parsePatternElts_gives : shape_db.

Lemma pure_current (f : Token -> bool) : pure (tok <- current ;; ret (f tok)).
Proof. intros p. eexists. reflexivity. Qed.
Hint Resolve pure_current : pure_db.

(** The current token is not both a name and not a name. *)
Lemma keyword_not_name (keyword : string) (p : Parser) :
  matchType NAME p = Ok (false, p) -> matchKeyword keyword p = Ok (true, p) -> False.
Proof.
  unfold matchType, match_, matchKeyword, tokenIs. intros H1 H2.
  injection H1 as H1. injection H2 as H2.
  destruct (TokenType_eqb (tok_type (currentToken p)) NAME); discriminate.
Qed.

(** The entries of a mapping pattern: a key and a pattern together. *)
Definition mappingShape (s : list expr * list pattern * option jsstring) : Prop :=
  shape (fst (fst s)) /\ shape (snd (fst s))
  /\ length (fst (fst s)) = length (snd (fst s)).

(** The arguments of a class pattern: a keyword name and a pattern
    together. *)
Definition classShape (s : list pattern * list jsstring * list pattern) : Prop :=
  shape (fst (fst s)) /\ shape (snd s)
  /\ length (snd (fst s)) = length (snd s).

Lemma parsePrimaryPattern_gives : gives shape (parsePrimaryPattern fuel self).
Proof.
  use_gives Hself. unfold parsePrimaryPattern. apply givesIn_gives.
  apply givesIn_test; [auto with pure_db|apply gives_givesIn; sh_auto|].
  apply givesIn_test; [auto with pure_db|apply gives_givesIn; sh_auto|].
  apply givesIn_test; [auto with pure_db|apply gives_givesIn; sh_auto|].
  apply givesIn_test; [auto with pure_db|apply gives_givesIn|].
  { sh_step; [sh_auto|].
    eapply gives_bind with (Q1 := mappingShape).
    - apply (gives_loop_inv mappingShape).
      + intros [[keys patterns] rest] (Hk & Hp & Hl). cbn [fst snd] in Hk, Hp, Hl.
        unfold mappingShape. sh_auto.
      + unfold mappingShape. cbn. tauto.
    - intros [[keys patterns] rest] (Hk & Hp & Hl). cbn [fst snd] in Hk, Hp, Hl.
      sh_auto. }
  apply givesIn_test; [auto with pure_db|apply gives_givesIn|].
  { sh_step; [sh_auto|]. sh_step; [sh_auto|]. sh_step.
    - sh_step; [sh_auto|].
      eapply gives_bind with (Q1 := classShape).
      + apply (gives_loop_inv classShape).
        * intros [[patterns kwdAttrs] kwdPatterns] (Hp & Hk & Hl).
          cbn [fst snd] in Hp, Hk, Hl. unfold classShape. sh_auto.
        * unfold classShape. cbn. tauto.
      + intros [[patterns kwdAttrs] kwdPatterns] (Hp & Hk & Hl).
        cbn [fst snd] in Hp, Hk, Hl. sh_auto.
    - sh_auto. }
  apply givesIn_test; [auto with pure_db|apply gives_givesIn; sh_auto|].
  apply givesIn_test; [auto with pure_db| |].
  { intros p a p' [[[_ Hname] _] Hkw] _. destruct (keyword_not_name _ p Hname Hkw). }
  apply givesIn_test; [auto with pure_db| |].
  { intros p a p' [[[[_ Hname] _] _] Hkw] _. destruct (keyword_not_name _ p Hname Hkw). }
  apply givesIn_test; [auto with pure_db| |].
  { intros p a p' [[[[[_ Hname] _] _] _] Hkw] _.
    destruct (keyword_not_name _ p Hname Hkw). }
  apply gives_givesIn. sh_auto.
Qed.
Hint Resolve parsePrimaryPattern_gives : shape_db.

Lemma parseAsPattern_gives : gives shape (parseAsPattern fuel self).
Proof. unfold parseAsPattern. sh_auto. Qed.
Hint Resolve parseAsPattern_gives : shape_db.

(** The alternatives of an or-pattern: the loop runs behind the test of the
    bar, so there are at least two. *)
Lemma parseOrPattern_gives : gives shape (parseOrPattern fuel self).
Proof.
  unfold parseOrPattern. sh_step; [sh_auto|].
  apply (guarded_while (fun s : list pattern => shape s /\ 1 <= length s)
                       (fun s : list pattern => shape s /\ 2 <= length s)).
  - auto with pure_db.
  - split; [sh_solve|cbn; lia].
  - intros s [Hs Hlen]. sh_auto.
  - intros s [Hs Hlen]. split; [exact Hs|lia].
  - intros patterns [Hs Hlen]. sh_auto.
  - sh_auto.
Qed.
Hint Resolve parseOrPattern_gives : shape_db.

Lemma parsePattern_gives : gives shape (parsePattern fuel self).
Proof. unfold parsePattern. apply parseOrPattern_gives. Qed.
Hint Resolve parsePattern_gives : shape_db.

(* ---------------------------------------------------------------- *)
(** *** Simple statements *)

Lemma parseReturn_gives : gives shape (parseReturn fuel self).
Proof. unfold parseReturn. sh_auto. Qed.
Hint Resolve parseReturn_gives : shape_db.

Lemma parseRaise_gives : gives shape (parseRaise fuel self).
Proof. unfold parseRaise. sh_auto. Qed.
Hint Resolve parseRaise_gives : shape_db.

(** A list read by [do ... while]: at least one item. *)
Lemma commaSeparated_gives {A} {W : Shape A} (item : M A) :
  gives shape item ->
  gives (fun items => shape items /\ 1 <= length items) (commaSeparated fuel item).
Proof.
  intros Hi. unfold commaSeparated.
  apply (gives_loop_inv (fun s : list A => shape s)); [|exact I].
  intros items Hs. sh_auto.
Qed.

Lemma parseGlobal_gives : gives shape (parseGlobal fuel).
Proof.
  unfold parseGlobal. sh_step; [sh_auto|].
  eapply gives_bind; [apply commaSeparated_gives; sh_auto|].
  intros names [Hs Hl]. sh_auto.
Qed.
Hint Resolve parseGlobal_gives : shape_db.

Lemma parseNonlocal_gives : gives shape (parseNonlocal fuel).
Proof.
  unfold parseNonlocal. sh_step; [sh_auto|].
  eapply gives_bind; [apply commaSeparated_gives; sh_auto|].
  intros names [Hs Hl]. sh_auto.
Qed.
Hint Resolve parseNonlocal_gives : shape_db.

Lemma parseAssert_gives : gives shape (parseAssert fuel self).
Proof. unfold parseAssert. sh_auto. Qed.
Hint Resolve parseAssert_gives : shape_db.

Lemma parseDelete_gives : gives shape (parseDelete fuel self).
Proof.
  unfold parseDelete. sh_step; [sh_auto|].
  eapply gives_bind; [apply commaSeparated_gives; sh_auto|].
  intros targets [Hs Hl]. sh_auto.
Qed.
Hint Resolve parseDelete_gives : shape_db.

Lemma parseTypeAlias_gives : gives shape (parseTypeAlias fuel self).
Proof. unfold parseTypeAlias. sh_auto. Qed.
Hint Resolve parseTypeAlias_gives : shape_db.

Lemma parseExprList_gives : gives shape (parseExprList fuel self).
Proof. unfold parseExprList. sh_auto. Qed.
Hint Resolve parseExprList_gives : shape_db.

Lemma length_removelast_le {A} (l : list A) :
  2 <= length l -> 1 <= length (removelast l).
Proof.
  destruct l as [|x [|y l]]; cbn [length]; try lia.
  intros _. cbn [removelast]. destruct l; cbn [length]; lia.
Qed.

(** The targets of an assignment: the loop runs behind the test of the
    equals sign, so the list holds a target and the value at least. *)
Lemma parseExpressionStatement_gives :
  gives shape (parseExpressionStatement fuel self).
Proof.
  unfold parseExpressionStatement. sh_step; [sh_auto|].
  sh_step; [sh_auto|]. sh_step; [sh_auto|].
  sh_step; [sh_auto|]. sh_step; [sh_auto|].
  apply (guarded_while (fun s : list expr => shape s /\ 1 <= length s)
                       (fun s : list expr => shape s /\ 2 <= length s)).
  - auto with pure_db.
  - split; [sh_solve|cbn; lia].
  - intros s [Hs Hlen]. sh_auto.
  - intros s [Hs Hlen]. split; [exact Hs|lia].
  - intros targets [Hs Hlen]. apply gives_ret.
    pose proof (length_removelast_le targets Hlen). sh_solve.
  - sh_auto.
Qed.
Hint Resolve parseExpressionStatement_gives : shape_db.

Lemma parseSimpleStatement_gives : gives shape (parseSimpleStatement fuel self).
Proof. unfold parseSimpleStatement. sh_auto. Qed.
Hint Resolve parseSimpleStatement_gives : shape_db.

(* ---------------------------------------------------------------- *)
(** *** Compound statements *)

Lemma parseSuite_gives : gives shape (parseSuite fuel self).
Proof. use_gives Hself. unfold parseSuite. sh_auto. Qed.
Hint Resolve parseSuite_gives : shape_db.

Lemma parseFunctionDef_gives (isAsync : bool) :
  gives shape (parseFunctionDef fuel self isAsync).
Proof. unfold parseFunctionDef. destruct isAsync; sh_auto. Qed.
Hint Resolve parseFunctionDef_gives : shape_db.

Lemma parseClassDef_gives : gives shape (parseClassDef fuel self).
Proof. unfold parseClassDef. sh_auto. Qed.
Hint Resolve parseClassDef_gives : shape_db.

Lemma parseOrelse_gives : gives shape (parseOrelse fuel self).
Proof. unfold parseOrelse. sh_auto. Qed.
Hint Resolve parseOrelse_gives : shape_db.

Lemma parseIfBody_gives : gives shape (parseIfBody fuel self).
Proof. use_gives Hself. unfold parseIfBody. sh_auto. Qed.
Hint Resolve parseIfBody_gives : shape_db.

Lemma parseElif_gives : gives shape (parseElif fuel self).
Proof. unfold parseElif. apply parseIfBody_gives. Qed.

Lemma parseIf_gives : gives shape (parseIf fuel self).
Proof. unfold parseIf. apply parseIfBody_gives. Qed.
Hint Resolve parseIf_gives : shape_db.

Lemma parseFor_gives (isAsync : bool) : gives shape (parseFor fuel self isAsync).
Proof. unfold parseFor. destruct isAsync; sh_auto. Qed.
Hint Resolve parseFor_gives : shape_db.

Lemma parseWhile_gives : gives shape (parseWhile fuel self).
Proof. unfold parseWhile. sh_auto. Qed.
Hint Resolve parseWhile_gives : shape_db.

Lemma parseWith_gives (isAsync : bool) : gives shape (parseWith fuel self isAsync).
Proof.
  unfold parseWith. sh_step; [sh_auto|].
  eapply gives_bind; [apply commaSeparated_gives; sh_auto|].
  intros items [Hs Hl]. destruct isAsync; sh_auto.
Qed.
Hint Resolve parseWith_gives : shape_db.

Lemma parseMatchCase_gives : gives shape (parseMatchCase fuel self).
Proof. unfold parseMatchCase. sh_auto. Qed.
Hint Resolve parseMatchCase_gives : shape_db.

Lemma parseMatch_gives : gives shape (parseMatch fuel self).
Proof. unfold parseMatch. sh_auto. Qed.
Hint Resolve parseMatch_gives : shape_db.

Lemma parseExceptHandler_gives : gives shape (parseExceptHandler fuel self).
Proof. unfold parseExceptHandler. sh_auto. Qed.
Hint Resolve parseExceptHandler_gives : shape_db.

Lemma parseTry_gives : gives shape (parseTry fuel self).
Proof. unfold parseTry. sh_auto. Qed.
Hint Resolve parseTry_gives : shape_db.

Lemma shape_setDecorators (node : stmt) (decorators : list expr) :
  every_stmt stmtShape exprShape node ->
  All (every_expr exprShape) decorators ->
  every_stmt stmtShape exprShape (setDecorators node decorators).
Proof.
  intros Hn Hd. destruct node; cbn [setDecorators]; try exact Hn;
    cbn [every_stmt stmtShape] in *; tauto.
Qed.
Hint Resolve shape_setDecorators : shape_db.

Lemma parseDecorated_gives : gives shape (parseDecorated fuel self).
Proof. unfold parseDecorated. sh_auto. Qed.
Hint Resolve parseDecorated_gives : shape_db.

Lemma parseAsyncStatement_gives : gives shape (parseAsyncStatement fuel self).
Proof. unfold parseAsyncStatement. sh_auto. Qed.
Hint Resolve parseAsyncStatement_gives : shape_db.

Lemma parseStatement_gives : gives shape (parseStatement fuel self).
Proof. unfold parseStatement. sh_auto. Qed.
Hint Resolve parseStatement_gives : shape_db.

Lemma parseModule_gives : gives shape (parseModule fuel self).
Proof. unfold parseModule. sh_auto. Qed.

End Shapes.

(* ------------------------------------------------------------------ *)
(** *** The whole parser *)

Lemma methods_give_all (fuel : nat) : methods_give (methods fuel).
Proof.
  induction fuel as [|fuel IH].
  - constructor; apply gives_outOfFuel.
  - constructor;
      cbn [methods p_parseExpr p_parseTernary p_parseNot p_parseComparison
           p_parseFactor p_parseTarget p_parseNotTest p_parsePattern
           p_parseStatement p_parseElif].
    + apply parseExpr_gives; exact IH.
    + apply parseTernary_gives; exact IH.
    + apply parseNot_gives; exact IH.
    + apply parseComparison_gives; exact IH.
    + apply parseFactor_gives; exact IH.
    + apply parseTarget_gives; exact IH.
    + apply parseNotTest_gives; exact IH.
    + apply parsePattern_gives; exact IH.
    + apply parseStatement_gives; exact IH.
    + apply parseElif_gives; exact IH.
Qed.

Lemma runParser_gives {A} (src : jsstring) (Q : A -> Prop) (m : M A) (a : A) :
  gives Q m -> runParser m src = Ok a -> Q a.
Proof.
  intros Hm. unfold runParser.
  destruct (newParser src) as [p| |] eqn:E; try discriminate.
  destruct (m p) as [[a' p']| |] eqn:E2; try discriminate.
  intros H. injection H as <-. exact (Hm p a' p' E2).
Qed.

(** Every tree that [parse] returns, and every expression that
    [parseExpression] returns, has the shapes. *)
Lemma parse_shape (fuel : nat) (src : jsstring) (tree : ModuleNode) :
  parse fuel src = Ok tree -> All (every_stmt stmtShape exprShape) (body tree).
Proof.
  intros H.
  exact (runParser_gives src shape _ tree
           (parseModule_gives fuel _ (methods_give_all fuel)) H).
Qed.

Lemma parseExpression_shape (fuel : nat) (src : jsstring) (e : expr) :
  parseExpression fuel src = Ok e -> every_expr exprShape e.
Proof.
  intros H.
  exact (runParser_gives src shape _ e
           (parseExpr_gives fuel _ (methods_give_all fuel)) H).
Qed.

End ParserShapes.

(* ================================================================== *)
(** * The trees of the parser: what every node looks like *)

Module ParserExtras.
Import Ast Tokenizer Parser ParserProofs ParserShapes.

(** [R] holds of a pattern and of every pattern below it. *)
Fixpoint each_pattern (R : pattern -> Prop) (p : pattern) {struct p} : Prop :=
  R p /\
  match p with
  | MatchValue _ => True
  | MatchSingleton _ => True
  | MatchSequence patterns => All (each_pattern R) patterns
  | MatchMapping _ patterns _ => All (each_pattern R) patterns
  | MatchClass _ patterns _ kwd_patterns =>
      All (each_pattern R) patterns /\ All (each_pattern R) kwd_patterns
  | MatchStar _ => True
  | MatchAs pat _ => AllOpt (each_pattern R) pat
  | MatchOr patterns => All (each_pattern R) patterns
  end.

(** [R] holds of every pattern of the cases of a [match] statement. *)
Definition casePatterns (R : pattern -> Prop) (s : stmt) : Prop :=
  match s with
  | Match _ cases => All (fun c => each_pattern R (casePattern c)) cases
  | _ => True
  end.

(* ------------------------------------------------------------------ *)
(** ** From one property of the nodes to another *)

Lemma AllOpt_impl {A} (P P' : A -> Prop) (o : option A) :
  (forall x, P x -> P' x) -> AllOpt P o -> AllOpt P' o.
Proof. intros H. destruct o; cbn [AllOpt]; [apply H|trivial]. Qed.

Section Weaken.
Variables Q Q' : expr -> Prop.
Hypothesis HQ : forall e, Q e -> Q' e.

Ltac lift :=
  match goal with
  | |- True => exact I
  | IH : forall e, every_expr _ e -> every_expr _ e, H : every_expr _ ?e
    |- every_expr _ ?e => exact (IH e H)
  | IH : forall e, every_arguments _ e -> every_arguments _ e, H : every_arguments _ ?e
    |- every_arguments _ ?e => exact (IH e H)
  | IH : forall e, every_arg _ e -> every_arg _ e, H : every_arg _ ?e
    |- every_arg _ ?e => exact (IH e H)
  | IH : forall e, every_keyword _ e -> every_keyword _ e, H : every_keyword _ ?e
    |- every_keyword _ ?e => exact (IH e H)
  | IH : forall e, every_comprehension _ e -> every_comprehension _ e,
    H : every_comprehension _ ?e
    |- every_comprehension _ ?e => exact (IH e H)
  | H : AllOpt _ ?o |- AllOpt _ ?o =>
      destruct o; cbn [AllOpt] in *; lift
  | H : All _ ?l |- All _ ?l =>
      revert H;
      let x := fresh "x" in
      let IHl := fresh "IHl" in
      let Hx := fresh "Hx" in
      let Hl := fresh "Hl" in
      induction l as [|x l IHl]; cbn [All];
      [ trivial | intros [Hx Hl]; split; [lift | apply IHl; exact Hl] ]
  end.

Ltac parts :=
  repeat match goal with
         | H : _ /\ _ |- _ => destruct H
         end;
  repeat match goal with
         | |- _ /\ _ => split
         end.

Lemma every_expr_impl (e : expr) : every_expr Q e -> every_expr Q' e
with every_arguments_impl (a : arguments) :
  every_arguments Q a -> every_arguments Q' a
with every_arg_impl (a : arg) : every_arg Q a -> every_arg Q' a
with every_keyword_impl (k : keyword) : every_keyword Q k -> every_keyword Q' k
with every_comprehension_impl (c : comprehension) :
  every_comprehension Q c -> every_comprehension Q' c.
Proof.
  - destruct e; cbn [every_expr]; intros [H0 H];
      (split; [apply HQ; exact H0 | clear H0]); parts; lift.
  - destruct a; cbn [every_arguments]; intros H; parts; lift.
  - destruct a; cbn [every_arg]; intros H; lift.
  - destruct k; cbn [every_keyword]; intros H; lift.
  - destruct c; cbn [every_comprehension]; intros H; parts; lift.
Qed.

End Weaken.

Lemma every_pattern_impl (Q Q' : expr -> Prop) :
  (forall e, Q e -> Q' e) ->
  forall p, every_pattern Q p -> every_pattern Q' p.
Proof.
  intros HQ. fix IH 1. intros p.
  destruct p; cbn [every_pattern]; intros H; try exact I.
  - revert H. apply every_expr_impl. exact HQ.
  - stmt_list IH.
  - destruct H as [H1 H2]. split.
    + revert H1. apply All_impl. apply every_expr_impl. exact HQ.
    + stmt_list IH.
  - destruct H as (H1 & H2 & H3). split; [|split].
    + revert H1. apply every_expr_impl. exact HQ.
    + clear H3. stmt_list IH.
    + clear H2. stmt_list IH.
  - destruct pat as [p|]; cbn [AllOpt] in *; [apply IH; exact H|exact I].
  - stmt_list IH.
Qed.

Lemma every_withitem_impl (Q Q' : expr -> Prop) :
  (forall e, Q e -> Q' e) ->
  forall w, every_withitem Q w -> every_withitem Q' w.
Proof.
  intros HQ w [H1 H2]. split.
  - revert H1. apply every_expr_impl. exact HQ.
  - revert H2. apply AllOpt_impl. apply every_expr_impl. exact HQ.
Qed.

Section WeakenStmt.
Variables P P' : stmt -> Prop.
Variables Q Q' : expr -> Prop.
Hypothesis HP : forall s, P s -> P' s.
Hypothesis HQ : forall e, Q e -> Q' e.

Ltac expr_part :=
  match goal with
  | |- True => exact I
  | H : every_expr _ ?e |- every_expr _ ?e =>
      revert H; apply every_expr_impl; exact HQ
  | H : every_arguments _ ?e |- every_arguments _ ?e =>
      revert H; apply every_arguments_impl; exact HQ
  | H : AllOpt (every_expr _) ?e |- AllOpt (every_expr _) ?e =>
      revert H; apply AllOpt_impl; apply every_expr_impl; exact HQ
  | H : All (every_expr _) ?e |- All (every_expr _) ?e =>
      revert H; apply All_impl; apply every_expr_impl; exact HQ
  | H : All (every_keyword _) ?e |- All (every_keyword _) ?e =>
      revert H; apply All_impl; apply every_keyword_impl; exact HQ
  | H : All (every_withitem _) ?e |- All (every_withitem _) ?e =>
      revert H; apply All_impl; apply every_withitem_impl; exact HQ
  | H : every_pattern _ ?e |- every_pattern _ ?e =>
      revert H; apply every_pattern_impl; exact HQ
  end.

Ltac stmts IH :=
  match goal with
  | H : All (every_stmt _ _) ?l |- All (every_stmt _ _) ?l =>
      revert H; clear -IH;
      let x := fresh "x" in
      let IHl := fresh "IHl" in
      let Hx := fresh "Hx" in
      let Hl := fresh "Hl" in
      induction l as [|x l IHl]; cbn [All];
      [ trivial
      | intros [Hx Hl]; split; [apply IH; exact Hx | apply IHl; exact Hl] ]
  end.

(** A property of the statements and of their expressions that follows from
    another one. *)
Lemma every_stmt_weaken : forall s, every_stmt P Q s -> every_stmt P' Q' s.
Proof.
  fix IH 1. intros s.
  destruct s; cbn [every_stmt]; intros [H0 H];
    (split; [apply HP; exact H0 | clear H0]).
  all: repeat match goal with
              | H : _ /\ _ |- _ => destruct H
              end.
  all: repeat match goal with
              | |- _ /\ _ => split
              end.
  all: try expr_part.
  all: try stmts IH.
  - match goal with
    | H : All (every_match_case _ _) ?l |- _ => revert H; clear -IH HQ
    end.
    induction cases as [|c cases IHc]; cbn [All]; [trivial|].
    intros [Hc Hcs]. split; [|apply IHc; exact Hcs].
    destruct c as [pat guard body]. cbn [every_match_case] in *.
    destruct Hc as (Hp & Hg & Hb). split; [expr_part|]. split; [expr_part|].
    stmts IH.
  - match goal with
    | H : All (every_excepthandler _ _) ?l |- _ => revert H; clear -IH HQ
    end.
    induction handlers as [|h handlers IHh]; cbn [All]; [trivial|].
    intros [Hh Hhs]. split; [|apply IHh; exact Hhs].
    destruct h as [type_ name body]. cbn [every_excepthandler] in *.
    destruct Hh as (Ht & Hb). split; [expr_part|].
    stmts IH.
Qed.

End WeakenStmt.

(** The local facts of a shaped pattern hold of each pattern below it. *)
Lemma patternShape_each (R : pattern -> Prop) :
  (forall p, patternShape p -> R p) ->
  forall p, patternShape p -> each_pattern R p.
Proof.
  intros HR. fix IH 1. intros p H. destruct p; cbn [each_pattern].
  all: split; [apply HR; exact H|]; cbn [patternShape] in H; try exact I.
  - stmt_list IH.
  - destruct H as [_ H]. stmt_list IH.
  - destruct H as (_ & _ & H1 & H2). split.
    + clear H2. stmt_list IH.
    + clear H1. stmt_list IH.
  - destruct pat as [p|]; cbn [AllOpt] in *; [apply IH; exact H|exact I].
  - destruct H as [_ H]. stmt_list IH.
Qed.

Lemma stmtShape_casePatterns (R : pattern -> Prop) :
  (forall p, patternShape p -> R p) ->
  forall s, stmtShape s -> casePatterns R s.
Proof.
  intros HR s H. destruct s; cbn [casePatterns]; try exact I.
  cbn [stmtShape] in H. revert H. apply All_impl.
  intros c. apply patternShape_each. exact HR.
Qed.

(** What holds of every statement and of every expression of the trees
    that [parse] and [parseExpression] return. *)
Lemma parsed_every (P : stmt -> Prop) (Q : expr -> Prop) :
  (forall s, stmtShape s -> P s) ->
  (forall e, exprShape e -> Q e) ->
  forall (fuel : nat) (src : jsstring),
    (forall tree, parse fuel src = Ok tree -> All (every_stmt P Q) (body tree))
    /\ (forall e, parseExpression fuel src = Ok e -> every_expr Q e).
Proof.
  intros HP HQ fuel src. split.
  - intros tree H. apply parse_shape in H. revert H. apply All_impl.
    apply every_stmt_weaken; assumption.
  - intros e H. apply parseExpression_shape in H. revert H.
    apply every_expr_impl. exact HQ.
Qed.

(* ------------------------------------------------------------------ *)
(** ** Expressions *)

Definition boolOpShape (e : expr) : Prop :=
  match e with
  | BoolOp _ values => 2 <= length values
  | _ => True
  end.

(** X15. In every tree that [parse] returns, and in every expression that
    [parseExpression] returns, every [BoolOp] has at least two operands: the
    node is built only behind an [or] or an [and], with the operand before
    it and the one after it. *)
Theorem boolop_operands (fuel : nat) (src : jsstring) :
  (forall tree,
      parse fuel src = Ok tree ->
      All (every_stmt (fun _ => True) boolOpShape) (body tree))
  /\ (forall e, parseExpression fuel src = Ok e -> every_expr boolOpShape e).
Proof.
  apply parsed_every.
  - intros s _. exact I.
  - intros e H. destruct e; try exact I. exact H.
Qed.

Lemma boolop_operands_witness :
  All (every_stmt (fun _ => True) boolOpShape)
      [Assign [Name (js "x")]
         (BoolOp Or [Name (js "a"); BoolOp And [Name (js "b"); Name (js "c")]])]
  /\ every_expr boolOpShape (BoolOp Or [Name (js "a"); Name (js "b"); Name (js "c")]).
Proof.
  split.
  - apply (proj1 (boolop_operands 8 (js "x = a or b and c"))
             (Module
                [Assign [Name (js "x")]
                   (BoolOp Or
                      [Name (js "a"); BoolOp And [Name (js "b"); Name (js "c")]])])).
    vm_compute. reflexivity.
  - apply (proj2 (boolop_operands 8 (js "a or b or c"))).
    vm_compute. reflexivity.
Defined.

Definition displayShape (e : expr) : Prop :=
  match e with
  | Dict keys values => length keys = length values
  | Set_ elts => 1 <= length elts
  | _ => True
  end.

(** X16. In every tree that [parse] returns, and in every expression that
    [parseExpression] returns, every [Dict] has as many keys as values (an
    unpacked mapping counts with an absent key) and every [Set] has at least
    one element: empty braces are a [Dict]. *)
Theorem dict_set_display (fuel : nat) (src : jsstring) :
  (forall tree,
      parse fuel src = Ok tree ->
      All (every_stmt (fun _ => True) displayShape) (body tree))
  /\ (forall e, parseExpression fuel src = Ok e -> every_expr displayShape e).
Proof.
  apply parsed_every.
  - intros s _. exact I.
  - intros e H. destruct e; try exact I; exact H.
Qed.

Lemma dict_set_display_witness :
  All (every_stmt (fun _ => True) displayShape)
      [Assign [Name (js "s")] (Set_ [Name (js "a"); Name (js "b")])]
  /\ every_expr displayShape
       (Dict [Some (Name (js "a")); None] [Name (js "b"); Name (js "c")]).
Proof.
  split.
  - apply (proj1 (dict_set_display 8 (js "s = {a, b}"))
             (Module [Assign [Name (js "s")] (Set_ [Name (js "a"); Name (js "b")])])).
    vm_compute. reflexivity.
  - apply (proj2 (dict_set_display 8 (js "{a: b, **c}"))).
    vm_compute. reflexivity.
Defined.

Definition comprehensionShape (e : expr) : Prop :=
  match e with
  | ListComp _ generators => generatorsShape generators
  | SetComp _ generators => generatorsShape generators
  | DictComp _ _ generators => generatorsShape generators
  | GeneratorExp _ generators => generatorsShape generators
  | _ => True
  end.

(** X17. In every tree that [parse] returns, and in every expression that
    [parseExpression] returns, every list, set and dict comprehension and
    every generator expression has at least one [for] clause, and the
    [is_async] of each clause is 0 or 1. *)
Theorem comprehension_clauses (fuel : nat) (src : jsstring) :
  (forall tree,
      parse fuel src = Ok tree ->
      All (every_stmt (fun _ => True) comprehensionShape) (body tree))
  /\ (forall e,
         parseExpression fuel src = Ok e -> every_expr comprehensionShape e).
Proof.
  apply parsed_every.
  - intros s _. exact I.
  - intros e H. destruct e; try exact I; exact H.
Qed.

Lemma comprehension_clauses_witness :
  All (every_stmt (fun _ => True) comprehensionShape)
      [Assign [Name (js "d")]
         (DictComp (Name (js "k")) (Name (js "v"))
            [mkComprehension (Name (js "k")) (Name (js "m")) [] 0])]
  /\ every_expr comprehensionShape
       (ListComp (Name (js "x"))
          [mkComprehension (Name (js "x")) (Name (js "y")) [] 0;
           mkComprehension (Name (js "z")) (Name (js "x")) [Name (js "z")] 1]).
Proof.
  split.
  - apply (proj1 (comprehension_clauses 8 (js "d = {k: v for k in m}"))
             (Module
                [Assign [Name (js "d")]
                   (DictComp (Name (js "k")) (Name (js "v"))
                      [mkComprehension (Name (js "k")) (Name (js "m")) [] 0])])).
    vm_compute. reflexivity.
  - apply (proj2 (comprehension_clauses 8
                    (js "[x for x in y async for z in x if z]"))).
    vm_compute. reflexivity.
Defined.

Definition lambdaArgs (e : expr) : Prop :=
  match e with
  | Lambda args _ => argsShape args
  | _ => True
  end.

Definition defArgs (s : stmt) : Prop :=
  match s with
  | FunctionDef _ args _ _ _ _ => argsShape args
  | AsyncFunctionDef _ args _ _ _ _ => argsShape args
  | _ => True
  end.

(** X18. The parameters of every function definition and of every lambda
    of a parsed tree: [posonlyargs] is empty, [kw_defaults] has one entry
    for each keyword-only parameter, and [defaults] is no longer than
    [args]. *)
Theorem arguments_layout (fuel : nat) (src : jsstring) :
  (forall tree,
      parse fuel src = Ok tree -> All (every_stmt defArgs lambdaArgs) (body tree))
  /\ (forall e, parseExpression fuel src = Ok e -> every_expr lambdaArgs e).
Proof.
  apply parsed_every.
  - intros s H. destruct s; try exact I; exact (proj1 H).
  - intros e H. destruct e; try exact I; exact H.
Qed.

Lemma arguments_layout_witness :
  All (every_stmt defArgs lambdaArgs)
      [FunctionDef (js "f")
         (mkArguments [] [mkArg (js "a") None; mkArg (js "b") None] None
            [mkArg (js "d") None] [None] (Some (mkArg (js "f") None))
            [Constant (CNum (ParseInt (js "1") 10))])
         [Pass] [] None None]
  /\ every_expr lambdaArgs
       (Lambda
          (mkArguments [] [mkArg (js "a") None; mkArg (js "b") None]
             (Some (mkArg (js "c") None))
             [mkArg (js "d") None; mkArg (js "e") None]
             [None; Some (Constant (CNum (ParseInt (js "2") 10)))]
             (Some (mkArg (js "f") None))
             [Constant (CNum (ParseInt (js "1") 10))])
          (Name (js "a"))).
Proof.
  split.
  - apply (proj1 (arguments_layout 8 (js "def f(a, b=1, *, d, **f): pass"))
             (Module
                [FunctionDef (js "f")
                   (mkArguments [] [mkArg (js "a") None; mkArg (js "b") None] None
                      [mkArg (js "d") None] [None] (Some (mkArg (js "f") None))
                      [Constant (CNum (ParseInt (js "1") 10))])
                   [Pass] [] None None])).
    vm_compute. reflexivity.
  - apply (proj2 (arguments_layout 8 (js "lambda a, b=1, *c, d, e=2, **f: a"))).
    vm_compute. reflexivity.
Defined.

Definition fstringShape (e : expr) : Prop :=
  match e with
  | JoinedStr values => 1 <= length values
  | FormattedValue _ conversion format_spec =>
      conversionShape conversion /\ formatSpecShape format_spec
  | _ => True
  end.

(** X19. The f-strings of a parsed tree: every [JoinedStr] has at least one
    part (the empty f-string has one empty text); the conversion of every
    [FormattedValue] is -1, 114, 115 or 97; its format spec, when there is
    one, is a [JoinedStr] of one text that is not empty. *)
Theorem fstring_parts (fuel : nat) (src : jsstring) :
  (forall tree,
      parse fuel src = Ok tree ->
      All (every_stmt (fun _ => True) fstringShape) (body tree))
  /\ (forall e, parseExpression fuel src = Ok e -> every_expr fstringShape e).
Proof.
  apply parsed_every.
  - intros s _. exact I.
  - intros e H. destruct e; try exact I; exact H.
Qed.

Lemma fstring_parts_witness :
  All (every_stmt (fun _ => True) fstringShape)
      [Assign [Name (js "s")] (JoinedStr [Constant (CStr [])])]
  /\ every_expr fstringShape
       (JoinedStr
          [FormattedValue (Name (js "a")) 114
             (Some (JoinedStr [Constant (CStr (js ">4"))]));
           Constant (CStr (js "b"))]).
Proof.
  split.
  - apply (proj1 (fstring_parts 8 (js "s = f''"))
             (Module [Assign [Name (js "s")] (JoinedStr [Constant (CStr [])])])).
    vm_compute. reflexivity.
  - apply (proj2 (fstring_parts 8 (js "f'{a!r:>4}b'"))).
    vm_compute. reflexivity.
Defined.

(* ------------------------------------------------------------------ *)
(** ** Statements *)

Definition nameLists (s : stmt) : Prop :=
  match s with
  | Import names => 1 <= length names
  | Global names => 1 <= length names
  | Nonlocal names => 1 <= length names
  | Delete targets => 1 <= length targets
  | _ => True
  end.

(** X20. In every tree that [parse] returns, at any depth, every [Import]
    has at least one alias, every [Global] and [Nonlocal] at least one name
    and every [Delete] at least one target. *)
Theorem name_lists_nonempty (fuel : nat) (src : jsstring) (tree : ModuleNode) :
  parse fuel src = Ok tree -> All (each_stmt nameLists) (body tree).
Proof.
  intros H. apply parse_shape in H. revert H. apply All_impl.
  apply every_stmt_each. intros s Hs. destruct s; try exact I; exact Hs.
Qed.

Definition name_lists : jsstring :=
  js "import a.b, c" ++ [LF] ++ js "global x, y" ++ [LF]
  ++ js "nonlocal z" ++ [LF] ++ js "del x, y".

Lemma name_lists_nonempty_witness :
  All (each_stmt nameLists)
      [Import [mkAlias (js "a.b") None; mkAlias (js "c") None];
       Global [js "x"; js "y"]; Nonlocal [js "z"];
       Delete [Name (js "x"); Name (js "y")]].
Proof.
  apply (name_lists_nonempty 8 name_lists
           (Module
              [Import [mkAlias (js "a.b") None; mkAlias (js "c") None];
               Global [js "x"; js "y"]; Nonlocal [js "z"];
               Delete [Name (js "x"); Name (js "y")]])).
  vm_compute. reflexivity.
Defined.

Definition assignShape (s : stmt) : Prop :=
  match s with
  | Assign targets _ => 1 <= length targets
  | AnnAssign _ _ _ simple => simple = 1
  | With items _ => 1 <= length items
  | AsyncWith items _ => 1 <= length items
  | _ => True
  end.

(** X21. In every tree that [parse] returns, at any depth, every [Assign]
    has at least one target, every [AnnAssign] has [simple] 1, and every
    [With] and [AsyncWith] has at least one item. *)
Theorem assign_with_nonempty (fuel : nat) (src : jsstring) (tree : ModuleNode) :
  parse fuel src = Ok tree -> All (each_stmt assignShape) (body tree).
Proof.
  intros H. apply parse_shape in H. revert H. apply All_impl.
  apply every_stmt_each. intros s Hs. destruct s; try exact I; exact Hs.
Qed.

Definition assignments : jsstring :=
  js "a = b = 1" ++ [LF] ++ js "x: int = 2" ++ [LF] ++ js "with p as q, r: pass".

Lemma assign_with_nonempty_witness :
  All (each_stmt assignShape)
      [Assign [Name (js "a"); Name (js "b")] (Constant (CNum (ParseInt (js "1") 10)));
       AnnAssign (Name (js "x")) (Name (js "int"))
         (Some (Constant (CNum (ParseInt (js "2") 10)))) 1;
       With [mkWithitem (Name (js "p")) (Some (Name (js "q")));
             mkWithitem (Name (js "r")) None]
         [Pass]].
Proof.
  apply (assign_with_nonempty 8 assignments
           (Module
              [Assign [Name (js "a"); Name (js "b")]
                 (Constant (CNum (ParseInt (js "1") 10)));
               AnnAssign (Name (js "x")) (Name (js "int"))
                 (Some (Constant (CNum (ParseInt (js "2") 10)))) 1;
               With [mkWithitem (Name (js "p")) (Some (Name (js "q")));
                     mkWithitem (Name (js "r")) None]
                 [Pass]])).
  vm_compute. reflexivity.
Defined.

Definition optionalFields (s : stmt) : Prop :=
  match s with
  | FunctionDef _ _ _ _ _ type_params => type_params <> Some []
  | AsyncFunctionDef _ _ _ _ _ type_params => type_params <> Some []
  | ClassDef _ _ _ _ _ type_params => type_params <> Some []
  | Raise exc cause => exc = None -> cause = None
  | _ => True
  end.

(** X22. In every tree that [parse] returns, at any depth, the
    [type_params] of a function or class definition are absent or not
    empty (empty brackets leave the field out), and a [Raise] without an
    exception has no cause. *)
Theorem optional_fields (fuel : nat) (src : jsstring) (tree : ModuleNode) :
  parse fuel src = Ok tree -> All (each_stmt optionalFields) (body tree).
Proof.
  intros H. apply parse_shape in H. revert H. apply All_impl.
  apply every_stmt_each. intros s Hs. destruct s; try exact I;
    cbn [stmtShape optionalFields] in *; tauto.
Qed.

Definition definitions : jsstring :=
  js "def f[T](): pass" ++ [LF] ++ js "class C[]: pass" ++ [LF]
  ++ js "raise" ++ [LF] ++ js "raise E from c".

Lemma optional_fields_witness :
  All (each_stmt optionalFields)
      [FunctionDef (js "f") (mkArguments [] [] None [] [] None [])
         [Pass] [] None (Some [TypeVar (js "T")]);
       ClassDef (js "C") [] [] [Pass] [] None;
       Raise None None;
       Raise (Some (Name (js "E"))) (Some (Name (js "c")))].
Proof.
  apply (optional_fields 8 definitions
           (Module
              [FunctionDef (js "f") (mkArguments [] [] None [] [] None [])
                 [Pass] [] None (Some [TypeVar (js "T")]);
               ClassDef (js "C") [] [] [Pass] [] None;
               Raise None None;
               Raise (Some (Name (js "E"))) (Some (Name (js "c")))])).
  vm_compute. reflexivity.
Defined.

(* ------------------------------------------------------------------ *)
(** ** Patterns *)

Definition builtPattern (p : pattern) : Prop :=
  match p with
  | MatchSingleton _ => False
  | MatchStar _ => False
  | _ => True
  end.

(** X23. No pattern of a parsed tree, at any depth of the statements and
    of the patterns, is a [MatchSingleton] or a [MatchStar]: the parser has
    no star pattern, and it reads [None], [True] and [False] in a case as
    names, since the test for a name comes before the tests for these
    words, which hold of name tokens only. *)
Theorem pattern_kinds (fuel : nat) (src : jsstring) (tree : ModuleNode) :
  parse fuel src = Ok tree ->
  All (each_stmt (casePatterns builtPattern)) (body tree).
Proof.
  intros H. apply parse_shape in H. revert H. apply All_impl.
  apply every_stmt_each. apply stmtShape_casePatterns.
  intros p Hp. destruct p; try exact I; exact Hp.
Qed.

Definition match_none : jsstring :=
  js "match x:" ++ [LF] ++ js "    case None: pass" ++ [LF]
  ++ js "    case [a, True]: pass".

Lemma pattern_kinds_witness :
  All (each_stmt (casePatterns builtPattern))
      [Match (Name (js "x"))
         [mkMatchCase (MatchAs None (Some (js "None"))) None [Pass];
          mkMatchCase
            (MatchSequence
               [MatchAs None (Some (js "a")); MatchAs None (Some (js "True"))])
            None [Pass]]].
Proof.
  apply (pattern_kinds 12 match_none
           (Module
              [Match (Name (js "x"))
                 [mkMatchCase (MatchAs None (Some (js "None"))) None [Pass];
                  mkMatchCase
                    (MatchSequence
                       [MatchAs None (Some (js "a"));
                        MatchAs None (Some (js "True"))])
                    None [Pass]]])).
  vm_compute. reflexivity.
Defined.

Definition alignedPattern (p : pattern) : Prop :=
  match p with
  | MatchMapping keys patterns _ => length keys = length patterns
  | MatchClass cls _ kwd_attrs kwd_patterns =>
      (exists id, cls = Name id) /\ length kwd_attrs = length kwd_patterns
  | MatchOr patterns => 2 <= length patterns
  | _ => True
  end.

(** X24. In every pattern of a parsed tree, at any depth: a mapping pattern
    has as many keys as patterns, a class pattern has a plain name as its
    class and as many keyword names as keyword patterns, and an or-pattern
    has at least two alternatives. *)
Theorem pattern_alignment (fuel : nat) (src : jsstring) (tree : ModuleNode) :
  parse fuel src = Ok tree ->
  All (each_stmt (casePatterns alignedPattern)) (body tree).
Proof.
  intros H. apply parse_shape in H. revert H. apply All_impl.
  apply every_stmt_each. apply stmtShape_casePatterns.
  intros p Hp. destruct p; try exact I; cbn [patternShape alignedPattern] in *; tauto.
Qed.

Definition match_or : jsstring :=
  js "match x:" ++ [LF] ++ js "    case {1: a, **r} | P(b, c=d) | _: pass".

Lemma pattern_alignment_witness :
  All (each_stmt (casePatterns alignedPattern))
      [Match (Name (js "x"))
         [mkMatchCase
            (MatchOr
               [MatchMapping [Constant (CNum (ParseInt (js "1") 10))]
                  [MatchAs None (Some (js "a"))] (Some (js "r"));
                MatchClass (Name (js "P")) [MatchAs None (Some (js "b"))]
                  [js "c"] [MatchAs None (Some (js "d"))];
                MatchAs None None])
            None [Pass]]].
Proof.
  apply (pattern_alignment 12 match_or
           (Module
              [Match (Name (js "x"))
                 [mkMatchCase
                    (MatchOr
                       [MatchMapping [Constant (CNum (ParseInt (js "1") 10))]
                          [MatchAs None (Some (js "a"))] (Some (js "r"));
                        MatchClass (Name (js "P")) [MatchAs None (Some (js "b"))]
                          [js "c"] [MatchAs None (Some (js "d"))];
                        MatchAs None None])
                    None [Pass]]])).
  vm_compute. reflexivity.
Defined.

End ParserExtras.

(* ================================================================== *)
(** * String literals: from the source text to the value *)

Module StringExtras.
Import Ast Tokenizer Parser.

(** A character of a plain text between the quotes [q]: not the quote, not
    a backslash, not a line feed. *)
Definition plainChar (q x : cu) : Prop := x <> q /\ x <> BACKSLASH /\ x <> LF.

Lemma cu_eqb_neq (a b : cu) : a <> b -> cu_eqb a b = false.
Proof. intros H. apply N.eqb_neq. exact H. Qed.

(** The loop over a plain text stops behind the closing quote. *)
Lemma readString_loop_plain (q : cu) (s post : jsstring) :
  q <> BACKSLASH ->
  Forall (plainChar q) s ->
  forall p l c,
    readString_loop q false (s ++ q :: post) p l c
    = Ok (p + length s + 1, l, c + length s + 1).
Proof.
  intros Hq. induction 1 as [|x s [Hx [Hb Hl]] Hs IH]; intros p l c;
    cbn [app readString_loop length].
  - change (ch "\") with BACKSLASH.
    rewrite (cu_eqb_neq q BACKSLASH Hq), cu_eqb_refl.
    f_equal. f_equal; [f_equal|]; lia.
  - change (ch "\") with BACKSLASH.
    rewrite (cu_eqb_neq x BACKSLASH Hb), (cu_eqb_neq x q Hx), (cu_eqb_neq x LF Hl).
    cbn [andb]. rewrite IH. f_equal. f_equal; [f_equal|]; lia.
Qed.

(** An escape that finds no backslash leaves the text as it is. *)
Lemma unescape_plain (c by_ : cu) (s : jsstring) :
  Forall (fun x => x <> BACKSLASH) s -> unescape c by_ s = s.
Proof.
  intros H. unfold unescape, replaceAll.
  enough (G : forall at_ before,
             replace_from [chr BACKSLASH; chr c] [by_] before s at_ 0 = s)
    by apply G.
  induction H as [|x s Hx Hs IH]; intros at_ before;
    rewrite TransformProofs.replace_from_0; cbn [run chr].
  - reflexivity.
  - rewrite (cu_eqb_neq BACKSLASH x) by congruence. rewrite IH. reflexivity.
Qed.

Lemma quote_not_prefix (q : cu) :
  q = DQUOTE \/ q = SQUOTE -> oneOf "rRbBuU" q = false.
Proof. intros [-> | ->]; reflexivity. Qed.

Lemma quote_not_backslash (q : cu) : q = DQUOTE \/ q = SQUOTE -> q <> BACKSLASH.
Proof. intros [-> | ->]; discriminate. Qed.

(** The value of a token with one quote on each side of a plain text. *)
Lemma extractStringValue_plain (q : cu) (s : jsstring) :
  q = DQUOTE \/ q = SQUOTE ->
  Forall (plainChar q) s ->
  extractStringValue (q :: s ++ [q]) = s.
Proof.
  intros Hq Hs. unfold extractStringValue. cbn [dropPrefixChars].
  rewrite (quote_not_prefix q Hq). cbv zeta.
  assert (Hr : removeQuotes (q :: s ++ [q]) = s).
  { unfold removeQuotes.
    assert (Hno : startsWith TRIPLE_DQ (q :: s ++ [q])
                  || startsWith TRIPLE_SQ (q :: s ++ [q]) = false).
    { destruct Hs as [|x s [Hx _] Hs].
      - destruct Hq as [-> | ->]; reflexivity.
      - unfold TRIPLE_DQ, TRIPLE_SQ. cbn [startsWith app].
        destruct Hq as [-> | ->].
        + change (cu_eqb SQUOTE DQUOTE) with false.
          change (cu_eqb DQUOTE DQUOTE) with true. cbn [andb orb].
          rewrite (cu_eqb_neq DQUOTE x) by congruence. reflexivity.
        + change (cu_eqb DQUOTE SQUOTE) with false.
          change (cu_eqb SQUOTE SQUOTE) with true. cbn [andb orb].
          rewrite (cu_eqb_neq SQUOTE x) by congruence. reflexivity. }
    rewrite Hno. unfold sliceBetween. cbn [length skipn].
    rewrite length_app. cbn [length].
    replace (S (length s + 1) - 1 - 1) with (length s) by lia.
    rewrite firstn_app, firstn_all, Nat.sub_diag. cbn [firstn]. apply app_nil_r. }
  rewrite Hr.
  assert (Hb : Forall (fun x => x <> BACKSLASH) s).
  { revert Hs. apply Forall_impl. intros x [_ [H _]]. exact H. }
  repeat rewrite (unescape_plain _ _ s Hb). reflexivity.
Qed.

(** [readString] on a quote, a plain text and the closing quote. *)
Lemma readString_plain (t : Tokenizer) (pre s post : jsstring) (q : cu) :
  q = DQUOTE \/ q = SQUOTE ->
  source t = pre ++ q :: s ++ q :: post ->
  pos t = length pre ->
  Forall (plainChar q) s ->
  (s = [] -> hd_error post <> Some q) ->
  readString t
  = Ok (mkToken STRING (q :: s ++ [q]) (line t, col t)
          (line t, col t + 1 + length s + 1),
        move t (pos t + 1 + length s + 1) (line t) (col t + 1 + length s + 1)).
Proof.
  intros Hq Hsrc Hpos Hs Hpost.
  assert (H0 : charAt t 0 = Some q).
  { unfold charAt. rewrite Hsrc, Hpos, Nat.add_0_r.
    rewrite nth_error_app2, Nat.sub_diag by lia. reflexivity. }
  assert (Hat : forall k, charAt t (S k) = nth_error (s ++ q :: post) k).
  { intros k. unfold charAt. rewrite Hsrc, Hpos.
    rewrite nth_error_app2 by lia.
    replace (length pre + S k - length pre) with (S k) by lia. reflexivity. }
  assert (Htriple : isCh q (charAt t 1) && isCh q (charAt t 2) = false).
  { rewrite !Hat. destruct Hs as [|x s [Hx _] Hs].
    - cbn [app nth_error isCh]. rewrite cu_eqb_refl. cbn [andb].
      specialize (Hpost eq_refl). destruct post as [|y post]; [reflexivity|].
      cbn [nth_error isCh hd_error] in *. apply cu_eqb_neq. congruence.
    - cbn [app nth_error isCh]. rewrite (cu_eqb_neq x q Hx). reflexivity. }
  assert (Hskip : skipn (pos t + 1) (source t) = s ++ q :: post).
  { rewrite Hsrc, Hpos. rewrite skipn_app.
    rewrite skipn_all2 by lia.
    replace (length pre + 1 - length pre) with 1 by lia. reflexivity. }
  unfold readString. rewrite H0. cbv zeta. rewrite Htriple, Hskip.
  rewrite (readString_loop_plain q s post (quote_not_backslash q Hq) Hs).
  assert (Hval : slice (source t) (pos t) (pos t + 1 + length s + 1) = q :: s ++ [q]).
  { unfold slice. rewrite Hsrc, Hpos. rewrite skipn_app.
    rewrite skipn_all2 by lia. rewrite Nat.sub_diag. cbn [skipn app].
    replace (length pre + 1 + length s + 1 - length pre) with (S (length s + 1)) by lia.
    cbn [firstn]. f_equal.
    rewrite firstn_app.
    replace (length s + 1 - length s) with 1 by lia.
    rewrite firstn_all2 by lia. reflexivity. }
  rewrite Hval. reflexivity.
Qed.

(** X25. A plain text between two quotes, read and decoded: when the
    tokenizer stands on a quote that is followed by a text without this
    quote, backslash and line feed, and by the closing quote (and the
    three characters at the start are not a triple quote), [readString]
    returns a STRING token with the text in its quotes as value and stops
    behind the closing quote, and [extractStringValue] of this value is
    the text. *)
Theorem string_token_decodes (t : Tokenizer) (pre s post : jsstring) (q : cu) :
  q = DQUOTE \/ q = SQUOTE ->
  source t = pre ++ q :: s ++ q :: post ->
  pos t = length pre ->
  Forall (plainChar q) s ->
  (s = [] -> hd_error post <> Some q) ->
  exists tok t',
    readString t = Ok (tok, t')
    /\ tok_type tok = STRING
    /\ tok_value tok = q :: s ++ [q]
    /\ pos t' = length pre + length s + 2
    /\ extractStringValue (tok_value tok) = s.
Proof.
  intros Hq Hsrc Hpos Hs Hpost.
  eexists. eexists. split.
  - apply (readString_plain t pre s post q); assumption.
  - cbn [tok_type tok_value move pos].
    split; [reflexivity|]. split; [reflexivity|]. split; [lia|].
    apply extractStringValue_plain; assumption.
Qed.

Definition greeting : Tokenizer :=
  mkTokenizer (js "x = 'hi there' + y") 4 1 4 [0] [] false.

Lemma string_token_decodes_witness :
  exists tok t',
    readString greeting = Ok (tok, t')
    /\ tok_type tok = STRING
    /\ tok_value tok = SQUOTE :: js "hi there" ++ [SQUOTE]
    /\ pos t' = length (js "x = ") + length (js "hi there") + 2
    /\ extractStringValue (tok_value tok) = js "hi there".
Proof.
  apply (string_token_decodes greeting (js "x = ") (js "hi there") (js " + y") SQUOTE).
  - right. reflexivity.
  - reflexivity.
  - reflexivity.
  - unfold plainChar. repeat constructor; discriminate.
  - discriminate.
Defined.

(* ------------------------------------------------------------------ *)
(** ** An expression that is one literal or one name *)

Local Open Scope parser_scope.

(** The current token is no operator; it is not the word [keyword]. *)
Definition noOp (p : Parser) : Prop := tok_type (currentToken p) <> OP.

Definition noWord (keyword : string) (p : Parser) : Prop :=
  tokenIs (currentToken p) NAME (Some (js keyword)) = false.

Lemma bind_eval {A B} (m : M A) (k : A -> M B) (p p' : Parser) (a : A)
      (R : result (B * Parser)) :
  m p = Ok (a, p') -> k a p' = R -> bind m k p = R.
Proof. intros H1 H2. unfold bind. rewrite H1. exact H2. Qed.

Lemma tokenIs_OP_other (tok : Token) (value : option jsstring) :
  tok_type tok <> OP -> tokenIs tok OP value = false.
Proof. unfold tokenIs. destruct (tok_type tok); try reflexivity. congruence. Qed.

Lemma tokenIs_NAME_other (tok : Token) (value : option jsstring) :
  tok_type tok <> NAME -> tokenIs tok NAME value = false.
Proof. unfold tokenIs. destruct (tok_type tok); try reflexivity. congruence. Qed.

Lemma eval_matchOp (p : Parser) (value : string) :
  noOp p -> matchOp value p = Ok (false, p).
Proof.
  intros H. unfold matchOp, match_. rewrite tokenIs_OP_other by exact H.
  reflexivity.
Qed.

Lemma eval_matchKeyword (p : Parser) (keyword : string) :
  noWord keyword p -> matchKeyword keyword p = Ok (false, p).
Proof. intros H. unfold matchKeyword. rewrite H. reflexivity. Qed.

Lemma eval_matchType (p : Parser) (type : TokenType) :
  matchType type p = Ok (TokenType_eqb (tok_type (currentToken p)) type, p).
Proof. unfold matchType, match_, tokenIs. rewrite andb_true_r. reflexivity. Qed.

Lemma eval_advance (p : Parser) (tok : Token) (t : Tokenizer) :
  next (tokenizer p) = Ok (tok, t) -> advance p = Ok (currentToken p, mkParser t tok).
Proof. intros H. unfold advance. rewrite H. reflexivity. Qed.

Lemma find_noOp (tok : Token) (operators : list (string * operator)) :
  tok_type tok <> OP ->
  find (fun o => tokenIs tok OP (Some (js (fst o)))) operators = None.
Proof.
  intros H. induction operators as [|o operators IH]; cbn [find]; [reflexivity|].
  rewrite tokenIs_OP_other by exact H. exact IH.
Qed.

(** Behind the last token of the input no test for a word or an operator
    holds. *)
Lemma ended_noOp (p : Parser) : tok_type (currentToken p) = ENDMARKER -> noOp p.
Proof. unfold noOp. intros ->. discriminate. Qed.

Lemma ended_noWord (p : Parser) (keyword : string) :
  tok_type (currentToken p) = ENDMARKER -> noWord keyword p.
Proof. intros H. apply tokenIs_NAME_other. rewrite H. discriminate. Qed.

(** One step of a method whose tests all fail. *)
Ltac ev :=
  lazymatch goal with
  | |- bind _ _ _ = _ => eapply bind_eval; [ev | cbv beta iota; ev]
  | |- matchOp _ _ = _ => apply eval_matchOp; first [assumption | apply ended_noOp; assumption]
  | |- matchKeyword _ _ = _ =>
      apply eval_matchKeyword; first [assumption | apply ended_noWord; assumption]
  | |- current _ = _ => reflexivity
  | |- ret _ _ = _ => reflexivity
  | |- loop (S _) _ _ _ = _ => cbn [loop]; ev
  | |- _ => eassumption
  end.

(** When [parsePrimary] reads an expression [e] up to the end of the input,
    and the first token is no operator and not the word [await] or [not],
    every level above it returns [e]. *)
Section Atom.
Variable fuel : nat.
Variable self : Methods.
Variables p0 p1 : Parser.
Variable e : expr.
Hypothesis H0 : noOp p0.
Hypothesis Hawait : noWord "await" p0.
Hypothesis Hnot : noWord "not" p0.
Hypothesis H1 : tok_type (currentToken p1) = ENDMARKER.
Hypothesis Hprimary : parsePrimary (S fuel) self p0 = Ok (e, p1).

Lemma parseAtom_atom : parseAtom (S fuel) self p0 = Ok (e, p1).
Proof. unfold parseAtom. ev. Qed.

Lemma parseFactor_atom : parseFactor (S fuel) self p0 = Ok (e, p1).
Proof.
  pose proof parseAtom_atom as Ha.
  unfold parseFactor, parsePower, parseAwait. ev.
Qed.

Lemma binaryChain_atom (operators : list (string * operator)) (operand : M expr) :
  operand p0 = Ok (e, p1) ->
  binaryChain (S fuel) operators operand p0 = Ok (e, p1).
Proof.
  intros Ho. unfold binaryChain. eapply bind_eval; [exact Ho|].
  cbn [loop]. eapply bind_eval.
  - eapply bind_eval; [reflexivity|]. cbv beta.
    rewrite find_noOp by (rewrite H1; discriminate). reflexivity.
  - reflexivity.
Qed.

Lemma parseBitOr_atom : parseBitOr (S fuel) self p0 = Ok (e, p1).
Proof.
  unfold parseBitOr, parseBitXor, parseBitAnd, parseShift, parseArith, parseTerm.
  repeat apply binaryChain_atom. apply parseFactor_atom.
Qed.

Lemma compareOperator_ended : compareOperator p1 = Ok (None, p1).
Proof. unfold compareOperator. ev. Qed.

Lemma parseComparison_atom : parseComparison (S fuel) self p0 = Ok (e, p1).
Proof.
  pose proof parseBitOr_atom as Hb. pose proof compareOperator_ended as Hc.
  unfold parseComparison. eapply bind_eval; [exact Hb|].
  eapply bind_eval.
  - cbn [loop]. eapply bind_eval.
    + eapply bind_eval; [exact Hc|]. reflexivity.
    + reflexivity.
  - reflexivity.
Qed.

Lemma parseExpr_atom : parseExpr (S fuel) self p0 = Ok (e, p1).
Proof.
  pose proof parseComparison_atom as Hc.
  unfold parseExpr, parseNamedExpr, parseTernary, parseOr, parseAnd, parseNot. ev.
Qed.

End Atom.

(** The token behind the last character of the input. *)
Lemma next_at_end (t : Tokenizer) :
  pendingTokens t = [] ->
  atLineStart t = false ->
  pos t = length (source t) ->
  length (indentStack t) <= 1 ->
  exists tok t', next t = Ok (tok, t') /\ tok_type tok = ENDMARKER.
Proof.
  intros Hp Hstart Hpos Hstack.
  unfold next. rewrite Hp. unfold nextTokenDepth. cbn [nextToken]. rewrite Hstart.
  cbv zeta. unfold skipWhitespace. rewrite Hpos, skipn_all. cbn [skipWhitespace_loop].
  cbn [move source pos]. rewrite Nat.leb_refl. unfold atEnd. cbn [move indentStack].
  destruct (indentStack t) as [|a [|b stack]]; cbn [length] in Hstack; try lia;
    eexists; eexists; split; reflexivity.
Qed.

(* ------------------------------------------------------------------ *)
(** *** A string *)

Lemma not_fstring (q : cu) (rest : jsstring) :
  q = DQUOTE \/ q = SQUOTE ->
  existsb (fun prefix => startsWith prefix (q :: rest)) fstringPrefixes = false.
Proof. intros [-> | ->]; reflexivity. Qed.

(** A string token that is no f-string, with the end of the input behind
    it. *)
Lemma parsePrimary_string (fuel : nat) (self : Methods) (p0 : Parser)
      (q : cu) (rest : jsstring) (tok : Token) (t : Tokenizer) :
  tok_type (currentToken p0) = STRING ->
  tok_value (currentToken p0) = q :: rest ->
  q = DQUOTE \/ q = SQUOTE ->
  next (tokenizer p0) = Ok (tok, t) ->
  tok_type tok = ENDMARKER ->
  parsePrimary (S fuel) self p0
  = Ok (Constant (CStr (extractStringValue (q :: rest))), mkParser t tok).
Proof.
  intros Hty Hval Hq Hnext Hend.
  assert (H0 : noOp p0) by (unfold noOp; rewrite Hty; discriminate).
  assert (Hw : forall k, noWord k p0).
  { intros k. apply tokenIs_NAME_other. rewrite Hty. discriminate. }
  unfold parsePrimary.
  repeat (eapply bind_eval;
          [first [apply eval_matchKeyword; apply Hw | apply eval_matchOp; exact H0]|];
          cbv beta iota).
  eapply bind_eval; [apply eval_matchType|]. rewrite Hty. cbv beta iota.
  change (TokenType_eqb STRING NAME) with false. cbv iota.
  eapply bind_eval; [apply eval_matchType|]. rewrite Hty.
  change (TokenType_eqb STRING NUMBER) with false. cbv iota.
  eapply bind_eval; [apply eval_matchType|]. rewrite Hty.
  change (TokenType_eqb STRING STRING) with true. cbv iota.
  unfold parseStringLiteral.
  eapply bind_eval; [apply eval_advance; exact Hnext|]. cbv beta zeta.
  rewrite Hval, (not_fstring q rest Hq).
  eapply bind_eval.
  - cbn [loop]. eapply bind_eval.
    + eapply bind_eval; [apply eval_matchType|]. cbn [currentToken]. rewrite Hend.
      change (TokenType_eqb ENDMARKER STRING) with false. reflexivity.
    + reflexivity.
  - reflexivity.
Qed.

(** The first token of a source that is a plain text in its quotes, and
    the token behind it. *)
Lemma next_string_source (q : cu) (s : jsstring) :
  q = DQUOTE \/ q = SQUOTE ->
  Forall (plainChar q) s ->
  exists tok t,
    next (newTokenizer (q :: s ++ [q])) = Ok (tok, t)
    /\ tok_type tok = STRING /\ tok_value tok = q :: s ++ [q]
    /\ exists tok' t', next t = Ok (tok', t') /\ tok_type tok' = ENDMARKER.
Proof.
  intros Hq Hs.
  set (src := q :: s ++ [q]).
  set (tB := mkTokenizer src 0 1 0 [0] [] false).
  assert (HB : readString tB
               = Ok (mkToken STRING src (1, 0) (1, 0 + 1 + length s + 1),
                     move tB (0 + 1 + length s + 1) 1 (0 + 1 + length s + 1))).
  { apply (readString_plain tB [] s [] q Hq); try reflexivity; try assumption.
    intros _. discriminate. }
  assert (HA : next (newTokenizer src) = readString tB).
  { unfold src. destruct Hq as [-> | ->]; reflexivity. }
  eexists. eexists. split; [rewrite HA; exact HB|].
  split; [reflexivity|]. split; [reflexivity|].
  apply next_at_end.
  - reflexivity.
  - reflexivity.
  - cbn [move tB pos source]. unfold src. cbn [length]. rewrite length_app.
    cbn [length]. lia.
  - cbn. lia.
Qed.

(** X26. A plain text in its quotes is an expression with the text as its
    value: for a single or double quote and a text without this quote,
    backslash and line feed, [parseExpression] of the quoted text returns
    the constant of this text. *)
Theorem parseExpression_string (fuel : nat) (q : cu) (s : jsstring) :
  q = DQUOTE \/ q = SQUOTE ->
  Forall (plainChar q) s ->
  parseExpression (S fuel) (q :: s ++ [q]) = Ok (Constant (CStr s)).
Proof.
  intros Hq Hs.
  destruct (next_string_source q s Hq Hs)
    as (tok & t & Hnext & Hty & Hval & tok' & t' & Hnext' & Hend).
  unfold parseExpression, runParser, newParser. rewrite Hnext.
  rewrite (parseExpr_atom fuel (methods (S fuel)) (mkParser t tok) (mkParser t' tok')
             (Constant (CStr (extractStringValue (q :: s ++ [q]))))).
  - rewrite (extractStringValue_plain q s Hq Hs). reflexivity.
  - unfold noOp. cbn [currentToken]. rewrite Hty. discriminate.
  - apply tokenIs_NAME_other. cbn [currentToken]. rewrite Hty. discriminate.
  - apply tokenIs_NAME_other. cbn [currentToken]. rewrite Hty. discriminate.
  - exact Hend.
  - apply (parsePrimary_string fuel _ _ q (s ++ [q])); assumption.
Qed.

Lemma parseExpression_string_witness :
  parseExpression 1 (DQUOTE :: js "it's 5 o'clock" ++ [DQUOTE])
  = Ok (Constant (CStr (js "it's 5 o'clock"))).
Proof.
  apply (parseExpression_string 0 DQUOTE (js "it's 5 o'clock")).
  - left. reflexivity.
  - unfold plainChar. repeat constructor; discriminate.
Defined.

(* ------------------------------------------------------------------ *)
(** *** A name *)

(** The words that [parsePrimary] and the levels above it do not read as a
    name. *)
Definition notNames : list jsstring :=
  [js "lambda"; js "yield"; js "await"; js "not"; js "True"; js "False"; js "None"].

Lemma nameStart_not (x k : cu) :
  isNameStart x = true -> isNameStart k = false -> cu_eqb x k = false.
Proof. intros Hx Hk. apply N.eqb_neq. intros ->. congruence. Qed.

Lemma nameChar_not (x k : cu) :
  isNameChar x = true -> isNameChar k = false -> cu_eqb x k = false.
Proof. intros Hx Hk. apply N.eqb_neq. intros ->. congruence. Qed.

Lemma isQuote_nameChar (name : jsstring) (k : nat) :
  Forall (fun c => isNameChar c = true) name -> isQuote (nth_error name k) = false.
Proof.
  intros H. destruct (nth_error name k) as [y|] eqn:E; [|reflexivity].
  apply nth_error_In in E. rewrite Forall_forall in H. apply H in E.
  unfold isQuote, isCh.
  rewrite (nameChar_not y DQUOTE E eq_refl), (nameChar_not y SQUOTE E eq_refl).
  reflexivity.
Qed.

Lemma isDigit_nameStart (x : cu) : isNameStart x = true -> isDigit x = false.
Proof.
  unfold isNameStart, isDigit. intros H.
  destruct (48 <=? x)%N eqn:E1; [|reflexivity].
  destruct (x <=? 57)%N eqn:E2; [|reflexivity].
  apply N.leb_le in E1, E2.
  repeat match type of H with
         | (_ || _) = true => apply orb_true_iff in H; destruct H as [H|H]
         | (_ && _) = true => apply andb_true_iff in H; destruct H as [H H']
         end;
    repeat match goal with
           | G : (_ <=? _)%N = true |- _ => apply N.leb_le in G
           | G : (_ =? _)%N = true |- _ => apply N.eqb_eq in G
           end; lia.
Qed.

Ltac tk :=
  cbn [nextToken handleIndentation_loop skipWhitespace_loop
       setAtLineStart move source pos line col indentStack pendingTokens atLineStart
       length Nat.leb Nat.ltb hd skipn orb andb Nat.add].

Ltac not_start x Hx :=
  rewrite ?(nameStart_not x (ch " ") Hx eq_refl), ?(nameStart_not x TAB Hx eq_refl),
          ?(nameStart_not x LF Hx eq_refl), ?(nameStart_not x CR Hx eq_refl),
          ?(nameStart_not x (ch "#") Hx eq_refl), ?(nameStart_not x (ch "\") Hx eq_refl),
          ?(nameStart_not x DQUOTE Hx eq_refl), ?(nameStart_not x SQUOTE Hx eq_refl),
          ?(nameStart_not x (ch ".") Hx eq_refl).

(** The first token of a source that is one name. *)
Lemma nextToken_name_source (fuel : nat) (x : cu) (rest : jsstring) :
  isNameStart x = true ->
  Forall (fun c => isNameChar c = true) rest ->
  nextToken (S (S fuel)) (newTokenizer (x :: rest))
  = Ok (readName (mkTokenizer (x :: rest) 0 1 0 [0] [] false)).
Proof.
  intros Hx Hrest.
  assert (Hall : Forall (fun c => isNameChar c = true) (x :: rest)).
  { constructor; [|exact Hrest]. unfold isNameChar. rewrite Hx. reflexivity. }
  unfold newTokenizer. cbn [nextToken atLineStart]. unfold handleIndentation. tk.
  not_start x Hx. tk.
  unfold skipWhitespace. tk.
  not_start x Hx. tk.
  unfold charAt. tk.
  change (nth_error (x :: rest) 0) with (Some x).
  rewrite !(isQuote_nameChar (x :: rest) _ Hall).
  unfold isQuote. cbn [isCh]. not_start x Hx.
  rewrite !andb_false_r. cbn [orb andb isDigitOpt].
  rewrite (isDigit_nameStart x Hx), Hx. reflexivity.
Qed.

Lemma span_all (p : cu -> bool) (l : jsstring) :
  Forall (fun c => p c = true) l -> span p l = length l.
Proof.
  intros H. rewrite <- (app_nil_r l) at 1. apply span_app; [exact H | exact I].
Qed.

Lemma next_name_source (x : cu) (rest : jsstring) :
  isNameStart x = true ->
  Forall (fun c => isNameChar c = true) rest ->
  exists tok t,
    next (newTokenizer (x :: rest)) = Ok (tok, t)
    /\ tok_type tok = NAME /\ tok_value tok = x :: rest
    /\ exists tok' t', next t = Ok (tok', t') /\ tok_type tok' = ENDMARKER.
Proof.
  intros Hx Hrest.
  assert (Hall : Forall (fun c => isNameChar c = true) (x :: rest)).
  { constructor; [|exact Hrest]. unfold isNameChar. rewrite Hx. reflexivity. }
  eexists. eexists. split.
  - unfold next. cbn [newTokenizer pendingTokens]. unfold nextTokenDepth.
    rewrite (nextToken_name_source 1 x rest Hx Hrest). unfold readName.
    cbv zeta. reflexivity.
  - unfold advanceWhile. cbn [pos source line col skipn].
    rewrite (span_all isNameChar (x :: rest) Hall).
    cbn [tok_type tok_value move]. split; [reflexivity|]. split.
    + unfold slice. cbn [pos Nat.add skipn]. rewrite Nat.sub_0_r. apply firstn_all.
    + apply next_at_end.
      * reflexivity.
      * reflexivity.
      * cbn [move pos source length]. lia.
      * cbn. lia.
Qed.

(** A name token that is none of the words read otherwise, with the end of
    the input behind it. *)
Lemma parsePrimary_name (fuel : nat) (self : Methods) (p0 : Parser)
      (name : jsstring) (tok : Token) (t : Tokenizer) :
  tok_type (currentToken p0) = NAME ->
  tok_value (currentToken p0) = name ->
  member name notNames = false ->
  next (tokenizer p0) = Ok (tok, t) ->
  parsePrimary (S fuel) self p0 = Ok (Name name, mkParser t tok).
Proof.
  intros Hty Hval Hname Hnext.
  assert (H0 : noOp p0) by (unfold noOp; rewrite Hty; discriminate).
  unfold member, notNames in Hname. cbn [existsb] in Hname.
  repeat match type of Hname with
         | (_ || _) = false => apply orb_false_elim in Hname; destruct Hname as [? Hname]
         end.
  assert (Hw : forall k, str_eqb name (js k) = false -> noWord k p0).
  { intros k Hk. unfold noWord, tokenIs. rewrite Hty, Hval, Hk. reflexivity. }
  unfold parsePrimary.
  eapply bind_eval; [apply eval_matchKeyword; apply Hw; assumption|]. cbv beta iota.
  eapply bind_eval; [apply eval_matchKeyword; apply Hw; assumption|]. cbv beta iota.
  repeat (eapply bind_eval; [apply eval_matchOp; exact H0|]; cbv beta iota).
  eapply bind_eval; [apply eval_matchType|]. rewrite Hty. cbv beta iota.
  change (TokenType_eqb NAME NAME) with true. cbv iota.
  eapply bind_eval; [apply eval_advance; exact Hnext|]. cbv beta zeta.
  rewrite Hval.
  repeat match goal with
         | G : str_eqb name ?k = false |- context [str_eqb name ?k] => rewrite G
         end.
  reflexivity.
Qed.

(** X27. A name is an expression: for a text that starts with a letter or
    an underscore, goes on with letters, digits and underscores, and is
    none of the words [lambda], [yield], [await], [not], [True], [False]
    and [None], [parseExpression] returns the [Name] node of this text. *)
Theorem parseExpression_name (fuel : nat) (x : cu) (rest : jsstring) :
  isNameStart x = true ->
  Forall (fun c => isNameChar c = true) rest ->
  member (x :: rest) notNames = false ->
  parseExpression (S fuel) (x :: rest) = Ok (Name (x :: rest)).
Proof.
  intros Hx Hrest Hname.
  destruct (next_name_source x rest Hx Hrest)
    as (tok & t & Hnext & Hty & Hval & tok' & t' & Hnext' & Hend).
  unfold member, notNames in Hname. cbn [existsb] in Hname.
  assert (Hawait : str_eqb (x :: rest) (js "await") = false).
  { destruct (str_eqb (x :: rest) (js "await")); [|reflexivity].
    rewrite !orb_true_r in Hname. discriminate Hname. }
  assert (Hnot : str_eqb (x :: rest) (js "not") = false).
  { destruct (str_eqb (x :: rest) (js "not")); [|reflexivity].
    rewrite !orb_true_r in Hname. discriminate Hname. }
  unfold parseExpression, runParser, newParser. rewrite Hnext.
  rewrite (parseExpr_atom fuel (methods (S fuel)) (mkParser t tok) (mkParser t' tok')
             (Name (x :: rest))).
  - reflexivity.
  - unfold noOp. cbn [currentToken]. rewrite Hty. discriminate.
  - unfold noWord, tokenIs. cbn [currentToken]. rewrite Hty, Hval, Hawait. reflexivity.
  - unfold noWord, tokenIs. cbn [currentToken]. rewrite Hty, Hval, Hnot. reflexivity.
  - exact Hend.
  - apply parsePrimary_name; assumption.
Qed.

Lemma parseExpression_name_witness :
  parseExpression 1 (js "_total2") = Ok (Name (js "_total2")).
Proof.
  apply (parseExpression_name 0 (ch "_") (js "total2")).
  - reflexivity.
  - repeat constructor.
  - reflexivity.
Defined.

End StringExtras.
